(** * FNOL claims agent: field extraction and routing

    A shallow embedding of [src/extraction/parser.py] and
    [src/routing/engine.py], with the properties of the extraction
    engine and of the routing rule cascade.

    Modelling conventions.
    - In the extractor and the routing engine a Python [str] is a list of
      8-bit characters ([list ascii]), with the ASCII behaviour of
      [str.strip], [str.lower], [str.upper] and of the [re] character
      classes.  On documents of ASCII characters this is what Python
      does; a character above code 127 is taken for a caseless symbol
      that is neither white space nor a word character, which Python does
      not always do.  The properties that depend on the difference are
      stated for ASCII documents ([Plain.ascii_only]).
    - The classifier is modelled a second time on code points
      ([Unicode]), with the white space of [str.isspace]; the case
      mappings and the classes beyond ASCII are read from a table that is
      a parameter.  On ASCII subjects the matcher of the 8-bit model
      does what the matcher on code points does, for every pattern of the
      program, and on ASCII values the two models of the classifier give
      the same verdict ([EmbeddingFacts]).
    - [Optional[T]] is [option T]; [None] is the no-value marker.
    - A Python [float] is an IEEE-754 binary64 value ([spec_float]).
    - Python exceptions are explicit: a computation that may raise returns
      a value of type [exc].
    - Regular expressions are abstract syntax trees run by a backtracking
      matcher with the priority order of Python's [re] module. *)

From Stdlib Require Import List Bool Arith Lia ZArith NArith.
From Stdlib Require Import Ascii String.
From Stdlib Require Import Floats.SpecFloat.
From Stdlib Require DecimalString DecimalNat.
Import ListNotations.

Set Implicit Arguments.

(** ** Characters and strings *)

Definition str := list ascii.

(** A string literal of the source. *)
Definition lit (s : string) : str := list_ascii_of_string s.

Definition code (c : ascii) : N := N_of_ascii c.

Definition in_range (lo hi : N) (c : ascii) : bool :=
  (N.leb lo (code c) && N.leb (code c) hi)%bool.

(** [str.isspace] on ASCII: TAB, LF, VT, FF, CR, FS, GS, RS, US, SPACE;
    on ASCII, [\s] of the [re] module is the same set.  The white space
    of Unicode beyond ASCII is in [Unicode.is_space]. *)
Definition is_space (c : ascii) : bool :=
  in_range 9 13 c || in_range 28 32 c.

Definition is_digit (c : ascii) : bool := in_range 48 57 c.
Definition is_upper (c : ascii) : bool := in_range 65 90 c.
Definition is_lower (c : ascii) : bool := in_range 97 122 c.

(** [\w] on ASCII: letters, digits and the underscore. *)
Definition is_word (c : ascii) : bool :=
  is_digit c || is_upper c || is_lower c || Ascii.eqb c "_"%char.

Definition lower_char (c : ascii) : ascii :=
  if is_upper c then ascii_of_N (code c + 32) else c.

Definition upper_char (c : ascii) : ascii :=
  if is_lower c then ascii_of_N (code c - 32) else c.

(** [s.lower()] and [s.upper()] on ASCII strings *)
Definition str_lower (s : str) : str := map lower_char s.
Definition str_upper (s : str) : str := map upper_char s.

Fixpoint lstrip (s : str) : str :=
  match s with
  | c :: s' => if is_space c then lstrip s' else s
  | [] => []
  end.

Definition rstrip (s : str) : str := rev (lstrip (rev s)).

(** [s.strip()] *)
Definition strip (s : str) : str := rstrip (lstrip s).

Fixpoint str_eqb (a b : str) : bool :=
  match a, b with
  | [], [] => true
  | x :: a', y :: b' => Ascii.eqb x y && str_eqb a' b'
  | _, _ => false
  end.

Fixpoint starts_with (p s : str) : bool :=
  match p, s with
  | [], _ => true
  | x :: p', y :: s' => Ascii.eqb x y && starts_with p' s'
  | _ :: _, [] => false
  end.

(** [sub in s] *)
Fixpoint contains (sub s : str) : bool :=
  starts_with sub s ||
  match s with
  | [] => false
  | _ :: s' => contains sub s'
  end.

(** [s.count(c)] for a one-character argument. *)
Definition count_char (c : ascii) (s : str) : nat :=
  List.length (filter (Ascii.eqb c) s).

(** [s[:n]] *)
Definition slice_to (n : nat) (s : str) : str := firstn n s.

(** Truth value of an optional string: [None] and [""] are false. *)
Definition truthy_str (o : option str) : bool :=
  match o with
  | Some (_ :: _) => true
  | _ => false
  end.

Definition newline : ascii := ascii_of_N 10.
Definition tab : ascii := ascii_of_N 9.

(** ** Regular expressions *)

Module Re.

(** Members of a bracketed character set. *)
Inductive item :=
| IChar (c : ascii)
| IRange (lo hi : ascii)
| ISpace
| IDigit.

Inductive regex :=
| Empty
| Lit (c : ascii)
| Set_ (negated : bool) (items : list item)
| Cat (r1 r2 : regex)
| Alt (r1 r2 : regex)
| Rep (lo : nat) (hi : option nat) (greedy : bool) (r : regex)
| Group (n : nat) (r : regex)
| Look (negated : bool) (r : regex)
| Bol
| Eol
| WordB.

(** A position in the subject: characters consumed so far, the character
    just before the position, and what remains. *)
Record pos := mkPos { p_off : nat; p_prev : option ascii; p_rest : str }.

Definition caps := list (nat * str).

Fixpoint cap_get (n : nat) (c : caps) : option str :=
  match c with
  | [] => None
  | (k, v) :: c' => if Nat.eqb k n then Some v else cap_get n c'
  end.

Definition item_has (c : ascii) (i : item) : bool :=
  match i with
  | IChar x => Ascii.eqb x c
  | IRange lo hi => in_range (code lo) (code hi) c
  | ISpace => is_space c
  | IDigit => is_digit c
  end.

Definition set_has (items : list item) (c : ascii) : bool :=
  existsb (item_has c) items.

(** One subject character against a literal or a set; [ic] is the
    IGNORECASE flag. *)
Definition lit_ok (ic : bool) (x c : ascii) : bool :=
  if ic then Ascii.eqb (lower_char x) (lower_char c) else Ascii.eqb x c.

Definition set_ok (ic : bool) (negated : bool) (items : list item) (c : ascii) : bool :=
  xorb negated
    (if ic then set_has items (lower_char c) || set_has items (upper_char c)
     else set_has items c).

Definition advance (p : pos) : option (ascii * pos) :=
  match p_rest p with
  | [] => None
  | c :: rest => Some (c, mkPos (S (p_off p)) (Some c) rest)
  end.

Definition word_before (p : pos) : bool :=
  match p_prev p with Some c => is_word c | None => false end.

Definition word_after (p : pos) : bool :=
  match p_rest p with c :: _ => is_word c | [] => false end.

(** [$] without MULTILINE: the end, or just before a final newline. *)
Definition at_eol (p : pos) : bool :=
  match p_rest p with
  | [] => true
  | c :: [] => Ascii.eqb c newline
  | _ => false
  end.

Definition at_bol (p : pos) : bool :=
  match p_prev p with None => true | Some _ => false end.

Definition result := option (pos * caps).

Definition orelse (a : result) (b : unit -> result) : result :=
  match a with Some x => Some x | None => b tt end.

Section Exec.

Variable ic : bool.

(** The repetition loop.  [step] runs the body once.  An optional
    iteration has to consume at least one character; the fuel is the
    number of mandatory iterations plus the length of the remaining
    subject plus one, so it never runs out. *)
Fixpoint rep_loop (step : pos -> caps -> (pos -> caps -> result) -> result)
    (fuel : nat) (lo : nat) (hi : option nat) (greedy : bool)
    (count : nat) (p : pos) (c : caps) (k : pos -> caps -> result) : result :=
  match fuel with
  | O => None
  | S fuel' =>
      let again (_ : unit) :=
        step p c (fun p' c' =>
          if (count <? lo) || (List.length (p_rest p') <? List.length (p_rest p))
          then rep_loop step fuel' lo hi greedy (S count) p' c' k
          else None) in
      if count <? lo then again tt
      else
        let full := match hi with Some h => h <=? count | None => false end in
        if full then k p c
        else if greedy then orelse (again tt) (fun _ => k p c)
        else orelse (k p c) again
  end.

Fixpoint exec (r : regex) (p : pos) (c : caps) (k : pos -> caps -> result) : result :=
  match r with
  | Empty => k p c
  | Lit x =>
      match advance p with
      | Some (y, p') => if lit_ok ic x y then k p' c else None
      | None => None
      end
  | Set_ negated items =>
      match advance p with
      | Some (y, p') => if set_ok ic negated items y then k p' c else None
      | None => None
      end
  | Cat r1 r2 => exec r1 p c (fun p' c' => exec r2 p' c' k)
  | Alt r1 r2 => orelse (exec r1 p c k) (fun _ => exec r2 p c k)
  | Rep lo hi greedy r' =>
      rep_loop (exec r') (S (lo + List.length (p_rest p))) lo hi greedy 0 p c k
  | Group n r' =>
      exec r' p c (fun p' c' =>
        k p' ((n, firstn (p_off p' - p_off p) (p_rest p)) :: c'))
  | Look negated r' =>
      match exec r' p c (fun p' c' => Some (p', c')) with
      | Some (_, c') => if negated then None else k p c'
      | None => if negated then k p c else None
      end
  | Bol => if at_bol p then k p c else None
  | Eol => if at_eol p then k p c else None
  | WordB => if xorb (word_before p) (word_after p) then k p c else None
  end.

(** A match object: span and groups. *)
Record mobj := mkM { m_start : nat; m_end : nat; m_whole : str; m_caps : caps }.

Definition match_here (r : regex) (p : pos) : option mobj :=
  match exec r p [] (fun p' c' => Some (p', c')) with
  | Some (p', c') =>
      Some (mkM (p_off p) (p_off p') (firstn (p_off p' - p_off p) (p_rest p)) c')
  | None => None
  end.

Fixpoint search_from (r : regex) (off : nat) (prev : option ascii) (rest : str)
  : option mobj :=
  match match_here r (mkPos off prev rest) with
  | Some m => Some m
  | None =>
      match rest with
      | [] => None
      | a :: rest' => search_from r (S off) (Some a) rest'
      end
  end.

End Exec.

(** [re.search(pattern, s, flags)] and [re.match(pattern, s)]. *)
Definition search (ic : bool) (r : regex) (s : str) : option mobj :=
  search_from ic r 0 None s.

Definition match_ (ic : bool) (r : regex) (s : str) : option mobj :=
  match_here ic r (mkPos 0 None s).

(** [m.group(n)] for a group that took part in the match. *)
Definition group (n : nat) (m : mobj) : str :=
  match n with
  | O => m_whole m
  | _ => match cap_get n (m_caps m) with Some v => v | None => [] end
  end.

(** Pattern builders. *)
Fixpoint cat_all (rs : list regex) : regex :=
  match rs with
  | [] => Empty
  | [r] => r
  | r :: rs' => Cat r (cat_all rs')
  end.

Fixpoint alt_all (rs : list regex) : regex :=
  match rs with
  | [] => Set_ false []
  | [r] => r
  | r :: rs' => Alt r (alt_all rs')
  end.

Definition word (s : string) : regex := cat_all (map Lit (lit s)).

Definition star r := Rep 0 None true r.
Definition plus r := Rep 1 None true r.
Definition opt r := Rep 0 (Some 1) true r.
Definition star_lazy r := Rep 0 None false r.
Definition plus_lazy r := Rep 1 None false r.
Definition times n r := Rep n (Some n) true r.
Definition between lo hi r := Rep lo (Some hi) true r.
Definition at_least lo r := Rep lo None true r.

Definition space := Set_ false [ISpace].           (* \s *)
Definition nonspace := Set_ true [ISpace].         (* \S *)
Definition digit := Set_ false [IDigit].           (* \d *)
Definition not_nl := Set_ true [IChar newline].    (* [^\n] *)
Definition colon_space := Set_ false [IChar ":"%char; ISpace].  (* [:\s] *)

End Re.

(** ** Exceptions *)

Inductive exn := ValueError.

Inductive exc (A : Type) :=
| Ok (a : A)
| Raise (e : exn).
Arguments Ok {A} a.
Arguments Raise {A} e.

Definition bind {A B} (m : exc A) (f : A -> exc B) : exc B :=
  match m with
  | Ok a => f a
  | Raise e => Raise e
  end.

Notation "x <- m ;; f" := (bind m (fun x => f))
  (at level 61, m at next level, right associativity).

(** [try: body except ValueError: handler] *)
Definition try_except {A} (body : exc A) (handler : unit -> exc A) : exc A :=
  match body with
  | Ok a => Ok a
  | Raise ValueError => handler tt
  end.

(** ** Numbers *)

Definition float := spec_float.

Definition prec : Z := 53.
Definition emax : Z := 1024.

(** Truth value of a float: false exactly for the two zeros. *)
Definition truthy_float (x : float) : bool :=
  match x with
  | S754_zero _ => false
  | _ => true
  end.

(** [a or b] on optional floats. *)
Definition or_float (a b : option float) : option float :=
  match a with
  | Some x => if truthy_float x then a else b
  | None => b
  end.

(** [a < b] *)
Definition float_lt (a b : float) : bool := SFltb a b.

Definition digit_val (c : ascii) : Z := Z.of_N (code c) - 48.

Definition digits_val (s : str) : Z :=
  fold_left (fun acc c => 10 * acc + digit_val c)%Z s 0%Z.

(** The binary64 value nearest to [n / 10^k], ties to even: the quotient
    is taken with more than 64 significant bits and a sticky bit, then
    rounded once. *)
Definition float_of_decimal (n : Z) (k : nat) : float :=
  let d := (10 ^ Z.of_nat k)%Z in
  let s := (Z.log2 d + 70)%Z in
  let q := (Z.shiftl n s / d)%Z in
  let sticky := if (Z.shiftl n s mod d =? 0)%Z then 0%Z else 1%Z in
  binary_normalize prec emax (2 * q + sticky) (- s - 1) false.

Fixpoint split_at_dot (s : str) : str * option str :=
  match s with
  | [] => ([], None)
  | c :: s' =>
      if Ascii.eqb c "."%char then ([], Some s')
      else let '(a, b) := split_at_dot s' in (c :: a, b)
  end.

(** [float(s)] for a string of digits and periods, the only strings the
    parser hands to [float]: digits with an optional fraction, or a
    fraction with a leading period; anything else is a ValueError. *)
Definition py_float (s : str) : exc float :=
  let '(ip, rest) := split_at_dot s in
  let fp := match rest with Some f => f | None => [] end in
  if forallb is_digit ip && forallb is_digit fp
     && negb (Nat.eqb (List.length ip + List.length fp) 0)
  then Ok (float_of_decimal (digits_val (ip ++ fp)) (List.length fp))
  else Raise ValueError.

(** [int(s)] for an optionally padded run of digits, the only strings the
    parser hands to [int]; anything else is a ValueError. *)
Definition py_int (s : str) : exc Z :=
  let t := strip s in
  if forallb is_digit t && negb (Nat.eqb (List.length t) 0)
  then Ok (digits_val t)
  else Raise ValueError.

(** ** Dates *)

Record date := mkDate { d_year : Z; d_month : Z; d_day : Z }.

Definition is_leap (y : Z) : bool :=
  ((y mod 4 =? 0) && (negb (y mod 100 =? 0) || (y mod 400 =? 0)))%Z.

Definition days_in_month (y m : Z) : Z :=
  if (m =? 2)%Z then (if is_leap y then 29 else 28)%Z
  else if ((m =? 4) || (m =? 6) || (m =? 9) || (m =? 11))%Z then 30%Z
  else 31%Z.

(** [datetime.date(y, m, d)] *)
Definition make_date (y m d : Z) : exc date :=
  if ((1 <=? y) && (y <=? 9999) && (1 <=? m) && (m <=? 12)
      && (1 <=? d) && (d <=? days_in_month y m))%Z
  then Ok (mkDate y m d)
  else Raise ValueError.

Module Strptime.
Import Re.

(** The directives of the four formats, as [_strptime] compiles them;
    groups 1, 2 and 3 hold month, day and year. *)
Definition dir_m : regex :=
  Group 1 (alt_all
    [Cat (Lit "1") (Set_ false [IRange "0" "2"]);
     Cat (Lit "0") (Set_ false [IRange "1" "9"]);
     Set_ false [IRange "1" "9"]])%char.

Definition dir_d : regex :=
  Group 2 (alt_all
    [Cat (Lit "3") (Set_ false [IRange "0" "1"]);
     Cat (Set_ false [IRange "1" "2"]) digit;
     Cat (Lit "0") (Set_ false [IRange "1" "9"]);
     Set_ false [IRange "1" "9"];
     Cat (Lit " ") (Set_ false [IRange "1" "9"])])%char.

Definition dir_Y : regex := Group 3 (times 4 digit).

Inductive format := MDY_slash | YMD_dash | DMY_slash | MDY_dash.

Definition format_regex (f : format) : regex :=
  match f with
  | MDY_slash => cat_all [dir_m; Lit "/"; dir_d; Lit "/"; dir_Y]
  | YMD_dash => cat_all [dir_Y; Lit "-"; dir_m; Lit "-"; dir_d]
  | DMY_slash => cat_all [dir_d; Lit "/"; dir_m; Lit "/"; dir_Y]
  | MDY_dash => cat_all [dir_m; Lit "-"; dir_d; Lit "-"; dir_Y]
  end%char.

(** [datetime.strptime(s, fmt).date()]: the format has to match the whole
    string, and the fields have to form a calendar date. *)
Definition strptime (s : str) (f : format) : exc date :=
  match match_ true (format_regex f) s with
  | None => Raise ValueError
  | Some m =>
      if negb (Nat.eqb (m_end m) (List.length s)) then Raise ValueError
      else
        y <- py_int (group 3 m) ;;
        mo <- py_int (group 1 m) ;;
        d <- py_int (group 2 m) ;;
        make_date y mo d
  end.

End Strptime.

Fixpoint parse_date_loop (s : str) (fmts : list Strptime.format) : exc (option date) :=
  match fmts with
  | [] => Ok None
  | fmt :: rest =>
      try_except
        (d <- Strptime.strptime (slice_to 10 s) fmt ;; Ok (Some d))
        (fun _ => parse_date_loop s rest)
  end.

Definition _parse_date (s : option str) : exc (option date) :=
  match s with
  | None => Ok None
  | Some s =>
      if negb (truthy_str (Some s)) || negb (truthy_str (Some (strip s)))
      then Ok None
      else
        let s := strip s in
        parse_date_loop s
          [Strptime.MDY_slash; Strptime.YMD_dash; Strptime.DMY_slash; Strptime.MDY_dash]
  end.

(** [re.sub] of the set [[^\d.]] by the empty string: every character
    that is neither a digit nor a period is deleted. *)
Definition sub_non_numeric (s : str) : str :=
  filter (fun c => negb (Re.set_ok false true [Re.IDigit; Re.IChar "."%char] c)) s.

Definition _parse_float (s : option str) : exc (option float) :=
  match s with
  | None => Ok None
  | Some s =>
      let s := sub_non_numeric s in
      if negb (truthy_str (Some s)) then Ok None
      else
        try_except
          (x <- py_float s ;; Ok (Some x))
          (fun _ => Ok None)
  end.

(** [\b(19|20)\d{2}\b] *)
Definition YEAR_TOKEN : Re.regex :=
  Re.cat_all [Re.WordB; Re.Group 1 (Re.Alt (Re.word "19") (Re.word "20"));
              Re.times 2 Re.digit; Re.WordB].

Definition _parse_year (s : option str) : exc (option Z) :=
  match s with
  | None => Ok None
  | Some s =>
      if negb (truthy_str (Some s)) then Ok None
      else
        match Re.search false YEAR_TOKEN s with
        | Some m => y <- py_int (Re.group 0 m) ;; Ok (Some y)
        | None => Ok None
        end
  end.

(** ** Data model ([src/schemas.py]) *)

Module PolicyInfo.
Record t := mk {
  policy_number : option str;
  policyholder_name : option str;
  effective_date_start : option date;
  effective_date_end : option date }.
End PolicyInfo.

Module IncidentInfo.
Record t := mk {
  date : option date;
  time : option str;
  location_street : option str;
  location_city_state_zip : option str;
  location_country : option str;
  description : option str }.
End IncidentInfo.

Module InvolvedParty.
Record t := mk {
  name : option str;
  address : option str;
  phone : option str;
  email : option str;
  relation_to_insured : option str }.
End InvolvedParty.

Module AssetDetails.
Record t := mk {
  asset_type : option str;
  asset_id : option str;
  make : option str;
  model : option str;
  year : option Z;
  estimated_damage : option float;
  initial_estimate : option float }.
End AssetDetails.

Module ExtractedFields.
Record t := mk {
  policy : PolicyInfo.t;
  incident : IncidentInfo.t;
  claimant : option InvolvedParty.t;
  third_parties : list InvolvedParty.t;
  contact_details : option InvolvedParty.t;
  asset : option AssetDetails.t;
  claim_type : option str;
  attachments : list str;
  initial_estimate : option float }.
End ExtractedFields.

Definition MANDATORY_FIELDS : list str :=
  map lit
    ["policy_number"; "policyholder_name"; "incident_date"; "incident_location";
     "incident_description"; "claim_type";
     "initial_estimate_or_estimated_damage"]%string.

(** ** Label and placeholder classifier ([src/extraction/parser.py]) *)

Module Patterns.
Import Re.
Local Open Scope char_scope.

Definition sp := space.
Definition comma_opt := opt (Lit ",").

(** [_LABEL_PATTERNS], compiled with IGNORECASE. *)
Definition _LABEL_PATTERNS : regex :=
  cat_all
    [Bol;
     Group 1 (alt_all
       [word "OTHER";
        word "STREET:";
        cat_all [word "CITY"; comma_opt; star sp; word "STATE"; comma_opt;
                 star sp; word "ZIP"; opt (Lit ":")];
        cat_all [word "NAME"; plus sp; word "OF"; plus sp; word "INSURED"];
        cat_all [word "INSURED'S"; plus sp; word "MAILING"];
        cat_all [word "PRIMARY"; plus sp; word "PHONE"];
        cat_all [word "SECONDARY"; plus sp; word "E-MAIL"];
        cat_all [word "PRIMARY"; plus sp; word "E-MAIL"];
        cat_all [word "DRIVER'S"; plus sp; word "NAME"];
        cat_all [word "OWNER'S"; plus sp; word "NAME"];
        cat_all [word "CHECK"; plus sp; word "IF"; plus sp; word "SAME"];
        cat_all [word "PHONE"; star sp; Lit "#"];
        word "CELL";
        word "HOME";
        word "BUS";
        cat_all [word "LOSS"; star sp; Eol];
        cat_all [word "ACORD"; plus sp; word "101"];
        cat_all [word "ADDITIONAL"; plus sp; word "REMARKS"];
        cat_all [word "INSURED"; plus sp; word "VEHICLE"];
        word "SECONDARY";
        word "PRIMARY";
        word "NUMBER";
        word "VEHICLE"]);
     Eol].

(** [^[\s.:\-]+$] *)
Definition ONLY_PUNCTUATION : regex :=
  cat_all [Bol; plus (Set_ false [ISpace; IChar "."; IChar ":"; IChar "-"]); Eol].

Definition alnum_dash := Set_ false [IRange "A" "Z"; IRange "a" "z"; IRange "0" "9"; IChar "-"].

(** [POLICY\s*NUMBER[:\s]*([A-Za-z0-9\-]+)] *)
Definition POLICY_NUMBER : regex :=
  cat_all [word "POLICY"; star sp; word "NUMBER"; star colon_space;
           Group 1 (plus alnum_dash)].

(** [NAIC\s*CODE[:\s]*\S+\s*CARRIER[:\s]*\S+\s*POLICY\s*NUMBER[:\s]*([^\s\n]+)] *)
Definition NAIC_POLICY_NUMBER : regex :=
  cat_all [word "NAIC"; star sp; word "CODE"; star colon_space; plus nonspace;
           star sp; word "CARRIER"; star colon_space; plus nonspace; star sp;
           word "POLICY"; star sp; word "NUMBER"; star colon_space;
           Group 1 (plus (Set_ true [ISpace; IChar newline]))].

(** [(?:policy\s*#?|policy\s*number)\s*[:\s]*([A-Za-z0-9\-]+)] *)
Definition GENERIC_POLICY : regex :=
  cat_all [Alt (cat_all [word "policy"; star sp; opt (Lit "#")])
               (cat_all [word "policy"; star sp; word "number"]);
           star sp; star colon_space; Group 1 (plus alnum_dash)].

(** [NAME\s+OF\s+INSURED\s*\([^)]*\)\s*([^\n]+)] *)
Definition NAME_OF_INSURED : regex :=
  cat_all [word "NAME"; plus sp; word "OF"; plus sp; word "INSURED"; star sp;
           Lit "("; star (Set_ true [IChar ")"]); Lit ")"; star sp;
           Group 1 (plus not_nl)].

(** [(?:insured|policyholder)\s*(?:name)?\s*[:\s]*([^\n]+)] *)
Definition GENERIC_INSURED : regex :=
  cat_all [Alt (word "insured") (word "policyholder"); star sp;
           opt (word "name"); star sp; star colon_space;
           Group 1 (plus not_nl)].

(** [DATE\s+OF\s+LOSS\s+AND\s+TIME\s*([^\n]+)] *)
Definition DATE_OF_LOSS_AND_TIME : regex :=
  cat_all [word "DATE"; plus sp; word "OF"; plus sp; word "LOSS"; plus sp;
           word "AND"; plus sp; word "TIME"; star sp; Group 1 (plus not_nl)].

(** [(\d{1,2}/\d{1,2}/\d{2,4})] *)
Definition DATE_TOKEN : regex :=
  Group 1 (cat_all [between 1 2 digit; Lit "/"; between 1 2 digit; Lit "/";
                    between 2 4 digit]).

(** [(\d{1,2}\s*:\s*\d{2}\s*(?:AM|PM)?|\d{1,2}\s*AM|\d{1,2}\s*PM)] *)
Definition TIME_TOKEN : regex :=
  Group 1 (alt_all
    [cat_all [between 1 2 digit; star sp; Lit ":"; star sp; times 2 digit;
              star sp; opt (Alt (word "AM") (word "PM"))];
     cat_all [between 1 2 digit; star sp; word "AM"];
     cat_all [between 1 2 digit; star sp; word "PM"]]).

(** [(?:loss\s+date|date\s+of\s+loss|incident\s+date)\s*[:\s]*(\d{1,2}[/\-]\d{1,2}[/\-]\d{2,4})] *)
Definition GENERIC_LOSS_DATE : regex :=
  let sep := Set_ false [IChar "/"; IChar "-"] in
  cat_all [alt_all [cat_all [word "loss"; plus sp; word "date"];
                    cat_all [word "date"; plus sp; word "of"; plus sp; word "loss"];
                    cat_all [word "incident"; plus sp; word "date"]];
           star sp; star colon_space;
           Group 1 (cat_all [between 1 2 digit; sep; between 1 2 digit; sep;
                             between 2 4 digit])].

(** The street pattern of parser.py line 160: LOCATION OF LOSS, an
    optional STREET caption, a lazy capture, then CITY or the end. *)
Definition LOCATION_OF_LOSS : regex :=
  cat_all [word "LOCATION"; plus sp; word "OF"; plus sp; word "LOSS"; star sp;
           opt (Cat (word "STREET") (star colon_space));
           Group 1 (plus_lazy not_nl);
           Alt (Cat (star sp) (word "CITY")) Eol].

(** [CITY,?\s*STATE,?\s*ZIP[:\s]*([^\n]+)] *)
Definition CITY_STATE_ZIP : regex :=
  cat_all [word "CITY"; comma_opt; star sp; word "STATE"; comma_opt; star sp;
           word "ZIP"; star colon_space; Group 1 (plus not_nl)].

(** [COUNTRY[:\s]*([^\n]+)] *)
Definition COUNTRY : regex :=
  cat_all [word "COUNTRY"; star colon_space; Group 1 (plus not_nl)].

(** The description pattern of parser.py line 177: the rest of the line,
    and every following line that does not start with POLICY, INSURED,
    LOCATION or DATE. *)
Definition DESCRIPTION_OF_ACCIDENT : regex :=
  cat_all [word "DESCRIPTION"; plus sp; word "OF"; plus sp; word "ACCIDENT";
           star sp;
           Group 1 (Cat (plus not_nl)
             (star (cat_all
                [Lit newline;
                 Look true (alt_all [word "POLICY"; word "INSURED";
                                     word "LOCATION"; word "DATE"]);
                 plus not_nl])))].

(** [(?:description\s+of\s+(?:loss|accident)|accident\s+description)\s*[:\s]*([^\n]+(?:\n[^\n]+)*?)(?=\n[A-Z\s]{3,}:|\n\n|$)] *)
Definition GENERIC_DESCRIPTION_OF : regex :=
  cat_all [Alt (cat_all [word "description"; plus sp; word "of"; plus sp;
                         Alt (word "loss") (word "accident")])
               (cat_all [word "accident"; plus sp; word "description"]);
           star sp; star colon_space;
           Group 1 (Cat (plus not_nl)
                        (star_lazy (Cat (Lit newline) (plus not_nl))));
           Look false (alt_all
             [cat_all [Lit newline;
                       at_least 3 (Set_ false [IRange "A" "Z"; ISpace]);
                       Lit ":"];
              Cat (Lit newline) (Lit newline);
              Eol])].

(** The description pattern of parser.py line 189: the rest of the line
    and every following non-empty line. *)
Definition GENERIC_DESCRIPTION : regex :=
  cat_all [word "Description";
           opt (cat_all [plus sp; word "of"; plus sp;
                         Alt (word "loss") (word "accident")]);
           star sp; star colon_space;
           Group 1 (Cat (plus not_nl) (star (Cat (Lit newline) (plus not_nl))))].

(** [Location(?:\s+of\s+loss)?\s*[:\s]*([^\n]+)] *)
Definition GENERIC_LOCATION : regex :=
  cat_all [word "Location";
           opt (cat_all [plus sp; word "of"; plus sp; word "loss"]);
           star sp; star colon_space; Group 1 (plus not_nl)].

(** [DRIVER'S\s+NAME\s+AND\s+ADDRESS\s*([^\n]+)] *)
Definition DRIVERS_NAME : regex :=
  cat_all [word "DRIVER'S"; plus sp; word "NAME"; plus sp; word "AND"; plus sp;
           word "ADDRESS"; star sp; Group 1 (plus not_nl)].

(** [OWNER'S\s+NAME\s+AND\s+ADDRESS\s*([^\n]+)] *)
Definition OWNERS_NAME : regex :=
  cat_all [word "OWNER'S"; plus sp; word "NAME"; plus sp; word "AND"; plus sp;
           word "ADDRESS"; star sp; Group 1 (plus not_nl)].

(** [PRIMARY\s+PHONE\s*#\s*[:\s]*([^\n]+)] *)
Definition PRIMARY_PHONE : regex :=
  cat_all [word "PRIMARY"; plus sp; word "PHONE"; star sp; Lit "#"; star sp;
           star colon_space; Group 1 (plus not_nl)].

(** [PRIMARY\s+E-MAIL\s*[:\s]*([^\s\n@]+@[^\s\n]+)] *)
Definition PRIMARY_EMAIL : regex :=
  cat_all [word "PRIMARY"; plus sp; word "E-MAIL"; star sp; star colon_space;
           Group 1 (cat_all [plus (Set_ true [ISpace; IChar newline; IChar "@"]);
                             Lit "@";
                             plus (Set_ true [ISpace; IChar newline])])].

(** [V\.?I\.?N\.?[:\s]*([A-HJ-NPR-Z0-9]{17})] *)
Definition VIN : regex :=
  cat_all [Lit "V"; opt (Lit "."); Lit "I"; opt (Lit "."); Lit "N"; opt (Lit ".");
           star colon_space;
           Group 1 (times 17 (Set_ false [IRange "A" "H"; IRange "J" "N"; IChar "P";
                                          IRange "R" "Z"; IRange "0" "9"]))].

Definition not_nl_tab := Set_ true [IChar newline; IChar tab].

(** [MAKE[:\s]*([^\n\t]+?)(?:\s+YEAR|\s+MODEL|$)] *)
Definition MAKE : regex :=
  cat_all [word "MAKE"; star colon_space; Group 1 (plus_lazy not_nl_tab);
           alt_all [Cat (plus sp) (word "YEAR"); Cat (plus sp) (word "MODEL"); Eol]].

(** [MODEL[:\s]*([^\n\t]+?)(?:\s+BODY|\s+TYPE|$)] *)
Definition MODEL : regex :=
  cat_all [word "MODEL"; star colon_space; Group 1 (plus_lazy not_nl_tab);
           alt_all [Cat (plus sp) (word "BODY"); Cat (plus sp) (word "TYPE"); Eol]].

(** [YEAR[:\s]*(\d{4})] *)
Definition YEAR : regex :=
  cat_all [word "YEAR"; star colon_space; Group 1 (times 4 digit)].

(** [ESTIMATE\s+AMOUNT[:\s]*([^\n]+)] *)
Definition ESTIMATE_AMOUNT : regex :=
  cat_all [word "ESTIMATE"; plus sp; word "AMOUNT"; star colon_space;
           Group 1 (plus not_nl)].

(** [(?:Estimate|initial\s+estimate)\s*[:\s]*([^\n]+)] *)
Definition GENERIC_ESTIMATE : regex :=
  cat_all [Alt (word "Estimate") (cat_all [word "initial"; plus sp; word "estimate"]);
           star sp; star colon_space; Group 1 (plus not_nl)].

(** [\b(fraud|inconsistent|staged)\b], compiled with IGNORECASE. *)
Definition INVESTIGATION_KEYWORDS : regex :=
  cat_all [WordB;
           Group 1 (alt_all [word "fraud"; word "inconsistent"; word "staged"]);
           WordB].

End Patterns.

Definition is_some {A} (o : option A) : bool :=
  match o with Some _ => true | None => false end.

(** [s in (a, b, ...)] *)
Definition str_in (s : str) (l : list str) : bool := existsb (str_eqb s) l.

Definition _LABEL_SUBSTRINGS : list str :=
  map lit
    ["same as owner"; "same as insured"; "mailing address"; "additional remarks";
     "may be attached"; "if more space"; "check if same"; "phone #";
     "e-mail address"; "if not at specific"; "street address";
     "(first, middle, last)"; "first, middle, last"]%string.

(** Returns [true] when the value looks like a form label or placeholder,
    not real data. *)
Definition _is_form_label_or_placeholder (value : option str)
    (max_reasonable_len : nat) : bool :=
  match value with
  | None => true
  | Some value =>
      if negb (truthy_str (Some value)) || negb (truthy_str (Some (strip value)))
      then true
      else
        let s := strip value in
        if str_in s [lit ":"; lit ""]
           || is_some (Re.match_ false Patterns.ONLY_PUNCTUATION s)
        then true
        else if (max_reasonable_len <? List.length s)
                && contains [newline] s && (2 <? count_char newline s)
        then true
        else if is_some (Re.match_ true Patterns._LABEL_PATTERNS s) then true
        else
          let lower := str_lower s in
          if existsb (fun sub => contains sub lower) _LABEL_SUBSTRINGS then true
          else if str_in lower
                    (map lit ["number"; "name"; "date"; "address"; "other"]%string)
          then true
          else if str_eqb (str_upper s) (lit "OTHER") || str_eqb (str_upper s) (lit "Y")
                  || str_eqb (str_upper s) (lit "N")
          then true
          else false
  end.

(** The default bound of [_is_form_label_or_placeholder]. *)
Definition default_max_len : nat := 200.

(** ** Field extractor ([_extract_from_raw_text]) *)

Module Extract.
Import Re Patterns.

(** [m.group(1).strip()] *)
Definition capture (m : mobj) : str := strip (group 1 m).

Definition accepted (val : str) (max_len : nat) : bool :=
  negb (_is_form_label_or_placeholder (Some val) max_len).

(** Lines 113-121: the loop over the two form patterns.  Each pattern
    that matches with an accepted value assigns the policy number. *)
Definition policy_number_loop (text : str) (patterns : list regex)
    (policy_number : option str) : option str :=
  fold_left
    (fun pn pattern =>
       match search true pattern text with
       | Some m =>
           let val := capture m in
           if accepted val 50 then Some val else pn
       | None => pn
       end)
    patterns policy_number.

(** Lines 123-128. *)
Definition policy_number_generic (lower : str) (policy_number : option str)
  : option str :=
  if negb (truthy_str policy_number) then
    match search false GENERIC_POLICY lower with
    | Some m =>
        let val := capture m in
        if accepted val 50 then Some val else policy_number
    | None => policy_number
    end
  else policy_number.

Definition extract_policy_number (text lower : str) : option str :=
  policy_number_generic lower
    (policy_number_loop text [POLICY_NUMBER; NAIC_POLICY_NUMBER] None).

(** Lines 131-141. *)
Definition extract_policyholder_name (text lower : str) : option str :=
  let name :=
    match search true NAME_OF_INSURED text with
    | Some m =>
        let val := slice_to 200 (capture m) in
        if accepted val default_max_len then Some val else None
    | None => None
    end in
  if negb (truthy_str name) then
    match search false GENERIC_INSURED lower with
    | Some m =>
        let val := slice_to 200 (capture m) in
        if accepted val default_max_len then Some val else name
    | None => name
    end
  else name.

(** Lines 144-157: incident date and time. *)
Definition extract_date_time (text lower : str) : exc (option date * option str) :=
  dt <-
    match search true DATE_OF_LOSS_AND_TIME text with
    | Some m =>
        let part := group 1 m in
        d <- match search false DATE_TOKEN part with
             | Some d => _parse_date (Some (group 1 d))
             | None => Ok None
             end ;;
        let t := match search true TIME_TOKEN part with
                 | Some t => Some (strip (group 1 t))
                 | None => None
                 end in
        Ok (d, t)
    | None => Ok (None, None)
    end ;;
  let '(d, t) := dt in
  match d with
  | Some _ => Ok (d, t)
  | None =>
      match search false GENERIC_LOSS_DATE lower with
      | Some m => d' <- _parse_date (Some (group 1 m)) ;; Ok (d', t)
      | None => Ok (d, t)
      end
  end.

(** Lines 160-174: street, city/state/zip and country. *)
Definition extract_location_street (text : str) : option str :=
  match search true LOCATION_OF_LOSS text with
  | Some m =>
      let val := slice_to 300 (capture m) in
      if accepted val default_max_len then Some val else None
  | None => None
  end.

Definition extract_city_state_zip (text : str) : option str :=
  match search true CITY_STATE_ZIP text with
  | Some m =>
      let val := capture m in
      if accepted val 100 then Some val else None
  | None => None
  end.

Definition extract_country (text : str) : option str :=
  match search true COUNTRY text with
  | Some m =>
      let val := capture m in
      if accepted val 80 then Some val else None
  | None => None
  end.

(** One stage of the description cascade: the capture is stripped, cut to
    2000 characters and stored when the classifier accepts it. *)
Definition description_stage (ic : bool) (pattern : regex) (subject : str)
    (description : option str) : option str :=
  match search ic pattern subject with
  | Some m =>
      let val := slice_to 2000 (capture m) in
      if accepted val 2000 then Some val else description
  | None => description
  end.

(** Lines 177-193. *)
Definition extract_description (text lower : str) : option str :=
  let d := description_stage true DESCRIPTION_OF_ACCIDENT text None in
  let d := if negb (truthy_str d)
           then description_stage false GENERIC_DESCRIPTION_OF lower d else d in
  let d := if negb (truthy_str d)
           then description_stage true GENERIC_DESCRIPTION text d else d in
  d.

(** Lines 196-201: the generic location fallback. *)
Definition location_fallback (text : str) (street csz : option str) : option str :=
  if negb (truthy_str street || truthy_str csz) then
    match search true GENERIC_LOCATION text with
    | Some m =>
        let val := slice_to 300 (capture m) in
        if accepted val default_max_len then Some val else street
    | None => street
    end
  else street.

Definition party_named (n : str) : InvolvedParty.t :=
  InvolvedParty.mk (Some n) None None None None.

(** Lines 204-216: driver, else owner, else the policyholder. *)
Definition extract_claimant (text : str) (policyholder_name : option str)
  : option InvolvedParty.t :=
  let claimant :=
    match search true DRIVERS_NAME text with
    | Some m =>
        let val := capture m in
        if accepted val default_max_len then Some (party_named val) else None
    | None => None
    end in
  let claimant :=
    match claimant with
    | Some _ => claimant
    | None =>
        match search true OWNERS_NAME text with
        | Some m =>
            let val := capture m in
            if accepted val default_max_len then Some (party_named val) else None
        | None => None
        end
    end in
  match claimant with
  | Some _ => claimant
  | None =>
      match policyholder_name with
      | Some (c :: n) => Some (party_named (c :: n))
      | _ => None
      end
  end.

Definition set_phone (v : str) (p : InvolvedParty.t) : InvolvedParty.t :=
  InvolvedParty.mk (InvolvedParty.name p) (InvolvedParty.address p) (Some v)
    (InvolvedParty.email p) (InvolvedParty.relation_to_insured p).

Definition set_email (v : str) (p : InvolvedParty.t) : InvolvedParty.t :=
  InvolvedParty.mk (InvolvedParty.name p) (InvolvedParty.address p)
    (InvolvedParty.phone p) (Some v) (InvolvedParty.relation_to_insured p).

(** Lines 219-226: phone and e-mail of an established claimant. *)
Definition extract_contact (text : str) (claimant : option InvolvedParty.t)
  : option InvolvedParty.t :=
  let claimant :=
    match search true PRIMARY_PHONE text, claimant with
    | Some m, Some p =>
        let val := slice_to 50 (capture m) in
        if accepted val 30 then Some (set_phone val p) else claimant
    | _, _ => claimant
    end in
  match search true PRIMARY_EMAIL text, claimant with
  | Some m, Some p => Some (set_email (capture m) p)
  | _, _ => claimant
  end.

(** The estimate line: the form caption first, the generic one if the
    form caption is not found (lines 233-235). *)
Definition search_estimate (text : str) : option mobj :=
  match search true ESTIMATE_AMOUNT text with
  | Some m => Some m
  | None => search true GENERIC_ESTIMATE text
  end.

(** [make_val] and [model_val] of lines 237-242: an empty capture is
    false in the guard and stays as it is. *)
Definition filtered_capture (m : option mobj) : option str :=
  match m with
  | Some m =>
      let val := capture m in
      if truthy_str (Some val) && _is_form_label_or_placeholder (Some val) 50
      then None else Some val
  | None => None
  end.

(** Lines 229-251. *)
Definition extract_asset (text : str) : exc (option AssetDetails.t) :=
  let vin := search true VIN text in
  let make := search true MAKE text in
  let model := search true MODEL text in
  let year := search true YEAR text in
  let est := search_estimate text in
  if is_some vin || is_some make || is_some model || is_some year || is_some est
  then
    let make_val := filtered_capture make in
    let model_val := filtered_capture model in
    y <- match year with
         | Some m => v <- py_int (group 1 m) ;; Ok (Some v)
         | None => Ok None
         end ;;
    ed <- match est with
          | Some m => _parse_float (Some (group 1 m))
          | None => Ok None
          end ;;
    ie <- match est with
          | Some m => _parse_float (Some (group 1 m))
          | None => Ok None
          end ;;
    Ok (Some (AssetDetails.mk (Some (lit "vehicle"))
                (option_map capture vin) make_val model_val y ed ie))
  else Ok None.

(** Lines 252-255: the asset's two amounts are brought in line, and the
    local [initial_estimate] is taken from them. *)
Definition sync_estimates (a : AssetDetails.t) : AssetDetails.t :=
  match AssetDetails.initial_estimate a, AssetDetails.estimated_damage a with
  | None, Some d =>
      AssetDetails.mk (AssetDetails.asset_type a) (AssetDetails.asset_id a)
        (AssetDetails.make a) (AssetDetails.model a) (AssetDetails.year a)
        (AssetDetails.estimated_damage a) (Some d)
  | _, _ => a
  end.

(** Lines 258-264. *)
Definition infer_claim_type (description : option str) (lower full : str) : str :=
  let desc_for_type :=
    str_lower (match description with
               | Some (c :: d) => c :: d
               | _ => []
               end) in
  if truthy_str (Some desc_for_type)
     && (contains (lit "injury") desc_for_type
         || contains (lit "injured") desc_for_type)
  then lit "injury"
  else if contains (lit "vehicle") lower || contains (lit "automobile") lower
          || contains (lit "auto") lower || contains (lit "ACORD") full
  then lit "auto"
  else lit "property".

(** Lines 267-268. *)
Definition extract_attachments (lower : str) : list str :=
  if contains (lit "attachment") lower || contains (lit "attached") lower
  then [lit "document_attached"] else [].

Definition _extract_from_raw_text (text : str) : exc ExtractedFields.t :=
  let full := str_upper text in
  let lower := str_lower text in
  let policy_number := extract_policy_number text lower in
  let policyholder_name := extract_policyholder_name text lower in
  dt <- extract_date_time text lower ;;
  let '(date, time) := dt in
  let street := extract_location_street text in
  let csz := extract_city_state_zip text in
  let country := extract_country text in
  let description := extract_description text lower in
  let street := location_fallback text street csz in
  let claimant := extract_claimant text policyholder_name in
  let claimant := extract_contact text claimant in
  asset <- extract_asset text ;;
  let asset := option_map sync_estimates asset in
  let initial_estimate :=
    match asset with
    | Some a => or_float (AssetDetails.initial_estimate a)
                  (AssetDetails.estimated_damage a)
    | None => None
    end in
  let claim_type := infer_claim_type description lower full in
  let attachments := extract_attachments lower in
  Ok (ExtractedFields.mk
        (PolicyInfo.mk policy_number policyholder_name None None)
        (IncidentInfo.mk date time street csz country description)
        claimant
        []
        claimant
        asset
        (Some claim_type)
        attachments
        (match asset with
         | Some a => AssetDetails.initial_estimate a
         | None => initial_estimate
         end)).

Definition extract_from_text (content : str) : exc ExtractedFields.t :=
  _extract_from_raw_text content.

End Extract.

(** ** Routing engine ([src/routing/engine.py]) *)

Module Routing.
Import ExtractedFields.

(** [sep.join(parts)] *)
Fixpoint join (sep : str) (parts : list str) : str :=
  match parts with
  | [] => []
  | [x] => x
  | x :: rest => x ++ sep ++ join sep rest
  end.

(** [(o or "")] *)
Definition or_empty (o : option str) : str :=
  match o with Some s => s | None => [] end.

(** The damage value of lines 33-37 of [get_missing_mandatory_fields]. *)
Definition missing_damage (extracted : t) : option float :=
  let damage := None in
  let damage :=
    match asset extracted with
    | Some a => or_float (AssetDetails.estimated_damage a)
                  (AssetDetails.initial_estimate a)
    | None => damage
    end in
  match initial_estimate extracted with
  | Some v => Some v
  | None => damage
  end.

Definition append_if (b : bool) (x : str) (l : list str) : list str :=
  if b then l ++ [x] else l.

Definition get_missing_mandatory_fields (extracted : t) : list str :=
  let missing := [] in
  let p := policy extracted in
  let i := incident extracted in
  let missing :=
    append_if
      (negb (truthy_str (PolicyInfo.policy_number p)
             && truthy_str (option_map strip (PolicyInfo.policy_number p))))
      (lit "policy_number") missing in
  let missing :=
    append_if
      (negb (truthy_str (PolicyInfo.policyholder_name p)
             && truthy_str (option_map strip (PolicyInfo.policyholder_name p))))
      (lit "policyholder_name") missing in
  let missing :=
    append_if (negb (is_some (IncidentInfo.date i)))
      (lit "incident_date") missing in
  let loc :=
    match strip (or_empty (IncidentInfo.location_street i)) with
    | c :: s => c :: s
    | [] => strip (or_empty (IncidentInfo.location_city_state_zip i))
    end in
  let missing :=
    append_if (negb (truthy_str (Some loc))) (lit "incident_location") missing in
  let missing :=
    append_if
      (negb (truthy_str (IncidentInfo.description i)
             && truthy_str (option_map strip (IncidentInfo.description i))))
      (lit "incident_description") missing in
  let missing :=
    append_if
      (negb (truthy_str (claim_type extracted)
             && truthy_str (option_map strip (claim_type extracted))))
      (lit "claim_type") missing in
  let damage := missing_damage extracted in
  let missing :=
    append_if (negb (is_some damage))
      (lit "initial_estimate_or_estimated_damage") missing in
  missing.

(** The damage value of lines 80-84 of [compute_route]. *)
Definition route_damage (extracted : t) : option float :=
  let damage := None in
  let damage :=
    match asset extracted with
    | Some a => or_float (AssetDetails.estimated_damage a)
                  (AssetDetails.initial_estimate a)
    | None => damage
    end in
  match initial_estimate extracted with
  | Some v => Some v
  | None => damage
  end.

Section Route.

(** [settings.fast_track_damage_threshold], read from the environment
    (25000.0 unless configured), and the text an f-string gives a float. *)
Variable fast_track_damage_threshold : float.
Variable format_float : float -> str.

Definition compute_route (extracted : t) (missing : list str)
    (threshold : option float) : str * str :=
  let threshold :=
    match threshold with
    | None => fast_track_damage_threshold
    | Some th => th
    end in
  match missing with
  | _ :: _ =>
      (lit "Manual review",
       lit "Missing mandatory field(s): " ++ join (lit ", ") missing
         ++ lit ". Cannot auto-route.")
  | [] =>
      let desc := strip (or_empty (IncidentInfo.description (incident extracted))) in
      if is_some (Re.search true Patterns.INVESTIGATION_KEYWORDS desc) then
        (lit "Investigation Flag",
         lit "Description contains terms suggesting possible fraud or inconsistency; flagged for investigation.")
      else if str_eqb (str_lower (strip (or_empty (claim_type extracted))))
                (lit "injury") then
        (lit "Specialist Queue",
         lit "Claim type is injury; routed to specialist queue.")
      else
        let damage := route_damage extracted in
        match damage with
        | Some d =>
            if float_lt d threshold then
              (lit "Fast-track",
               lit "Estimated damage (" ++ format_float d
                 ++ lit ") is below threshold (" ++ format_float threshold
                 ++ lit "); eligible for fast-track.")
            else
              (lit "Standard",
               lit "All mandatory fields present; no special flags; above fast-track threshold; routed to standard workflow.")
        | None =>
            (lit "Standard",
             lit "All mandatory fields present; no special flags; above fast-track threshold; routed to standard workflow.")
        end
  end.

End Route.

End Routing.

(** ** What a pattern matches

    A relational reading of the patterns, without fuel and without the
    order of the alternatives: [matches ic r p c p' c'] holds when [r],
    started at position [p] with groups [c], can stop at [p'] with groups
    [c'].  The matcher is checked against it below. *)

Module ReSpec.
Import Re.

Definition not_full (hi : option nat) (n : nat) : Prop :=
  match hi with
  | Some h => n < h
  | None => True
  end.

Inductive iter (step : pos -> caps -> pos -> caps -> Prop)
    (lo : nat) (hi : option nat) : nat -> pos -> caps -> pos -> caps -> Prop :=
| iter_stop : forall n p c, lo <= n -> iter step lo hi n p c p c
| iter_more : forall n p c p1 c1 p2 c2,
    n < lo \/ not_full hi n ->
    step p c p1 c1 ->
    n < lo \/ List.length (p_rest p1) < List.length (p_rest p) ->
    iter step lo hi (S n) p1 c1 p2 c2 ->
    iter step lo hi n p c p2 c2.

Fixpoint matches (ic : bool) (r : regex) (p : pos) (c : caps) (p' : pos) (c' : caps)
  : Prop :=
  match r with
  | Empty => p' = p /\ c' = c
  | Lit x =>
      exists y, advance p = Some (y, p') /\ lit_ok ic x y = true /\ c' = c
  | Set_ negated items =>
      exists y, advance p = Some (y, p') /\ set_ok ic negated items y = true /\ c' = c
  | Cat r1 r2 =>
      exists p1 c1, matches ic r1 p c p1 c1 /\ matches ic r2 p1 c1 p' c'
  | Alt r1 r2 => matches ic r1 p c p' c' \/ matches ic r2 p c p' c'
  | Rep lo hi _ r' => iter (matches ic r') lo hi 0 p c p' c'
  | Group n r' =>
      exists c1, matches ic r' p c p' c1
        /\ c' = (n, firstn (p_off p' - p_off p) (p_rest p)) :: c1
  | Look false r' => p' = p /\ exists q, matches ic r' p c q c'
  | Look true r' =>
      p' = p /\ c' = c /\ forall c1 q d, ~ matches ic r' p c1 q d
  | Bol => at_bol p = true /\ p' = p /\ c' = c
  | Eol => at_eol p = true /\ p' = p /\ c' = c
  | WordB => xorb (word_before p) (word_after p) = true /\ p' = p /\ c' = c
  end.

(** The character just before the end of [w], or [d] when [w] is empty. *)
Definition last_char (w : str) (d : option ascii) : option ascii :=
  match rev w with
  | x :: _ => Some x
  | [] => d
  end.

(** [p'] is [p] after reading [w]. *)
Definition reads (p : pos) (w : str) (p' : pos) : Prop :=
  p_rest p = w ++ p_rest p'
  /\ p_off p' = p_off p + List.length w
  /\ p_prev p' = last_char w (p_prev p).

(** The position after the prefix [pre] of a subject [pre ++ rest]. *)
Definition pos_after (pre rest : str) : pos :=
  mkPos (List.length pre) (last_char pre None) rest.

End ReSpec.

(** ** Notions used to state the properties *)

Module Spec.
Import ReSpec.

(** An optional string that holds something other than white space. *)
Definition nonblank (o : option str) : bool :=
  match o with
  | Some s => negb (forallb is_space s)
  | None => false
  end.

(** The damage value the two code sites compute, written once: the
    top-level initial estimate whenever it is set, else the asset's
    estimated damage [or] its initial estimate, with the [or] of the
    source, which passes over a zero amount.  The wording of the contract
    is [Contract.damage_by_contract]. *)
Definition damage_by_precedence (e : ExtractedFields.t) : option float :=
  match ExtractedFields.initial_estimate e with
  | Some top => Some top
  | None =>
      match ExtractedFields.asset e with
      | Some a =>
          or_float (AssetDetails.estimated_damage a) (AssetDetails.initial_estimate a)
      | None => None
      end
  end.

(** The seven mandatory fields with their presence test, in the order of
    [MANDATORY_FIELDS].  The last one is present when the damage value
    of the record is. *)
Definition presence (e : ExtractedFields.t) : list (str * bool) :=
  let p := ExtractedFields.policy e in
  let i := ExtractedFields.incident e in
  [(lit "policy_number", nonblank (PolicyInfo.policy_number p));
   (lit "policyholder_name", nonblank (PolicyInfo.policyholder_name p));
   (lit "incident_date", is_some (IncidentInfo.date i));
   (lit "incident_location",
      nonblank (IncidentInfo.location_street i)
      || nonblank (IncidentInfo.location_city_state_zip i));
   (lit "incident_description", nonblank (IncidentInfo.description i));
   (lit "claim_type", nonblank (ExtractedFields.claim_type e));
   (lit "initial_estimate_or_estimated_damage",
      is_some (damage_by_precedence e))].

Definition KEYWORDS : list str := map lit ["fraud"; "inconsistent"; "staged"]%string.

Definition no_word_before (pre : str) : Prop :=
  match last_char pre None with
  | Some c => is_word c = false
  | None => True
  end.

Definition no_word_after (post : str) : Prop :=
  match post with
  | c :: _ => is_word c = false
  | [] => True
  end.

(** The text holds one of the investigation keywords as a whole word, in
    any letter case. *)
Definition keyword_occurs (desc : str) : Prop :=
  exists pre w post,
    desc = pre ++ w ++ post /\ In (str_lower w) KEYWORDS
    /\ no_word_before pre /\ no_word_after post.

(** [sub] occurs in [s]. *)
Definition occurs (sub s : str) : Prop := exists l r, s = l ++ sub ++ r.

(** White space, colon, period and hyphen. *)
Definition is_punct (c : ascii) : bool :=
  is_space c || Ascii.eqb c ":"%char || Ascii.eqb c "."%char || Ascii.eqb c "-"%char.

Definition PLACEHOLDER_WORDS : list str :=
  map lit ["number"; "name"; "date"; "address"; "other"]%string.

Definition PLACEHOLDER_CAPS : list str := map lit ["OTHER"; "Y"; "N"]%string.

Definition CLAIM_TYPES : list str := map lit ["injury"; "auto"; "property"]%string.

(** The claim type as the specification words it: the form marker is
    looked for in the document as it is cased. *)
Definition claim_type_as_worded (description : option str) (text : str) : str :=
  let d := str_lower (Routing.or_empty description) in
  if contains (lit "injury") d || contains (lit "injured") d then lit "injury"
  else if contains (lit "vehicle") (str_lower text)
          || contains (lit "automobile") (str_lower text)
          || contains (lit "auto") (str_lower text)
          || contains (lit "ACORD") text
  then lit "auto"
  else lit "property".

(** The same with the form marker looked for in the upper-cased document. *)
Definition claim_type_by_priority (description : option str) (text : str) : str :=
  let d := str_lower (Routing.or_empty description) in
  if contains (lit "injury") d || contains (lit "injured") d then lit "injury"
  else if contains (lit "vehicle") (str_lower text)
          || contains (lit "automobile") (str_lower text)
          || contains (lit "auto") (str_lower text)
          || contains (lit "ACORD") (str_upper text)
  then lit "auto"
  else lit "property".

Definition opt_list {A} (o : option A) : list A :=
  match o with Some x => [x] | None => [] end.

Definition party_strings (p : InvolvedParty.t) : list str :=
  opt_list (InvolvedParty.name p) ++ opt_list (InvolvedParty.address p)
  ++ opt_list (InvolvedParty.phone p) ++ opt_list (InvolvedParty.email p)
  ++ opt_list (InvolvedParty.relation_to_insured p).

Definition asset_strings (a : AssetDetails.t) : list str :=
  opt_list (AssetDetails.asset_type a) ++ opt_list (AssetDetails.asset_id a)
  ++ opt_list (AssetDetails.make a) ++ opt_list (AssetDetails.model a).

(** Every populated string field of a record. *)
Definition populated_strings (e : ExtractedFields.t) : list str :=
  let p := ExtractedFields.policy e in
  let i := ExtractedFields.incident e in
  opt_list (PolicyInfo.policy_number p) ++ opt_list (PolicyInfo.policyholder_name p)
  ++ opt_list (IncidentInfo.time i) ++ opt_list (IncidentInfo.location_street i)
  ++ opt_list (IncidentInfo.location_city_state_zip i)
  ++ opt_list (IncidentInfo.location_country i)
  ++ opt_list (IncidentInfo.description i)
  ++ List.concat (map party_strings (opt_list (ExtractedFields.claimant e)))
  ++ List.concat (map party_strings (ExtractedFields.third_parties e))
  ++ List.concat (map party_strings (opt_list (ExtractedFields.contact_details e)))
  ++ List.concat (map asset_strings (opt_list (ExtractedFields.asset e)))
  ++ opt_list (ExtractedFields.claim_type e).

(** A value passed the filter when the classifier accepts it at the bound
    [n]. *)
Definition passed (v : str) (n : nat) : Prop :=
  _is_form_label_or_placeholder (Some v) n = false.


(** The value the form-specific policy pattern yields when the classifier
    accepts it. *)
Definition form_policy_number (text : str) : option str :=
  match Re.search true Patterns.POLICY_NUMBER text with
  | Some m =>
      if Extract.accepted (Extract.capture m) 50
      then Some (Extract.capture m) else None
  | None => None
  end.

(** The line the estimate is parsed from. *)
Definition estimate_capture (text : str) : option str :=
  option_map (Re.group 1) (Extract.search_estimate text).

(** A stored value: accepted at the bound [n], hence not empty. *)
Definition stored (n : nat) (o : option str) : Prop :=
  forall v, o = Some v -> passed v n /\ v <> [].

(** A value the classifier accepts at every bound, hence not empty. *)
Definition clean (o : option str) : Prop :=
  forall v, o = Some v -> (forall n, passed v n) /\ v <> [].

(** A claimant as the extractor builds it. *)
Definition party_stored (c : option InvolvedParty.t) : Prop :=
  forall p, c = Some p ->
    stored default_max_len (InvolvedParty.name p)
    /\ stored 30 (InvolvedParty.phone p)
    /\ clean (InvolvedParty.email p)
    /\ InvolvedParty.address p = None
    /\ InvolvedParty.relation_to_insured p = None.

(** A record as the extractor builds it. *)
Definition well_formed (e : ExtractedFields.t) : Prop :=
  (exists ct, ExtractedFields.claim_type e = Some ct /\ In ct CLAIM_TYPES)
  /\ ExtractedFields.third_parties e = []
  /\ ExtractedFields.contact_details e = ExtractedFields.claimant e
  /\ (ExtractedFields.attachments e = []
      \/ ExtractedFields.attachments e = [lit "document_attached"])
  /\ match ExtractedFields.asset e with
     | Some a =>
         AssetDetails.asset_type a = Some (lit "vehicle")
         /\ AssetDetails.initial_estimate a = AssetDetails.estimated_damage a
         /\ ExtractedFields.initial_estimate e = AssetDetails.initial_estimate a
     | None => ExtractedFields.initial_estimate e = None
     end.

(** The invariant as the data model words it: every populated string field
    passed the filter, at some bound, and is not the empty string. *)
Definition every_field_filtered : Prop :=
  forall text e, Extract._extract_from_raw_text text = Ok e ->
  forall v, In v (populated_strings e) -> (exists n, passed v n) /\ v <> [].

(** The same for the estimate: an amount is stored only when the line it
    is parsed from passed the filter. *)
Definition estimate_filtered : Prop :=
  forall text e a x, Extract._extract_from_raw_text text = Ok e ->
    ExtractedFields.asset e = Some a ->
    AssetDetails.estimated_damage a = Some x ->
    exists cap n, estimate_capture text = Some cap /\ passed cap n.

(** The filter is applied to every capture before it is stored. *)
Definition every_capture_filtered : Prop :=
  every_field_filtered /\ estimate_filtered.

(** The third rejection rule as the catalog words it, on the string as it
    is given. *)
Definition blob_rule_as_worded : Prop :=
  forall (s : str) (n : nat),
    n < List.length s -> 2 < count_char newline s ->
    _is_form_label_or_placeholder (Some s) n = true.

(** The claim type as the specification words it, for every text. *)
Definition claim_type_worded : Prop :=
  forall text e, Extract._extract_from_raw_text text = Ok e ->
    ExtractedFields.claim_type e
    = Some (claim_type_as_worded
              (IncidentInfo.description (ExtractedFields.incident e)) text).

End Spec.

(** ** Sample inputs *)

Module Samples.

Definition threshold_25000 : float := float_of_decimal 25000 0.

(** A stand-in for the text of an amount. *)
Definition plain_amount (x : float) : str := lit "amount".

(** Scenario 3 of the routing tests: every mandatory field present, a
    description with fraud keywords, an estimate of 22000. *)
Definition fraud_record : ExtractedFields.t :=
  let amount := Some (float_of_decimal 22000 0) in
  ExtractedFields.mk
    (PolicyInfo.mk (Some (lit "P-456")) (Some (lit "Robert Lee")) None None)
    (IncidentInfo.mk (Some (mkDate 2024 3 10)) None
       (Some (lit "100 Congress Ave, Austin TX")) None None
       (Some (lit "The story seems inconsistent and the damage looked staged. Possible fraud.")))
    None [] None
    (Some (AssetDetails.mk None None None None None amount amount))
    (Some (lit "auto")) [] amount.

(** Three newlines followed by 201 letters. *)
Definition padded_blob : str := repeat newline 3 ++ repeat "a"%char 201.

Definition filled_address : str := lit "4500 Interstate 35, Austin TX 78745".

Definition acord_text : str := lit "acord".

Definition two_policy_numbers : str :=
  lit "POLICY NUMBER: A1" ++ [newline]
  ++ lit "NAIC CODE: 1 CARRIER: X POLICY NUMBER: B2".

Definition blank_make : str := lit "MAKE: ".

Definition caption_estimate : str := lit "ESTIMATE AMOUNT: PHONE # 5".

(** "DESCRIPTION OF ACCIDENT" followed by [n] letters. *)
Definition long_description (n : nat) : str :=
  lit "DESCRIPTION OF ACCIDENT " ++ repeat "x"%char n.

(** The texts of [tests/test_extraction.py]. *)
Definition lines (ls : list string) : str :=
  [newline] ++ List.concat (map (fun l => lit "    " ++ lit l ++ [newline]) ls)
  ++ lit "    ".

Definition complete_text : str :=
  lines ["POLICY NUMBER: POL-2024-887654";
         "NAME OF INSURED: John Smith";
         "DATE OF LOSS AND TIME: 01/15/2024 10:30 AM";
         "LOCATION OF LOSS STREET: 4500 Interstate 35, Austin TX 78745";
         "DESCRIPTION OF ACCIDENT: Vehicle struck from behind. No injuries.";
         "V.I.N.: 1HGBH41JXMN109186";
         "MAKE: Honda MODEL: Accord YEAR: 2021";
         "ESTIMATE AMOUNT: $8,500"]%string.

Definition injury_text : str :=
  lines ["Policy Number: INS-789";
         "Policyholder: Maria Garcia";
         "Loss Date: 02/01/2024";
         "Location: 7800 N Lamar, Austin TX";
         "Description: Collision. Driver reported neck pain. Claim type: injury.";
         "Estimate: $12,000"]%string.

(** [_minimal_extracted] of [tests/test_routing.py]. *)
Definition minimal_extracted (policy_number description claim_type : string)
    (estimated_damage : Z) : ExtractedFields.t :=
  let amount := Some (float_of_decimal estimated_damage 0) in
  ExtractedFields.mk
    (PolicyInfo.mk (Some (lit policy_number)) (Some (lit "John")) None None)
    (IncidentInfo.mk (Some (mkDate 2024 1 15)) None (Some (lit "123 Main St"))
       None None (Some (lit description)))
    (Some (InvolvedParty.mk (Some (lit "John")) None None None None)) [] None
    (Some (AssetDetails.mk None None None None None amount amount))
    (Some (lit claim_type)) [] amount.

End Samples.

(** ** Static readings of a pattern

    Two conservative analyses used to show that a value cannot be matched
    by a pattern: the characters a pattern can read, and how long a word
    made of given characters it can read at most. *)

Module Shape.
Import Re.

(** Some literal or set of [r], outside a lookahead, accepts [y]. *)
Fixpoint accepts (ic : bool) (r : regex) (y : ascii) : bool :=
  match r with
  | Lit x => lit_ok ic x y
  | Set_ negated items => set_ok ic negated items y
  | Cat r1 r2 | Alt r1 r2 => accepts ic r1 y || accepts ic r2 y
  | Rep _ _ _ r' | Group _ r' => accepts ic r' y
  | _ => false
  end.

Definition all_chars : list ascii := map ascii_of_nat (seq 0 256).

Definition any_char (f : ascii -> bool) : bool := existsb f all_chars.

Inductive bound := Never | AtMost (n : nat) | Unbounded.

Definition b_seq (a b : bound) : bound :=
  match a, b with
  | Never, _ | _, Never => Never
  | AtMost x, AtMost y => AtMost (x + y)
  | _, _ => Unbounded
  end.

Definition b_alt (a b : bound) : bound :=
  match a, b with
  | Never, x | x, Never => x
  | AtMost x, AtMost y => AtMost (Nat.max x y)
  | _, _ => Unbounded
  end.

Definition b_rep (lo : nat) (hi : option nat) (b : bound) : bound :=
  match b with
  | Never => if Nat.eqb lo 0 then AtMost 0 else Never
  | AtMost 0 => AtMost 0
  | AtMost n =>
      match hi with
      | Some h => AtMost (n * Nat.max lo h)
      | None => Unbounded
      end
  | Unbounded => Unbounded
  end.

(** How long a word of characters satisfying [P] the pattern can read. *)
Fixpoint reach (P : ascii -> bool) (ic : bool) (r : regex) : bound :=
  match r with
  | Lit x => if any_char (fun y => P y && lit_ok ic x y) then AtMost 1 else Never
  | Set_ negated items =>
      if any_char (fun y => P y && set_ok ic negated items y) then AtMost 1 else Never
  | Cat r1 r2 => b_seq (reach P ic r1) (reach P ic r2)
  | Alt r1 r2 => b_alt (reach P ic r1) (reach P ic r2)
  | Rep lo hi _ r' => b_rep lo hi (reach P ic r')
  | Group _ r' => reach P ic r'
  | _ => AtMost 0
  end.

Definition fits (b : bound) (k : nat) : Prop :=
  match b with
  | Never => False
  | AtMost n => k <= n
  | Unbounded => True
  end.

Definition is_letter (c : ascii) : bool := is_upper c || is_lower c.

Definition not_newline (c : ascii) : bool := negb (Ascii.eqb c newline).

Definition not_space (c : ascii) : bool := negb (is_space c).

(** The characters of a captured time: what the time pattern reads, on a
    line. *)
Definition time_char (c : ascii) : bool :=
  accepts true Patterns.TIME_TOKEN c && not_newline c.

(** The characters of a VIN. *)
Definition vin_class (c : ascii) : bool :=
  set_ok true false
    [IRange "A" "H"; IRange "J" "N"; IChar "P"; IRange "R" "Z"; IRange "0" "9"]%char c.

(** The alternatives of [_LABEL_PATTERNS], between the anchors. *)
Definition label_body : regex :=
  match Patterns._LABEL_PATTERNS with
  | Cat Bol (Cat body Eol) => body
  | r => r
  end.

End Shape.

(** ** What the groups of a pattern hold

    Two more conservative analyses: the characters a numbered group can
    capture, and whether every match has to read a character of a given
    kind. *)

Module GroupShape.
Import Re Shape.

(** Group [n] of [r] can capture [y]. *)
Fixpoint group_accepts (ic : bool) (n : nat) (r : regex) (y : ascii) : bool :=
  match r with
  | Group k r' => (Nat.eqb k n && accepts ic r' y) || group_accepts ic n r' y
  | Cat r1 r2 | Alt r1 r2 => group_accepts ic n r1 y || group_accepts ic n r2 y
  | Rep _ _ _ r' => group_accepts ic n r' y
  | Look false r' => group_accepts ic n r' y
  | _ => false
  end.

(** Every character group [n] of [r] can capture satisfies [Q]. *)
Definition group_within (ic : bool) (n : nat) (r : regex) (Q : ascii -> bool) : bool :=
  forallb (fun y => implb (group_accepts ic n r y) (Q y)) all_chars.

(** Every match of [r] reads a character that satisfies [P]. *)
Fixpoint needs (P : ascii -> bool) (ic : bool) (r : regex) : bool :=
  match r with
  | Lit x => forallb (fun y => implb (lit_ok ic x y) (P y)) all_chars
  | Set_ negated items =>
      forallb (fun y => implb (set_ok ic negated items y) (P y)) all_chars
  | Cat r1 r2 => needs P ic r1 || needs P ic r2
  | Alt r1 r2 => needs P ic r1 && needs P ic r2
  | Rep lo _ _ r' => (0 <? lo) && needs P ic r'
  | Group _ r' => needs P ic r'
  | _ => false
  end.

End GroupShape.

(** ** Flat output ([src/schemas.py]) *)

Module Schemas.

(** The values a field holds. *)
Inductive value :=
| VStr (s : str)
| VInt (z : Z)
| VFloat (x : float)
| VDate (d : date)
| VList (l : list str).

(** A [dict] with string keys: the entries in insertion order; an
    assignment to a key that is present replaces its value in place. *)
Definition dict := list (str * value).

Fixpoint dict_set (k : str) (v : value) (d : dict) : dict :=
  match d with
  | [] => [(k, v)]
  | (k', v') :: d' =>
      if str_eqb k' k then (k', v) :: d' else (k', v') :: dict_set k v d'
  end.

(** [d.get(k)] *)
Fixpoint dict_get (k : str) (d : dict) : option value :=
  match d with
  | [] => None
  | (k', v') :: d' => if str_eqb k' k then Some v' else dict_get k d'
  end.

(** [str(i)] for an index. *)
Definition str_of_nat (n : nat) : str :=
  list_ascii_of_string (DecimalString.NilZero.string_of_uint (Nat.to_uint n)).

Definition digit_char (n : Z) : ascii := ascii_of_N (Z.to_N (48 + n mod 10)).

Definition pad2 (n : Z) : str := [digit_char (n / 10); digit_char n].

Definition pad4 (n : Z) : str :=
  [digit_char (n / 1000); digit_char (n / 100); digit_char (n / 10); digit_char n].

(** [d.isoformat()]: year, month and day on four, two and two digits. *)
Definition isoformat (d : date) : str :=
  pad4 (d_year d) ++ lit "-" ++ pad2 (d_month d) ++ lit "-" ++ pad2 (d_day d).

Definition _json_serial (val : value) : value :=
  match val with
  | VDate d => VStr (isoformat d)
  | _ => val
  end.

(** One field of [model_dump(exclude_none=True)]. *)
Definition entry {A} (name : string) (inj : A -> value) (o : option A) : dict :=
  match o with
  | Some x => [(lit name, inj x)]
  | None => []
  end.

(** [model_dump(exclude_none=True)] of the four flat models: the fields
    that are set, in the order of their declaration. *)
Definition model_dump_policy (p : PolicyInfo.t) : dict :=
  entry "policy_number" VStr (PolicyInfo.policy_number p)
  ++ entry "policyholder_name" VStr (PolicyInfo.policyholder_name p)
  ++ entry "effective_date_start" VDate (PolicyInfo.effective_date_start p)
  ++ entry "effective_date_end" VDate (PolicyInfo.effective_date_end p).

Definition model_dump_incident (i : IncidentInfo.t) : dict :=
  entry "date" VDate (IncidentInfo.date i)
  ++ entry "time" VStr (IncidentInfo.time i)
  ++ entry "location_street" VStr (IncidentInfo.location_street i)
  ++ entry "location_city_state_zip" VStr (IncidentInfo.location_city_state_zip i)
  ++ entry "location_country" VStr (IncidentInfo.location_country i)
  ++ entry "description" VStr (IncidentInfo.description i).

Definition model_dump_party (p : InvolvedParty.t) : dict :=
  entry "name" VStr (InvolvedParty.name p)
  ++ entry "address" VStr (InvolvedParty.address p)
  ++ entry "phone" VStr (InvolvedParty.phone p)
  ++ entry "email" VStr (InvolvedParty.email p)
  ++ entry "relation_to_insured" VStr (InvolvedParty.relation_to_insured p).

Definition model_dump_asset (a : AssetDetails.t) : dict :=
  entry "asset_type" VStr (AssetDetails.asset_type a)
  ++ entry "asset_id" VStr (AssetDetails.asset_id a)
  ++ entry "make" VStr (AssetDetails.make a)
  ++ entry "model" VStr (AssetDetails.model a)
  ++ entry "year" VInt (AssetDetails.year a)
  ++ entry "estimated_damage" VFloat (AssetDetails.estimated_damage a)
  ++ entry "initial_estimate" VFloat (AssetDetails.initial_estimate a).

(** [for k, v in items: out[prefix + k] = v] *)
Definition assign_all (prefix : str) (items : dict) (out : dict) : dict :=
  fold_left (fun out kv => dict_set (prefix ++ fst kv) (snd kv) out) items out.

(** The loop over [enumerate(self.third_parties)], from index [i] on. *)
Fixpoint assign_parties (i : nat) (ps : list InvolvedParty.t) (out : dict) : dict :=
  match ps with
  | [] => out
  | p :: ps' =>
      assign_parties (S i) ps'
        (assign_all (lit "third_party_" ++ str_of_nat i ++ lit "_")
           (model_dump_party p) out)
  end.

Definition to_flat_dict (self : ExtractedFields.t) : dict :=
  let out := [] in
  let out :=
    assign_all (lit "policy_") (model_dump_policy (ExtractedFields.policy self)) out in
  let out :=
    assign_all (lit "incident_")
      (model_dump_incident (ExtractedFields.incident self)) out in
  let out :=
    match ExtractedFields.claimant self with
    | Some c => assign_all (lit "claimant_") (model_dump_party c) out
    | None => out
    end in
  let out := assign_parties 0 (ExtractedFields.third_parties self) out in
  let out :=
    match ExtractedFields.contact_details self with
    | Some c => assign_all (lit "contact_") (model_dump_party c) out
    | None => out
    end in
  let out :=
    match ExtractedFields.asset self with
    | Some a => assign_all (lit "asset_") (model_dump_asset a) out
    | None => out
    end in
  let out :=
    match ExtractedFields.claim_type self with
    | Some ct => dict_set (lit "claim_type") (VStr ct) out
    | None => out
    end in
  let out :=
    match ExtractedFields.attachments self with
    | _ :: _ => dict_set (lit "attachments") (VList (ExtractedFields.attachments self)) out
    | [] => out
    end in
  let out :=
    match ExtractedFields.initial_estimate self with
    | Some x => dict_set (lit "initial_estimate") (VFloat x) out
    | None => out
    end in
  map (fun kv => (fst kv, _json_serial (snd kv))) out.

End Schemas.

(** ** The application ([src/main.py]) *)

Module Api.
Import Schemas.

Record ClaimsProcessingResponse := mkResponse {
  extractedFields : dict;
  missingFields : list str;
  recommendedRoute : str;
  reasoning : str }.

(** What a handler does: it returns, raises an [HTTPException], or lets
    an exception of the extractor through. *)
Inductive outcome (A : Type) :=
| Returned (a : A)
| HTTPException (status_code : nat) (detail : str)
| Unhandled (e : exn).
Arguments Returned {A} a.
Arguments HTTPException {A} status_code detail.
Arguments Unhandled {A} e.

Section App.

(** The settings and the float formatting of the routing engine. *)
Variable fast_track_damage_threshold : float.
Variable format_float : float -> str.

Definition process_extracted (extracted : ExtractedFields.t)
  : ClaimsProcessingResponse :=
  let missing := Routing.get_missing_mandatory_fields extracted in
  let '(route, reasoning) :=
    Routing.compute_route fast_track_damage_threshold format_float
      extracted missing None in
  mkResponse (to_flat_dict extracted) missing route reasoning.

(** The body of the handler of [/api/v1/process/text]. *)
Definition process_fnol_text (content : str) : outcome ClaimsProcessingResponse :=
  if negb (truthy_str (Some content) && truthy_str (Some (strip content)))
  then HTTPException 400 (lit "Empty text.")
  else
    match Extract.extract_from_text content with
    | Ok extracted => Returned (process_extracted extracted)
    | Raise e => Unhandled e
    end.

End App.

End Api.

(** ** More notions used to state the properties *)

Module Notions.
Import Schemas.

(** Zero, a positive number or plus infinity: no sign and not a NaN. *)
Definition unsigned_float (x : float) : bool :=
  match x with
  | S754_zero false | S754_infinity false | S754_finite false _ _ => true
  | _ => false
  end.

Definition has_letter (s : str) : bool := existsb Shape.is_letter s.

Definition no_line_feed (s : str) : Prop := forallb Shape.not_newline s = true.

Definition no_space (s : str) : Prop := forallb Shape.not_space s = true.

(** The record of a document in which nothing is found. *)
Definition blank_record : ExtractedFields.t :=
  ExtractedFields.mk
    (PolicyInfo.mk None None None None)
    (IncidentInfo.mk None None None None None None)
    None [] None None (Some (lit "property")) [] None.

(** The ways a number of a date is written: on two digits, and without
    the leading zero when it has one. *)
Definition spellings (n : Z) : list str :=
  if (n <? 10)%Z then [pad2 n; [digit_char n]] else [pad2 n].

(** The entries of [items] under the keys [prefix ++ k]. *)
Definition prefixed (prefix : str) (items : dict) : dict :=
  map (fun kv => (prefix ++ fst kv, snd kv)) items.

Fixpoint party_entries (i : nat) (ps : list InvolvedParty.t) : dict :=
  match ps with
  | [] => []
  | p :: ps' =>
      prefixed (lit "third_party_" ++ str_of_nat i ++ lit "_") (model_dump_party p)
      ++ party_entries (S i) ps'
  end.

Definition opt_entries {A} (f : A -> dict) (o : option A) : dict :=
  match o with Some x => f x | None => [] end.

(** The populated fields of a record, each under its own key, in the
    order of the assignments of [to_flat_dict]. *)
Definition flat_entries (e : ExtractedFields.t) : dict :=
  prefixed (lit "policy_") (model_dump_policy (ExtractedFields.policy e))
  ++ prefixed (lit "incident_") (model_dump_incident (ExtractedFields.incident e))
  ++ opt_entries (fun c => prefixed (lit "claimant_") (model_dump_party c))
       (ExtractedFields.claimant e)
  ++ party_entries 0 (ExtractedFields.third_parties e)
  ++ opt_entries (fun c => prefixed (lit "contact_") (model_dump_party c))
       (ExtractedFields.contact_details e)
  ++ opt_entries (fun a => prefixed (lit "asset_") (model_dump_asset a))
       (ExtractedFields.asset e)
  ++ entry "claim_type" VStr (ExtractedFields.claim_type e)
  ++ match ExtractedFields.attachments e with
     | _ :: _ => [(lit "attachments", VList (ExtractedFields.attachments e))]
     | [] => []
     end
  ++ entry "initial_estimate" VFloat (ExtractedFields.initial_estimate e).

(** Every value an optional field holds satisfies [Q]. *)
Definition each (Q : str -> Prop) (o : option str) : Prop :=
  forall v, o = Some v -> Q v.

Definition no_tab (s : str) : Prop :=
  forallb (fun c => negb (Ascii.eqb c tab)) s = true.

Definition lower_case (s : str) : Prop := str_lower s = s.

Definition no_upper (c : ascii) : bool := negb (is_upper c).

Definition no_letter (c : ascii) : bool := negb (Shape.is_letter c).

(** A character of a VIN: a digit or a letter other than I, O and Q, in
    either case. *)
Definition vin_letter (c : ascii) : bool :=
  (is_digit c || Shape.is_letter c)
  && negb (existsb (Ascii.eqb (upper_char c)) (lit "IOQ")).

(** An address: a name and a domain around an at sign, without white
    space, the name without another at sign. *)
Definition address_shape (v : str) : Prop :=
  exists name domain,
    v = name ++ lit "@" ++ domain /\ name <> [] /\ domain <> []
    /\ no_space v /\ ~ In "@"%char name.

(** A calendar date. *)
Definition valid_date (dt : date) : Prop :=
  make_date (d_year dt) (d_month dt) (d_day dt) = Ok dt.

(** A day and a month around a separator, in the two orders, up to the
    separator before the year. *)
Definition month_day (sep : ascii) (ms ds : str) : str := ms ++ sep :: ds ++ [sep].
Definition day_month (sep : ascii) (ds ms : str) : str := ds ++ sep :: ms ++ [sep].

(** A dictionary after [_json_serial] went over its values, and its
    keys. *)
Definition serialised (d : dict) : dict :=
  map (fun kv => (fst kv, _json_serial (snd kv))) d.

Definition keys (d : dict) : list str := map fst d.

Definition ROUTES : list str :=
  map lit ["Manual review"; "Investigation Flag"; "Specialist Queue";
           "Fast-track"; "Standard"]%string.

End Notions.

(** ** Where the fields come from *)

Module Provenance.
Import Re Patterns.

(** [v] is the first group of a match of one of the [sources], trimmed
    and then cut by [cut]. *)
Definition from_capture (sources : list (bool * regex * str)) (cut : str -> str)
    (v : str) : Prop :=
  exists ic r s m,
    In (ic, r, s) sources /\ search ic r s = Some m /\ v = cut (Extract.capture m).

Definition uncut (s : str) : str := s.

Definition policy_number_sources (text : str) :=
  [(true, POLICY_NUMBER, text); (true, NAIC_POLICY_NUMBER, text);
   (false, GENERIC_POLICY, str_lower text)].

Definition policyholder_sources (text : str) :=
  [(true, NAME_OF_INSURED, text); (false, GENERIC_INSURED, str_lower text)].

Definition street_sources (text : str) :=
  [(true, LOCATION_OF_LOSS, text); (true, GENERIC_LOCATION, text)].

Definition claimant_sources (text : str) :=
  [(true, DRIVERS_NAME, text); (true, OWNERS_NAME, text)].

(** Where each string field of a record comes from. *)
Definition field_sources (text : str) (e : ExtractedFields.t) : Prop :=
  let p := ExtractedFields.policy e in
  let i := ExtractedFields.incident e in
  (forall v, PolicyInfo.policy_number p = Some v ->
     from_capture (policy_number_sources text) uncut v)
  /\ (forall v, PolicyInfo.policyholder_name p = Some v ->
        from_capture (policyholder_sources text) (slice_to 200) v)
  /\ (forall v, IncidentInfo.location_street i = Some v ->
        from_capture (street_sources text) (slice_to 300) v)
  /\ (forall v, IncidentInfo.location_city_state_zip i = Some v ->
        from_capture [(true, CITY_STATE_ZIP, text)] uncut v)
  /\ (forall v, IncidentInfo.location_country i = Some v ->
        from_capture [(true, COUNTRY, text)] uncut v)
  /\ (forall c, ExtractedFields.claimant e = Some c ->
        (exists n, InvolvedParty.name c = Some n /\ n <> []
           /\ (from_capture (claimant_sources text) uncut n
               \/ PolicyInfo.policyholder_name p = Some n))
        /\ (forall v, InvolvedParty.phone c = Some v ->
              from_capture [(true, PRIMARY_PHONE, text)] (slice_to 50) v)
        /\ (forall v, InvolvedParty.email c = Some v ->
              from_capture [(true, PRIMARY_EMAIL, text)] uncut v))
  /\ (forall a, ExtractedFields.asset e = Some a ->
        (forall v, AssetDetails.asset_id a = Some v ->
           from_capture [(true, VIN, text)] uncut v)
        /\ (forall v, AssetDetails.make a = Some v ->
              from_capture [(true, MAKE, text)] uncut v)
        /\ (forall v, AssetDetails.model a = Some v ->
              from_capture [(true, MODEL, text)] uncut v)).

End Provenance.

(** ** The keys of the flat output *)

Module Keys.
Import Schemas Notions.

(** The first six characters of a key tell its block. *)
Definition lead (k : str) : str := firstn 6 k.

Fixpoint distinct (l : list str) : bool :=
  match l with
  | [] => true
  | x :: l' => negb (existsb (str_eqb x) l') && distinct l'
  end.

Definition party_names : list str :=
  map lit ["name"; "address"; "phone"; "email"; "relation_to_insured"]%string.

Definition party_prefix (i : nat) : str := lit "third_party_" ++ str_of_nat i ++ lit "_".

(** The keys of [d] start as one of [ls]. *)
Definition leads_in (ls : list str) (d : dict) : Prop :=
  forall k, In k (keys d) -> In (lead k) ls.

End Keys.

(** ** The date formats on written dates *)

Module Tables.
Import Re Schemas Notions Strptime.

(** The numbers from [lo] on, [count] of them, each with the ways it is
    written. *)
Definition written (lo : Z) (count : nat) : list (Z * str) :=
  flat_map (fun i => let n := (lo + Z.of_nat i)%Z in map (pair n) (spellings n))
    (seq 0 count).

Definition months : list (Z * str) := written 1 12.
Definition days : list (Z * str) := written 1 31.
Definition late_days : list (Z * str) := written 13 19.

(** A number as the tables write it: one or two digits that [int] reads
    back. *)
Definition numeral (n : Z) (w : str) : Prop :=
  py_int w = Ok n /\ forallb is_digit w = true
  /\ 1 <= List.length w /\ List.length w <= 2.

(** The formats that end with the year, up to the year. *)
Definition md_prefix (sep : ascii) : regex :=
  Cat dir_m (Cat (Lit sep) (Cat dir_d (Lit sep))).

Definition dm_prefix (sep : ascii) : regex :=
  Cat dir_d (Cat (Lit sep) (Cat dir_m (Lit sep))).

(** The end of the year-first format. *)
Definition ymd_tail : regex := Cat (Lit "-") (Cat dir_m (Cat (Lit "-") dir_d)).

(** [R] reads [s0] in one way only, with the groups [cps]. *)
Definition reads_only (R : regex) (s0 : str) (cps : caps) : Prop :=
  exists lastc, forall k rest,
    exec true R (mkPos 0 None (s0 ++ rest)) [] k
    = k (mkPos (List.length s0) (Some lastc) rest) cps.

(** [f] does not match a string that starts with [s0]. *)
Definition never_starts (f : format) (s0 : str) : Prop :=
  forall k rest, exec true (format_regex f) (mkPos 0 None (s0 ++ rest)) [] k = None.

End Tables.

(** ** More sample documents *)

Module Examples.

(** A policy number and a name under generic captions. *)
Definition lowered_sample : str :=
  lit "Policy #: ABC-123" ++ [newline] ++ lit "Insured: John Smith".

End Examples.

(** ** The damage value in the words of the contract *)

Module Contract.

(** The damage value as the routing contract words it: "asset.estimated_damage,
    else asset.initial_estimate, else top-level initial_estimate, with
    top-level initial_estimate taking final precedence if set".  A value
    is taken when it is present, whatever the amount. *)
Definition damage_by_contract (e : ExtractedFields.t) : option float :=
  match ExtractedFields.initial_estimate e with
  | Some top => Some top
  | None =>
      match ExtractedFields.asset e with
      | Some a =>
          match AssetDetails.estimated_damage a with
          | Some d => Some d
          | None => AssetDetails.initial_estimate a
          end
      | None => None
      end
  end.

Definition is_zero (x : float) : bool :=
  match x with S754_zero _ => true | _ => false end.

(** The records on which an estimated damage of zero decides the damage
    value of the contract: no top-level estimate, and an asset whose
    estimated damage is a zero. *)
Definition zero_estimated_damage (e : ExtractedFields.t) : bool :=
  match ExtractedFields.initial_estimate e, ExtractedFields.asset e with
  | None, Some a =>
      match AssetDetails.estimated_damage a with
      | Some d => is_zero d
      | None => false
      end
  | _, _ => false
  end.

Definition zero : float := S754_zero false.

Definition DAMAGE_FIELD : str := lit "initial_estimate_or_estimated_damage".

(** A complete record without keyword or injury, with the three amounts
    as given: the asset's estimated damage, the asset's initial estimate
    and the top-level initial estimate. *)
Definition amounts_record (estimated initial top : option float) : ExtractedFields.t :=
  ExtractedFields.mk
    (PolicyInfo.mk (Some (lit "P-100")) (Some (lit "Ann Lee")) None None)
    (IncidentInfo.mk (Some (mkDate 2024 1 15)) None (Some (lit "123 Main St"))
       None None (Some (lit "Rear bumper scratched in a parking lot.")))
    None [] None
    (Some (AssetDetails.mk (Some (lit "vehicle")) None None None None estimated initial))
    (Some (lit "auto")) [] top.

(** The same with an estimated damage of 0.0 and no top-level estimate. *)
Definition zero_damage_record (initial : option float) : ExtractedFields.t :=
  amounts_record (Some zero) initial None.

(** The route the contract gives a complete record without keyword or
    injury: by its damage. *)
Definition route_by_damage (damage : option float) (threshold : float) : str :=
  match damage with
  | Some d => if float_lt d threshold then lit "Fast-track" else lit "Standard"
  | None => lit "Standard"
  end.

Definition STANDARD_REASONING : str :=
  lit "All mandatory fields present; no special flags; above fast-track threshold; routed to standard workflow.".

End Contract.

(** ** Documents of ASCII characters *)

Module Plain.

Definition is_ascii (c : ascii) : bool := (code c <? 128)%N.

(** A document of ASCII characters.  On these the white space, the letter
    cases and the character classes of the model are those of Python. *)
Definition ascii_only (s : str) : Prop := forallb is_ascii s = true.

Definition CR : ascii := ascii_of_N 13.

(** An insured's name with a carriage return inside. *)
Definition two_part_name : str :=
  lit "NAME OF INSURED (x) John" ++ [CR] ++ lit "Smith".

Definition vin_line : str := lit "V.I.N.: 1HGBH41JXMN109186".

End Plain.

(** ** The classifier on code points

    The classifier is called on whatever the patterns capture, so its
    white space, its letter cases and its [re] classes are those of
    Unicode.  Here a [str] is the list of its code points.  White space
    is the set of [str.isspace]; the case mappings and the letter and
    digit classes beyond ASCII are read from a table, which is a
    parameter.  The patterns are those of [Patterns]: their own
    characters are ASCII. *)

Module Unicode.
Import Re.
Local Open Scope N_scope.

Definition ustr := list N.

(** A string literal of the source. *)
Definition ulit (s : string) : ustr := map code (lit s).

Definition within (lo hi c : N) : bool := (lo <=? c) && (c <=? hi).

Definition is_ascii (c : N) : bool := c <? 128.

(** [str.isspace], the characters [str.strip] removes and [\s] of a [str]
    pattern. *)
Definition is_space (c : N) : bool :=
  within 0x09 0x0D c || within 0x1C 0x20 c || (c =? 0x85) || (c =? 0xA0)
  || (c =? 0x1680) || within 0x2000 0x200A c || (c =? 0x2028) || (c =? 0x2029)
  || (c =? 0x202F) || (c =? 0x205F) || (c =? 0x3000).

Definition lower_ascii (c : N) : N := if within 65 90 c then c + 32 else c.
Definition upper_ascii (c : N) : N := if within 97 122 c then c - 32 else c.

(** The tables of the Unicode database the program reads, consulted for
    the code points beyond ASCII: the simple lower-case mapping (the one
    [re] uses under IGNORECASE), what [str.lower] makes of a character
    in its context (what precedes it and what follows it), what
    [str.upper] makes of
    a character, and the alphanumeric and decimal classes. *)
Record database := mkDatabase {
  simple_lower : N -> N;
  full_lower : ustr -> N -> ustr -> ustr;
  full_upper : N -> ustr;
  alnum : N -> bool;
  decimal : N -> bool }.

Fixpoint lstrip (s : ustr) : ustr :=
  match s with
  | c :: s' => if is_space c then lstrip s' else s
  | [] => []
  end.

Definition rstrip (s : ustr) : ustr := rev (lstrip (rev s)).

(** [s.strip()] *)
Definition strip (s : ustr) : ustr := rstrip (lstrip s).

Fixpoint str_eqb (a b : ustr) : bool :=
  match a, b with
  | [], [] => true
  | x :: a', y :: b' => (x =? y) && str_eqb a' b'
  | _, _ => false
  end.

Fixpoint starts_with (p s : ustr) : bool :=
  match p, s with
  | [], _ => true
  | x :: p', y :: s' => (x =? y) && starts_with p' s'
  | _ :: _, [] => false
  end.

(** [sub in s] *)
Fixpoint contains (sub s : ustr) : bool :=
  starts_with sub s ||
  match s with
  | [] => false
  | _ :: s' => contains sub s'
  end.

(** [s.count(c)] for a one-character argument. *)
Definition count_char (c : N) (s : ustr) : nat :=
  List.length (filter (N.eqb c) s).

Definition truthy_str (o : option ustr) : bool :=
  match o with
  | Some (_ :: _) => true
  | _ => false
  end.

(** [s in (a, b, ...)] *)
Definition str_in (s : ustr) (l : list ustr) : bool := existsb (str_eqb s) l.

Definition LF : N := 10.

(** A position in the subject, as in [Re]. *)
Record pos := mkPos { p_off : nat; p_prev : option N; p_rest : ustr }.

Definition caps := list (nat * ustr).

Definition advance (p : pos) : option (N * pos) :=
  match p_rest p with
  | [] => None
  | c :: rest => Some (c, mkPos (S (p_off p)) (Some c) rest)
  end.

(** [$] without MULTILINE: the end, or just before a final newline. *)
Definition at_eol (p : pos) : bool :=
  match p_rest p with
  | [] => true
  | c :: [] => c =? LF
  | _ => false
  end.

Definition at_bol (p : pos) : bool :=
  match p_prev p with None => true | Some _ => false end.

Definition result := option (pos * caps).

Definition orelse (a : result) (b : unit -> result) : result :=
  match a with Some x => Some x | None => b tt end.

(** The letters of a pattern have a case. *)
Definition cased (x : N) : bool := within 65 90 x || within 97 122 x.

(** The characters [re] adds to a lower-case letter under IGNORECASE,
    beside those the simple mapping sends to it: the dotless i for "i"
    and the long s for "s". *)
Definition fixes (lo : N) : list N :=
  if lo =? 105 then [0x131] else if lo =? 115 then [0x17F] else [].

(** [c], already lowered, against the pattern character [y]. *)
Definition lowered (y c : N) : bool :=
  (c =? lower_ascii y) || existsb (N.eqb c) (fixes (lower_ascii y)).

Definition codes_between (lo hi : ascii) : list N :=
  map (fun k => code lo + N.of_nat k) (seq 0 (S (N.to_nat (code hi - code lo)))).

Section Tables.

Variable db : database.

(** [Py_UNICODE_TOLOWER] *)
Definition tolower (c : N) : N :=
  if is_ascii c then lower_ascii c else simple_lower db c.

(** [\w]: alphanumeric or the underscore. *)
Definition is_word (c : N) : bool :=
  if is_ascii c
  then within 48 57 c || within 65 90 c || within 97 122 c || (c =? 95)
  else alnum db c.

(** [\d] *)
Definition is_digit (c : N) : bool :=
  if is_ascii c then within 48 57 c else decimal db c.

Fixpoint lower_from (before s : ustr) : ustr :=
  match s with
  | [] => []
  | c :: after =>
      (if is_ascii c then [lower_ascii c] else full_lower db before c after)
      ++ lower_from (before ++ [c]) after
  end.

(** [s.lower()] and [s.upper()] *)
Definition str_lower (s : ustr) : ustr := lower_from [] s.

Definition str_upper (s : ustr) : ustr :=
  flat_map (fun c => if is_ascii c then [upper_ascii c] else full_upper db c) s.

Definition item_has (c : N) (i : item) : bool :=
  match i with
  | IChar x => c =? code x
  | IRange lo hi => within (code lo) (code hi) c
  | ISpace => is_space c
  | IDigit => is_digit c
  end.

(** A member of a set compiled under IGNORECASE: the letters of the set
    are lowered, and the subject character is. *)
Definition item_has_lowered (c : N) (i : item) : bool :=
  match i with
  | IChar x => lowered (code x) c
  | IRange lo hi => existsb (fun y => lowered y c) (codes_between lo hi)
  | ISpace => is_space c
  | IDigit => is_digit c
  end.

Definition item_cased (i : item) : bool :=
  match i with
  | IChar x => cased (code x)
  | IRange lo hi => existsb cased (codes_between lo hi)
  | ISpace | IDigit => false
  end.

(** One subject character against a literal or a set; [ic] is the
    IGNORECASE flag.  A literal without case, and a set without a cased
    member, are compared as they are. *)
Definition lit_ok (ic : bool) (x : ascii) (c : N) : bool :=
  if ic && cased (code x) then lowered (code x) (tolower c) else c =? code x.

Definition set_ok (ic : bool) (negated : bool) (items : list item) (c : N) : bool :=
  xorb negated
    (if ic && existsb item_cased items
     then existsb (item_has_lowered (tolower c)) items
     else existsb (item_has c) items).

Definition word_before (p : pos) : bool :=
  match p_prev p with Some c => is_word c | None => false end.

Definition word_after (p : pos) : bool :=
  match p_rest p with c :: _ => is_word c | [] => false end.

Section Exec.

Variable ic : bool.

(** The repetition loop and the matcher of [Re], on code points. *)
Fixpoint rep_loop (step : pos -> caps -> (pos -> caps -> result) -> result)
    (fuel : nat) (lo : nat) (hi : option nat) (greedy : bool)
    (count : nat) (p : pos) (c : caps) (k : pos -> caps -> result) : result :=
  match fuel with
  | O => None
  | S fuel' =>
      let again (_ : unit) :=
        step p c (fun p' c' =>
          if (count <? lo)%nat || (List.length (p_rest p') <? List.length (p_rest p))%nat
          then rep_loop step fuel' lo hi greedy (S count) p' c' k
          else None) in
      if (count <? lo)%nat then again tt
      else
        let full := match hi with Some h => (h <=? count)%nat | None => false end in
        if full then k p c
        else if greedy then orelse (again tt) (fun _ => k p c)
        else orelse (k p c) again
  end.

Fixpoint exec (r : regex) (p : pos) (c : caps) (k : pos -> caps -> result) : result :=
  match r with
  | Empty => k p c
  | Lit x =>
      match advance p with
      | Some (y, p') => if lit_ok ic x y then k p' c else None
      | None => None
      end
  | Set_ negated items =>
      match advance p with
      | Some (y, p') => if set_ok ic negated items y then k p' c else None
      | None => None
      end
  | Cat r1 r2 => exec r1 p c (fun p' c' => exec r2 p' c' k)
  | Alt r1 r2 => orelse (exec r1 p c k) (fun _ => exec r2 p c k)
  | Rep lo hi greedy r' =>
      rep_loop (exec r') (S (lo + List.length (p_rest p))) lo hi greedy 0 p c k
  | Group n r' =>
      exec r' p c (fun p' c' =>
        k p' ((n, firstn (p_off p' - p_off p) (p_rest p)) :: c'))
  | Look negated r' =>
      match exec r' p c (fun p' c' => Some (p', c')) with
      | Some (_, c') => if negated then None else k p c'
      | None => if negated then k p c else None
      end
  | Bol => if at_bol p then k p c else None
  | Eol => if at_eol p then k p c else None
  | WordB => if xorb (word_before p) (word_after p) then k p c else None
  end.

End Exec.

(** [re.match(pattern, s)]: whether the pattern matches at the start. *)
Definition matches_at_start (ic : bool) (r : regex) (s : ustr) : bool :=
  is_some (exec ic r (mkPos 0 None s) [] (fun p' c' => Some (p', c'))).

Definition _LABEL_SUBSTRINGS : list ustr :=
  map ulit
    ["same as owner"; "same as insured"; "mailing address"; "additional remarks";
     "may be attached"; "if more space"; "check if same"; "phone #";
     "e-mail address"; "if not at specific"; "street address";
     "(first, middle, last)"; "first, middle, last"]%string.

(** Returns [true] when the value looks like a form label or placeholder,
    not real data. *)
Definition _is_form_label_or_placeholder (value : option ustr)
    (max_reasonable_len : nat) : bool :=
  match value with
  | None => true
  | Some value =>
      if negb (truthy_str (Some value)) || negb (truthy_str (Some (strip value)))
      then true
      else
        let s := strip value in
        if str_in s [ulit ":"; []]
           || matches_at_start false Patterns.ONLY_PUNCTUATION s
        then true
        else if (max_reasonable_len <? List.length s)%nat
                && contains [LF] s && (2 <? count_char LF s)%nat
        then true
        else if matches_at_start true Patterns._LABEL_PATTERNS s then true
        else
          let lower := str_lower s in
          if existsb (fun sub => contains sub lower) _LABEL_SUBSTRINGS then true
          else if str_in lower
                    (map ulit ["number"; "name"; "date"; "address"; "other"]%string)
          then true
          else if str_eqb (str_upper s) (ulit "OTHER") || str_eqb (str_upper s) (ulit "Y")
                  || str_eqb (str_upper s) (ulit "N")
          then true
          else false
  end.

End Tables.

(** White space, colon, period and hyphen. *)
Definition is_punct (c : N) : bool :=
  is_space c || (c =? 46) || (c =? 58) || (c =? 45).

(** [sub] occurs in [s]. *)
Definition occurs (sub s : ustr) : Prop := exists l r, s = l ++ sub ++ r.

Definition PLACEHOLDER_WORDS : list ustr :=
  map ulit ["number"; "name"; "date"; "address"; "other"]%string.

Definition PLACEHOLDER_CAPS : list ustr := map ulit ["OTHER"; "Y"; "N"]%string.

(** The third rejection rule as the catalog words it, on the string as it
    is given. *)
Definition blob_rule_as_worded (db : database) : Prop :=
  forall (s : ustr) (n : nat),
    (n < List.length s)%nat -> (2 < count_char LF s)%nat ->
    _is_form_label_or_placeholder db (Some s) n = true.

(** Three newlines followed by 201 letters. *)
Definition padded_blob : ustr := repeat LF 3 ++ repeat 97 201.

Definition filled_address : ustr := ulit "4500 Interstate 35, Austin TX 78745".

(** "Number" between a no-break space and an em space with a newline. *)
Definition padded_number : ustr := [0xA0] ++ ulit "Number" ++ [0x2003; LF].

(** The code points of a string of the 8-bit model. *)
Definition of_str (s : str) : ustr := map code s.

(** A table for running examples: beyond ASCII nothing has a case, and
    nothing is a letter or a digit. *)
Definition caseless : database :=
  mkDatabase (fun c => c) (fun _ c _ => [c]) (fun c => [c])
    (fun _ => false) (fun _ => false).

End Unicode.

(** ** The 8-bit model inside the code-point model *)

Module Embedding.
Import Unicode.

Definition of_pos (p : Re.pos) : pos :=
  mkPos (Re.p_off p) (option_map code (Re.p_prev p)) (of_str (Re.p_rest p)).

Definition of_caps (c : Re.caps) : caps :=
  map (fun nv => (fst nv, of_str (snd nv))) c.

Definition of_result (r : Re.result) : result :=
  option_map (fun pc => (of_pos (fst pc), of_caps (snd pc))) r.

(** The ASCII characters. *)
Definition ascii_chars : list ascii := map ascii_of_nat (seq 0 128).

(** The positions of an ASCII subject. *)
Definition ascii_pos (p : Re.pos) : Prop :=
  Plain.ascii_only (Re.p_rest p)
  /\ match Re.p_prev p with Some c => Plain.is_ascii c = true | None => True end.

(** Whether the literals and the sets of a pattern read the ASCII
    characters alike in the two models. *)
Fixpoint agrees (db : database) (ic : bool) (r : Re.regex) : bool :=
  match r with
  | Re.Lit x =>
      forallb (fun c => Bool.eqb (lit_ok db ic x (code c)) (Re.lit_ok ic x c)) ascii_chars
  | Re.Set_ negated items =>
      forallb (fun c => Bool.eqb (set_ok db ic negated items (code c))
                          (Re.set_ok ic negated items c)) ascii_chars
  | Re.Cat r1 r2 | Re.Alt r1 r2 => agrees db ic r1 && agrees db ic r2
  | Re.Rep _ _ _ r' | Re.Group _ r' | Re.Look _ r' => agrees db ic r'
  | Re.Empty | Re.Bol | Re.Eol | Re.WordB => true
  end.

(** The patterns of the program. *)
Definition PATTERNS : list Re.regex :=
  [Patterns._LABEL_PATTERNS; Patterns.ONLY_PUNCTUATION; Patterns.POLICY_NUMBER;
   Patterns.NAIC_POLICY_NUMBER; Patterns.GENERIC_POLICY; Patterns.NAME_OF_INSURED;
   Patterns.GENERIC_INSURED; Patterns.DATE_OF_LOSS_AND_TIME; Patterns.DATE_TOKEN;
   Patterns.TIME_TOKEN; Patterns.GENERIC_LOSS_DATE; Patterns.LOCATION_OF_LOSS;
   Patterns.CITY_STATE_ZIP; Patterns.COUNTRY; Patterns.DESCRIPTION_OF_ACCIDENT;
   Patterns.GENERIC_DESCRIPTION_OF; Patterns.GENERIC_DESCRIPTION;
   Patterns.GENERIC_LOCATION; Patterns.DRIVERS_NAME; Patterns.OWNERS_NAME;
   Patterns.PRIMARY_PHONE; Patterns.PRIMARY_EMAIL; Patterns.VIN; Patterns.MAKE;
   Patterns.MODEL; Patterns.YEAR; Patterns.ESTIMATE_AMOUNT; Patterns.GENERIC_ESTIMATE;
   Patterns.INVESTIGATION_KEYWORDS; YEAR_TOKEN].

(** Two continuations that give the same answer on the positions of an
    ASCII subject. *)
Definition related (k : Re.pos -> Re.caps -> Re.result)
    (k' : pos -> caps -> result) : Prop :=
  forall p c, ascii_pos p -> k' (of_pos p) (of_caps c) = of_result (k p c).

End Embedding.

(** ** Proof automation *)

(** Walks down the rules of the classifier: every rule that fires
    rejects. *)
Ltac classify :=
  unfold _is_form_label_or_placeholder; cbv zeta;
  repeat match goal with
  | |- (if ?c then true else _) = true => destruct c eqn:?; [reflexivity|]
  end.

(** * Properties *)

(** ** The matcher against the relational reading *)

Module ReFacts.
Import Re ReSpec.

Section Meta.

Variable ic : bool.

Lemma last_char_app (w1 w2 : str) d :
  last_char (w1 ++ w2) d = last_char w2 (last_char w1 d).
Proof.
  unfold last_char. rewrite rev_app_distr.
  destruct (rev w2) as [|x t]; simpl; reflexivity.
Qed.

Lemma reads_refl p : reads p [] p.
Proof. unfold reads; simpl. repeat split; lia. Qed.

Lemma reads_trans p w1 p1 w2 p2 :
  reads p w1 p1 -> reads p1 w2 p2 -> reads p (w1 ++ w2) p2.
Proof.
  intros (H1 & H2 & H3) (H4 & H5 & H6). unfold reads.
  rewrite H1, H4, H5, H2, H6, H3, length_app, last_char_app, app_assoc.
  repeat split; lia.
Qed.

Lemma advance_reads p y p' : advance p = Some (y, p') -> reads p [y] p'.
Proof.
  unfold advance, reads. destruct p as [o pv rs]; simpl.
  destruct rs as [|a rs]; [discriminate|].
  intros H; inversion H; subst; simpl. repeat split; lia.
Qed.

Lemma reads_length p w p' :
  reads p w p' -> List.length (p_rest p) = List.length w + List.length (p_rest p').
Proof. intros (H & _). rewrite H, length_app. reflexivity. Qed.

Lemma iter_reads step lo hi :
  (forall p c p' c', step p c p' c' -> exists w, reads p w p') ->
  forall n p c p' c', iter step lo hi n p c p' c' -> exists w, reads p w p'.
Proof.
  intros Hs n p c p' c' H. induction H.
  - exists []. apply reads_refl.
  - destruct (Hs _ _ _ _ H0) as (w1 & R1). destruct IHiter as (w2 & R2).
    exists (w1 ++ w2). eapply reads_trans; eauto.
Qed.

Lemma matches_reads r : forall p c p' c',
  matches ic r p c p' c' -> exists w, reads p w p'.
Proof.
  induction r; simpl; intros p cs p' cs' H.
  - destruct H; subst. exists []. apply reads_refl.
  - destruct H as (y & H & _). exists [y]. now apply advance_reads.
  - destruct H as (y & H & _). exists [y]. now apply advance_reads.
  - destruct H as (p1 & c1 & H1 & H2).
    destruct (IHr1 _ _ _ _ H1) as (w1 & R1). destruct (IHr2 _ _ _ _ H2) as (w2 & R2).
    exists (w1 ++ w2). eapply reads_trans; eauto.
  - destruct H; eauto.
  - eapply iter_reads; eauto.
  - destruct H as (c1 & H & _). eauto.
  - destruct negated.
    + destruct H as (-> & _). exists []. apply reads_refl.
    + destruct H as (-> & _). exists []. apply reads_refl.
  - destruct H as (_ & -> & _). exists []. apply reads_refl.
  - destruct H as (_ & -> & _). exists []. apply reads_refl.
  - destruct H as (_ & -> & _). exists []. apply reads_refl.
Qed.

Lemma matches_shrinks r p c p' c' :
  matches ic r p c p' c' -> List.length (p_rest p') <= List.length (p_rest p).
Proof.
  intros H. destruct (matches_reads _ _ _ _ _ H) as (w & R).
  apply reads_length in R. lia.
Qed.

Lemma rep_loop_sound (step : pos -> caps -> (pos -> caps -> result) -> result)
    (S_ : pos -> caps -> pos -> caps -> Prop) lo hi g :
  (forall p c k res, step p c k = Some res ->
     exists p' c', S_ p c p' c' /\ k p' c' = Some res) ->
  forall fuel count p c k res,
    rep_loop step fuel lo hi g count p c k = Some res ->
    exists p' c', iter S_ lo hi count p c p' c' /\ k p' c' = Some res.
Proof.
  intros Hs fuel. induction fuel as [|fuel IH]; intros count p c k res H; simpl in H.
  - discriminate.
  - assert (Hagain : forall res,
      step p c (fun p' c' =>
          if (count <? lo) || (List.length (p_rest p') <? List.length (p_rest p))
          then rep_loop step fuel lo hi g (S count) p' c' k else None) = Some res ->
      (count < lo \/ not_full hi count) ->
      exists p' c', iter S_ lo hi count p c p' c' /\ k p' c' = Some res).
    { intros res0 H0 Hnf. apply Hs in H0. destruct H0 as (p1 & c1 & HS & Hk).
      destruct ((count <? lo) || (List.length (p_rest p1) <? List.length (p_rest p))) eqn:E;
        [|discriminate].
      apply IH in Hk. destruct Hk as (p2 & c2 & Hi & Hk).
      exists p2, c2. split; [|exact Hk].
      eapply iter_more; eauto.
      apply orb_true_iff in E. destruct E as [E|E].
      - left. now apply Nat.ltb_lt.
      - right. now apply Nat.ltb_lt. }
    destruct (count <? lo) eqn:Elo.
    + apply Hagain; [exact H|]. left. now apply Nat.ltb_lt.
    + apply Nat.ltb_ge in Elo.
      destruct (match hi with Some h => h <=? count | None => false end) eqn:Efull.
      * exists p, c. split; [now apply iter_stop | exact H].
      * assert (Hnf : not_full hi count).
        { unfold not_full. destruct hi; [|exact I]. now apply Nat.leb_gt in Efull. }
        destruct g; unfold orelse in H.
        -- match type of H with
           | match ?a with _ => _ end = _ => destruct a eqn:Ea
           end.
           ++ inversion H; subst. apply Hagain; auto.
           ++ exists p, c. split; [now apply iter_stop | exact H].
        -- destruct (k p c) eqn:Ek.
           ++ inversion H; subst. exists p, c. split; [now apply iter_stop | exact Ek].
           ++ apply Hagain; auto.
Qed.

Lemma rep_loop_complete (step : pos -> caps -> (pos -> caps -> result) -> result)
    (S_ : pos -> caps -> pos -> caps -> Prop) lo hi g :
  (forall p c0 p' c0' c k, S_ p c0 p' c0' -> (forall d, k p' d <> None) ->
     step p c k <> None) ->
  (forall p c p' c', S_ p c p' c' -> List.length (p_rest p') <= List.length (p_rest p)) ->
  forall count p c0 p' c0', iter S_ lo hi count p c0 p' c0' ->
  forall fuel c k,
    (lo - count) + List.length (p_rest p) < fuel ->
    (forall d, k p' d <> None) ->
    rep_loop step fuel lo hi g count p c k <> None.
Proof.
  intros Hc Hm count p c0 p' c0' H.
  induction H as [n p c0 Hlo | n p c0 p1 c1 p2 c2 Hgo Hstep Hprog Hrest IH];
    intros fuel c k Hfuel Hk.
  - destruct fuel as [|fuel]; [lia|]. simpl.
    replace (n <? lo) with false by (symmetry; apply Nat.ltb_ge; lia).
    destruct (match hi with Some h => h <=? n | None => false end).
    + apply Hk.
    + destruct g; unfold orelse.
      * match goal with |- match ?a with _ => _ end <> None => destruct a end;
          [discriminate | apply Hk].
      * destruct (k p c) eqn:E; [discriminate|]. exfalso. eapply Hk; eauto.
  - destruct fuel as [|fuel]; [lia|]. simpl.
    assert (Hagain :
      step p c (fun p' c' =>
          if (n <? lo) || (List.length (p_rest p') <? List.length (p_rest p))
          then rep_loop step fuel lo hi g (S n) p' c' k else None) <> None).
    { eapply Hc; [exact Hstep|]. intros d.
      assert (E : (n <? lo) || (List.length (p_rest p1) <? List.length (p_rest p)) = true).
      { apply orb_true_iff. destruct Hprog; [left|right]; now apply Nat.ltb_lt. }
      rewrite E. apply IH; [|exact Hk].
      apply Hm in Hstep. destruct Hprog; lia. }
    destruct (n <? lo) eqn:Elo; [exact Hagain|].
    apply Nat.ltb_ge in Elo.
    destruct Hgo as [Hgo|Hgo]; [lia|].
    assert (Efull : match hi with Some h => h <=? n | None => false end = false).
    { unfold not_full in Hgo. destruct hi; [|reflexivity]. apply Nat.leb_gt. exact Hgo. }
    rewrite Efull.
    destruct g; unfold orelse.
    + match goal with |- match ?a with _ => _ end <> None => destruct a eqn:Ea end;
        [discriminate | contradiction].
    + destruct (k p c); [discriminate | exact Hagain].
Qed.

Lemma exec_sound_complete r :
  (forall p c k res, exec ic r p c k = Some res ->
     exists p' c', matches ic r p c p' c' /\ k p' c' = Some res)
  /\ (forall p c0 p' c0' c k, matches ic r p c0 p' c0' ->
        (forall d, k p' d <> None) -> exec ic r p c k <> None).
Proof.
  induction r; cbn [exec matches].
  - split.
    + intros p c k res H. exists p, c. auto.
    + intros p c0 p' c0' c k (-> & _) Hk. apply Hk.
  - split.
    + intros p cs k res H. destruct (advance p) as [[y p1]|] eqn:E; [|discriminate].
      destruct (lit_ok ic c y) eqn:El; [|discriminate].
      exists p1, cs. split; [|exact H]. exists y. auto.
    + intros p c0 p' c0' c1 k (y & E & El & _) Hk. rewrite E, El. apply Hk.
  - split.
    + intros p c k res H. destruct (advance p) as [[y p1]|] eqn:E; [|discriminate].
      destruct (set_ok ic negated items y) eqn:El; [|discriminate].
      exists p1, c. split; [|exact H]. exists y. auto.
    + intros p c0 p' c0' c1 k (y & E & El & _) Hk. rewrite E, El. apply Hk.
  - destruct IHr1 as [S1 C1], IHr2 as [S2 C2]. split.
    + intros p c k res H. apply S1 in H. destruct H as (p1 & c1 & M1 & H).
      apply S2 in H. destruct H as (p2 & c2 & M2 & H).
      exists p2, c2. split; [|exact H]. exists p1, c1. auto.
    + intros p c0 p' c0' c k (p1 & c1 & M1 & M2) Hk.
      eapply C1; [exact M1|]. intros d. eapply C2; eauto.
  - destruct IHr1 as [S1 C1], IHr2 as [S2 C2]. split.
    + intros p c k res H. unfold orelse in H.
      destruct (exec ic r1 p c k) eqn:E1.
      * inversion H; subst. apply S1 in E1. destruct E1 as (p1 & c1 & M1 & Hk).
        exists p1, c1. auto.
      * apply S2 in H. destruct H as (p1 & c1 & M1 & Hk). exists p1, c1. auto.
    + intros p c0 p' c0' c k [M1|M2] Hk; unfold orelse.
      * destruct (exec ic r1 p c k) eqn:E1; [discriminate|].
        exfalso. eapply C1; eauto.
      * destruct (exec ic r1 p c k) eqn:E1; [discriminate|]. eapply C2; eauto.
  - destruct IHr as [S1 C1]. split.
    + intros p c k res H. eapply rep_loop_sound in H; eauto.
    + intros p c0 p' c0' c k Hi Hk.
      eapply rep_loop_complete; eauto.
      * intros. eapply matches_shrinks; eauto.
      * lia.
  - destruct IHr as [S1 C1]. split.
    + intros p c k res H. apply S1 in H. destruct H as (p1 & c1 & M1 & H).
      eexists p1, _. split; [|exact H]. exists c1. auto.
    + intros p c0 p' c0' c k (c1 & M1 & _) Hk. eapply C1; eauto.
  - destruct IHr as [S1 C1]. split.
    + intros p c k res H.
      destruct (exec ic r p c (fun p' c' => Some (p', c'))) as [[q d]|] eqn:E.
      * destruct negated; [discriminate|].
        apply S1 in E. destruct E as (p1 & c1 & M1 & E). inversion E; subst.
        exists p, d. split; [|exact H]. split; [reflexivity|]. exists q. exact M1.
      * destruct negated; [|discriminate].
        exists p, c. split; [|exact H]. split; [reflexivity|]. split; [reflexivity|].
        intros c1 q d Hm. eapply C1 in Hm; [apply Hm; exact E|]. discriminate.
    + intros p c0 p' c0' c k Hm Hk. destruct negated.
      * destruct Hm as (-> & _ & Hno).
        destruct (exec ic r p c (fun p' c' => Some (p', c'))) as [[q d]|] eqn:E.
        -- apply S1 in E. destruct E as (p1 & c1 & M1 & _). exfalso. eapply Hno; eauto.
        -- apply Hk.
      * destruct Hm as (-> & q & Hm).
        destruct (exec ic r p c (fun p' c' => Some (p', c'))) as [[q1 d]|] eqn:E.
        -- apply Hk.
        -- exfalso. eapply C1; [exact Hm| |exact E]. discriminate.
  - split.
    + intros p c k res H. destruct (at_bol p) eqn:E; [|discriminate]. exists p, c. auto.
    + intros p c0 p' c0' c k (E & -> & _) Hk. rewrite E. apply Hk.
  - split.
    + intros p c k res H. destruct (at_eol p) eqn:E; [|discriminate]. exists p, c. auto.
    + intros p c0 p' c0' c k (E & -> & _) Hk. rewrite E. apply Hk.
  - split.
    + intros p c k res H. destruct (xorb (word_before p) (word_after p)) eqn:E; [|discriminate].
      exists p, c. auto.
    + intros p c0 p' c0' c k (E & -> & _) Hk. rewrite E. apply Hk.
Qed.

End Meta.

End ReFacts.

(** ** Strings *)

Module StrFacts.


Lemma lstrip_split s :
  exists ws, s = ws ++ lstrip s /\ forallb is_space ws = true.
Proof.
  induction s as [|a s IH]; simpl.
  - exists []. auto.
  - destruct (is_space a) eqn:E.
    + destruct IH as (ws & H1 & H2). exists (a :: ws). simpl.
      rewrite E, H2. split; [f_equal; exact H1 | reflexivity].
    + exists []. auto.
Qed.

Lemma lstrip_nil_iff s : lstrip s = [] <-> forallb is_space s = true.
Proof.
  induction s as [|a s IH]; simpl; [tauto|].
  destruct (is_space a); simpl; [exact IH|]. split; discriminate.
Qed.

Lemma lstrip_head s a t : lstrip s = a :: t -> is_space a = false.
Proof.
  induction s as [|b s IH]; simpl; [discriminate|].
  destruct (is_space b) eqn:E; [exact IH|]. intros H; inversion H; subst. exact E.
Qed.

Lemma lstrip_forallb (P : ascii -> bool) s :
  forallb P s = true -> forallb P (lstrip s) = true.
Proof.
  induction s as [|a s IH]; simpl; [auto|].
  intros H. apply andb_true_iff in H. destruct H as [H1 H2].
  destruct (is_space a); [auto|]. simpl. now rewrite H1, H2.
Qed.

Lemma forallb_rev (P : ascii -> bool) s : forallb P (rev s) = forallb P s.
Proof.
  induction s as [|a s IH]; simpl; [reflexivity|].
  rewrite forallb_app, IH. simpl. rewrite andb_true_r. apply andb_comm.
Qed.

Lemma rstrip_forallb (P : ascii -> bool) s :
  forallb P s = true -> forallb P (rstrip s) = true.
Proof.
  intros H. unfold rstrip. rewrite forallb_rev. apply lstrip_forallb.
  now rewrite forallb_rev.
Qed.

Lemma strip_forallb (P : ascii -> bool) s :
  forallb P s = true -> forallb P (strip s) = true.
Proof. intros H. unfold strip. now apply rstrip_forallb, lstrip_forallb. Qed.

Lemma rstrip_nil_iff s : rstrip s = [] <-> forallb is_space s = true.
Proof.
  unfold rstrip. rewrite <- (forallb_rev is_space s), <- lstrip_nil_iff.
  split; intros H.
  - apply (f_equal (@rev ascii)) in H. rewrite rev_involutive in H. exact H.
  - rewrite H. reflexivity.
Qed.

Lemma strip_nil_iff s : strip s = [] <-> forallb is_space s = true.
Proof.
  unfold strip. rewrite rstrip_nil_iff. split; intros H.
  - destruct (lstrip_split s) as (ws & E & Hws). rewrite E, forallb_app, Hws, H.
    reflexivity.
  - now apply lstrip_forallb.
Qed.

Lemma lstrip_app_keep pre x rest :
  is_space x = false -> lstrip (pre ++ x :: rest) = lstrip pre ++ x :: rest.
Proof.
  intros Hx. induction pre as [|a pre IH]; simpl.
  - now rewrite Hx.
  - destruct (is_space a); [exact IH | reflexivity].
Qed.

Lemma rstrip_app_keep pre x post :
  is_space x = false -> rstrip (pre ++ x :: post) = pre ++ x :: rstrip post.
Proof.
  intros Hx. unfold rstrip.
  rewrite rev_app_distr. simpl. rewrite <- app_assoc. simpl.
  rewrite lstrip_app_keep by exact Hx.
  rewrite rev_app_distr. simpl. rewrite rev_involutive, <- app_assoc. reflexivity.
Qed.

Lemma truthy_strip_iff s :
  truthy_str (Some (strip s)) = negb (forallb is_space s).
Proof.
  destruct (strip s) eqn:E; simpl.
  - apply strip_nil_iff in E. now rewrite E.
  - destruct (forallb is_space s) eqn:F; [|reflexivity].
    apply strip_nil_iff in F. congruence.
Qed.

(** A non-empty string without white space is left alone by [strip]. *)
Lemma lstrip_id s : forallb (fun c => negb (is_space c)) s = true -> lstrip s = s.
Proof.
  destruct s as [|a s]; simpl; [reflexivity|].
  intros H. apply andb_true_iff in H. destruct H as [H _].
  destruct (is_space a); [discriminate | reflexivity].
Qed.

Lemma strip_id s : forallb (fun c => negb (is_space c)) s = true -> strip s = s.
Proof.
  intros H. unfold strip. rewrite (lstrip_id s H). unfold rstrip.
  rewrite lstrip_id; [apply rev_involutive|]. now rewrite forallb_rev.
Qed.

End StrFacts.

(** ** Searching *)

Module SearchFacts.
Import Re ReSpec ReFacts.

Section Search.

Variable ic : bool.

Lemma reads_firstn p w p' :
  reads p w p' -> firstn (p_off p' - p_off p) (p_rest p) = w.
Proof.
  intros (H1 & H2 & _). rewrite H1, H2.
  replace (p_off p + List.length w - p_off p) with (List.length w + 0) by lia.
  rewrite firstn_app_2. simpl. apply app_nil_r.
Qed.

Lemma match_here_sound r p m :
  match_here ic r p = Some m ->
  exists p' w, matches ic r p [] p' (m_caps m) /\ reads p w p'
    /\ m_whole m = w /\ m_start m = p_off p /\ m_end m = p_off p'.
Proof.
  unfold match_here. intros H.
  destruct (exec ic r p [] (fun p' c' => Some (p', c'))) as [[p' c']|] eqn:E; [|discriminate].
  inversion H; subst; clear H. simpl.
  apply (proj1 (exec_sound_complete ic r)) in E.
  destruct E as (p1 & c1 & Hm & E). inversion E; subst.
  destruct (matches_reads _ _ _ _ _ _ Hm) as (w & R).
  exists p', w. split; [exact Hm|]. split; [exact R|].
  split; [now apply reads_firstn|]. split; reflexivity.
Qed.

Lemma match_here_complete r p c0 p' c0' :
  matches ic r p c0 p' c0' -> match_here ic r p <> None.
Proof.
  intros Hm. unfold match_here.
  destruct (exec ic r p [] (fun p' c' => Some (p', c'))) as [[q d]|] eqn:E; [discriminate|].
  exfalso. eapply (proj2 (exec_sound_complete ic r)); [exact Hm| |exact E]. discriminate.
Qed.

Lemma last_char_snoc pre a d : last_char (pre ++ [a]) d = Some a.
Proof. unfold last_char. rewrite rev_app_distr. reflexivity. Qed.

Lemma pos_after_snoc pre a rest :
  mkPos (S (List.length pre)) (Some a) rest = pos_after (pre ++ [a]) rest.
Proof.
  unfold pos_after. rewrite last_char_snoc, length_app. simpl. f_equal. lia.
Qed.

Lemma search_from_sound r : forall rest pre m,
  search_from ic r (List.length pre) (last_char pre None) rest = Some m ->
  exists mid w post p',
    rest = mid ++ w ++ post
    /\ matches ic r (pos_after (pre ++ mid) (w ++ post)) [] p' (m_caps m)
    /\ reads (pos_after (pre ++ mid) (w ++ post)) w p'
    /\ m_whole m = w /\ m_start m = List.length (pre ++ mid).
Proof.
  induction rest as [|a rest IH]; intros pre m H; simpl in H.
  - destruct (match_here ic r (mkPos (List.length pre) (last_char pre None) [])) eqn:E;
      [|discriminate].
    inversion H; subst. apply match_here_sound in E.
    destruct E as (p' & w & Hm & R & Hw & Hs & _).
    assert (w = []) as ->.
    { destruct R as (R & _). simpl in R. destruct w; [reflexivity|discriminate]. }
    exists [], [], [], p'. rewrite !app_nil_r. simpl.
    split; [reflexivity|]. split; [exact Hm|]. split; [exact R|]. split; auto.
  - destruct (match_here ic r (mkPos (List.length pre) (last_char pre None) (a :: rest))) eqn:E.
    + inversion H; subst. apply match_here_sound in E.
      destruct E as (p' & w & Hm & R & Hw & Hs & _).
      pose proof R as (R1 & _). simpl in R1.
      exists [], w, (p_rest p'), p'. rewrite !app_nil_r. simpl.
      unfold pos_after. rewrite <- R1.
      split; [reflexivity|]. split; [exact Hm|]. split; [exact R|]. split; auto.
    + replace (S (List.length pre)) with (List.length (pre ++ [a])) in H
        by (rewrite length_app; simpl; lia).
      rewrite <- (last_char_snoc pre a None) in H.
      apply IH in H. destruct H as (mid & w & post & p' & -> & Hm & R & Hw & Hs).
      exists (a :: mid), w, post, p'.
      rewrite <- app_assoc in Hm, R, Hs. simpl in Hm, R, Hs |- *.
      split; [reflexivity|]. split; [exact Hm|]. split; [exact R|]. split; auto.
Qed.

Lemma search_from_complete r : forall mid pre post c0 p' c0',
  matches ic r (pos_after (pre ++ mid) post) c0 p' c0' ->
  search_from ic r (List.length pre) (last_char pre None) (mid ++ post) <> None.
Proof.
  induction mid as [|a mid IH]; intros pre post c0 p' c0' Hm.
  - rewrite app_nil_r in Hm. simpl.
    destruct post; simpl;
      (destruct (match_here ic r _) eqn:E; [discriminate|]);
      exfalso; eapply match_here_complete; eauto.
  - simpl. destruct (match_here ic r _); [discriminate|].
    replace (S (List.length pre)) with (List.length (pre ++ [a]))
      by (rewrite length_app; simpl; lia).
    rewrite <- (last_char_snoc pre a None).
    eapply IH. rewrite <- app_assoc. simpl. exact Hm.
Qed.

Lemma search_sound r s m :
  search ic r s = Some m ->
  exists pre w post p',
    s = pre ++ w ++ post
    /\ matches ic r (pos_after pre (w ++ post)) [] p' (m_caps m)
    /\ reads (pos_after pre (w ++ post)) w p'
    /\ m_whole m = w /\ m_start m = List.length pre.
Proof.
  unfold search. intros H.
  apply (search_from_sound r s []) in H. exact H.
Qed.

Lemma search_complete r pre post c0 p' c0' :
  matches ic r (pos_after pre post) c0 p' c0' ->
  search ic r (pre ++ post) <> None.
Proof.
  intros H. unfold search. apply (search_from_complete r pre [] post c0 p' c0'). exact H.
Qed.

(** A run of literals reads a word equal to it, letter by letter. *)
Lemma matches_lits (l : str) : forall p c p' c',
  l <> [] ->
  (matches ic (cat_all (map Lit l)) p c p' c' <->
   exists w, reads p w p' /\ Forall2 (fun x y => lit_ok ic x y = true) l w /\ c' = c).
Proof.
  induction l as [|x l IH]; intros p c p' c' Hne; [congruence|].
  destruct l as [|x2 l].
  - simpl. split.
    + intros (y & Ha & Hok & ->). exists [y].
      split; [now apply advance_reads|]. split; [|reflexivity].
      constructor; [exact Hok|constructor].
    + intros (w & R & F & ->). inversion F as [|? ? ? ? Hok F']; subst.
      inversion F'; subst. exists y. repeat split; auto.
      destruct R as (R1 & R2 & R3). unfold advance. rewrite R1. simpl.
      destruct p' as [o pv rs]; simpl in *. f_equal. f_equal. f_equal; auto. lia.
  - change (cat_all (map Lit (x :: x2 :: l)))
      with (Cat (Lit x) (cat_all (map Lit (x2 :: l)))).
    cbn [matches]. split.
    + intros (p1 & c1 & (y & Ha & Hok & ->) & H2).
      apply IH in H2; [|discriminate]. destruct H2 as (w & R & F & ->).
      exists (y :: w). split; [|split; [constructor; assumption|reflexivity]].
      apply advance_reads in Ha. apply (reads_trans Ha R).
    + intros (w & R & F & ->). inversion F as [|? y ? w' Hok F']; subst.
      destruct R as (R1 & R2 & R3).
      exists (mkPos (S (p_off p)) (Some y) (w' ++ p_rest p')), c. split.
      * exists y. repeat split; auto. unfold advance. rewrite R1. reflexivity.
      * apply IH; [discriminate|]. exists w'.
        split; [|split; [assumption|reflexivity]].
        unfold reads; simpl. split; [reflexivity|]. split.
        -- simpl in R2. lia.
        -- rewrite R3. change (y :: w') with ([y] ++ w').
           rewrite last_char_app. reflexivity.
Qed.

End Search.

End SearchFacts.

(** ** Captures of particular patterns *)

Module PatternFacts.
Import Re ReSpec ReFacts SearchFacts StrFacts.


(** A repeated character set reads a word of its members. *)
Lemma iter_set ic negated items lo hi :
  forall n p c p' c',
    iter (matches ic (Set_ negated items)) lo hi n p c p' c' ->
    exists w, reads p w p'
      /\ forallb (set_ok ic negated items) w = true /\ c' = c
      /\ lo <= n + List.length w
      /\ (forall h, hi = Some h -> lo <= h -> n <= h -> n + List.length w <= h).
Proof.
  intros n p c p' c' H. induction H as [n p c Hlo | n p c p1 c1 p2 c2 Hgo Hstep _ _ IH].
  - exists []. split; [apply reads_refl|]. simpl. repeat split; try lia.
  - destruct IH as (w & R & F & -> & Hlen & Hhi).
    destruct Hstep as (y & Ha & Hok & ->).
    exists (y :: w). split; [|split; [|split; [reflexivity|split]]].
    + apply advance_reads in Ha. apply (reads_trans Ha R).
    + simpl. now rewrite Hok, F.
    + simpl. lia.
    + intros h Eh Hloh Hn. simpl.
      assert (n < h).
      { destruct Hgo as [Hgo|Hgo]; [lia|]. unfold not_full in Hgo. now rewrite Eh in Hgo. }
      specialize (Hhi h Eh Hloh). lia.
Qed.

Lemma digit_ok ic y : set_ok ic false [IDigit] y = true -> is_digit y = true.
Proof.
  destruct ic; destruct y as [[] [] [] [] [] [] [] []]; vm_compute; congruence.
Qed.

Lemma digit_not_space y : is_digit y = true -> is_space y = false.
Proof. destruct y as [[] [] [] [] [] [] [] []]; vm_compute; congruence. Qed.

Lemma forallb_impl (P Q : ascii -> bool) s :
  (forall y, P y = true -> Q y = true) -> forallb P s = true -> forallb Q s = true.
Proof.
  intros H. induction s as [|a s IH]; simpl; [auto|].
  intros F. apply andb_true_iff in F. destruct F as [F1 F2].
  now rewrite (H _ F1), (IH F2).
Qed.

(** [int] accepts every non-empty run of digits. *)
Lemma py_int_digits w :
  forallb is_digit w = true -> w <> [] -> exists v, py_int w = Ok v.
Proof.
  intros F Hne. unfold py_int.
  assert (E : strip w = w).
  { apply strip_id. eapply forallb_impl; [|exact F].
    intros y Hy. now rewrite (digit_not_space y Hy). }
  rewrite E, F. destruct w; [congruence|]. simpl. eauto.
Qed.

(** The word a group has read is the group's capture. *)
Lemma group_capture ic n r p c p' c' :
  matches ic (Group n r) p c p' c' ->
  exists w c1, reads p w p' /\ matches ic r p c p' c1 /\ c' = (n, w) :: c1.
Proof.
  cbn [matches]. intros (c1 & Hm & ->).
  destruct (matches_reads _ _ _ _ _ _ Hm) as (w & R).
  exists w, c1. split; [exact R|]. split; [exact Hm|].
  now rewrite (reads_firstn R).
Qed.

Lemma times_digit ic n p c p' c' :
  matches ic (times n digit) p c p' c' ->
  exists w, reads p w p' /\ forallb is_digit w = true /\ List.length w = n /\ c' = c.
Proof.
  unfold times, digit. cbn [matches]. intros H.
  apply iter_set in H. destruct H as (w & R & F & -> & Hlo & Hhi).
  exists w. split; [exact R|]. split.
  - eapply forallb_impl; [|exact F]. apply digit_ok.
  - split; [|reflexivity]. specialize (Hhi n eq_refl). lia.
Qed.

(** The year token of the asset block is four digits, so [int] does not
    raise on it. *)
Lemma year_capture text m :
  search true Patterns.YEAR text = Some m ->
  exists v, py_int (group 1 m) = Ok v.
Proof.
  intros H. apply search_sound in H.
  destruct H as (pre & w & post & p' & _ & Hm & _).
  unfold Patterns.YEAR in Hm.
  change (cat_all [word "YEAR"; star colon_space; Group 1 (times 4 digit)])
    with (Cat (word "YEAR") (Cat (star colon_space) (Group 1 (times 4 digit)))) in Hm.
  cbn [matches] in Hm.
  destruct Hm as (p1 & c1 & _ & p2 & c2 & _ & Hg).
  fold (matches true (Group 1 (times 4 digit)) p2 c2 p' (m_caps m)) in Hg.
  apply group_capture in Hg. destruct Hg as (wd & c3 & R & Ht & Ec).
  apply times_digit in Ht. destruct Ht as (wd' & R' & F & L & _).
  assert (wd' = wd) as ->.
  { rewrite <- (reads_firstn R), <- (reads_firstn R'). reflexivity. }
  unfold group. rewrite Ec. simpl.
  apply py_int_digits; [exact F|]. destruct wd; [discriminate|congruence].
Qed.

End PatternFacts.

(** ** The parsing helpers *)

Module ParseFacts.
Import Re ReSpec ReFacts SearchFacts StrFacts PatternFacts.


Lemma parse_date_loop_total s fmts : exists v, parse_date_loop s fmts = Ok v.
Proof.
  induction fmts as [|f fmts IH]; cbn [parse_date_loop]; [eauto|].
  destruct (Strptime.strptime (slice_to 10 s) f) as [d|[]]; cbn [bind try_except];
    [eauto | exact IH].
Qed.

(** When no format parses, the loop gives the no-value marker. *)
Lemma parse_date_loop_none s fmts :
  (forall f, In f fmts -> exists e, Strptime.strptime (slice_to 10 s) f = Raise e) ->
  parse_date_loop s fmts = Ok None.
Proof.
  induction fmts as [|f fmts IH]; cbn [parse_date_loop]; intros H; [reflexivity|].
  destruct (H f (or_introl eq_refl)) as ([] & E). rewrite E. cbn [bind try_except].
  apply IH. intros g Hg. apply H. now right.
Qed.

Lemma parse_date_total s : exists v, _parse_date s = Ok v.
Proof.
  unfold _parse_date. destruct s as [s|]; [|eauto].
  destruct (negb _ || negb _); [eauto|]. apply parse_date_loop_total.
Qed.

Lemma parse_float_total s : exists v, _parse_float s = Ok v.
Proof.
  unfold _parse_float. destruct s as [s|]; [|eauto].
  destruct (negb _); [eauto|].
  destruct (py_float (sub_non_numeric s)) as [x|[]]; simpl; eauto.
Qed.

Lemma parse_float_none s e :
  py_float (sub_non_numeric s) = Raise e -> _parse_float (Some s) = Ok None.
Proof.
  intros H. unfold _parse_float. destruct (negb _); [reflexivity|].
  rewrite H. destruct e. reflexivity.
Qed.

Lemma numeric_char a :
  negb (set_ok false true [IDigit; IChar "."%char] a) = true ->
  is_digit a || Ascii.eqb a "."%char = true.
Proof. destruct a as [[] [] [] [] [] [] [] []]; vm_compute; congruence. Qed.

(** What reaches [float] is made of digits and periods. *)
Lemma sub_non_numeric_chars s :
  forallb (fun c => is_digit c || Ascii.eqb c "."%char) (sub_non_numeric s) = true.
Proof.
  unfold sub_non_numeric. induction s as [|a s IH]; cbn [filter]; [reflexivity|].
  destruct (negb (set_ok false true [IDigit; IChar "."%char] a)) eqn:E; [|exact IH].
  cbn [forallb]. now rewrite IH, (numeric_char a E).
Qed.

End ParseFacts.

(** ** The extractor returns a record *)

Module ExtractFacts.
Import Re ReSpec ReFacts SearchFacts StrFacts PatternFacts ParseFacts.

Import Extract.

Lemma reads_unique p w1 w2 p' : reads p w1 p' -> reads p w2 p' -> w1 = w2.
Proof.
  intros R1 R2. rewrite <- (reads_firstn R1), <- (reads_firstn R2). reflexivity.
Qed.

Lemma lits_exact (l w : str) :
  Forall2 (fun x y => lit_ok false x y = true) l w -> w = l.
Proof.
  induction 1 as [|x y l w H _ IH]; [reflexivity|].
  simpl in H. apply Ascii.eqb_eq in H. subst. reflexivity.
Qed.

Lemma parse_year_total s : exists v, _parse_year s = Ok v.
Proof.
  unfold _parse_year. destruct s as [s|]; [|eauto].
  destruct (negb _); [eauto|].
  destruct (search false YEAR_TOKEN s) as [m|] eqn:E; [|eauto].
  apply search_sound in E.
  destruct E as (pre & w & post & p' & _ & Hm & R & Hw & _).
  unfold YEAR_TOKEN in Hm.
  change (cat_all [WordB; Group 1 (Alt (word "19") (word "20")); times 2 digit; WordB])
    with (Cat WordB (Cat (Group 1 (Alt (word "19") (word "20")))
                         (Cat (times 2 digit) WordB))) in Hm.
  cbn [matches] in Hm.
  destruct Hm as (p1 & c1 & (_ & -> & ->) & p2 & c2 & (c3 & Ha & ->) & p3 & c4 & Hd
                  & (_ & E3 & _)).
  subst p3.
  apply times_digit in Hd. destruct Hd as (wd & Rd & Fd & Ld & _).
  assert (Hy : exists wy, reads (pos_after pre (w ++ post)) wy p2
                 /\ forallb is_digit wy = true).
  { destruct Ha as [Ha|Ha];
      apply (matches_lits false) in Ha; try discriminate;
      destruct Ha as (wy & Ry & Fy & _); apply lits_exact in Fy; subst wy;
      eexists; (split; [exact Ry | reflexivity]). }
  destruct Hy as (wy & Ry & Fy).
  pose proof (reads_unique R (reads_trans Ry Rd)) as ->.
  unfold group. rewrite Hw.
  destruct (@py_int_digits (wy ++ wd)) as (v & Ev).
  - now rewrite forallb_app, Fy, Fd.
  - destruct wd; [discriminate|]. destruct wy; discriminate.
  - rewrite Ev. simpl. eauto.
Qed.

Lemma extract_date_time_total text lower :
  exists d t, extract_date_time text lower = Ok (d, t).
Proof.
  assert (Tail : forall (d : option date) (t : option str), exists d' t',
    match d with
    | Some _ => Ok (d, t)
    | None =>
        match search false Patterns.GENERIC_LOSS_DATE lower with
        | Some m => d' <- _parse_date (Some (group 1 m)) ;; Ok (d', t)
        | None => Ok (d, t)
        end
    end = Ok (d', t')).
  { intros d t. destruct d as [d|]; [eauto|].
    destruct (search false Patterns.GENERIC_LOSS_DATE lower) as [m|]; [|eauto].
    destruct (parse_date_total (Some (group 1 m))) as (v & ->). cbn [bind]. eauto. }
  unfold extract_date_time.
  destruct (search true Patterns.DATE_OF_LOSS_AND_TIME text) as [m|].
  - cbv zeta. destruct (search false Patterns.DATE_TOKEN (group 1 m)) as [d|].
    + destruct (parse_date_total (Some (group 1 d))) as (v & ->). cbn [bind].
      apply (Tail v).
    + cbn [bind]. apply (Tail None).
  - cbn [bind]. apply (Tail None).
Qed.

Lemma extract_asset_total text : exists a, extract_asset text = Ok a.
Proof.
  unfold extract_asset. cbv zeta.
  destruct (is_some _ || is_some _ || is_some _ || is_some _ || is_some _); [|eauto].
  destruct (search true Patterns.YEAR text) as [m|] eqn:Ey.
  - destruct (year_capture _ Ey) as (v & ->). cbn [bind].
    destruct (search_estimate text) as [me|].
    + destruct (parse_float_total (Some (group 1 me))) as (x & ->). cbn [bind]. eauto.
    + cbn [bind]. eauto.
  - cbn [bind].
    destruct (search_estimate text) as [me|].
    + destruct (parse_float_total (Some (group 1 me))) as (x & ->). cbn [bind]. eauto.
    + cbn [bind]. eauto.
Qed.

(** The record in terms of the blocks of the extractor; in particular the
    extractor returns a record for every text. *)
Lemma extract_shape text :
  exists date time asset,
    extract_date_time text (str_lower text) = Ok (date, time)
    /\ extract_asset text = Ok asset
    /\ _extract_from_raw_text text =
       Ok (let lower := str_lower text in
           let policyholder_name := extract_policyholder_name text lower in
           let csz := extract_city_state_zip text in
           let description := extract_description text lower in
           let claimant :=
             extract_contact text (extract_claimant text policyholder_name) in
           let asset := option_map sync_estimates asset in
           ExtractedFields.mk
             (PolicyInfo.mk (extract_policy_number text lower) policyholder_name
                None None)
             (IncidentInfo.mk date time
                (location_fallback text (extract_location_street text) csz)
                csz (extract_country text) description)
             claimant [] claimant asset
             (Some (infer_claim_type description lower (str_upper text)))
             (extract_attachments lower)
             (match asset with
              | Some a => AssetDetails.initial_estimate a
              | None => None
              end)).
Proof.
  destruct (extract_date_time_total text (str_lower text)) as (d & t & Ed).
  destruct (extract_asset_total text) as (a & Ea).
  exists d, t, a. split; [exact Ed|]. split; [exact Ea|].
  unfold _extract_from_raw_text. cbv zeta. rewrite Ed. cbn [bind]. rewrite Ea.
  cbn [bind]. destruct a; reflexivity.
Qed.

Lemma extract_total text : exists e, _extract_from_raw_text text = Ok e.
Proof. destruct (extract_shape text) as (d & t & a & _ & _ & E). eauto. Qed.

End ExtractFacts.

(** ** The mandatory field checker *)

Module RoutingFacts.
Import StrFacts.

Import Routing Spec.

Lemma truthy_nonblank o :
  truthy_str o && truthy_str (option_map strip o) = nonblank o.
Proof.
  destruct o as [s|]; [|reflexivity]. cbn [option_map nonblank].
  rewrite truthy_strip_iff. destruct s; reflexivity.
Qed.

Lemma nonblank_or_empty o :
  truthy_str (Some (strip (or_empty o))) = nonblank o.
Proof.
  destruct o as [s|]; cbn [or_empty nonblank]; [apply truthy_strip_iff | reflexivity].
Qed.

Lemma location_nonblank street csz :
  truthy_str
    (Some match strip (or_empty street) with
          | c :: s => c :: s
          | [] => strip (or_empty csz)
          end)
  = nonblank street || nonblank csz.
Proof.
  rewrite <- !nonblank_or_empty.
  destruct (strip (or_empty street)); reflexivity.
Qed.

Lemma missing_damage_precedence e : missing_damage e = damage_by_precedence e.
Proof.
  unfold missing_damage, damage_by_precedence.
  destruct (ExtractedFields.initial_estimate e), (ExtractedFields.asset e); auto.
Qed.

Lemma route_damage_precedence e : route_damage e = damage_by_precedence e.
Proof.
  unfold route_damage, damage_by_precedence.
  destruct (ExtractedFields.initial_estimate e), (ExtractedFields.asset e); auto.
Qed.

(** The missing list is the presence table filtered, in order. *)
Lemma missing_as_filter e :
  get_missing_mandatory_fields e
  = map fst (filter (fun x => negb (snd x)) (presence e)).
Proof.
  unfold get_missing_mandatory_fields, presence. cbv zeta.
  rewrite !truthy_nonblank, location_nonblank, missing_damage_precedence.
  destruct (nonblank (PolicyInfo.policy_number (ExtractedFields.policy e)));
  destruct (nonblank (PolicyInfo.policyholder_name (ExtractedFields.policy e)));
  destruct (is_some (IncidentInfo.date (ExtractedFields.incident e)));
  destruct (nonblank (IncidentInfo.location_street (ExtractedFields.incident e))
            || nonblank (IncidentInfo.location_city_state_zip (ExtractedFields.incident e)));
  destruct (nonblank (IncidentInfo.description (ExtractedFields.incident e)));
  destruct (nonblank (ExtractedFields.claim_type e));
  destruct (is_some (damage_by_precedence e));
  reflexivity.
Qed.

Lemma filter_nil_iff {A} (f : A -> bool) l :
  filter f l = [] <-> forall x, In x l -> f x = false.
Proof.
  induction l as [|a l IH]; simpl.
  - split; [intros _ x []| reflexivity].
  - destruct (f a) eqn:E.
    + split; [discriminate|]. intros H. specialize (H a (or_introl eq_refl)). congruence.
    + rewrite IH. split.
      * intros H x [<-|Hx]; auto.
      * intros H x Hx. apply H. now right.
Qed.

End RoutingFacts.

(** ** The investigation keywords *)

Module KeywordFacts.
Import Re ReSpec ReFacts SearchFacts StrFacts ExtractFacts.

Import Spec.

Lemma lower_char_idem y : lower_char (lower_char y) = lower_char y.
Proof. destruct y as [[] [] [] [] [] [] [] []]; reflexivity. Qed.

Lemma lower_of_lower x : is_lower x = true -> lower_char x = x.
Proof. destruct x as [[] [] [] [] [] [] [] []]; vm_compute; congruence. Qed.

Lemma lowered_letter_word y : is_lower (lower_char y) = true -> is_word y = true.
Proof. destruct y as [[] [] [] [] [] [] [] []]; vm_compute; congruence. Qed.

Lemma lowered_letter_not_space y : is_lower (lower_char y) = true -> is_space y = false.
Proof. destruct y as [[] [] [] [] [] [] [] []]; vm_compute; congruence. Qed.

Lemma space_not_word y : is_space y = true -> is_word y = false.
Proof. destruct y as [[] [] [] [] [] [] [] []]; vm_compute; congruence. Qed.

(** Under IGNORECASE a lower-case word matches the words that lower to it. *)
Lemma lits_ignorecase (kw w : str) :
  forallb is_lower kw = true ->
  (Forall2 (fun x y => lit_ok true x y = true) kw w <-> str_lower w = kw).
Proof.
  revert w. induction kw as [|x kw IH]; intros w Hl.
  - split.
    + intros H; inversion H; reflexivity.
    + destruct w; [constructor | discriminate].
  - simpl in Hl. apply andb_true_iff in Hl. destruct Hl as [Hx Hl]. split.
    + intros H. inversion H as [|? y ? w' Hok F]; subst.
      simpl. f_equal.
      * unfold lit_ok in Hok. apply Ascii.eqb_eq in Hok.
        rewrite <- Hok. now apply lower_of_lower.
      * now apply IH.
    + destruct w as [|y w]; [discriminate|]. simpl. intros H. inversion H; subst.
      constructor.
      * unfold lit_ok. rewrite lower_char_idem. apply Ascii.eqb_refl.
      * apply IH; [exact Hl | reflexivity].
Qed.

Lemma word_matches_iff (kw : str) p c p' c' :
  kw <> [] -> forallb is_lower kw = true ->
  (matches true (cat_all (map Lit kw)) p c p' c'
   <-> exists w, reads p w p' /\ str_lower w = kw /\ c' = c).
Proof.
  intros Hne Hl. rewrite (matches_lits true p c p' c' Hne). split.
  - intros (w & R & F & E). exists w. split; [exact R|]. split; [|exact E].
    now apply lits_ignorecase.
  - intros (w & R & F & E). exists w. split; [exact R|]. split; [|exact E].
    now apply lits_ignorecase.
Qed.

Lemma last_char_cons_default (w : str) d1 d2 :
  w <> [] -> last_char w d1 = last_char w d2.
Proof.
  intros H. unfold last_char. destruct (rev w) eqn:E; [|reflexivity].
  apply (f_equal (@rev ascii)) in E. rewrite rev_involutive in E. contradiction.
Qed.

Lemma last_char_some (w : str) d :
  w <> [] -> exists w' z, w = w' ++ [z] /\ last_char w d = Some z.
Proof.
  intros H. destruct (exists_last H) as (w' & z & ->).
  exists w', z. split; [reflexivity|]. apply last_char_snoc.
Qed.

(** A word that lowers to a non-empty lower-case keyword starts and ends
    with a letter. *)
Lemma lowers_to_ends (kw w : str) :
  kw <> [] -> forallb is_lower kw = true -> str_lower w = kw ->
  exists a w1 w2 z, w = a :: w1 /\ w = w2 ++ [z]
    /\ is_lower (lower_char a) = true /\ is_lower (lower_char z) = true.
Proof.
  intros Hne Hl E. subst kw.
  destruct w as [|a w1]; [contradiction|].
  destruct (@exists_last _ (a :: w1)) as (w2 & z & Ez); [discriminate|].
  exists a, w1, w2, z. split; [reflexivity|]. split; [exact Ez|].
  split.
  - simpl in Hl. now apply andb_true_iff in Hl.
  - rewrite Ez in Hl. unfold str_lower in Hl. rewrite map_app, forallb_app in Hl.
    simpl in Hl. apply andb_true_iff in Hl. destruct Hl as [_ Hl].
    now apply andb_true_iff in Hl.
Qed.

(** The keyword pattern, with its sequence spelled out. *)
Lemma keywords_tree :
  Patterns.INVESTIGATION_KEYWORDS
  = Cat WordB
      (Cat (Group 1 (Alt (word "fraud") (Alt (word "inconsistent") (word "staged"))))
           WordB).
Proof. reflexivity. Qed.

Lemma keyword_cases (kw : str) :
  In kw KEYWORDS -> kw <> [] /\ forallb is_lower kw = true.
Proof.
  intros [<-|[<-|[<-|[]]]]; split; try discriminate; reflexivity.
Qed.

Lemma keyword_alt p c p' c' :
  matches true (Alt (word "fraud") (Alt (word "inconsistent") (word "staged"))) p c p' c'
  <-> exists w, reads p w p' /\ In (str_lower w) KEYWORDS /\ c' = c.
Proof.
  cbn [matches]. unfold word.
  rewrite !word_matches_iff by (try discriminate; reflexivity).
  split.
  - intros [H|[H|H]]; destruct H as (w & R & E & Ec); exists w;
      (split; [exact R|]); (split; [|exact Ec]); rewrite E; simpl; auto.
  - intros (w & R & Hin & Ec).
    destruct Hin as [E|[E|[E|[]]]]; [left|right; left|right; right];
      exists w; (split; [exact R|]); (split; [|exact Ec]); symmetry; exact E.
Qed.

Lemma search_keyword_iff (desc : str) :
  is_some (search true Patterns.INVESTIGATION_KEYWORDS desc) = true
  <-> keyword_occurs desc.
Proof.
  rewrite keywords_tree. split.
  - destruct (search true _ desc) as [m|] eqn:E; [|discriminate]. intros _.
    apply search_sound in E.
    destruct E as (pre & w & post & p' & -> & Hm & R & _).
    cbn [matches] in Hm.
    destruct Hm as (p1 & c1 & (Hb1 & -> & ->) & p2 & c2 & (c3 & Ha & _) & Hb2 & E2 & _).
    subst p2.
    apply keyword_alt in Ha. destruct Ha as (w' & R' & Hin & _).
    pose proof (reads_unique R R') as <-.
    exists pre, w, post. split; [reflexivity|]. split; [exact Hin|].
    destruct (keyword_cases Hin) as (Hne & Hl).
    destruct (@lowers_to_ends (str_lower w) w Hne Hl eq_refl) as (a & w1 & w2 & z & Ea & Ez & La & Lz).
    split.
    + unfold no_word_before. unfold word_before, word_after, pos_after in Hb1.
      simpl in Hb1. rewrite Ea in Hb1. simpl in Hb1.
      rewrite (lowered_letter_word a La) in Hb1.
      destruct (last_char pre None); [|exact I].
      destruct (is_word a0); [discriminate | reflexivity].
    + unfold no_word_after. destruct R as (R1 & _ & R3).
      simpl in R1. apply app_inv_head in R1.
      unfold word_before, word_after in Hb2. rewrite R3, <- R1 in Hb2.
      replace (last_char w (p_prev (pos_after pre (w ++ post)))) with (Some z) in Hb2
        by (rewrite Ez at 1; symmetry; apply last_char_snoc).
      rewrite (lowered_letter_word z Lz) in Hb2.
      destruct post as [|b post]; [exact I|].
      destruct (is_word b); [discriminate | reflexivity].
  - intros (pre & w & post & -> & Hin & Hb & Ha).
    destruct (keyword_cases Hin) as (Hne & Hl).
    destruct (@lowers_to_ends (str_lower w) w Hne Hl eq_refl) as (a & w1 & w2 & z & Ea & Ez & La & Lz).
    set (p0 := pos_after pre (w ++ post)).
    set (p' := mkPos (List.length pre + List.length w)
                 (last_char w (last_char pre None)) post).
    assert (R : reads p0 w p').
    { unfold reads, p0, p', pos_after; simpl. auto. }
    assert (Hm : matches true
                   (Cat WordB
                      (Cat (Group 1 (Alt (word "fraud")
                                       (Alt (word "inconsistent") (word "staged"))))
                           WordB)) p0 []
                   p' [(1, firstn (p_off p' - p_off p0) (p_rest p0))]).
    { cbn [matches].
      exists p0, []. split.
      - split; [|auto]. unfold word_before, word_after, p0, pos_after. simpl.
        rewrite Ea. simpl. rewrite (lowered_letter_word a La).
        unfold no_word_before in Hb. destruct (last_char pre None); [|reflexivity].
        now rewrite Hb.
      - exists p', [(1, firstn (p_off p' - p_off p0) (p_rest p0))]. split.
        + exists []. split; [|reflexivity].
          apply keyword_alt. exists w. auto.
        + split; [|auto]. unfold word_before, word_after, p'. simpl.
          replace (last_char w (last_char pre None)) with (Some z)
            by (rewrite Ez; symmetry; apply last_char_snoc).
          rewrite (lowered_letter_word z Lz).
          unfold no_word_after in Ha. destruct post as [|b post]; [reflexivity|].
          now rewrite Ha. }
    apply search_complete in Hm.
    destruct (search true _ (pre ++ w ++ post)); [reflexivity | contradiction].
Qed.

Lemma rstrip_split s :
  exists ws, s = rstrip s ++ ws /\ forallb is_space ws = true.
Proof.
  destruct (lstrip_split (rev s)) as (ws & E & F).
  exists (rev ws). split.
  - unfold rstrip. rewrite <- rev_app_distr, <- E. symmetry. apply rev_involutive.
  - now rewrite forallb_rev.
Qed.

Lemma strip_split s :
  exists ws1 ws2, s = ws1 ++ strip s ++ ws2
    /\ forallb is_space ws1 = true /\ forallb is_space ws2 = true.
Proof.
  destruct (lstrip_split s) as (ws1 & E1 & F1).
  destruct (rstrip_split (lstrip s)) as (ws2 & E2 & F2).
  exists ws1, ws2. split; [|auto]. unfold strip. rewrite <- E2. exact E1.
Qed.

Lemma strip_around pre w post a w1 w2 z :
  w = a :: w1 -> w = w2 ++ [z] -> is_space a = false -> is_space z = false ->
  strip (pre ++ w ++ post) = lstrip pre ++ w ++ rstrip post.
Proof.
  intros Ea Ez Ha Hz. unfold strip.
  rewrite Ea at 1. simpl. rewrite lstrip_app_keep by exact Ha.
  change (a :: w1 ++ post) with ((a :: w1) ++ post). rewrite <- Ea, Ez.
  rewrite <- app_assoc. simpl. rewrite app_assoc.
  rewrite rstrip_app_keep by exact Hz. rewrite <- !app_assoc. reflexivity.
Qed.

Lemma no_word_after_spaces ws : forallb is_space ws = true -> no_word_after ws.
Proof.
  unfold no_word_after. destruct ws as [|c ws]; [auto|]. simpl.
  intros H. apply andb_true_iff in H. destruct H as [H _]. now apply space_not_word.
Qed.

Lemma no_word_before_spaces ws : forallb is_space ws = true -> no_word_before ws.
Proof.
  unfold no_word_before. intros H.
  destruct ws as [|c ws]; [exact I|].
  destruct (@last_char_some (c :: ws) None) as (w' & z & E & ->); [discriminate|].
  rewrite E, forallb_app in H. simpl in H.
  apply andb_true_iff in H. destruct H as [_ H].
  apply andb_true_iff in H. destruct H as [H _]. now apply space_not_word.
Qed.

Lemma no_word_before_app ws pre :
  no_word_before ws -> no_word_before pre -> no_word_before (ws ++ pre).
Proof.
  unfold no_word_before. intros H1 H2. rewrite last_char_app.
  destruct pre as [|c pre]; [exact H1|].
  now rewrite (@last_char_cons_default (c :: pre) _ None) by discriminate.
Qed.

Lemma no_word_after_app post ws :
  no_word_after ws -> no_word_after post -> no_word_after (post ++ ws).
Proof. unfold no_word_after. intros H1 H2. destruct post; [exact H1 | exact H2]. Qed.

Lemma no_word_before_lstrip pre : no_word_before pre -> no_word_before (lstrip pre).
Proof.
  destruct (lstrip_split pre) as (ws & E & F). unfold no_word_before. intros H.
  destruct (lstrip pre) as [|c l] eqn:El; [exact I|].
  rewrite E, last_char_app in H.
  now rewrite (@last_char_cons_default (c :: l) _ None) in H by discriminate.
Qed.

Lemma no_word_after_rstrip post : no_word_after post -> no_word_after (rstrip post).
Proof.
  destruct (rstrip_split post) as (ws & E & F). unfold no_word_after. intros H.
  destruct (rstrip post) as [|c l] eqn:El; [exact I|].
  rewrite E in H. exact H.
Qed.

(** Trimming the description does not change the keywords it holds. *)
Lemma keyword_occurs_strip (desc : str) :
  keyword_occurs (strip desc) <-> keyword_occurs desc.
Proof.
  split.
  - intros (pre & w & post & E & Hin & Hb & Ha).
    destruct (strip_split desc) as (ws1 & ws2 & Ed & F1 & F2).
    exists (ws1 ++ pre), w, (post ++ ws2). split.
    + rewrite Ed, E. now rewrite <- !app_assoc.
    + split; [exact Hin|]. split.
      * apply no_word_before_app; [now apply no_word_before_spaces | exact Hb].
      * apply no_word_after_app; [now apply no_word_after_spaces | exact Ha].
  - intros (pre & w & post & -> & Hin & Hb & Ha).
    destruct (keyword_cases Hin) as (Hne & Hl).
    destruct (@lowers_to_ends (str_lower w) w Hne Hl eq_refl)
      as (a & w1 & w2 & z & Ea & Ez & La & Lz).
    exists (lstrip pre), w, (rstrip post). split.
    + apply (@strip_around pre w post a w1 w2 z Ea Ez);
        [now apply lowered_letter_not_space | now apply lowered_letter_not_space].
    + split; [exact Hin|]. split.
      * now apply no_word_before_lstrip.
      * now apply no_word_after_rstrip.
Qed.

End KeywordFacts.

(** ** The classifier *)

Module ClassifierFacts.
Import Re ReSpec ReFacts SearchFacts StrFacts PatternFacts.

Import Spec.

Lemma str_eqb_eq a b : str_eqb a b = true <-> a = b.
Proof.
  revert b. induction a as [|x a IH]; destruct b as [|y b]; simpl;
    try (split; [discriminate | congruence]); [tauto|].
  rewrite andb_true_iff, Ascii.eqb_eq, IH. split.
  - intros [-> ->]. reflexivity.
  - intros H; inversion H; auto.
Qed.

Lemma str_in_iff s l : str_in s l = true <-> In s l.
Proof.
  unfold str_in. rewrite existsb_exists. split.
  - intros (x & Hx & E). apply str_eqb_eq in E. now subst.
  - intros H. exists s. split; [exact H|]. now apply str_eqb_eq.
Qed.

Lemma starts_with_refl_app a b : starts_with a (a ++ b) = true.
Proof. induction a as [|x a IH]; simpl; [reflexivity|]. now rewrite Ascii.eqb_refl. Qed.

Lemma starts_with_split a s : starts_with a s = true -> exists r, s = a ++ r.
Proof.
  revert s. induction a as [|x a IH]; intros s H; [exists s; reflexivity|].
  destruct s as [|y s]; [discriminate|]. simpl in H.
  apply andb_true_iff in H. destruct H as [E H]. apply Ascii.eqb_eq in E. subst y.
  destruct (IH _ H) as (r & ->). exists r. reflexivity.
Qed.

Lemma contains_unfold sub s :
  contains sub s
  = starts_with sub s || match s with [] => false | _ :: s' => contains sub s' end.
Proof. destruct s; reflexivity. Qed.

(** [contains] decides occurrence. *)
Lemma contains_iff sub s : contains sub s = true <-> occurs sub s.
Proof.
  split.
  - induction s as [|y s IH]; simpl; intros H.
    + rewrite orb_false_r in H. apply starts_with_split in H. destruct H as (r & E).
      exists [], r. exact E.
    + apply orb_true_iff in H. destruct H as [H|H].
      * apply starts_with_split in H. destruct H as (r & E). exists [], r. exact E.
      * destruct (IH H) as (l & r & ->). exists (y :: l), r. reflexivity.
  - intros (l & r & ->). induction l as [|y l IH]; simpl.
    + rewrite contains_unfold, starts_with_refl_app. reflexivity.
    + rewrite IH. apply orb_true_r.
Qed.

Lemma count_contains c s : 0 < count_char c s -> contains [c] s = true.
Proof.
  unfold count_char. induction s as [|y s IH]; [simpl; lia|].
  rewrite contains_unfold. cbn [filter starts_with].
  destruct (Ascii.eqb c y) eqn:E.
  - intros _. reflexivity.
  - intros H. rewrite (IH H). apply orb_true_r.
Qed.

Lemma punct_set y :
  set_ok false false [ISpace; IChar "."%char; IChar ":"%char; IChar "-"%char] y
  = is_punct y.
Proof. destruct y as [[] [] [] [] [] [] [] []]; reflexivity. Qed.

(** A run of set members is read whole by the repetition. *)
Lemma iter_set_run ic negated items lo (w : str) : forall n off prev rest c,
  forallb (set_ok ic negated items) w = true ->
  lo <= n + List.length w ->
  iter (matches ic (Set_ negated items)) lo None n
    (mkPos off prev (w ++ rest)) c
    (mkPos (off + List.length w) (last_char w prev) rest) c.
Proof.
  induction w as [|y w IH]; intros n off prev rest c F Hlo.
  - simpl. rewrite Nat.add_0_r. apply iter_stop. simpl in Hlo. lia.
  - simpl in F. apply andb_true_iff in F. destruct F as [Fy F].
    eapply iter_more with (p1 := mkPos (S off) (Some y) (w ++ rest)) (c1 := c).
    + right. exact I.
    + cbn [matches]. exists y. auto.
    + right. simpl. lia.
    + replace (off + List.length (y :: w)) with (S off + List.length w) by (simpl; lia).
      replace (last_char (y :: w) prev) with (last_char w (Some y)).
      * apply IH; [exact F | simpl in Hlo; lia].
      * change (y :: w) with ([y] ++ w). now rewrite last_char_app.
Qed.

Lemma only_punctuation_matches (s : str) :
  s <> [] -> forallb is_punct s = true ->
  is_some (match_ false Patterns.ONLY_PUNCTUATION s) = true.
Proof.
  intros Hne F.
  assert (Hm : matches false Patterns.ONLY_PUNCTUATION (mkPos 0 None s) []
                 (mkPos (0 + List.length s) (last_char s None) []) []).
  { unfold Patterns.ONLY_PUNCTUATION.
    change (cat_all [Bol; plus (Set_ false [ISpace; IChar "."%char; IChar ":"%char; IChar "-"%char]); Eol])
      with (Cat Bol (Cat (plus (Set_ false [ISpace; IChar "."%char; IChar ":"%char; IChar "-"%char])) Eol)).
    cbn [matches]. exists (mkPos 0 None s), []. split; [auto|].
    exists (mkPos (0 + List.length s) (last_char s None) []), []. split; [|auto].
    unfold plus. cbn [matches].
    rewrite <- (app_nil_r s) at 1. apply iter_set_run.
    - eapply forallb_impl; [|exact F]. intros y Hy. now rewrite punct_set.
    - destruct s; [congruence | simpl; lia]. }
  unfold match_. apply match_here_complete in Hm.
  destruct (match_here false Patterns.ONLY_PUNCTUATION (mkPos 0 None s));
    [reflexivity | contradiction].
Qed.

Lemma space_is_punct s : forallb is_space s = true -> forallb is_punct s = true.
Proof.
  apply forallb_impl. intros y H. unfold is_punct. now rewrite H.
Qed.

Lemma rejects_punctuation s n :
  forallb is_punct s = true -> _is_form_label_or_placeholder (Some s) n = true.
Proof.
  intros F. classify. exfalso.
  match goal with
  | H : negb _ || negb (truthy_str (Some (strip s))) = false |- _ =>
      apply orb_false_iff in H; destruct H as [_ Ht]
  end.
  match goal with
  | H : str_in _ _ || _ = false |- _ =>
      apply orb_false_iff in H; destruct H as [_ H']
  end.
  apply negb_false_iff in Ht.
  rewrite only_punctuation_matches in H'; [discriminate| |].
  - destruct (strip s); [discriminate | discriminate].
  - now apply strip_forallb.
Qed.

Lemma rejects_blob s n :
  n < List.length (strip s) -> 2 < count_char newline (strip s) ->
  _is_form_label_or_placeholder (Some s) n = true.
Proof.
  intros H1 H2. classify. exfalso.
  match goal with
  | H : (n <? _) && _ && _ = false |- _ => rename H into Hb
  end.
  rewrite (proj2 (Nat.ltb_lt _ _) H1), (proj2 (Nat.ltb_lt _ _) H2) in Hb.
  rewrite count_contains in Hb by lia. discriminate.
Qed.

Lemma rejects_label s n :
  is_some (match_ true Patterns._LABEL_PATTERNS (strip s)) = true ->
  _is_form_label_or_placeholder (Some s) n = true.
Proof. intros H. classify. congruence. Qed.

Lemma rejects_fragment s n sub :
  In sub _LABEL_SUBSTRINGS -> occurs sub (str_lower (strip s)) ->
  _is_form_label_or_placeholder (Some s) n = true.
Proof.
  intros Hin Ho. classify. exfalso.
  match goal with
  | H : existsb _ _LABEL_SUBSTRINGS = false |- _ => rename H into He
  end.
  assert (existsb (fun sub => contains sub (str_lower (strip s))) _LABEL_SUBSTRINGS = true).
  { apply existsb_exists. exists sub. split; [exact Hin|]. now apply contains_iff. }
  congruence.
Qed.

Lemma rejects_placeholder s n :
  In (str_lower (strip s)) PLACEHOLDER_WORDS ->
  _is_form_label_or_placeholder (Some s) n = true.
Proof.
  intros Hin. classify. exfalso.
  apply str_in_iff in Hin. unfold PLACEHOLDER_WORDS in Hin. congruence.
Qed.

Lemma rejects_caps s n :
  In (str_upper (strip s)) PLACEHOLDER_CAPS ->
  _is_form_label_or_placeholder (Some s) n = true.
Proof.
  intros Hin. classify. exfalso.
  match goal with
  | H : _ || _ || _ = false |- _ =>
      apply orb_false_iff in H; destruct H as [H H3];
      apply orb_false_iff in H; destruct H as [H1 H2]
  end.
  destruct Hin as [E|[E|[E|[]]]]; symmetry in E; apply str_eqb_eq in E; congruence.
Qed.

(** An accepted value is not blank, and in particular not empty. *)
Lemma accepted_nonblank v n :
  _is_form_label_or_placeholder (Some v) n = false ->
  forallb is_space v = false /\ v <> [].
Proof.
  intros H. destruct (forallb is_space v) eqn:F.
  - rewrite rejects_punctuation in H; [discriminate|]. now apply space_is_punct.
  - split; [reflexivity|]. intros ->. discriminate.
Qed.

End ClassifierFacts.

(** ** Captures stored without the classifier *)

Module CaptureFacts.
Import Re ReSpec ReFacts SearchFacts StrFacts PatternFacts ExtractFacts.

Import Spec Extract.

Lemma strip_nonempty (w : str) x rest :
  w = x :: rest -> is_space x = false -> strip w <> [].
Proof.
  intros -> Hx H. apply strip_nil_iff in H. simpl in H. now rewrite Hx in H.
Qed.

(** The last component of a sequence ends where the sequence ends. *)
Lemma matches_cat_all_last ic (rs : list regex) r : forall p c p' c',
  matches ic (cat_all (rs ++ [r])) p c p' c' ->
  exists q d, matches ic r q d p' c'.
Proof.
  induction rs as [|r0 rs IH]; intros p c p' c' H.
  - exists p, c. exact H.
  - destruct rs as [|r1 rs].
    + simpl in H. destruct H as (p1 & c1 & _ & H). eauto.
    + change (cat_all ((r0 :: r1 :: rs) ++ [r]))
        with (Cat r0 (cat_all ((r1 :: rs) ++ [r]))) in H.
      cbn [matches] in H. destruct H as (p1 & c1 & _ & H). eapply IH; eauto.
Qed.

(** A set repeated at least once reads a non-empty word of its members. *)
Lemma iter_set_first ic negated items lo hi p c p' c' :
  0 < lo ->
  iter (matches ic (Set_ negated items)) lo hi 0 p c p' c' ->
  exists y w, reads p (y :: w) p' /\ set_ok ic negated items y = true /\ c' = c.
Proof.
  intros Hlo H. apply iter_set in H. destruct H as (w & R & F & E & Hlen & _).
  destruct w as [|y w]; [simpl in Hlen; lia|].
  simpl in F. apply andb_true_iff in F. destruct F as [Fy _].
  exists y, w. auto.
Qed.

Lemma reads_cons_app p y w p1 w2 p' :
  reads p (y :: w) p1 -> reads p1 w2 p' -> reads p (y :: w ++ w2) p'.
Proof. intros R1 R2. apply (reads_trans R1 R2). Qed.

Lemma group1_of_caps m w c1 : m_caps m = (1, w) :: c1 -> group 1 m = w.
Proof. intros E. unfold group. rewrite E. reflexivity. Qed.

Lemma email_char y :
  set_ok true true [ISpace; IChar newline; IChar "@"%char] y = true ->
  is_space y = false.
Proof. destruct y as [[] [] [] [] [] [] [] []]; vm_compute; congruence. Qed.

Lemma vin_char y :
  set_ok true false
    [IRange "A" "H"; IRange "J" "N"; IChar "P"; IRange "R" "Z"; IRange "0" "9"]%char y
  = true -> is_space y = false.
Proof. destruct y as [[] [] [] [] [] [] [] []]; vm_compute; congruence. Qed.

(** The captured e-mail address is not blank. *)
Lemma email_capture text m :
  search true Patterns.PRIMARY_EMAIL text = Some m -> capture m <> [].
Proof.
  intros H. apply search_sound in H.
  destruct H as (pre & w & post & p' & _ & Hm & _).
  unfold Patterns.PRIMARY_EMAIL in Hm.
  match type of Hm with
  | matches _ (cat_all [?a; ?b; ?c; ?d; ?e; ?g]) _ _ _ _ =>
      change (cat_all [a; b; c; d; e; g]) with (cat_all ([a; b; c; d; e] ++ [g])) in Hm
  end.
  apply matches_cat_all_last in Hm. destruct Hm as (q & d & Hm).
  apply group_capture in Hm. destruct Hm as (wg & c1 & R & Hb & Ec).
  match type of Hb with
  | matches _ (cat_all [?a; ?b; ?c]) _ _ _ _ =>
      change (cat_all [a; b; c]) with (Cat a (Cat b c)) in Hb
  end.
  cbn [matches] in Hb. destruct Hb as (p1 & c2 & H1 & p2 & c3 & H2 & H3).
  apply iter_set_first in H1; [|lia]. destruct H1 as (y & w1 & R1 & Hy & _).
  assert (R2 : exists w2, reads p1 w2 p').
  { destruct H2 as (z & Hz & _). apply advance_reads in Hz.
    apply iter_set in H3. destruct H3 as (w3 & R3 & _).
    exists ([z] ++ w3). apply (reads_trans Hz R3). }
  destruct R2 as (w2 & R2).
  pose proof (reads_unique R (reads_cons_app R1 R2)) as ->.
  unfold capture. rewrite (group1_of_caps m Ec).
  eapply strip_nonempty; [reflexivity|]. now apply email_char.
Qed.

(** The captured VIN is not blank. *)
Lemma vin_capture text m :
  search true Patterns.VIN text = Some m -> capture m <> [].
Proof.
  intros H. apply search_sound in H.
  destruct H as (pre & w & post & p' & _ & Hm & _).
  unfold Patterns.VIN in Hm.
  match type of Hm with
  | matches _ (cat_all [?a; ?b; ?c; ?d; ?e; ?f; ?g; ?h]) _ _ _ _ =>
      change (cat_all [a; b; c; d; e; f; g; h])
        with (cat_all ([a; b; c; d; e; f; g] ++ [h])) in Hm
  end.
  apply matches_cat_all_last in Hm. destruct Hm as (q & d & Hm).
  apply group_capture in Hm. destruct Hm as (wg & c1 & R & Hb & Ec).
  unfold times in Hb. cbn [matches] in Hb.
  apply iter_set_first in Hb; [|lia]. destruct Hb as (y & w1 & R1 & Hy & _).
  pose proof (reads_unique R R1) as ->.
  unfold capture. rewrite (group1_of_caps m Ec).
  eapply strip_nonempty; [reflexivity|]. now apply vin_char.
Qed.

(** The captured time starts with a digit, so it is not blank. *)
Lemma time_capture part t :
  search true Patterns.TIME_TOKEN part = Some t -> strip (group 1 t) <> [].
Proof.
  intros H. apply search_sound in H.
  destruct H as (pre & w & post & p' & _ & Hm & _).
  unfold Patterns.TIME_TOKEN in Hm.
  apply group_capture in Hm. destruct Hm as (wg & c1 & R & Hb & Ec).
  assert (Hd : exists y w1 p1 cx, reads (pos_after pre (w ++ post)) (y :: w1) p1
                 /\ set_ok true false [IDigit] y = true
                 /\ exists r, matches true r p1 cx p' c1).
  { match type of Hb with
    | matches _ (alt_all [cat_all (?d1 :: ?t1); cat_all (?d2 :: ?t2); cat_all (?d3 :: ?t3)])
        _ _ _ _ =>
        change (alt_all [cat_all (d1 :: t1); cat_all (d2 :: t2); cat_all (d3 :: t3)])
          with (Alt (Cat d1 (cat_all t1))
                  (Alt (Cat d2 (cat_all t2)) (Cat d3 (cat_all t3)))) in Hb
    end.
    cbn [matches] in Hb.
    destruct Hb as [Hb|[Hb|Hb]]; destruct Hb as (p1 & c2 & H1 & H2);
      unfold between in H1; cbn [matches] in H1;
      (apply iter_set_first in H1; [|lia]); destruct H1 as (y & w1 & R1 & Hy & _);
      exists y, w1, p1, c2; (split; [exact R1|]); (split; [exact Hy|]); eauto. }
  destruct Hd as (y & w1 & p1 & cx & R1 & Hy & r & Hr).
  destruct (matches_reads _ _ _ _ _ _ Hr) as (w2 & R2).
  pose proof (reads_unique R (reads_cons_app R1 R2)) as ->.
  rewrite (group1_of_caps t Ec).
  eapply strip_nonempty; [reflexivity|]. now apply digit_not_space, (digit_ok true).
Qed.

End CaptureFacts.

(** ** What a pattern can read *)

Module ShapeFacts.
Import Re ReSpec ReFacts SearchFacts StrFacts PatternFacts ExtractFacts.
Import ClassifierFacts CaptureFacts Shape Spec.

Lemma in_all_chars y : existsb (Ascii.eqb y) all_chars = true.
Proof. destruct y as [[] [] [] [] [] [] [] []]; vm_compute; reflexivity. Qed.

Lemma any_char_intro (f : ascii -> bool) y : f y = true -> any_char f = true.
Proof.
  intros H. unfold any_char. apply existsb_exists.
  pose proof (in_all_chars y) as Hy. apply existsb_exists in Hy.
  destruct Hy as (z & Hz & E). apply Ascii.eqb_eq in E. subst z. eauto.
Qed.

Section Static.
Variable ic : bool.

Lemma iter_alphabet (step : pos -> caps -> pos -> caps -> Prop) (A : ascii -> bool) lo hi :
  (forall p c p' c', step p c p' c' ->
     exists w, reads p w p' /\ forallb A w = true) ->
  forall n p c p' c', iter step lo hi n p c p' c' ->
    exists w, reads p w p' /\ forallb A w = true.
Proof.
  intros Hs n p c p' c' H. induction H as [|n p c p1 c1 p2 c2 _ Hstep _ _ IH].
  - exists []. split; [apply reads_refl | reflexivity].
  - destruct (Hs _ _ _ _ Hstep) as (w1 & R1 & F1). destruct IH as (w2 & R2 & F2).
    exists (w1 ++ w2). split; [apply (reads_trans R1 R2)|].
    now rewrite forallb_app, F1, F2.
Qed.

(** A match reads only characters that some atom of the pattern accepts. *)
Lemma matches_alphabet r : forall p cs p' cs',
  matches ic r p cs p' cs' ->
  exists w, reads p w p' /\ forallb (accepts ic r) w = true.
Proof.
  induction r; cbn [matches accepts]; intros p cs p' cs' H.
  - destruct H; subst. exists []. split; [apply reads_refl | reflexivity].
  - destruct H as (y & H & Hok & _). exists [y].
    split; [now apply advance_reads|]. simpl. now rewrite Hok.
  - destruct H as (y & H & Hok & _). exists [y].
    split; [now apply advance_reads|]. simpl. now rewrite Hok.
  - destruct H as (p1 & c1 & H1 & H2).
    destruct (IHr1 _ _ _ _ H1) as (w1 & R1 & F1).
    destruct (IHr2 _ _ _ _ H2) as (w2 & R2 & F2).
    exists (w1 ++ w2). split; [apply (reads_trans R1 R2)|].
    rewrite forallb_app. apply andb_true_iff. split.
    + eapply forallb_impl; [|exact F1]. intros y Hy. now rewrite Hy.
    + eapply forallb_impl; [|exact F2]. intros y Hy. rewrite Hy. apply orb_true_r.
  - destruct H as [H|H].
    + destruct (IHr1 _ _ _ _ H) as (w & R & F). exists w. split; [exact R|].
      eapply forallb_impl; [|exact F]. intros y Hy. now rewrite Hy.
    + destruct (IHr2 _ _ _ _ H) as (w & R & F). exists w. split; [exact R|].
      eapply forallb_impl; [|exact F]. intros y Hy. rewrite Hy. apply orb_true_r.
  - eapply iter_alphabet; eauto.
  - destruct H as (c1 & H & _). eauto.
  - destruct negated; destruct H as (-> & _); exists [];
      (split; [apply reads_refl | reflexivity]).
  - destruct H as (_ & -> & _). exists []. split; [apply reads_refl | reflexivity].
  - destruct H as (_ & -> & _). exists []. split; [apply reads_refl | reflexivity].
  - destruct H as (_ & -> & _). exists []. split; [apply reads_refl | reflexivity].
Qed.

Variable P : ascii -> bool.

Lemma fits_seq a b x y : fits a x -> fits b y -> fits (b_seq a b) (x + y).
Proof. destruct a, b; simpl; try tauto; lia. Qed.

Lemma fits_alt_l a b x : fits a x -> fits (b_alt a b) x.
Proof. destruct a, b; simpl; try tauto; lia. Qed.

Lemma fits_alt_r a b x : fits b x -> fits (b_alt a b) x.
Proof. destruct a, b; simpl; try tauto; lia. Qed.

Lemma reads_split p w1 p1 w p2 :
  reads p w1 p1 -> reads p w p2 ->
  List.length (p_rest p2) <= List.length (p_rest p1) ->
  exists w2, reads p1 w2 p2 /\ w = w1 ++ w2.
Proof.
  intros (R1a & R1b & R1c) (Ra & Rb & Rc) Hle.
  assert (Hlen : List.length w1 <= List.length w).
  { apply (f_equal (@List.length ascii)) in R1a, Ra. rewrite length_app in R1a, Ra. lia. }
  assert (E : w = w1 ++ skipn (List.length w1) w).
  { rewrite <- (firstn_skipn (List.length w1) w) at 1. f_equal.
    rewrite R1a in Ra. apply (f_equal (firstn (List.length w1))) in Ra.
    rewrite firstn_app, Nat.sub_diag, firstn_all in Ra. simpl in Ra.
    rewrite app_nil_r in Ra. rewrite firstn_app in Ra.
    replace (List.length w1 - List.length w) with 0 in Ra by lia.
    simpl in Ra. rewrite app_nil_r in Ra. symmetry. exact Ra. }
  exists (skipn (List.length w1) w). split; [|exact E].
  unfold reads. split; [|split].
  - rewrite R1a in Ra. rewrite E in Ra. rewrite <- app_assoc in Ra.
    now apply app_inv_head in Ra.
  - rewrite Rb, R1b. rewrite E at 1. rewrite length_app. lia.
  - rewrite Rc, R1c. rewrite E at 1. now rewrite last_char_app.
Qed.

(** The words of [P]-characters read by iterations [n], [n+1], ... of a body
    whose own words fit [b]. *)
Lemma iter_reach (step : pos -> caps -> pos -> caps -> Prop) (b : bound) lo hi :
  (forall p c p' c' w, step p c p' c' -> reads p w p' -> forallb P w = true ->
     fits b (List.length w)) ->
  (forall p c p' c', step p c p' c' -> exists w, reads p w p') ->
  forall n p c p' c', iter step lo hi n p c p' c' ->
  forall w, reads p w p' -> forallb P w = true ->
    match b with
    | Never => w = [] /\ lo <= n
    | AtMost k =>
        (k = 0 -> w = [])
        /\ (forall h, hi = Some h -> List.length w <= k * (Nat.max lo h - n))
    | Unbounded => True
    end.
Proof.
  intros Hb Hr n p c p' c' H.
  induction H as [n p c Hlo | n p c p1 c1 p2 c2 Hgo Hstep _ Hrest IH]; intros w R F.
  - rewrite (reads_unique R (reads_refl p)).
    destruct b as [|k|]; [auto| |exact I].
    split; [auto|]. intros h _. apply Nat.le_0_l.
  - destruct (Hr _ _ _ _ Hstep) as (w1 & R1).
    assert (Hle : List.length (p_rest p2) <= List.length (p_rest p1)).
    { destruct (iter_reads Hr Hrest) as (w0 & R0). apply reads_length in R0. lia. }
    destruct (reads_split R1 R Hle) as (w2 & R2 & ->).
    rewrite forallb_app in F. apply andb_true_iff in F. destruct F as [F1 F2].
    specialize (Hb _ _ _ _ _ Hstep R1 F1). specialize (IH _ R2 F2).
    destruct b as [|k|]; [destruct Hb | | exact I].
    simpl in Hb. destruct IH as (IH0 & IHh). split.
    + intros ->. rewrite (IH0 eq_refl). destruct w1; [reflexivity | simpl in Hb; lia].
    + intros h Eh. specialize (IHh h Eh). rewrite length_app.
      assert (n < Nat.max lo h).
      { destruct Hgo as [Hgo|Hgo]; [lia|]. unfold not_full in Hgo. rewrite Eh in Hgo. lia. }
      replace (Nat.max lo h - n) with (S (Nat.max lo h - S n)) by lia.
      rewrite Nat.mul_succ_r. lia.
Qed.

(** A word of [P]-characters read by the pattern fits its reach. *)
Lemma matches_reach r : forall p cs p' cs' w,
  matches ic r p cs p' cs' -> reads p w p' -> forallb P w = true ->
  fits (reach P ic r) (List.length w).
Proof.
  induction r; cbn [matches reach]; intros p cs p' cs' w H R F.
  - destruct H; subst. rewrite (reads_unique R (reads_refl p)). simpl. lia.
  - destruct H as (y & H & Hok & _). apply advance_reads in H.
    rewrite (reads_unique R H) in *. simpl in F. rewrite andb_true_r in F.
    erewrite any_char_intro; [simpl; lia|]. instantiate (1 := y). now rewrite F, Hok.
  - destruct H as (y & H & Hok & _). apply advance_reads in H.
    rewrite (reads_unique R H) in *. simpl in F. rewrite andb_true_r in F.
    erewrite any_char_intro; [simpl; lia|]. instantiate (1 := y). now rewrite F, Hok.
  - destruct H as (p1 & c1 & H1 & H2).
    destruct (matches_reads _ _ _ _ _ _ H1) as (w1 & R1).
    destruct (matches_reads _ _ _ _ _ _ H2) as (w2 & R2).
    rewrite (reads_unique R (reads_trans R1 R2)) in *.
    rewrite forallb_app in F. apply andb_true_iff in F. destruct F as [F1 F2].
    rewrite length_app. apply fits_seq; eauto.
  - destruct H as [H|H]; [apply fits_alt_l | apply fits_alt_r]; eauto.
  - pose proof (@iter_reach (matches ic r) (reach P ic r) lo hi
                  (fun p c p' c' w => IHr p c p' c' w)
                  (fun p c p' c' => @matches_reads ic r p c p' c') 0 _ _ _ _ H w R F) as Hi.
    unfold b_rep. destruct (reach P ic r) as [|k|]; [| |exact I].
    + destruct Hi as (-> & Hlo). replace (lo =? 0) with true; [simpl; lia|].
      symmetry. apply Nat.eqb_eq. lia.
    + destruct Hi as (H0 & Hh). destruct k as [|k].
      * rewrite (H0 eq_refl). simpl. lia.
      * destruct hi as [h|]; [|exact I]. specialize (Hh h eq_refl).
        rewrite Nat.sub_0_r in Hh. exact Hh.
  - destruct H as (c1 & H & _). eauto.
  - destruct negated; destruct H as (-> & _);
      rewrite (reads_unique R (reads_refl p)); simpl; lia.
  - destruct H as (_ & -> & _). rewrite (reads_unique R (reads_refl p)). simpl. lia.
  - destruct H as (_ & -> & _). rewrite (reads_unique R (reads_refl p)). simpl. lia.
  - destruct H as (_ & -> & _). rewrite (reads_unique R (reads_refl p)). simpl. lia.
Qed.

End Static.

(** A pattern between [^] and [$] reads the whole string, up to a final
    newline. *)
Lemma full_match ic body (s : str) m :
  match_ ic (Cat Bol (Cat body Eol)) s = Some m ->
  exists w p' c, matches ic body (mkPos 0 None s) [] p' c
    /\ reads (mkPos 0 None s) w p'
    /\ (s = w \/ s = w ++ [newline]).
Proof.
  unfold match_. intros H. apply match_here_sound in H.
  destruct H as (p' & w & Hm & R & _).
  cbn [matches] in Hm.
  destruct Hm as (p0 & c0 & (_ & -> & ->) & p1 & c1 & Hb & He & E1 & _). subst p1.
  exists w, p', c1. split; [exact Hb|]. split; [exact R|].
  destruct R as (R1 & _). simpl in R1. unfold at_eol in He.
  destruct (p_rest p') as [|a [|b l]]; [| |discriminate].
  - left. now rewrite app_nil_r in R1.
  - right. apply Ascii.eqb_eq in He. now subst a.
Qed.

Lemma forallb_in (P : ascii -> bool) s c : forallb P s = true -> In c s -> P c = true.
Proof. intros F Hin. rewrite forallb_forall in F. now apply F. Qed.

Lemma newline_punct : is_punct newline = true.
Proof. reflexivity. Qed.

Lemma no_newline_contains s : forallb not_newline s = true -> contains [newline] s = false.
Proof.
  induction s as [|a s IH]; [reflexivity|]. cbn [forallb]. intros H.
  apply andb_true_iff in H. destruct H as [Ha Hs].
  rewrite contains_unfold, (IH Hs). cbn [starts_with].
  unfold not_newline in Ha. apply negb_true_iff in Ha.
  rewrite Ascii.eqb_sym, Ha. reflexivity.
Qed.

Lemma occurs_forallb (P : ascii -> bool) sub s :
  occurs sub s -> forallb P s = true -> forallb P sub = true.
Proof.
  intros (l & r & ->) F. rewrite !forallb_app in F.
  apply andb_true_iff in F. destruct F as [_ F].
  now apply andb_true_iff in F.
Qed.

Lemma lower_forallb (P : ascii -> bool) s :
  (forall y, P y = true -> P (lower_char y) = true) ->
  forallb P s = true -> forallb P (str_lower s) = true.
Proof.
  intros Hc. induction s as [|a s IH]; [reflexivity|]. simpl. intros H.
  apply andb_true_iff in H. destruct H as [Ha Hs]. now rewrite (Hc a Ha), (IH Hs).
Qed.

Lemma lower_letter c : is_letter (lower_char c) = is_letter c.
Proof. destruct c as [[] [] [] [] [] [] [] []]; reflexivity. Qed.

Lemma upper_letter c : is_letter (upper_char c) = is_letter c.
Proof. destruct c as [[] [] [] [] [] [] [] []]; reflexivity. Qed.

(** A string with a character that is no letter, or longer than seven
    characters, is no placeholder word in either case. *)
Lemma not_a_word (f : ascii -> ascii) (s : str) (words : list str) :
  (forall c, is_letter (f c) = is_letter c) ->
  forallb (fun w => forallb is_letter w && (List.length w <=? 7)) words = true ->
  (exists c, In c s /\ is_letter c = false) \/ 7 < List.length s ->
  ~ In (map f s) words.
Proof.
  intros Hf Hw Hc Hin.
  rewrite forallb_forall in Hw. specialize (Hw _ Hin).
  apply andb_true_iff in Hw. destruct Hw as [Hl Hn].
  apply Nat.leb_le in Hn. rewrite length_map in Hn.
  destruct Hc as [(c & Hcs & Hcl)|Hlen]; [|lia].
  assert (Hfc : In (f c) (map f s)) by now apply in_map.
  pose proof (@forallb_in _ _ _ Hl Hfc) as E. rewrite Hf in E. congruence.
Qed.

(** The shape of a value the classifier accepts at every bound. *)
Lemma accepted_by_shape (s : str) (n : nat) (P : ascii -> bool) :
  s <> [] -> strip s = s ->
  (exists c, In c s /\ is_punct c = false) ->
  forallb not_newline s = true ->
  match_ true Patterns._LABEL_PATTERNS s = None ->
  forallb P s = true -> (forall y, P y = true -> P (lower_char y) = true) ->
  forallb (fun sub => negb (forallb P sub)) _LABEL_SUBSTRINGS = true ->
  ((exists c, In c s /\ is_letter c = false) \/ 7 < List.length s) ->
  passed s n.
Proof.
  intros Hne Hs (c & Hc & Hcp) Hnl Hlab HP Hlow Hsub Hcert.
  unfold passed, _is_form_label_or_placeholder. cbv zeta. rewrite Hs.
  replace (truthy_str (Some s)) with true by (destruct s; [congruence | reflexivity]).
  cbn [negb orb].
  (* punctuation *)
  assert (H2 : str_in s [lit ":"; lit ""]
               || is_some (match_ false Patterns.ONLY_PUNCTUATION s) = false).
  { apply orb_false_iff. split.
    - apply not_true_is_false. intros E.
      apply str_in_iff in E. destruct E as [E|[E|[]]].
      + rewrite <- E in Hc. destruct Hc as [<-|[]]. discriminate.
      + now rewrite <- E in Hne.
    - destruct (match_ false Patterns.ONLY_PUNCTUATION s) as [m|] eqn:E; [|reflexivity].
      exfalso. apply full_match in E. destruct E as (w & p' & c1 & Hm & R & Hw).
      destruct (@matches_alphabet _ _ _ _ _ _ Hm) as (w' & R' & F).
      rewrite (reads_unique R' R) in F.
      assert (Fp : forallb is_punct w = true).
      { eapply forallb_impl; [|exact F]. intros y Hy. cbn [plus accepts] in Hy.
        now rewrite punct_set in Hy. }
      assert (Fs : forallb is_punct s = true).
      { destruct Hw as [->| ->]; [exact Fp|].
        rewrite forallb_app, Fp. reflexivity. }
      pose proof (@forallb_in _ _ _ Fs Hc). congruence. }
  rewrite H2.
  rewrite (@no_newline_contains _ Hnl), andb_false_r. cbn [andb].
  rewrite Hlab. cbn [is_some].
  (* fragments *)
  assert (H5 : existsb (fun sub => contains sub (str_lower s)) _LABEL_SUBSTRINGS = false).
  { destruct (existsb _ _LABEL_SUBSTRINGS) eqn:E; [|reflexivity]. exfalso.
    apply existsb_exists in E. destruct E as (sub & Hin & Hcon).
    apply contains_iff in Hcon.
    pose proof (@occurs_forallb P _ _ Hcon (@lower_forallb P s Hlow HP)) as Hps.
    rewrite forallb_forall in Hsub. specialize (Hsub _ Hin). now rewrite Hps in Hsub. }
  rewrite H5.
  (* placeholder words *)
  assert (H6 : str_in (str_lower s)
                 (map lit ["number"; "name"; "date"; "address"; "other"]%string) = false).
  { apply not_true_is_false. intros E. apply str_in_iff in E.
    revert E. apply (@not_a_word lower_char); [apply lower_letter | reflexivity | exact Hcert]. }
  rewrite H6.
  assert (H7 : forall w, In w PLACEHOLDER_CAPS -> str_eqb (str_upper s) w = false).
  { intros w Hw. destruct (str_eqb (str_upper s) w) eqn:E; [|reflexivity]. exfalso.
    apply str_eqb_eq in E. rewrite <- E in Hw. revert Hw.
    apply (@not_a_word upper_char); [apply upper_letter | reflexivity | exact Hcert]. }
  rewrite !H7; [reflexivity | | |]; simpl; auto.
Qed.

End ShapeFacts.

(** ** Values stored without a call of the classifier *)

Module ValueFacts.
Import Re ReSpec ReFacts SearchFacts StrFacts PatternFacts ExtractFacts.
Import ClassifierFacts CaptureFacts KeywordFacts Shape ShapeFacts Spec Extract.

Lemma label_tree : Patterns._LABEL_PATTERNS = Cat Bol (Cat label_body Eol).
Proof. reflexivity. Qed.

Lemma not_newline_in s : forallb not_newline s = true -> ~ In newline s.
Proof. intros F Hin. pose proof (@forallb_in _ _ _ F Hin) as E. discriminate E. Qed.

(** What the label pattern reads when it matches a string without
    newline: the string itself. *)
Lemma label_match_reads s m :
  forallb not_newline s = true ->
  match_ true Patterns._LABEL_PATTERNS s = Some m ->
  exists p' c, matches true label_body (mkPos 0 None s) [] p' c
    /\ reads (mkPos 0 None s) s p'.
Proof.
  intros Hnl H. rewrite label_tree in H. apply full_match in H.
  destruct H as (w & p' & c & Hm & R & [E|E]).
  - subst w. eauto.
  - exfalso. apply (not_newline_in _ Hnl). rewrite E. apply in_or_app. right. simpl. auto.
Qed.

Lemma label_no_match_reach (P : ascii -> bool) s :
  forallb not_newline s = true -> forallb P s = true ->
  ~ fits (reach P true label_body) (List.length s) ->
  match_ true Patterns._LABEL_PATTERNS s = None.
Proof.
  intros Hnl HP Hfit.
  destruct (match_ true Patterns._LABEL_PATTERNS s) as [m|] eqn:E; [|reflexivity].
  exfalso. apply Hfit. apply (label_match_reads _ Hnl) in E.
  destruct E as (p' & c & Hm & R). exact (@matches_reach true P _ _ _ _ _ _ Hm R HP).
Qed.

Lemma label_no_match_char s c :
  forallb not_newline s = true -> In c s -> accepts true label_body c = false ->
  match_ true Patterns._LABEL_PATTERNS s = None.
Proof.
  intros Hnl Hin Hc.
  destruct (match_ true Patterns._LABEL_PATTERNS s) as [m|] eqn:E; [|reflexivity].
  exfalso. apply (label_match_reads _ Hnl) in E.
  destruct E as (p' & c0 & Hm & R).
  destruct (@matches_alphabet _ _ _ _ _ _ Hm) as (w & R' & F).
  rewrite (reads_unique R' R) in F.
  pose proof (@forallb_in _ _ _ F Hin). congruence.
Qed.

Lemma strip_keeps_head y l :
  is_space y = false -> strip (y :: l) = y :: rstrip l.
Proof.
  intros Hy. unfold strip. simpl. rewrite Hy.
  apply (@rstrip_app_keep [] y l Hy).
Qed.

Lemma rstrip_last_not_space s z q :
  rstrip s = q ++ [z] -> is_space z = false.
Proof.
  unfold rstrip. intros H.
  apply (f_equal (@rev ascii)) in H. rewrite rev_involutive, rev_app_distr in H.
  simpl in H. now apply lstrip_head in H.
Qed.

(** [strip] does nothing to a trimmed string. *)
Lemma strip_idem s : strip (strip s) = strip s.
Proof.
  destruct (strip s) as [|a t] eqn:E; [reflexivity|].
  assert (Ha : is_space a = false).
  { unfold strip in E. destruct (lstrip s) as [|b u] eqn:El.
    - discriminate.
    - pose proof (lstrip_head _ El) as Hb.
      pose proof (@rstrip_app_keep [] b u Hb) as K.
      change ([] ++ b :: u) with (b :: u) in K. rewrite K in E.
      change ([] ++ b :: rstrip u) with (b :: rstrip u) in E.
      inversion E; subst. exact Hb. }
  destruct (@exists_last _ (a :: t)) as (q & z & Ez); [discriminate|].
  assert (Hz : is_space z = false).
  { unfold strip in E. rewrite Ez in E. now apply rstrip_last_not_space in E. }
  rewrite <- (app_nil_r (a :: t)) at 1.
  change (strip ((a :: t) ++ [])) with (strip ([] ++ (a :: t) ++ [])).
  rewrite (@strip_around [] (a :: t) [] a t q z eq_refl Ez Ha Hz).
  simpl. now rewrite app_nil_r.
Qed.

Lemma forallb_both (P Q : ascii -> bool) s :
  forallb P s = true -> forallb Q s = true ->
  forallb (fun c => P c && Q c) s = true.
Proof.
  induction s as [|a s IH]; cbn [forallb]; [auto|].
  intros H1 H2. apply andb_true_iff in H1, H2.
  destruct H1 as [H1 H1'], H2 as [H2 H2']. now rewrite H1, H2, (IH H1' H2').
Qed.

Lemma not_nl_set y : set_ok true true [IChar newline] y = true -> not_newline y = true.
Proof. destruct y as [[] [] [] [] [] [] [] []]; vm_compute; congruence. Qed.

Lemma time_char_lower y : time_char y = true -> time_char (lower_char y) = true.
Proof. destruct y as [[] [] [] [] [] [] [] []]; vm_compute; congruence. Qed.

Lemma not_space_lower y : not_space y = true -> not_space (lower_char y) = true.
Proof. destruct y as [[] [] [] [] [] [] [] []]; vm_compute; congruence. Qed.

Lemma digit_plain y : is_digit y = true -> is_punct y = false /\ is_letter y = false.
Proof. destruct y as [[] [] [] [] [] [] [] []]; vm_compute; intuition congruence. Qed.

Lemma not_space_not_newline y : not_space y = true -> not_newline y = true.
Proof. destruct y as [[] [] [] [] [] [] [] []]; vm_compute; congruence. Qed.

Lemma vin_class_plain y :
  vin_class y = true -> not_space y = true /\ is_punct y = false.
Proof. destruct y as [[] [] [] [] [] [] [] []]; vm_compute; intuition congruence. Qed.

Lemma at_sign y : lit_ok true "@"%char y = true -> y = "@"%char.
Proof. destruct y as [[] [] [] [] [] [] [] []]; vm_compute; congruence. Qed.

(** The line of the date and time holds no newline. *)
Lemma date_line_no_newline text m :
  search true Patterns.DATE_OF_LOSS_AND_TIME text = Some m ->
  forallb not_newline (group 1 m) = true.
Proof.
  intros H. apply search_sound in H.
  destruct H as (pre & w & post & p' & _ & Hm & _).
  unfold Patterns.DATE_OF_LOSS_AND_TIME in Hm.
  match type of Hm with
  | matches _ (cat_all ?l) _ _ _ _ =>
      change (cat_all l) with (cat_all (removelast l ++ [Group 1 (plus not_nl)])) in Hm
  end.
  apply matches_cat_all_last in Hm. destruct Hm as (q & d & Hm).
  apply group_capture in Hm. destruct Hm as (wg & c1 & R & Hb & Ec).
  unfold plus, not_nl in Hb. cbn [matches] in Hb.
  apply iter_set in Hb. destruct Hb as (w1 & R1 & F & _).
  rewrite (reads_unique R R1) in Ec.
  rewrite (group1_of_caps m Ec).
  eapply forallb_impl; [|exact F]. apply not_nl_set.
Qed.

(** A captured time passes the classifier at every bound. *)
Lemma time_value_passed part t n :
  forallb not_newline part = true ->
  search true Patterns.TIME_TOKEN part = Some t ->
  passed (strip (group 1 t)) n.
Proof.
  intros Hnl H. apply search_sound in H.
  destruct H as (pre & w & post & p' & Epart & Hm & R & _).
  destruct (@matches_alphabet _ _ _ _ _ _ Hm) as (wa & Ra & Fa).
  rewrite (reads_unique Ra R) in Fa.
  unfold Patterns.TIME_TOKEN in Hm.
  apply group_capture in Hm. destruct Hm as (wg & c1 & Rg & Hb & Ec).
  rewrite (reads_unique Rg R) in Ec. rewrite (group1_of_caps t Ec).
  assert (Hd : exists y w1, w = y :: w1 /\ is_digit y = true).
  { match type of Hb with
    | matches _ (alt_all [cat_all (?d1 :: ?t1); cat_all (?d2 :: ?t2); cat_all (?d3 :: ?t3)])
        _ _ _ _ =>
        change (alt_all [cat_all (d1 :: t1); cat_all (d2 :: t2); cat_all (d3 :: t3)])
          with (Alt (Cat d1 (cat_all t1))
                  (Alt (Cat d2 (cat_all t2)) (Cat d3 (cat_all t3)))) in Hb
    end.
    cbn [matches] in Hb.
    destruct Hb as [Hb|[Hb|Hb]]; destruct Hb as (p1 & c2 & H1 & H2);
      unfold between in H1; cbn [matches] in H1;
      (apply iter_set_first in H1; [|lia]); destruct H1 as (y & w1 & R1 & Hy & _);
      destruct (matches_reads _ _ _ _ _ _ H2) as (w2 & R2);
      pose proof (reads_unique R (reads_cons_app R1 R2)) as E;
      exists y, (w1 ++ w2); (split; [exact E | now apply (digit_ok true)]). }
  destruct Hd as (y & w1 & Ew & Hy).
  assert (Hwnl : forallb not_newline w = true).
  { rewrite Epart, !forallb_app in Hnl.
    apply andb_true_iff in Hnl. destruct Hnl as [_ Hnl].
    now apply andb_true_iff in Hnl. }
  assert (Ht : forallb time_char w = true).
  { exact (forallb_both _ _ _ Fa Hwnl). }
  pose proof (digit_not_space y Hy) as Hsp.
  destruct (digit_plain y Hy) as (Hyp & Hyl).
  assert (Hin : In y (strip w)).
  { rewrite Ew, (@strip_keeps_head y w1 Hsp). simpl. auto. }
  apply accepted_by_shape with (P := time_char).
  - rewrite Ew. eapply strip_nonempty; [reflexivity | exact Hsp].
  - apply strip_idem.
  - exists y. auto.
  - now apply strip_forallb.
  - apply label_no_match_reach with (P := time_char).
    + now apply strip_forallb.
    + now apply strip_forallb.
    + replace (reach time_char true label_body) with Never by (vm_compute; reflexivity).
      simpl. tauto.
  - now apply strip_forallb.
  - apply time_char_lower.
  - vm_compute. reflexivity.
  - left. exists y. auto.
Qed.

(** A captured e-mail address passes the classifier at every bound. *)
Lemma email_value_passed text m n :
  search true Patterns.PRIMARY_EMAIL text = Some m -> passed (capture m) n.
Proof.
  intros H. apply search_sound in H.
  destruct H as (pre & w & post & p' & _ & Hm & _).
  unfold Patterns.PRIMARY_EMAIL in Hm.
  match type of Hm with
  | matches _ (cat_all [?a; ?b; ?c; ?d; ?e; ?g]) _ _ _ _ =>
      change (cat_all [a; b; c; d; e; g]) with (cat_all ([a; b; c; d; e] ++ [g])) in Hm
  end.
  apply matches_cat_all_last in Hm. destruct Hm as (q & d & Hm).
  apply group_capture in Hm. destruct Hm as (wg & c1 & R & Hb & Ec).
  match type of Hb with
  | matches _ (cat_all [?a; ?b; ?c]) _ _ _ _ =>
      change (cat_all [a; b; c]) with (Cat a (Cat b c)) in Hb
  end.
  cbn [matches] in Hb. destruct Hb as (p1 & c2 & H1 & p2 & c3 & H2 & H3).
  unfold plus in H1, H3. cbn [matches] in H1, H3.
  apply iter_set in H1. destruct H1 as (w1 & R1 & F1 & _ & L1 & _).
  apply iter_set in H3. destruct H3 as (w3 & R3 & F3 & _).
  destruct H2 as (z & Hz & Hzok & _). apply advance_reads in Hz.
  apply at_sign in Hzok. subst z.
  pose proof (reads_unique R (reads_trans R1 (reads_trans Hz R3))) as Ew.
  unfold capture. rewrite (group1_of_caps m Ec).
  assert (Hns : forallb not_space wg = true).
  { rewrite Ew, !forallb_app. rewrite andb_true_iff. split; [|rewrite andb_true_iff; split].
    - eapply forallb_impl; [|exact F1]. intros y Hy. unfold not_space.
      now rewrite (email_char y Hy).
    - reflexivity.
    - eapply forallb_impl; [|exact F3]. clear. intros y Hy.
      destruct y as [[] [] [] [] [] [] [] []]; vm_compute in Hy |- *; congruence. }
  assert (Es : strip wg = wg) by (apply strip_id; exact Hns).
  assert (Hat : In "@"%char wg).
  { rewrite Ew. apply in_or_app. right. simpl. auto. }
  assert (Hnl : forallb not_newline wg = true).
  { eapply forallb_impl; [|exact Hns]. apply not_space_not_newline. }
  rewrite Es.
  apply accepted_by_shape with (P := not_space).
  - intros E. rewrite E in Hat. destruct Hat.
  - exact Es.
  - exists "@"%char. auto.
  - exact Hnl.
  - apply label_no_match_char with (c := "@"%char); auto.
  - exact Hns.
  - apply not_space_lower.
  - vm_compute. reflexivity.
  - left. exists "@"%char. auto.
Qed.

(** A captured VIN passes the classifier at every bound. *)
Lemma vin_value_passed text m n :
  search true Patterns.VIN text = Some m -> passed (capture m) n.
Proof.
  intros H. apply search_sound in H.
  destruct H as (pre & w & post & p' & _ & Hm & _).
  unfold Patterns.VIN in Hm.
  match type of Hm with
  | matches _ (cat_all [?a; ?b; ?c; ?d; ?e; ?f; ?g; ?h]) _ _ _ _ =>
      change (cat_all [a; b; c; d; e; f; g; h])
        with (cat_all ([a; b; c; d; e; f; g] ++ [h])) in Hm
  end.
  apply matches_cat_all_last in Hm. destruct Hm as (q & d & Hm).
  apply group_capture in Hm. destruct Hm as (wg & c1 & R & Hb & Ec).
  unfold times in Hb. cbn [matches] in Hb.
  apply iter_set in Hb. destruct Hb as (w1 & R1 & F & _ & Llo & Lhi).
  rewrite (reads_unique R1 R) in F, Llo, Lhi.
  specialize (Lhi 17 eq_refl (Nat.le_refl _) (Nat.le_0_l _)).
  assert (Hlen : List.length wg = 17) by lia.
  fold (vin_class) in F.
  assert (Hv : forallb vin_class wg = true) by exact F.
  assert (Hns : forallb not_space wg = true).
  { eapply forallb_impl; [|exact Hv]. intros y Hy. now apply vin_class_plain. }
  assert (Es : strip wg = wg) by (apply strip_id; exact Hns).
  assert (Hnl : forallb not_newline wg = true).
  { eapply forallb_impl; [|exact Hns]. apply not_space_not_newline. }
  unfold capture. rewrite (group1_of_caps m Ec), Es.
  destruct wg as [|y wg'] eqn:Ewg; [discriminate|]. rewrite <- Ewg in *.
  assert (Hy : vin_class y = true).
  { rewrite Ewg in Hv. simpl in Hv. now apply andb_true_iff in Hv. }
  apply accepted_by_shape with (P := not_space).
  - rewrite Ewg. discriminate.
  - exact Es.
  - exists y. split; [rewrite Ewg; simpl; auto | now apply vin_class_plain].
  - exact Hnl.
  - apply label_no_match_reach with (P := vin_class); [exact Hnl | exact Hv |].
    replace (reach vin_class true label_body) with (AtMost 6) by (vm_compute; reflexivity).
    simpl. lia.
  - exact Hns.
  - apply not_space_lower.
  - vm_compute. reflexivity.
  - right. lia.
Qed.

End ValueFacts.

(** ** The blocks of the extractor *)

Module BlockFacts.
Import Re ReSpec ReFacts SearchFacts StrFacts PatternFacts ParseFacts ExtractFacts.
Import ClassifierFacts CaptureFacts ValueFacts.

Import Spec Extract.

Lemma accepted_stored v n : accepted v n = true -> stored n (Some v).
Proof.
  unfold accepted, stored, passed. intros H v' E. inversion E; subst v'.
  apply negb_true_iff in H. split; [exact H|].
  now apply (accepted_nonblank v n).
Qed.

Lemma stored_none n : stored n None.
Proof. intros v E. discriminate. Qed.

Ltac stage :=
  repeat match goal with
  | |- stored _ (match ?x with Some _ => _ | None => _ end) => destruct x
  | |- stored _ (let _ := _ in _) => cbv zeta
  | |- stored _ (if accepted ?v ?n then _ else _) =>
      let E := fresh "E" in destruct (accepted v n) eqn:E
  | |- stored _ (Some _) => apply accepted_stored; assumption
  | |- stored _ None => apply stored_none
  | H : stored ?n ?o |- stored ?n ?o => exact H
  end.

Lemma policy_number_loop_stored text patterns : forall pn,
  stored 50 pn -> stored 50 (policy_number_loop text patterns pn).
Proof.
  unfold policy_number_loop.
  induction patterns as [|r rs IH]; intros pn H; simpl; [exact H|].
  apply IH. stage.
Qed.

Lemma policy_number_generic_stored lower pn :
  stored 50 pn -> stored 50 (policy_number_generic lower pn).
Proof.
  intros H. unfold policy_number_generic.
  destruct (negb (truthy_str pn)); [|exact H]. stage.
Qed.

Lemma policy_number_stored text lower :
  stored 50 (extract_policy_number text lower).
Proof.
  apply policy_number_generic_stored, policy_number_loop_stored, stored_none.
Qed.

(** The generic pattern does not replace a policy number already found. *)
Lemma policy_number_generic_keeps lower c v :
  policy_number_generic lower (Some (c :: v)) = Some (c :: v).
Proof. reflexivity. Qed.

Lemma policyholder_name_stored text lower :
  stored default_max_len (extract_policyholder_name text lower).
Proof.
  unfold extract_policyholder_name.
  destruct (search true Patterns.NAME_OF_INSURED text) as [m|]; cbv zeta.
  - destruct (accepted (slice_to 200 (capture m)) default_max_len) eqn:E.
    + destruct (negb _); [stage | now apply accepted_stored].
    + destruct (negb _); stage.
  - destruct (negb _); stage.
Qed.

Lemma location_street_stored text : stored default_max_len (extract_location_street text).
Proof. unfold extract_location_street. stage. Qed.

Lemma city_state_zip_stored text : stored 100 (extract_city_state_zip text).
Proof. unfold extract_city_state_zip. stage. Qed.

Lemma country_stored text : stored 80 (extract_country text).
Proof. unfold extract_country. stage. Qed.

Lemma location_fallback_stored text street csz :
  stored default_max_len street ->
  stored default_max_len (location_fallback text street csz).
Proof.
  intros H. unfold location_fallback. destruct (negb _); [|exact H]. stage.
Qed.

Lemma description_stage_stored ic r subject d :
  stored 2000 d -> stored 2000 (description_stage ic r subject d).
Proof. intros H. unfold description_stage. stage. Qed.

Lemma description_stored text lower : stored 2000 (extract_description text lower).
Proof.
  unfold extract_description. cbv zeta.
  assert (H1 := @description_stage_stored true Patterns.DESCRIPTION_OF_ACCIDENT text None
                  (stored_none 2000)).
  set (d1 := description_stage true Patterns.DESCRIPTION_OF_ACCIDENT text None) in *.
  assert (H2 : stored 2000
             (if negb (truthy_str d1)
              then description_stage false Patterns.GENERIC_DESCRIPTION_OF lower d1
              else d1)).
  { destruct (negb (truthy_str d1)); [now apply description_stage_stored | exact H1]. }
  set (d2 := if negb (truthy_str d1) then _ else d1) in *.
  destruct (negb (truthy_str d2)); [now apply description_stage_stored | exact H2].
Qed.




Lemma party_named_stored v :
  stored default_max_len (Some v) -> party_stored (Some (party_named v)).
Proof.
  intros H p E. inversion E; subst p. simpl.
  split; [exact H|]. split; [apply stored_none|].
  split; [intros v0 Ev; discriminate Ev | auto].
Qed.

Lemma party_none_stored : party_stored None.
Proof. intros p E. discriminate. Qed.

Lemma claimant_stored text name :
  stored default_max_len name -> party_stored (extract_claimant text name).
Proof.
  intros Hn. unfold extract_claimant. cbv zeta.
  assert (D : forall r, party_stored
            match search true r text with
            | Some m =>
                if accepted (capture m) default_max_len
                then Some (party_named (capture m)) else None
            | None => None
            end).
  { intros r. destruct (search true r text) as [m|]; [|apply party_none_stored].
    destruct (accepted (capture m) default_max_len) eqn:E; [|apply party_none_stored].
    now apply party_named_stored, accepted_stored. }
  pose proof (D Patterns.DRIVERS_NAME) as D1. pose proof (D Patterns.OWNERS_NAME) as D2.
  destruct (match search true Patterns.DRIVERS_NAME text with
            | Some m => _ | None => None end) as [p1|]; [exact D1|].
  destruct (match search true Patterns.OWNERS_NAME text with
            | Some m => _ | None => None end) as [p2|]; [exact D2|].
  destruct name as [[|c n]|]; try apply party_none_stored.
  now apply party_named_stored.
Qed.

Lemma contact_stored text c :
  party_stored c -> party_stored (extract_contact text c).
Proof.
  intros H. unfold extract_contact.
  assert (H1 : party_stored
            match search true Patterns.PRIMARY_PHONE text, c with
            | Some m, Some p =>
                let val := slice_to 50 (capture m) in
                if accepted val 30 then Some (set_phone val p) else c
            | _, _ => c
            end).
  { destruct (search true Patterns.PRIMARY_PHONE text) as [m|]; [|exact H].
    destruct c as [p|]; [|exact H]. cbv zeta.
    destruct (accepted (slice_to 50 (capture m)) 30) eqn:E; [|exact H].
    destruct (H p eq_refl) as (Hn & _ & He & Ha & Hr).
    intros q Eq. inversion Eq; subst q. simpl.
    split; [exact Hn|]. split; [now apply accepted_stored|]. auto. }
  set (c1 := match search true Patterns.PRIMARY_PHONE text, c with
             | Some m, Some p => _ | _, _ => c end) in *.
  destruct (search true Patterns.PRIMARY_EMAIL text) as [m|] eqn:Em; [|exact H1].
  destruct c1 as [p|]; [|exact H1].
  destruct (H1 p eq_refl) as (Hn & Hp & _ & Ha & Hr).
  intros q Eq. inversion Eq; subst q. simpl.
  split; [exact Hn|]. split; [exact Hp|]. split; [|auto].
  intros v Ev. inversion Ev; subst v. split.
  - intros n. now apply (email_value_passed text).
  - now apply (email_capture text).
Qed.

Lemma filtered_capture_stored m v :
  filtered_capture m = Some v -> v <> [] -> passed v 50.
Proof.
  unfold filtered_capture, passed. destruct m as [m|]; [|discriminate]. cbv zeta.
  destruct (_is_form_label_or_placeholder (Some (capture m)) 50) eqn:E.
  - rewrite andb_true_r. destruct (truthy_str (Some (capture m))) eqn:T; [discriminate|].
    intros H; inversion H; subst v. destruct (capture m); [congruence|discriminate].
  - rewrite andb_false_r. intros H; inversion H; subst v. auto.
Qed.

(** The asset record in terms of the searches it is built from. *)
Lemma extract_asset_inv text a :
  extract_asset text = Ok (Some a) ->
  AssetDetails.asset_type a = Some (lit "vehicle")
  /\ AssetDetails.asset_id a = option_map capture (search true Patterns.VIN text)
  /\ AssetDetails.make a = filtered_capture (search true Patterns.MAKE text)
  /\ AssetDetails.model a = filtered_capture (search true Patterns.MODEL text)
  /\ AssetDetails.initial_estimate a = AssetDetails.estimated_damage a
  /\ Ok (AssetDetails.estimated_damage a)
     = match search_estimate text with
       | Some m => _parse_float (Some (group 1 m))
       | None => Ok None
       end.
Proof.
  unfold extract_asset. cbv zeta.
  destruct (is_some _ || is_some _ || is_some _ || is_some _ || is_some _);
    [|discriminate].
  destruct (match search true Patterns.YEAR text with
            | Some m => v <- py_int (group 1 m) ;; Ok (Some v)
            | None => Ok None
            end) as [y|]; [|discriminate].
  cbn [bind].
  destruct (match search_estimate text with
            | Some m => _parse_float (Some (group 1 m))
            | None => Ok None
            end) as [x|]; [|discriminate].
  cbn [bind]. intros H; inversion H; subst a. simpl. auto 10.
Qed.

Lemma sync_estimates_id a :
  AssetDetails.initial_estimate a = AssetDetails.estimated_damage a ->
  sync_estimates a = a.
Proof.
  unfold sync_estimates. intros H. rewrite H.
  destruct (AssetDetails.estimated_damage a); reflexivity.
Qed.

Lemma infer_claim_type_priority description text :
  infer_claim_type description (str_lower text) (str_upper text)
  = claim_type_by_priority description text.
Proof.
  unfold infer_claim_type, claim_type_by_priority. cbv zeta.
  destruct description as [[|c d]|]; reflexivity.
Qed.

Lemma claim_type_by_priority_in description text :
  In (claim_type_by_priority description text) CLAIM_TYPES.
Proof.
  unfold claim_type_by_priority. cbv zeta.
  destruct (_ || _); [left; reflexivity|].
  destruct (_ || _ || _ || _); [right; left; reflexivity | right; right; left; reflexivity].
Qed.

End BlockFacts.

(** ** The record as a whole *)

Module RecordFacts.
Import Re ReSpec ReFacts SearchFacts StrFacts PatternFacts ParseFacts ExtractFacts.
Import ClassifierFacts CaptureFacts ValueFacts BlockFacts.

Import Spec Extract.

(** A stored incident time is accepted by the classifier and not empty. *)
Lemma date_time_time text lower d t :
  extract_date_time text lower = Ok (d, t) -> clean t.
Proof.
  unfold extract_date_time.
  assert (Tail : forall (d0 : option date) (t0 : option str),
    match d0 with
    | Some _ => Ok (d0, t0)
    | None =>
        match search false Patterns.GENERIC_LOSS_DATE lower with
        | Some m => d' <- _parse_date (Some (group 1 m)) ;; Ok (d', t0)
        | None => Ok (d0, t0)
        end
    end = Ok (d, t) -> t = t0).
  { intros d0 t0. destruct d0 as [d0|]; [intros H; now inversion H|].
    destruct (search false Patterns.GENERIC_LOSS_DATE lower) as [m|];
      [|intros H; now inversion H].
    destruct (_parse_date (Some (group 1 m))) as [x|]; cbn [bind];
      [intros H; now inversion H | discriminate]. }
  destruct (search true Patterns.DATE_OF_LOSS_AND_TIME text) as [m|] eqn:Em.
  - cbv zeta.
    destruct (match search false Patterns.DATE_TOKEN (group 1 m) with
              | Some d0 => _parse_date (Some (group 1 d0))
              | None => Ok None
              end) as [x|]; cbn [bind]; [|discriminate].
    intros H. apply (Tail x) in H. subst t.
    destruct (search true Patterns.TIME_TOKEN (group 1 m)) as [tm|] eqn:Et;
      [|intros v Ev; discriminate Ev].
    intros v Ev. inversion Ev; subst v. split.
    + intros n. apply (time_value_passed (group 1 m)); [|exact Et].
      exact (date_line_no_newline text Em).
    + now apply (time_capture (group 1 m)).
  - cbn [bind]. intros H. apply (Tail None) in H. subst t. intros v Ev. discriminate Ev.
Qed.

Lemma attachments_cases lower :
  extract_attachments lower = [] \/ extract_attachments lower = [lit "document_attached"].
Proof. unfold extract_attachments. destruct (_ || _); auto. Qed.

(** What the extractor returns, block by block. *)
Lemma extract_record text :
  exists e, _extract_from_raw_text text = Ok e
    /\ well_formed e
    /\ stored 50 (PolicyInfo.policy_number (ExtractedFields.policy e))
    /\ stored default_max_len (PolicyInfo.policyholder_name (ExtractedFields.policy e))
    /\ clean (IncidentInfo.time (ExtractedFields.incident e))
    /\ stored default_max_len (IncidentInfo.location_street (ExtractedFields.incident e))
    /\ stored 100 (IncidentInfo.location_city_state_zip (ExtractedFields.incident e))
    /\ stored 80 (IncidentInfo.location_country (ExtractedFields.incident e))
    /\ stored 2000 (IncidentInfo.description (ExtractedFields.incident e))
    /\ IncidentInfo.description (ExtractedFields.incident e)
       = extract_description text (str_lower text)
    /\ ExtractedFields.claim_type e
       = Some (claim_type_by_priority
                 (IncidentInfo.description (ExtractedFields.incident e)) text)
    /\ party_stored (ExtractedFields.claimant e)
    /\ (forall a, ExtractedFields.asset e = Some a ->
          clean (AssetDetails.asset_id a)
          /\ (forall v, AssetDetails.make a = Some v -> v <> [] -> passed v 50)
          /\ (forall v, AssetDetails.model a = Some v -> v <> [] -> passed v 50)).
Proof.
  destruct (extract_shape text) as (d & t & a & Ed & Ea & E).
  eexists. split; [exact E|]. cbv zeta. cbn [ExtractedFields.policy ExtractedFields.incident
    ExtractedFields.claimant ExtractedFields.asset ExtractedFields.claim_type
    PolicyInfo.policy_number PolicyInfo.policyholder_name IncidentInfo.time
    IncidentInfo.location_street IncidentInfo.location_city_state_zip
    IncidentInfo.location_country IncidentInfo.description].
  assert (Ha : forall a0, a = Some a0 -> sync_estimates a0 = a0).
  { intros a0 ->. apply extract_asset_inv in Ea. now apply sync_estimates_id. }
  split.
  { unfold well_formed. cbn.
    split.
    { eexists. split; [reflexivity|]. rewrite infer_claim_type_priority.
      apply claim_type_by_priority_in. }
    split; [reflexivity|]. split; [reflexivity|].
    split; [apply attachments_cases|].
    destruct a as [a0|]; cbn; [|reflexivity].
    rewrite (Ha a0 eq_refl). apply extract_asset_inv in Ea.
    destruct Ea as (E1 & _ & _ & _ & E5 & _). auto. }
  split; [apply policy_number_stored|].
  split; [apply policyholder_name_stored|].
  split; [now apply (date_time_time _ _ Ed)|].
  split; [apply location_fallback_stored, location_street_stored|].
  split; [apply city_state_zip_stored|].
  split; [apply country_stored|].
  split; [apply description_stored|].
  split; [reflexivity|].
  split; [now rewrite infer_claim_type_priority|].
  split; [apply contact_stored, claimant_stored, policyholder_name_stored|].
  intros a1 E1. destruct a as [a0|]; [|discriminate]. cbn in E1.
  rewrite (Ha a0 eq_refl) in E1. inversion E1; subst a1.
  apply extract_asset_inv in Ea. destruct Ea as (_ & E2 & E3 & E4 & _).
  split; [|split].
  - intros v Ev. rewrite E2 in Ev.
    destruct (search true Patterns.VIN text) as [m|] eqn:Em; [|discriminate].
    inversion Ev; subst v. split.
    + intros n. now apply (vin_value_passed text).
    + now apply (vin_capture text).
  - intros v Ev Hne. rewrite E3 in Ev. exact (filtered_capture_stored _ Ev Hne).
  - intros v Ev Hne. rewrite E4 in Ev. exact (filtered_capture_stored _ Ev Hne).
Qed.

End RecordFacts.

(** ** The classifier and white space *)

Module TrimFacts.
Import Re ReSpec ReFacts SearchFacts StrFacts PatternFacts ExtractFacts.
Import ClassifierFacts CaptureFacts KeywordFacts Shape ShapeFacts ValueFacts Spec.

Lemma lstrip_spaces ws s : forallb is_space ws = true -> lstrip (ws ++ s) = lstrip s.
Proof.
  induction ws as [|a ws IH]; simpl; [reflexivity|].
  intros H. apply andb_true_iff in H. destruct H as [Ha H]. rewrite Ha. auto.
Qed.

Lemma rstrip_spaces s ws : forallb is_space ws = true -> rstrip (s ++ ws) = rstrip s.
Proof.
  intros H. unfold rstrip. rewrite rev_app_distr, lstrip_spaces; [reflexivity|].
  now rewrite forallb_rev.
Qed.

Lemma lstrip_app_spaces s ws :
  forallb is_space ws = true -> rstrip (lstrip (s ++ ws)) = rstrip (lstrip s).
Proof.
  intros H. induction s as [|a s IH]; simpl.
  - replace (lstrip ws) with (@nil ascii); [reflexivity|].
    symmetry. now apply lstrip_nil_iff.
  - destruct (is_space a); [exact IH|].
    change (a :: s ++ ws) with ((a :: s) ++ ws). now apply rstrip_spaces.
Qed.

(** White space around a string is gone once it is trimmed. *)
Lemma strip_pad a s b :
  forallb is_space a = true -> forallb is_space b = true ->
  strip (a ++ s ++ b) = strip s.
Proof.
  intros Ha Hb. unfold strip. rewrite (@lstrip_spaces a (s ++ b) Ha).
  now apply lstrip_app_spaces.
Qed.

Lemma classifier_strip v n :
  _is_form_label_or_placeholder (Some v) n
  = _is_form_label_or_placeholder (Some (strip v)) n.
Proof.
  unfold _is_form_label_or_placeholder. rewrite strip_idem.
  destruct (strip v) as [|x t] eqn:E.
  - simpl. now rewrite orb_true_r.
  - destruct v as [|y v']; [discriminate E|]. reflexivity.
Qed.

Lemma classifier_pad a s b n :
  forallb is_space a = true -> forallb is_space b = true ->
  _is_form_label_or_placeholder (Some (a ++ s ++ b)) n
  = _is_form_label_or_placeholder (Some s) n.
Proof.
  intros Ha Hb. rewrite classifier_strip, (@strip_pad a s b Ha Hb).
  symmetry. apply classifier_strip.
Qed.

(** The verdict with the third rule taken out. *)
Lemma classifier_rules v n :
  _is_form_label_or_placeholder (Some v) n
  = (_is_form_label_or_placeholder (Some v) (List.length (strip v))
     || (n <? List.length (strip v)) && (2 <? count_char newline (strip v))).
Proof.
  unfold _is_form_label_or_placeholder.
  destruct (negb _ || negb _); [reflexivity|]. cbv zeta.
  destruct (str_in _ _ || _); [reflexivity|].
  rewrite Nat.ltb_irrefl. cbn [andb].
  destruct (2 <? count_char newline (strip v)) eqn:Hc.
  - assert (Hin : contains [newline] (strip v) = true).
    { apply count_contains. apply Nat.ltb_lt in Hc. lia. }
    rewrite Hin, andb_true_r.
    destruct (n <? List.length (strip v)); [now rewrite orb_true_r|].
    cbn [andb]. now rewrite orb_false_r.
  - rewrite !andb_false_r. now rewrite orb_false_r.
Qed.

End TrimFacts.

(** ** Numbers, dates and years *)

Module NumberFacts.
Import Re ReSpec ReFacts SearchFacts StrFacts PatternFacts ParseFacts ExtractFacts.
Import Notions.

(** *** Rounding keeps the sign *)

Lemma shr_1_nonneg mrs : (0 <= shr_m mrs)%Z -> (0 <= shr_m (shr_1 mrs))%Z.
Proof.
  destruct mrs as [m r s]. simpl. intros H.
  destruct m as [|[p|p|]|p]; simpl; lia.
Qed.

Lemma iter_shr_nonneg n : forall mrs,
  (0 <= shr_m mrs)%Z -> (0 <= shr_m (iter_pos shr_1 n mrs))%Z.
Proof.
  induction n as [n IH|n IH|]; intros mrs H; simpl.
  - apply IH, IH. now apply shr_1_nonneg.
  - apply IH, IH. exact H.
  - now apply shr_1_nonneg.
Qed.

Lemma shr_nonneg mrs e n : (0 <= shr_m mrs)%Z -> (0 <= shr_m (fst (shr mrs e n)))%Z.
Proof.
  intros H. destruct n as [|p|p]; simpl; [exact H| |exact H].
  now apply iter_shr_nonneg.
Qed.

Lemma shr_fexp_nonneg m e l :
  (0 <= m)%Z -> (0 <= shr_m (fst (shr_fexp prec emax m e l)))%Z.
Proof.
  intros H. unfold shr_fexp. apply shr_nonneg.
  destruct l as [|[| |]]; exact H.
Qed.

Lemma round_nearest_even_nonneg m l : (0 <= m)%Z -> (0 <= round_nearest_even m l)%Z.
Proof.
  intros H. destruct l as [|[| |]]; simpl; try lia.
  destruct (Z.even m); lia.
Qed.

Lemma binary_round_aux_unsigned m e l :
  (0 <= m)%Z -> unsigned_float (binary_round_aux prec emax false m e l) = true.
Proof.
  intros H. unfold binary_round_aux.
  pose proof (@shr_fexp_nonneg m e l H) as H1.
  destruct (shr_fexp prec emax m e l) as [mrs' e'] eqn:E1. simpl in H1.
  pose proof (@shr_fexp_nonneg
                (round_nearest_even (shr_m mrs') (loc_of_shr_record mrs')) e' loc_Exact
                (round_nearest_even_nonneg _ H1)) as H2.
  destruct (shr_fexp prec emax _ e' loc_Exact) as [mrs'' e''] eqn:E2. simpl in H2.
  destruct (shr_m mrs'') as [|p|p]; [reflexivity| |lia].
  destruct (Z.leb e'' (emax - prec)); reflexivity.
Qed.

Lemma binary_normalize_unsigned m e :
  (0 <= m)%Z -> unsigned_float (binary_normalize prec emax m e false) = true.
Proof.
  intros H. destruct m as [|p|p]; [reflexivity| |lia].
  unfold binary_normalize, binary_round.
  destruct (shl_align _ _ _) as [mz ez]. apply binary_round_aux_unsigned. lia.
Qed.

Lemma float_of_decimal_unsigned n k :
  (0 <= n)%Z -> unsigned_float (float_of_decimal n k) = true.
Proof.
  intros H. unfold float_of_decimal. cbv zeta. apply binary_normalize_unsigned.
  assert (Hd : (0 < 10 ^ Z.of_nat k)%Z) by (apply Z.pow_pos_nonneg; lia).
  assert (Hs : (0 <= Z.shiftl n (Z.log2 (10 ^ Z.of_nat k) + 70))%Z).
  { apply Z.shiftl_nonneg. exact H. }
  pose proof (Z.div_pos _ _ Hs Hd).
  destruct (_ =? 0)%Z; lia.
Qed.

(** *** Runs of digits *)

Lemma digit_val_range c : is_digit c = true -> (0 <= digit_val c <= 9)%Z.
Proof. destruct c as [[] [] [] [] [] [] [] []]; vm_compute; intuition congruence. Qed.

Lemma fold_digits_app a b acc :
  fold_left (fun acc c => 10 * acc + digit_val c)%Z (a ++ b) acc
  = fold_left (fun acc c => 10 * acc + digit_val c)%Z b
      (fold_left (fun acc c => 10 * acc + digit_val c)%Z a acc).
Proof. apply fold_left_app. Qed.

Lemma fold_digits_shift b : forall acc,
  fold_left (fun acc c => 10 * acc + digit_val c)%Z b acc
  = (acc * 10 ^ Z.of_nat (List.length b) + digits_val b)%Z.
Proof.
  unfold digits_val.
  induction b as [|c b IH]; intros acc; [simpl; lia|].
  cbn [fold_left List.length]. rewrite IH, (IH (10 * 0 + digit_val c)%Z).
  rewrite Nat2Z.inj_succ, Z.pow_succ_r by lia. ring.
Qed.

Lemma digits_val_app a b :
  digits_val (a ++ b) = (digits_val a * 10 ^ Z.of_nat (List.length b) + digits_val b)%Z.
Proof. unfold digits_val at 1. rewrite fold_digits_app. apply fold_digits_shift. Qed.

Lemma digits_val_range w :
  forallb is_digit w = true ->
  (0 <= digits_val w < 10 ^ Z.of_nat (List.length w))%Z.
Proof.
  induction w as [|c w IH] using rev_ind; [simpl; intros; vm_compute; split; congruence|].
  rewrite forallb_app. intros H. apply andb_true_iff in H. destruct H as [Hw Hc].
  simpl in Hc. rewrite andb_true_r in Hc.
  rewrite digits_val_app, length_app. cbn [List.length].
  replace (digits_val [c]) with (digit_val c) by (unfold digits_val; simpl; lia).
  pose proof (digit_val_range c Hc). specialize (IH Hw).
  rewrite Nat2Z.inj_add, Z.pow_add_r by lia. simpl (Z.of_nat 1).
  change (10 ^ 1)%Z with 10%Z. lia.
Qed.

Lemma digits_val_four a b c d :
  digits_val [a; b; c; d]
  = (1000 * digit_val a + 100 * digit_val b + 10 * digit_val c + digit_val d)%Z.
Proof. unfold digits_val. cbn [fold_left]. ring. Qed.

(** *** [_parse_float] *)

Lemma count_sub_non_numeric s :
  count_char "."%char (sub_non_numeric s) = count_char "."%char s.
Proof.
  unfold count_char, sub_non_numeric.
  induction s as [|c s IH]; [reflexivity|]. cbn [filter].
  destruct (negb (set_ok false true [IDigit; IChar "."%char] c)) eqn:E1;
    cbn [filter]; destruct (Ascii.eqb "." c) eqn:E2; cbn [List.length]; try lia.
  exfalso. apply Ascii.eqb_eq in E2. subst c. vm_compute in E1. discriminate.
Qed.

Lemma split_at_dot_count s :
  match snd (split_at_dot s) with
  | Some f => count_char "."%char s = S (count_char "."%char f)
  | None => count_char "."%char s = 0
  end.
Proof.
  unfold count_char.
  induction s as [|c s IH]; [reflexivity|]. cbn [split_at_dot filter].
  destruct (Ascii.eqb c ".") eqn:E.
  - apply Ascii.eqb_eq in E. subst c. reflexivity.
  - rewrite Ascii.eqb_sym, E. destruct (split_at_dot s) as [a b]. exact IH.
Qed.

Lemma digits_no_dot f : forallb is_digit f = true -> count_char "."%char f = 0.
Proof.
  unfold count_char. induction f as [|c f IH]; [reflexivity|]. cbn [forallb filter].
  intros H. apply andb_true_iff in H. destruct H as [Hc Hf].
  destruct (Ascii.eqb "." c) eqn:E; [|now apply IH].
  apply Ascii.eqb_eq in E. subst c. discriminate Hc.
Qed.

(** [float] raises on a string with two periods. *)
Lemma py_float_two_dots s :
  2 <= count_char "."%char s -> py_float s = Raise ValueError.
Proof.
  intros H. unfold py_float. pose proof (split_at_dot_count s) as Hc.
  destruct (split_at_dot s) as [ip [fp|]]; simpl in Hc; [|lia].
  destruct (forallb is_digit fp) eqn:F.
  - apply digits_no_dot in F. lia.
  - now rewrite andb_false_r.
Qed.

Lemma parse_float_two_dots s :
  2 <= count_char "."%char s -> _parse_float (Some s) = Ok None.
Proof.
  intros H. unfold _parse_float. cbv zeta.
  destruct (negb _); [reflexivity|].
  rewrite py_float_two_dots; [reflexivity|]. now rewrite count_sub_non_numeric.
Qed.

Lemma py_float_unsigned s x : py_float s = Ok x -> unsigned_float x = true.
Proof.
  unfold py_float. destruct (split_at_dot s) as [ip rest].
  destruct (_ && _ && _) eqn:E; [|discriminate].
  intros H. inversion H. apply float_of_decimal_unsigned.
  apply andb_true_iff in E. destruct E as [E _].
  apply andb_true_iff in E. destruct E as [E1 E2].
  apply digits_val_range. now rewrite forallb_app, E1, E2.
Qed.

Lemma parse_float_unsigned s x :
  _parse_float s = Ok (Some x) -> unsigned_float x = true.
Proof.
  unfold _parse_float. destruct s as [s|]; [|discriminate]. cbv zeta.
  destruct (negb _); [discriminate|].
  destruct (py_float (sub_non_numeric s)) as [y|[]] eqn:E; cbn [bind try_except];
    [|discriminate].
  intros H. inversion H; subst y. now apply (py_float_unsigned _ E).
Qed.

Lemma unsigned_not_below x :
  unsigned_float x = true ->
  float_lt x (S754_zero false) = false /\ x <> S754_nan.
Proof.
  intros Hx. split; [|intros ->; discriminate].
  destruct x as [[]|[]| |[] m e]; try discriminate; reflexivity.
Qed.

(** *** [_parse_date] *)

Lemma make_date_valid y m d dt :
  make_date y m d = Ok dt ->
  dt = mkDate y m d
  /\ (1 <= y <= 9999 /\ 1 <= m <= 12 /\ 1 <= d <= days_in_month y m)%Z.
Proof.
  unfold make_date. destruct (_ && _) eqn:E; [|discriminate].
  intros H. inversion H. split; [reflexivity|].
  repeat (apply andb_true_iff in E; destruct E as [E ?]). lia.
Qed.

Lemma strptime_valid s f dt :
  Strptime.strptime s f = Ok dt ->
  (1 <= d_year dt <= 9999 /\ 1 <= d_month dt <= 12
   /\ 1 <= d_day dt <= days_in_month (d_year dt) (d_month dt))%Z.
Proof.
  unfold Strptime.strptime.
  destruct (match_ true (Strptime.format_regex f) s) as [m|]; [|discriminate].
  destruct (negb _); [discriminate|].
  destruct (py_int (group 3 m)) as [y|]; cbn [bind]; [|discriminate].
  destruct (py_int (group 1 m)) as [mo|]; cbn [bind]; [|discriminate].
  destruct (py_int (group 2 m)) as [d|]; cbn [bind]; [|discriminate].
  intros H. apply make_date_valid in H. destruct H as (-> & H). exact H.
Qed.

Lemma parse_date_loop_valid s fmts dt :
  parse_date_loop s fmts = Ok (Some dt) ->
  exists f, In f fmts /\ Strptime.strptime (slice_to 10 s) f = Ok dt.
Proof.
  induction fmts as [|f fmts IH]; [discriminate|]. cbn [parse_date_loop].
  destruct (Strptime.strptime (slice_to 10 s) f) as [d|[]] eqn:E; cbn [bind try_except].
  - intros H. inversion H; subst d. exists f. split; [left; reflexivity | exact E].
  - intros H. destruct (IH H) as (g & Hg & Eg). exists g. split; [right; exact Hg | exact Eg].
Qed.

Lemma parse_date_source s dt :
  _parse_date s = Ok (Some dt) ->
  exists v f, s = Some v /\ Strptime.strptime (slice_to 10 (strip v)) f = Ok dt.
Proof.
  unfold _parse_date. destruct s as [v|]; [|discriminate].
  destruct (negb _ || negb _); [discriminate|]. cbv zeta.
  intros H. apply parse_date_loop_valid in H. destruct H as (f & _ & E). eauto.
Qed.

Lemma parse_date_blank s : forallb is_space s = true -> _parse_date (Some s) = Ok None.
Proof.
  intros H. unfold _parse_date. apply strip_nil_iff in H. rewrite H.
  simpl. now rewrite orb_true_r.
Qed.

(** *** [_parse_year] *)



End NumberFacts.

(** ** What the groups of a match hold *)

Module GroupFacts.
Import Re ReSpec ReFacts SearchFacts StrFacts PatternFacts ExtractFacts.
Import ClassifierFacts Shape ShapeFacts GroupShape.

Lemma all_chars_in y : In y all_chars.
Proof.
  pose proof (in_all_chars y) as Hy. apply existsb_exists in Hy.
  destruct Hy as (z & Hz & E). apply Ascii.eqb_eq in E. now subst z.
Qed.

Lemma cap_get_in n (c : caps) v : cap_get n c = Some v -> In (n, v) c.
Proof.
  induction c as [|[k w] c IH]; simpl; [discriminate|].
  destruct (Nat.eqb k n) eqn:E.
  - intros H. inversion H; subst. apply Nat.eqb_eq in E. subst. now left.
  - intros H. right. auto.
Qed.

Lemma forallb_firstn (P : ascii -> bool) n s :
  forallb P s = true -> forallb P (firstn n s) = true.
Proof.
  revert n. induction s as [|a s IH]; intros [|n]; simpl; auto.
  intros H. apply andb_true_iff in H. destruct H as [H1 H2]. now rewrite H1, IH.
Qed.

Section Groups.

Variable ic : bool.

Lemma iter_groups (step : pos -> caps -> pos -> caps -> Prop) (A : nat -> ascii -> bool)
    lo hi :
  (forall p c p' c' k w, step p c p' c' -> In (k, w) c' ->
     In (k, w) c \/ forallb (A k) w = true) ->
  forall n p c p' c', iter step lo hi n p c p' c' ->
  forall k w, In (k, w) c' -> In (k, w) c \/ forallb (A k) w = true.
Proof.
  intros Hs n p c p' c' H. induction H as [|n p c p1 c1 p2 c2 _ Hstep _ _ IH];
    intros k w Hin; [now left|].
  destruct (IH k w Hin) as [H1|H1]; [|now right].
  exact (Hs _ _ _ _ _ _ Hstep H1).
Qed.

(** A capture that a match adds to the groups is made of characters the
    group can capture. *)
Lemma matches_groups r : forall p c p' c' k w,
  matches ic r p c p' c' -> In (k, w) c' ->
  In (k, w) c \/ forallb (group_accepts ic k r) w = true.
Proof.
  induction r; cbn [matches group_accepts]; intros p cs p' cs' k w H Hin.
  - destruct H as (_ & ->). now left.
  - destruct H as (y & _ & _ & ->). now left.
  - destruct H as (y & _ & _ & ->). now left.
  - destruct H as (p1 & c1 & H1 & H2).
    destruct (IHr2 _ _ _ _ _ _ H2 Hin) as [Hc|F].
    + destruct (IHr1 _ _ _ _ _ _ H1 Hc) as [Hc'|F]; [now left|right].
      eapply forallb_impl; [|exact F]. intros y Hy. now rewrite Hy.
    + right. eapply forallb_impl; [|exact F]. intros y Hy. now rewrite Hy, orb_true_r.
  - destruct H as [H|H].
    + destruct (IHr1 _ _ _ _ _ _ H Hin) as [Hc|F]; [now left|right].
      eapply forallb_impl; [|exact F]. intros y Hy. now rewrite Hy.
    + destruct (IHr2 _ _ _ _ _ _ H Hin) as [Hc|F]; [now left|right].
      eapply forallb_impl; [|exact F]. intros y Hy. now rewrite Hy, orb_true_r.
  - exact (iter_groups (fun k => group_accepts ic k r) IHr H k w Hin).
  - destruct H as (c1 & H & ->). destruct Hin as [E|Hin].
    + inversion E; subst k w. right.
      destruct (@matches_alphabet ic _ _ _ _ _ H) as (w0 & R & F).
      rewrite (reads_firstn R).
      eapply forallb_impl; [|exact F]. intros y Hy. now rewrite Nat.eqb_refl, Hy.
    + destruct (IHr _ _ _ _ _ _ H Hin) as [Hc|F]; [now left|right].
      eapply forallb_impl; [|exact F]. intros y Hy. now rewrite Hy, orb_true_r.
  - destruct negated.
    + destruct H as (_ & -> & _). now left.
    + destruct H as (_ & q & H). exact (IHr _ _ _ _ _ _ H Hin).
  - destruct H as (_ & _ & ->). now left.
  - destruct H as (_ & _ & ->). now left.
  - destruct H as (_ & _ & ->). now left.
Qed.

Variable P : ascii -> bool.

Lemma iter_caps_sub (step : pos -> caps -> pos -> caps -> Prop) lo hi :
  (forall p c p' c', step p c p' c' -> exists w, reads p w p') ->
  (forall p c p' c', step p c p' c' -> forallb P (p_rest p) = true ->
     (forall k w, In (k, w) c -> forallb P w = true) ->
     (forall k w, In (k, w) c' -> forallb P w = true)) ->
  forall n p c p' c', iter step lo hi n p c p' c' ->
  forallb P (p_rest p) = true ->
  (forall k w, In (k, w) c -> forallb P w = true) ->
  (forall k w, In (k, w) c' -> forallb P w = true).
Proof.
  intros Hr Hs n p c p' c' H. induction H as [|n p c p1 c1 p2 c2 _ Hstep _ _ IH];
    intros Hp Hc; [exact Hc|].
  apply IH.
  - destruct (Hr _ _ _ _ Hstep) as (w1 & (E & _)). rewrite E, forallb_app in Hp.
    now apply andb_true_iff in Hp.
  - exact (Hs _ _ _ _ Hstep Hp Hc).
Qed.

(** Every capture is made of characters of the subject. *)
Lemma matches_caps_sub r : forall p c p' c',
  matches ic r p c p' c' -> forallb P (p_rest p) = true ->
  (forall k w, In (k, w) c -> forallb P w = true) ->
  (forall k w, In (k, w) c' -> forallb P w = true).
Proof.
  induction r; cbn [matches]; intros p cs p' cs' H Hp Hc.
  - destruct H as (_ & ->). exact Hc.
  - destruct H as (y & _ & _ & ->). exact Hc.
  - destruct H as (y & _ & _ & ->). exact Hc.
  - destruct H as (p1 & c1 & H1 & H2).
    apply (IHr2 _ _ _ _ H2).
    + destruct (matches_reads _ _ _ _ _ _ H1) as (w1 & (E & _)).
      rewrite E, forallb_app in Hp. now apply andb_true_iff in Hp.
    + exact (IHr1 _ _ _ _ H1 Hp Hc).
  - destruct H as [H|H]; [exact (IHr1 _ _ _ _ H Hp Hc) | exact (IHr2 _ _ _ _ H Hp Hc)].
  - exact (iter_caps_sub (matches_reads ic r) IHr H Hp Hc).
  - destruct H as (c1 & H & ->). intros k w [E|Hin].
    + inversion E; subst. now apply forallb_firstn.
    + exact (IHr _ _ _ _ H Hp Hc k w Hin).
  - destruct negated.
    + destruct H as (_ & -> & _). exact Hc.
    + destruct H as (_ & q & H). exact (IHr _ _ _ _ H Hp Hc).
  - destruct H as (_ & _ & ->). exact Hc.
  - destruct H as (_ & _ & ->). exact Hc.
  - destruct H as (_ & _ & ->). exact Hc.
Qed.

Lemma iter_needs (step : pos -> caps -> pos -> caps -> Prop) lo hi :
  (forall p c p' c', step p c p' c' -> exists w, reads p w p') ->
  (forall p c p' c', step p c p' c' -> exists w, reads p w p' /\ existsb P w = true) ->
  0 < lo ->
  forall p c p' c', iter step lo hi 0 p c p' c' ->
  exists w, reads p w p' /\ existsb P w = true.
Proof.
  intros Hr Hs Hlo p c p' c' H.
  inversion H as [|n0 p0 c0 p1 c1 p2 c2 _ Hstep _ Hrest]; subst; [lia|].
  destruct (Hs _ _ _ _ Hstep) as (w1 & R1 & E1).
  destruct (iter_reads Hr Hrest) as (w2 & R2).
  exists (w1 ++ w2). split; [exact (reads_trans R1 R2)|].
  now rewrite existsb_app, E1.
Qed.

(** A pattern that needs a character of [P] reads one in every match. *)
Lemma matches_needs r : forall p c p' c',
  needs P ic r = true -> matches ic r p c p' c' ->
  exists w, reads p w p' /\ existsb P w = true.
Proof.
  induction r; cbn [matches needs]; intros p cs p' cs' N H; try discriminate N.
  - destruct H as (y & Ha & Hok & _). exists [y]. split; [now apply advance_reads|].
    rewrite forallb_forall in N. specialize (N y (all_chars_in y)).
    rewrite Hok in N. simpl in N. simpl. now rewrite N.
  - destruct H as (y & Ha & Hok & _). exists [y]. split; [now apply advance_reads|].
    rewrite forallb_forall in N. specialize (N y (all_chars_in y)).
    rewrite Hok in N. simpl in N. simpl. now rewrite N.
  - destruct H as (p1 & c1 & H1 & H2).
    destruct (matches_reads _ _ _ _ _ _ H1) as (v1 & Rv1).
    destruct (matches_reads _ _ _ _ _ _ H2) as (v2 & Rv2).
    apply orb_true_iff in N. destruct N as [N|N].
    + destruct (IHr1 _ _ _ _ N H1) as (w1 & R1 & E1).
      exists (w1 ++ v2). split; [exact (reads_trans R1 Rv2)|].
      now rewrite existsb_app, E1.
    + destruct (IHr2 _ _ _ _ N H2) as (w2 & R2 & E2).
      exists (v1 ++ w2). split; [exact (reads_trans Rv1 R2)|].
      now rewrite existsb_app, E2, orb_true_r.
  - apply andb_true_iff in N. destruct N as [N1 N2].
    destruct H as [H|H]; eauto.
  - apply andb_true_iff in N. destruct N as [Hlo N]. apply Nat.ltb_lt in Hlo.
    apply (iter_needs (matches_reads ic r) (fun p c p' c' => IHr p c p' c' N) Hlo H).
  - destruct H as (c1 & H & _). eauto.
Qed.

Lemma group_within_sound n r Q y :
  group_within ic n r Q = true -> group_accepts ic n r y = true -> Q y = true.
Proof.
  unfold group_within. intros H Hy. rewrite forallb_forall in H.
  specialize (H y (all_chars_in y)). now rewrite Hy in H.
Qed.

(** What group [k] of a search result holds. *)
Lemma search_group_within r s m k Q :
  search ic r s = Some m -> group_within ic (S k) r Q = true ->
  forallb Q (group (S k) m) = true.
Proof.
  intros H W. apply search_sound in H.
  destruct H as (pre & w & post & p' & _ & Hm & _).
  unfold group. destruct (cap_get (S k) (m_caps m)) as [v|] eqn:E; [|reflexivity].
  apply cap_get_in in E.
  destruct (matches_groups _ _ _ _ _ _ _ Hm E) as [[]|F].
  eapply forallb_impl; [|exact F]. intros y. now apply group_within_sound.
Qed.

Lemma search_group_sub r s m k :
  search ic r s = Some m -> forallb P s = true -> forallb P (group k m) = true.
Proof.
  intros H F. apply search_sound in H.
  destruct H as (pre & w & post & p' & Es & Hm & _ & Hw & _).
  assert (Fw : forallb P (w ++ post) = true).
  { rewrite Es, forallb_app in F. now apply andb_true_iff in F. }
  destruct k as [|k]; simpl.
  - rewrite Hw. rewrite forallb_app in Fw. now apply andb_true_iff in Fw.
  - destruct (cap_get (S k) (m_caps m)) as [v|] eqn:E; [|reflexivity].
    apply cap_get_in in E.
    refine (matches_caps_sub _ _ _ _ _ Hm Fw _ _ _ E). intros ? ? [].
Qed.

(** A subject without any character of [P] has no match of a pattern that
    needs one. *)
Lemma search_needs r s :
  needs P ic r = true -> forallb (fun c => negb (P c)) s = true ->
  search ic r s = None.
Proof.
  intros N F. destruct (search ic r s) as [m|] eqn:E; [|reflexivity]. exfalso.
  apply search_sound in E.
  destruct E as (pre & w & post & p' & Es & Hm & R & _).
  destruct (matches_needs _ _ _ _ _ N Hm) as (w' & R' & Ex).
  rewrite (reads_unique R' R) in Ex.
  apply existsb_exists in Ex. destruct Ex as (y & Hy & Py).
  rewrite forallb_forall in F. specialize (F y).
  rewrite Py in F. discriminate F. rewrite Es. apply in_or_app. right.
  apply in_or_app. now left.
Qed.

End Groups.

End GroupFacts.

(** ** Every field is a capture *)

Module SourceFacts.
Import Re ReSpec ReFacts SearchFacts StrFacts PatternFacts ParseFacts ExtractFacts.
Import ClassifierFacts CaptureFacts ValueFacts BlockFacts Shape ShapeFacts GroupShape.
Import GroupFacts Provenance Spec Extract.

Ltac found :=
  match goal with
  | H : search ?ic ?r ?s = Some ?m |- from_capture _ _ ?v =>
      match v with
      | context [capture m] =>
          exists ic, r, s, m; split; [simpl; auto 6 | split; [exact H | reflexivity]]
      end
  end.

Ltac branches :=
  repeat match goal with
  | |- context [match search ?ic ?r ?s with Some _ => _ | None => _ end] =>
      let E := fresh "Em" in destruct (search ic r s) eqn:E
  | |- context [if accepted ?v ?n then _ else _] => destruct (accepted v n)
  | |- context [if negb (truthy_str ?o) then _ else _] => destruct (negb (truthy_str o))
  end.

Ltac settle :=
  try discriminate;
  match goal with
  | |- Some _ = Some _ -> _ => let H := fresh in intros H; inversion H; subst; found
  | |- None = Some _ -> _ => discriminate
  | |- _ => idtac
  end.

Lemma policy_number_source text v :
  extract_policy_number text (str_lower text) = Some v ->
  from_capture (policy_number_sources text) uncut v.
Proof.
  unfold extract_policy_number, policy_number_generic, policy_number_loop,
    policy_number_sources.
  cbn [fold_left]. cbv zeta. branches; settle.
Qed.

Lemma policyholder_source text v :
  extract_policyholder_name text (str_lower text) = Some v ->
  from_capture (policyholder_sources text) (slice_to 200) v.
Proof.
  unfold extract_policyholder_name, policyholder_sources. cbv zeta. branches; settle.
Qed.

Lemma street_source text csz v :
  location_fallback text (extract_location_street text) csz = Some v ->
  from_capture (street_sources text) (slice_to 300) v.
Proof.
  unfold location_fallback, extract_location_street, street_sources. cbv zeta.
  destruct (negb _); branches; settle.
Qed.

Lemma city_state_zip_source text v :
  extract_city_state_zip text = Some v ->
  from_capture [(true, Patterns.CITY_STATE_ZIP, text)] uncut v.
Proof. unfold extract_city_state_zip. cbv zeta. branches; settle. Qed.

Lemma country_source text v :
  extract_country text = Some v ->
  from_capture [(true, Patterns.COUNTRY, text)] uncut v.
Proof. unfold extract_country. cbv zeta. branches; settle. Qed.

(** A claimant: its name is found, or is the policyholder's. *)
Lemma claimant_source text name c :
  extract_claimant text name = Some c ->
  (exists n, InvolvedParty.name c = Some n /\ n <> []
     /\ (from_capture (claimant_sources text) uncut n \/ name = Some n))
  /\ InvolvedParty.phone c = None /\ InvolvedParty.email c = None.
Proof.
  unfold extract_claimant, claimant_sources. cbv zeta.
  destruct (search true Patterns.DRIVERS_NAME text) as [m1|] eqn:E1.
  - destruct (accepted (capture m1) default_max_len) eqn:A1.
    + intros H; inversion H; subst c. split; [|auto]. exists (capture m1).
      split; [reflexivity|].
      split; [exact (proj2 (@accepted_stored _ _ A1 _ eq_refl))|]. left. found.
    + destruct (search true Patterns.OWNERS_NAME text) as [m2|] eqn:E2.
      * destruct (accepted (capture m2) default_max_len) eqn:A2.
        -- intros H; inversion H; subst c. split; [|auto]. exists (capture m2).
           split; [reflexivity|].
           split; [exact (proj2 (@accepted_stored _ _ A2 _ eq_refl))|]. left. found.
        -- destruct name as [[|x n]|]; try discriminate.
           intros H; inversion H; subst c. split; [|auto]. exists (x :: n).
           split; [reflexivity|]. split; [discriminate|]. now right.
      * destruct name as [[|x n]|]; try discriminate.
        intros H; inversion H; subst c. split; [|auto]. exists (x :: n).
        split; [reflexivity|]. split; [discriminate|]. now right.
  - destruct (search true Patterns.OWNERS_NAME text) as [m2|] eqn:E2.
    + destruct (accepted (capture m2) default_max_len) eqn:A2.
      * intros H; inversion H; subst c. split; [|auto]. exists (capture m2).
        split; [reflexivity|].
        split; [exact (proj2 (@accepted_stored _ _ A2 _ eq_refl))|]. left. found.
      * destruct name as [[|x n]|]; try discriminate.
        intros H; inversion H; subst c. split; [|auto]. exists (x :: n).
        split; [reflexivity|]. split; [discriminate|]. now right.
    + destruct name as [[|x n]|]; try discriminate.
      intros H; inversion H; subst c. split; [|auto]. exists (x :: n).
      split; [reflexivity|]. split; [discriminate|]. now right.
Qed.

Lemma contact_source text c0 c :
  extract_contact text c0 = Some c ->
  exists b, c0 = Some b
    /\ InvolvedParty.name c = InvolvedParty.name b
    /\ (forall v, InvolvedParty.phone c = Some v ->
          InvolvedParty.phone b = Some v
          \/ from_capture [(true, Patterns.PRIMARY_PHONE, text)] (slice_to 50) v)
    /\ (forall v, InvolvedParty.email c = Some v ->
          InvolvedParty.email b = Some v
          \/ from_capture [(true, Patterns.PRIMARY_EMAIL, text)] uncut v).
Proof.
  unfold extract_contact. cbv zeta.
  destruct c0 as [b|].
  - intros H. exists b. split; [reflexivity|].
    destruct (search true Patterns.PRIMARY_PHONE text) as [m1|] eqn:E1;
      [destruct (accepted (slice_to 50 (capture m1)) 30)|];
      (destruct (search true Patterns.PRIMARY_EMAIL text) as [m2|] eqn:E2;
       inversion H; subst c; simpl;
       (split; [reflexivity|]);
       split; intros v Ev; try (left; exact Ev);
       inversion Ev; subst v; right; found).
  - destruct (search true Patterns.PRIMARY_PHONE text);
      destruct (search true Patterns.PRIMARY_EMAIL text); discriminate.
Qed.

Lemma filtered_capture_source r text v :
  filtered_capture (search true r text) = Some v ->
  from_capture [(true, r, text)] uncut v.
Proof.
  unfold filtered_capture. destruct (search true r text) as [m|] eqn:E; [|discriminate].
  cbv zeta. destruct (_ && _); [discriminate|].
  intros H; inversion H; subst v. found.
Qed.

(** Every string field of a record is a capture of one of its patterns. *)
Lemma extract_sources text :
  exists e, _extract_from_raw_text text = Ok e /\ field_sources text e.
Proof.
  destruct (extract_shape text) as (d & t & a & Ed & Ea & E).
  eexists. split; [exact E|]. unfold field_sources. cbv zeta.
  cbn [ExtractedFields.policy ExtractedFields.incident ExtractedFields.claimant
       ExtractedFields.asset PolicyInfo.policy_number PolicyInfo.policyholder_name
       IncidentInfo.location_street IncidentInfo.location_city_state_zip
       IncidentInfo.location_country].
  split; [apply policy_number_source|].
  split; [apply policyholder_source|].
  split; [apply street_source|].
  split; [apply city_state_zip_source|].
  split; [apply country_source|].
  split.
  - intros c Hc. apply contact_source in Hc.
    destruct Hc as (b & Hb & Hn & Hp & He).
    apply claimant_source in Hb. destruct Hb as ((n & En & Hne & Hs) & Ep & Ee).
    split; [exists n; rewrite Hn; auto|]. split.
    + intros v Ev. destruct (Hp v Ev) as [H|H]; [congruence | exact H].
    + intros v Ev. destruct (He v Ev) as [H|H]; [congruence | exact H].
  - intros a1 E1. destruct a as [a0|]; [|discriminate]. cbn in E1.
    assert (Hs : sync_estimates a0 = a0).
    { apply extract_asset_inv in Ea. now apply sync_estimates_id. }
    rewrite Hs in E1. inversion E1; subst a1.
    apply extract_asset_inv in Ea. destruct Ea as (_ & E2 & E3 & E4 & _).
    split; [|split].
    + intros v Ev. rewrite E2 in Ev.
      destruct (search true Patterns.VIN text) as [m|] eqn:Em; [|discriminate].
      inversion Ev; subst v. found.
    + intros v Ev. rewrite E3 in Ev. now apply filtered_capture_source.
    + intros v Ev. rewrite E4 in Ev. now apply filtered_capture_source.
Qed.

(** What the first group of the sources holds is what the value holds. *)
Lemma from_capture_within sources cut v Q :
  from_capture sources cut v ->
  (forall ic r s, In (ic, r, s) sources -> group_within ic 1 r Q = true) ->
  (forall s, forallb Q s = true -> forallb Q (cut s) = true) ->
  forallb Q v = true.
Proof.
  intros (ic & r & s & m & Hin & Hs & ->) W C.
  apply C. unfold capture. apply strip_forallb.
  exact (@search_group_within ic r s m 0 Q Hs (W _ _ _ Hin)).
Qed.

Lemma uncut_forallb (Q : ascii -> bool) s : forallb Q s = true -> forallb Q (uncut s) = true.
Proof. auto. Qed.

Lemma slice_forallb (Q : ascii -> bool) n s :
  forallb Q s = true -> forallb Q (slice_to n s) = true.
Proof. apply forallb_firstn. Qed.

End SourceFacts.

(** ** The shape of the fields *)

Module FieldFacts.
Import Re ReSpec ReFacts SearchFacts StrFacts PatternFacts ParseFacts ExtractFacts.
Import ClassifierFacts CaptureFacts ValueFacts BlockFacts RecordFacts.
Import Shape ShapeFacts GroupShape GroupFacts Provenance SourceFacts NumberFacts.
Import Spec Notions Extract.

Lemma extract_unique text e1 e2 :
  _extract_from_raw_text text = Ok e1 -> _extract_from_raw_text text = Ok e2 -> e1 = e2.
Proof. intros H1 H2. rewrite H1 in H2. now inversion H2. Qed.

(** The time of a record is the trimmed time token of the date line. *)
Lemma time_source text lower d t v :
  extract_date_time text lower = Ok (d, t) -> t = Some v ->
  exists m tm, search true Patterns.DATE_OF_LOSS_AND_TIME text = Some m
    /\ search true Patterns.TIME_TOKEN (group 1 m) = Some tm
    /\ v = strip (group 1 tm).
Proof.
  unfold extract_date_time.
  assert (Tail : forall (d0 : option date) (t0 : option str),
    match d0 with
    | Some _ => Ok (d0, t0)
    | None =>
        match search false Patterns.GENERIC_LOSS_DATE lower with
        | Some m => d' <- _parse_date (Some (group 1 m)) ;; Ok (d', t0)
        | None => Ok (d0, t0)
        end
    end = Ok (d, t) -> t = t0).
  { intros d0 t0. destruct d0 as [d0|]; [intros H; now inversion H|].
    destruct (search false Patterns.GENERIC_LOSS_DATE lower) as [m|];
      [|intros H; now inversion H].
    destruct (_parse_date (Some (group 1 m))) as [x|]; cbn [bind];
      [intros H; now inversion H | discriminate]. }
  destruct (search true Patterns.DATE_OF_LOSS_AND_TIME text) as [m|] eqn:Em.
  - cbv zeta.
    destruct (match search false Patterns.DATE_TOKEN (group 1 m) with
              | Some d0 => _parse_date (Some (group 1 d0))
              | None => Ok None
              end) as [x|]; cbn [bind]; [|discriminate].
    intros H. apply (Tail x) in H. subst t.
    destruct (search true Patterns.TIME_TOKEN (group 1 m)) as [tm|] eqn:Et;
      [|discriminate].
    intros Ev. inversion Ev; subst v. exists m, tm. auto.
  - cbn [bind]. intros H. apply (Tail None) in H. subst t. discriminate.
Qed.

Lemma record_time text e v :
  _extract_from_raw_text text = Ok e ->
  IncidentInfo.time (ExtractedFields.incident e) = Some v ->
  exists m tm, search true Patterns.DATE_OF_LOSS_AND_TIME text = Some m
    /\ search true Patterns.TIME_TOKEN (group 1 m) = Some tm
    /\ v = strip (group 1 tm).
Proof.
  intros E Ev. destruct (extract_shape text) as (d & t & a & Ed & _ & E').
  rewrite E in E'. inversion E'; subst e. cbn in Ev.
  exact (time_source _ _ Ed Ev).
Qed.

Lemma time_single_line text e :
  _extract_from_raw_text text = Ok e ->
  each no_line_feed (IncidentInfo.time (ExtractedFields.incident e)).
Proof.
  intros E v Ev. destruct (record_time _ E Ev) as (m & tm & Hm & Ht & ->).
  unfold no_line_feed. apply strip_forallb.
  apply (@search_group_sub true not_newline _ _ _ 1 Ht).
  exact (@date_line_no_newline text m Hm).
Qed.

(** *** Checks on the groups of the patterns *)

Lemma space_newline y : not_space y = true -> not_newline y = true.
Proof. apply not_space_not_newline. Qed.

Ltac within :=
  let H := fresh in
  intros ? ? ? H; simpl in H;
  repeat (destruct H as [H|H]; [inversion H; subst; vm_compute; reflexivity|]);
  destruct H.

Lemma policy_number_no_space text v :
  from_capture (policy_number_sources text) uncut v -> no_space v.
Proof.
  intros H. apply (@from_capture_within _ _ _ not_space H); [within | apply uncut_forallb].
Qed.

Lemma policyholder_single_line text v :
  from_capture (policyholder_sources text) (slice_to 200) v -> no_line_feed v.
Proof.
  intros H. apply (@from_capture_within _ _ _ not_newline H); [within | intros s; apply slice_forallb].
Qed.

Lemma street_single_line text v :
  from_capture (street_sources text) (slice_to 300) v -> no_line_feed v.
Proof.
  intros H. apply (@from_capture_within _ _ _ not_newline H); [within | intros s; apply slice_forallb].
Qed.

Lemma one_source_single_line r text cut v :
  group_within true 1 r not_newline = true ->
  (forall s, forallb not_newline s = true -> forallb not_newline (cut s) = true) ->
  from_capture [(true, r, text)] cut v -> no_line_feed v.
Proof.
  intros W C H. apply (@from_capture_within _ _ _ not_newline H); [|exact C].
  intros ic r0 s [E|[]]. inversion E; subst. exact W.
Qed.

Lemma claimant_single_line text v :
  from_capture (claimant_sources text) uncut v -> no_line_feed v.
Proof.
  intros H. apply (@from_capture_within _ _ _ not_newline H); [within | apply uncut_forallb].
Qed.

Lemma email_no_space text v :
  from_capture [(true, Patterns.PRIMARY_EMAIL, text)] uncut v -> no_space v.
Proof.
  intros H. apply (@from_capture_within _ _ _ not_space H); [within | apply uncut_forallb].
Qed.

Lemma csz_single_line text v :
  from_capture [(true, Patterns.CITY_STATE_ZIP, text)] uncut v -> no_line_feed v.
Proof.
  intros H. apply (@from_capture_within _ _ _ not_newline H); [within | apply uncut_forallb].
Qed.

Lemma country_single_line text v :
  from_capture [(true, Patterns.COUNTRY, text)] uncut v -> no_line_feed v.
Proof.
  intros H. apply (@from_capture_within _ _ _ not_newline H); [within | apply uncut_forallb].
Qed.

Lemma phone_single_line text v :
  from_capture [(true, Patterns.PRIMARY_PHONE, text)] (slice_to 50) v -> no_line_feed v.
Proof.
  intros H. apply (@from_capture_within _ _ _ not_newline H);
    [within | intros s; apply slice_forallb].
Qed.

Lemma vin_no_space text v :
  from_capture [(true, Patterns.VIN, text)] uncut v -> no_space v.
Proof.
  intros H. apply (@from_capture_within _ _ _ not_space H); [within | apply uncut_forallb].
Qed.

Lemma make_cell text v :
  from_capture [(true, Patterns.MAKE, text)] uncut v -> no_line_feed v /\ no_tab v.
Proof.
  intros H. split.
  - apply (@from_capture_within _ _ _ not_newline H); [within | apply uncut_forallb].
  - apply (@from_capture_within _ _ _ (fun c => negb (Ascii.eqb c tab)) H);
      [within | apply uncut_forallb].
Qed.

Lemma model_cell text v :
  from_capture [(true, Patterns.MODEL, text)] uncut v -> no_line_feed v /\ no_tab v.
Proof.
  intros H. split.
  - apply (@from_capture_within _ _ _ not_newline H); [within | apply uncut_forallb].
  - apply (@from_capture_within _ _ _ (fun c => negb (Ascii.eqb c tab)) H);
      [within | apply uncut_forallb].
Qed.

Lemma cut_length sources n v :
  from_capture sources (slice_to n) v -> List.length v <= n.
Proof.
  intros (ic & r & s & m & _ & _ & ->). unfold slice_to. rewrite length_firstn. lia.
Qed.

Lemma vin_class_letter y : vin_class y = vin_letter y.
Proof. destruct y as [[] [] [] [] [] [] [] []]; vm_compute; reflexivity. Qed.

Lemma vin_value_shape text v :
  from_capture [(true, Patterns.VIN, text)] uncut v ->
  List.length v = 17 /\ forallb vin_letter v = true.
Proof.
  intros (ic & r & s & m & [E|[]] & Hs & ->). inversion E; subst ic r s.
  unfold uncut, capture.
  apply search_sound in Hs.
  destruct Hs as (pre & w & post & p' & _ & Hm & _).
  unfold Patterns.VIN in Hm.
  match type of Hm with
  | matches _ (cat_all [?a; ?b; ?c; ?d; ?e; ?f; ?g; ?h]) _ _ _ _ =>
      change (cat_all [a; b; c; d; e; f; g; h])
        with (cat_all ([a; b; c; d; e; f; g] ++ [h])) in Hm
  end.
  apply matches_cat_all_last in Hm. destruct Hm as (q & d & Hm).
  apply group_capture in Hm. destruct Hm as (wg & c1 & R & Hb & Ec).
  unfold times in Hb. cbn [matches] in Hb.
  apply iter_set in Hb. destruct Hb as (w1 & R1 & F & _ & Llo & Lhi).
  rewrite (reads_unique R1 R) in F, Llo, Lhi.
  specialize (Lhi 17 eq_refl (Nat.le_refl _) (Nat.le_0_l _)).
  rewrite (group1_of_caps m Ec).
  assert (Hv : forallb vin_class wg = true) by exact F.
  assert (Es : strip wg = wg).
  { apply strip_id. eapply forallb_impl; [|exact Hv].
    intros y Hy. now apply vin_class_plain. }
  rewrite Es. split; [lia|].
  eapply forallb_impl; [|exact Hv]. intros y Hy. now rewrite <- vin_class_letter.
Qed.

Lemma not_at y :
  set_ok true true [ISpace; IChar newline; IChar "@"%char] y = true ->
  y <> "@"%char /\ not_space y = true.
Proof.
  destruct y as [[] [] [] [] [] [] [] []]; vm_compute; intuition congruence.
Qed.

Lemma email_value_shape text v :
  from_capture [(true, Patterns.PRIMARY_EMAIL, text)] uncut v -> address_shape v.
Proof.
  intros H.
  destruct H as (ic & r & s & m & [E|[]] & Hs & ->). inversion E; subst ic r s.
  unfold uncut, capture.
  apply search_sound in Hs.
  destruct Hs as (pre & w & post & p' & _ & Hm & _).
  unfold Patterns.PRIMARY_EMAIL in Hm.
  match type of Hm with
  | matches _ (cat_all [?a; ?b; ?c; ?d; ?e; ?g]) _ _ _ _ =>
      change (cat_all [a; b; c; d; e; g]) with (cat_all ([a; b; c; d; e] ++ [g])) in Hm
  end.
  apply matches_cat_all_last in Hm. destruct Hm as (q & d & Hm).
  apply group_capture in Hm. destruct Hm as (wg & c1 & R & Hb & Ec).
  match type of Hb with
  | matches _ (cat_all [?a; ?b; ?c]) _ _ _ _ =>
      change (cat_all [a; b; c]) with (Cat a (Cat b c)) in Hb
  end.
  cbn [matches] in Hb. destruct Hb as (p1 & c2 & H1 & p2 & c3 & H2 & H3).
  unfold plus in H1, H3. cbn [matches] in H1, H3.
  apply iter_set in H1. destruct H1 as (w1 & R1 & F1 & _ & L1 & _).
  apply iter_set in H3. destruct H3 as (w3 & R3 & F3 & _ & L3 & _).
  destruct H2 as (z & Hz & Hzok & _). apply advance_reads in Hz.
  apply at_sign in Hzok. subst z.
  pose proof (reads_unique R (reads_trans R1 (reads_trans Hz R3))) as Ew.
  rewrite (group1_of_caps m Ec).
  assert (Hns : forallb not_space wg = true).
  { rewrite Ew, !forallb_app. rewrite andb_true_iff. split; [|rewrite andb_true_iff; split].
    - eapply forallb_impl; [|exact F1]. intros y Hy. now apply not_at.
    - reflexivity.
    - eapply forallb_impl; [|exact F3]. clear. intros y Hy.
      destruct y as [[] [] [] [] [] [] [] []]; vm_compute in Hy |- *; congruence. }
  assert (Es : strip wg = wg) by (apply strip_id; exact Hns).
  rewrite Es. exists w1, w3.
  split; [exact Ew|]. split; [destruct w1; [simpl in L1; lia | discriminate]|].
  split; [destruct w3; [simpl in L3; lia | discriminate]|].
  split; [exact Hns|].
  intros Hin. pose proof (@forallb_in _ _ _ F1 Hin) as Hat.
  apply not_at in Hat. now destruct Hat.
Qed.

End FieldFacts.

(** ** Lower case, years, amounts, and documents without letters *)

Module RecordShape.
Import Re ReSpec ReFacts SearchFacts StrFacts PatternFacts ParseFacts ExtractFacts.
Import ClassifierFacts CaptureFacts ValueFacts BlockFacts RecordFacts.
Import Shape ShapeFacts GroupShape GroupFacts Provenance SourceFacts NumberFacts.
Import FieldFacts Spec Notions Extract.

(** *** Lower case *)

Lemma lower_char_no_upper c : no_upper (lower_char c) = true.
Proof. destruct c as [[] [] [] [] [] [] [] []]; vm_compute; reflexivity. Qed.

Lemma str_lower_no_upper s : forallb no_upper (str_lower s) = true.
Proof.
  induction s as [|c s IH]; [reflexivity|]. simpl.
  now rewrite lower_char_no_upper, IH.
Qed.

Lemma no_upper_fixed c : no_upper c = true -> lower_char c = c.
Proof. destruct c as [[] [] [] [] [] [] [] []]; vm_compute; congruence. Qed.

Lemma no_upper_lower_case s : forallb no_upper s = true -> lower_case s.
Proof.
  unfold lower_case. induction s as [|c s IH]; [reflexivity|]. simpl.
  intros H. apply andb_true_iff in H. destruct H as [Hc Hs].
  now rewrite (no_upper_fixed c Hc), (IH Hs).
Qed.

(** A capture found in the lower-cased text is in lower case. *)
Lemma lowered_capture ic r text m n :
  search ic r (str_lower text) = Some m ->
  lower_case (capture m) /\ lower_case (slice_to n (capture m)).
Proof.
  intros H.
  assert (F : forallb no_upper (capture m) = true).
  { unfold capture. apply strip_forallb.
    apply (@search_group_sub ic no_upper _ _ _ 1 H). apply str_lower_no_upper. }
  split; apply no_upper_lower_case; [exact F | now apply forallb_firstn].
Qed.

Lemma policy_number_lowered text v :
  search true Patterns.POLICY_NUMBER text = None ->
  search true Patterns.NAIC_POLICY_NUMBER text = None ->
  from_capture (policy_number_sources text) uncut v -> lower_case v.
Proof.
  intros N1 N2 (ic & r & s & m & Hin & Hs & ->). simpl in Hin.
  destruct Hin as [E|[E|[E|[]]]]; inversion E; subst ic r s; try congruence.
  exact (proj1 (lowered_capture _ _ _ 0 Hs)).
Qed.

Lemma policyholder_lowered text v :
  search true Patterns.NAME_OF_INSURED text = None ->
  from_capture (policyholder_sources text) (slice_to 200) v -> lower_case v.
Proof.
  intros N1 (ic & r & s & m & Hin & Hs & ->). simpl in Hin.
  destruct Hin as [E|[E|[]]]; inversion E; subst ic r s; try congruence.
  exact (proj2 (lowered_capture _ _ _ 200 Hs)).
Qed.

(** *** The year of the asset *)

Lemma asset_year text a y :
  extract_asset text = Ok (Some a) -> AssetDetails.year a = Some y ->
  exists m, search true Patterns.YEAR text = Some m /\ py_int (group 1 m) = Ok y.
Proof.
  unfold extract_asset. cbv zeta.
  destruct (is_some _ || is_some _ || is_some _ || is_some _ || is_some _);
    [|discriminate].
  destruct (search true Patterns.YEAR text) as [m|] eqn:Ey.
  - destruct (py_int (group 1 m)) as [v|] eqn:Ei; cbn [bind]; [|discriminate].
    destruct (match search_estimate text with
              | Some me => _parse_float (Some (group 1 me)) | None => Ok None end)
      as [x|]; cbn [bind]; [|discriminate].
    intros H; inversion H; subst a. simpl. intros Hy. inversion Hy; subst v.
    exists m. auto.
  - cbn [bind].
    destruct (match search_estimate text with
              | Some me => _parse_float (Some (group 1 me)) | None => Ok None end)
      as [x|]; cbn [bind]; [|discriminate].
    intros H; inversion H; subst a. simpl. discriminate.
Qed.

Lemma year_digits text m :
  search true Patterns.YEAR text = Some m ->
  forallb is_digit (group 1 m) = true /\ List.length (group 1 m) = 4.
Proof.
  intros H. apply search_sound in H.
  destruct H as (pre & w & post & p' & _ & Hm & _).
  unfold Patterns.YEAR in Hm.
  change (cat_all [word "YEAR"; star colon_space; Group 1 (times 4 digit)])
    with (Cat (word "YEAR") (Cat (star colon_space) (Group 1 (times 4 digit)))) in Hm.
  cbn [matches] in Hm.
  destruct Hm as (p1 & c1 & _ & p2 & c2 & _ & Hg).
  fold (matches true (Group 1 (times 4 digit)) p2 c2 p' (m_caps m)) in Hg.
  apply group_capture in Hg. destruct Hg as (wd & c3 & R & Ht & Ec).
  apply times_digit in Ht. destruct Ht as (wd' & R' & F & L & _).
  rewrite (reads_unique R' R) in F, L.
  rewrite (group1_of_caps m Ec). auto.
Qed.

Lemma py_int_value w y :
  forallb is_digit w = true -> py_int w = Ok y -> y = digits_val w.
Proof.
  intros F. unfold py_int.
  assert (E : strip w = w).
  { apply strip_id. eapply forallb_impl; [|exact F].
    intros z Hz. now rewrite (digit_not_space z Hz). }
  rewrite E, F. destruct (negb _); [|discriminate]. intros H. now inversion H.
Qed.

Lemma asset_year_bounds text a y :
  extract_asset text = Ok (Some a) -> AssetDetails.year a = Some y ->
  (0 <= y <= 9999)%Z.
Proof.
  intros Ea Ey. destruct (asset_year _ Ea Ey) as (m & Hm & Hi).
  destruct (year_digits _ Hm) as (F & L).
  rewrite (py_int_value _ F Hi).
  pose proof (digits_val_range _ F) as H. rewrite L in H.
  change (10 ^ Z.of_nat 4)%Z with 10000%Z in H. lia.
Qed.

(** *** The amounts *)

Lemma asset_estimate_unsigned text a x :
  extract_asset text = Ok (Some a) -> AssetDetails.estimated_damage a = Some x ->
  unsigned_float x = true.
Proof.
  intros Ea Ex. apply extract_asset_inv in Ea.
  destruct Ea as (_ & _ & _ & _ & _ & E).
  rewrite Ex in E. destruct (search_estimate text) as [m|]; [|discriminate].
  symmetry in E. now apply parse_float_unsigned in E.
Qed.

(** *** A document without letters *)

Lemma lower_no_letter c : no_letter c = true -> no_letter (lower_char c) = true.
Proof. unfold no_letter. now rewrite lower_letter. Qed.

Lemma upper_no_letter c : no_letter c = true -> no_letter (upper_char c) = true.
Proof. unfold no_letter. now rewrite upper_letter. Qed.

Lemma str_lower_no_letter s :
  forallb no_letter s = true -> forallb no_letter (str_lower s) = true.
Proof.
  induction s as [|c s IH]; [reflexivity|]. simpl.
  intros H. apply andb_true_iff in H. destruct H as [Hc Hs].
  now rewrite (lower_no_letter c Hc), (IH Hs).
Qed.

Lemma str_upper_no_letter s :
  forallb no_letter s = true -> forallb no_letter (str_upper s) = true.
Proof.
  induction s as [|c s IH]; [reflexivity|]. simpl.
  intros H. apply andb_true_iff in H. destruct H as [Hc Hs].
  now rewrite (upper_no_letter c Hc), (IH Hs).
Qed.

Lemma contains_no_letter sub s :
  has_letter sub = true -> forallb no_letter s = true -> contains sub s = false.
Proof.
  intros Hl F. apply not_true_is_false. intros C. apply contains_iff in C.
  destruct C as (a & b & E).
  apply existsb_exists in Hl. destruct Hl as (y & Hy & Ly).
  assert (Hin : In y s).
  { rewrite E. apply in_or_app. right. apply in_or_app. now left. }
  pose proof (@forallb_in _ _ _ F Hin) as N. unfold no_letter in N.
  rewrite Ly in N. discriminate N.
Qed.

Lemma search_no_letter ic r s :
  needs is_letter ic r = true -> forallb no_letter s = true -> search ic r s = None.
Proof. intros N F. exact (@search_needs ic is_letter r s N F). Qed.

Ltac unmatched H :=
  repeat match goal with
  | |- context [search ?ic ?r ?s] =>
      let N := fresh "N" in
      assert (N : needs is_letter ic r = true) by (vm_compute; reflexivity);
      rewrite (@search_no_letter ic r s N) by (first [exact H | now apply str_lower_no_letter]);
      clear N
  end.

Lemma blank_extraction text :
  forallb no_letter text = true -> _extract_from_raw_text text = Ok blank_record.
Proof.
  intros F.
  pose proof (str_lower_no_letter _ F) as Fl.
  pose proof (str_upper_no_letter _ F) as Fu.
  unfold _extract_from_raw_text, extract_policy_number, policy_number_generic,
    policy_number_loop, extract_policyholder_name, extract_date_time,
    extract_location_street, extract_city_state_zip, extract_country,
    extract_description, description_stage, location_fallback, extract_claimant,
    extract_contact, extract_asset, search_estimate, infer_claim_type,
    extract_attachments.
  cbn [fold_left]. cbv zeta.
  unmatched F.
  rewrite !(@contains_no_letter _ (str_lower text)) by (first [reflexivity | exact Fl]).
  rewrite (@contains_no_letter _ (str_upper text)) by (first [reflexivity | exact Fu]).
  reflexivity.
Qed.

End RecordShape.

(** ** The flat output never overwrites *)

Module DictFacts.
Import StrFacts ClassifierFacts Schemas Notions Keys.

Lemma str_eqb_refl s : str_eqb s s = true.
Proof. now apply str_eqb_eq. Qed.

Lemma str_eqb_neq a b : a <> b -> str_eqb a b = false.
Proof.
  intros H. apply not_true_is_false. intros E. apply H. now apply str_eqb_eq.
Qed.

(** An assignment to a key that is not present appends an entry. *)
Lemma dict_set_fresh k v d : ~ In k (keys d) -> dict_set k v d = d ++ [(k, v)].
Proof.
  induction d as [|[k' v'] d IH]; simpl; [reflexivity|].
  intros H. rewrite str_eqb_neq by (intros E; apply H; now left).
  rewrite IH; [reflexivity|]. intros Hin. apply H. now right.
Qed.

Lemma keys_app a b : keys (a ++ b) = keys a ++ keys b.
Proof. apply map_app. Qed.

Lemma keys_prefixed prefix items :
  keys (prefixed prefix items) = map (fun k => prefix ++ k) (keys items).
Proof. unfold keys, prefixed. rewrite !map_map. reflexivity. Qed.

Lemma assign_all_fresh prefix items : forall out,
  NoDup (keys items) ->
  (forall k, In k (keys items) -> ~ In (prefix ++ k) (keys out)) ->
  assign_all prefix items out = out ++ prefixed prefix items.
Proof.
  unfold assign_all.
  induction items as [|[k v] items IH]; intros out Hnd Hfresh; simpl.
  - now rewrite app_nil_r.
  - inversion Hnd as [|? ? Hk Hnd']; subst.
    rewrite dict_set_fresh by (apply Hfresh; now left).
    rewrite IH; [now rewrite <- app_assoc|exact Hnd'|].
    intros k' Hk' Hin. rewrite keys_app in Hin. apply in_app_or in Hin.
    destruct Hin as [Hin|[E|[]]].
    + apply (Hfresh k'); [now right | exact Hin].
    + simpl in E. apply app_inv_head in E. subst k'. now apply Hk.
Qed.

(** *** The keys of the four models *)

Lemma distinct_NoDup l : distinct l = true -> NoDup l.
Proof.
  induction l as [|x l IH]; simpl; intros H; constructor.
  - apply andb_true_iff in H. destruct H as [H _]. apply negb_true_iff in H.
    intros Hin. assert (E : existsb (str_eqb x) l = true).
    { apply existsb_exists. exists x. split; [exact Hin | apply str_eqb_refl]. }
    congruence.
  - apply andb_true_iff in H. destruct H as [_ H]. auto.
Qed.

Lemma party_keys p : NoDup (keys (model_dump_party p)) /\ incl (keys (model_dump_party p)) party_names.
Proof.
  destruct p as [[a|] [b|] [c|] [d|] [e|]]; split;
    try (apply distinct_NoDup; vm_compute; reflexivity);
    intros k Hk; vm_compute in Hk |- *; tauto.
Qed.

Lemma policy_keys p : NoDup (keys (model_dump_policy p)).
Proof.
  destruct p as [[a|] [b|] [c|] [d|]]; apply distinct_NoDup; vm_compute; reflexivity.
Qed.

Lemma incident_keys i : NoDup (keys (model_dump_incident i)).
Proof.
  destruct i as [[a|] [b|] [c|] [d|] [e|] [f|]];
    apply distinct_NoDup; vm_compute; reflexivity.
Qed.

Lemma asset_keys a : NoDup (keys (model_dump_asset a)).
Proof.
  destruct a as [[a|] [b|] [c|] [d|] [e|] [f|] [g|]];
    apply distinct_NoDup; vm_compute; reflexivity.
Qed.

(** *** Decimal indices *)

Lemma uint_digits d :
  forallb is_digit (list_ascii_of_string (DecimalString.NilEmpty.string_of_uint d)) = true.
Proof. induction d; simpl; auto. Qed.

Lemma str_of_nat_digits n : forallb is_digit (str_of_nat n) = true.
Proof.
  unfold str_of_nat, DecimalString.NilZero.string_of_uint.
  destruct (Nat.to_uint n); try apply uint_digits. reflexivity.
Qed.

Lemma list_ascii_inj a b : list_ascii_of_string a = list_ascii_of_string b -> a = b.
Proof.
  intros H. rewrite <- (string_of_list_ascii_of_string a),
    <- (string_of_list_ascii_of_string b). now rewrite H.
Qed.

Lemma to_uint_nonnil n : Nat.to_uint n <> Decimal.Nil.
Proof.
  rewrite <- (DecimalNat.Unsigned.of_to n) at 1.
  rewrite DecimalNat.Unsigned.to_of. apply DecimalFacts.unorm_nonnil.
Qed.

Lemma str_of_nat_inj n m : str_of_nat n = str_of_nat m -> n = m.
Proof.
  unfold str_of_nat. intros H. apply list_ascii_inj in H.
  apply DecimalNat.Unsigned.to_uint_inj.
  assert (Hn := DecimalString.NilZero.usu (Nat.to_uint n) (to_uint_nonnil n)).
  assert (Hm := DecimalString.NilZero.usu (Nat.to_uint m) (to_uint_nonnil m)).
  rewrite H in Hn. rewrite Hn in Hm. now inversion Hm.
Qed.

(** Two runs of digits followed by an underscore are equal when what they
    start is equal. *)
Lemma digits_then_mark (a a' b b' : str) :
  forallb is_digit a = true -> forallb is_digit a' = true ->
  a ++ "_"%char :: b = a' ++ "_"%char :: b' -> a = a' /\ b = b'.
Proof.
  revert a'. induction a as [|x a IH]; intros [|x' a'] Ha Ha' E; simpl in *.
  - inversion E. auto.
  - inversion E; subst x'. discriminate Ha'.
  - inversion E; subst x. discriminate Ha.
  - inversion E; subst x'.
    apply andb_true_iff in Ha, Ha'. destruct Ha as [_ Ha], Ha' as [_ Ha'].
    destruct (IH a' Ha Ha' H1) as (-> & ->). auto.
Qed.

Lemma party_prefix_inj i j k k' : party_prefix i ++ k = party_prefix j ++ k' -> i = j /\ k = k'.
Proof.
  unfold party_prefix. rewrite <- !app_assoc. intros E.
  apply app_inv_head in E. simpl in E.
  apply digits_then_mark in E; try apply str_of_nat_digits.
  destruct E as (E & ->). split; [now apply str_of_nat_inj | reflexivity].
Qed.

Lemma party_prefix_lead i k : lead (party_prefix i ++ k) = lit "third_".
Proof. reflexivity. Qed.

(** The keys of the third parties from index [i] on. *)
Lemma party_entries_keys ps : forall i k,
  In k (keys (party_entries i ps)) ->
  exists j f, i <= j /\ k = party_prefix j ++ f.
Proof.
  induction ps as [|p ps IH]; intros i k Hin; simpl in Hin; [destruct Hin|].
  rewrite keys_app, keys_prefixed in Hin. apply in_app_or in Hin.
  destruct Hin as [Hin|Hin].
  - apply in_map_iff in Hin. destruct Hin as (f & <- & _). exists i, f. auto.
  - destruct (IH _ _ Hin) as (j & f & Hj & ->). exists j, f. split; [lia | reflexivity].
Qed.

Lemma assign_parties_fresh ps : forall i out,
  (forall k, In k (keys out) ->
     lead k <> lit "third_" \/ exists j f, j < i /\ k = party_prefix j ++ f) ->
  assign_parties i ps out = out ++ party_entries i ps.
Proof.
  induction ps as [|p ps IH]; intros i out Hout; simpl.
  - now rewrite app_nil_r.
  - fold (party_prefix i).
    rewrite assign_all_fresh.
    + rewrite IH; [now rewrite <- app_assoc|].
      intros k Hk. rewrite keys_app in Hk. apply in_app_or in Hk.
      destruct Hk as [Hk|Hk].
      * destruct (Hout k Hk) as [H|(j & f & Hj & ->)]; [now left|].
        right. exists j, f. split; [lia | reflexivity].
      * rewrite keys_prefixed in Hk. apply in_map_iff in Hk.
        destruct Hk as (f & <- & _). right. exists i, f. split; [lia | reflexivity].
    + apply party_keys.
    + intros k _ Hin. destruct (Hout _ Hin) as [H|(j & f & Hj & E)].
      * apply H. apply party_prefix_lead.
      * apply party_prefix_inj in E. lia.
Qed.

(** *** The blocks do not share a key *)

Lemma prefixed_lead prefix items k :
  6 <= List.length prefix -> In k (keys (prefixed prefix items)) ->
  lead k = firstn 6 prefix.
Proof.
  intros L Hin. rewrite keys_prefixed in Hin. apply in_map_iff in Hin.
  destruct Hin as (f & <- & _). unfold lead.
  rewrite firstn_app. replace (6 - List.length prefix) with 0 by lia.
  simpl. apply app_nil_r.
Qed.

Lemma leads_in_nil ls : leads_in ls [].
Proof. intros k []. Qed.

Lemma leads_in_app ls a b : leads_in ls a -> leads_in ls b -> leads_in ls (a ++ b).
Proof.
  intros Ha Hb k Hk. unfold keys in Hk. rewrite map_app in Hk.
  apply in_app_or in Hk. destruct Hk; auto.
Qed.

Lemma leads_in_more ls ls' d : incl ls ls' -> leads_in ls d -> leads_in ls' d.
Proof. intros Hi H k Hk. apply Hi. now apply H. Qed.

Lemma leads_in_prefixed prefix items :
  6 <= List.length prefix -> leads_in [firstn 6 prefix] (prefixed prefix items).
Proof. intros L k Hk. left. symmetry. exact (@prefixed_lead prefix items k L Hk). Qed.

Lemma leads_in_parties i ps : leads_in [lit "third_"] (party_entries i ps).
Proof.
  intros k Hk. apply party_entries_keys in Hk. destruct Hk as (j & f & _ & ->).
  left. symmetry. apply party_prefix_lead.
Qed.

Lemma leads_in_opt A (f : A -> dict) o ls :
  (forall x, leads_in ls (f x)) -> leads_in ls (opt_entries f o).
Proof. intros H. destruct o; [apply H | apply leads_in_nil]. Qed.

(** A block whose lead is not among those of [out] is appended whole. *)
Lemma assign_block prefix items out ls :
  6 <= List.length prefix -> NoDup (keys items) -> leads_in ls out ->
  ~ In (firstn 6 prefix) ls ->
  assign_all prefix items out = out ++ prefixed prefix items.
Proof.
  intros L Hnd Hout Hn. apply assign_all_fresh; [exact Hnd|].
  intros k Hk Hin. apply Hn. specialize (Hout _ Hin).
  replace (lead (prefix ++ k)) with (firstn 6 prefix) in Hout; [exact Hout|].
  unfold lead. rewrite firstn_app. replace (6 - List.length prefix) with 0 by lia.
  simpl. now rewrite app_nil_r.
Qed.

Lemma set_block k v out ls :
  leads_in ls out -> ~ In (lead k) ls -> dict_set k v out = out ++ [(k, v)].
Proof.
  intros Hout Hn. apply dict_set_fresh. intros Hin. apply Hn. now apply Hout.
Qed.

Ltac other_lead := vm_compute; intuition discriminate.

(** The assignments of [to_flat_dict] never meet a key that is present. *)
Lemma to_flat_dict_entries e : to_flat_dict e = serialised (flat_entries e).
Proof.
  unfold to_flat_dict, flat_entries, serialised. cbv zeta. f_equal.
  destruct e as [p i cl tp cd a ct att ie]. cbn [ExtractedFields.policy
    ExtractedFields.incident ExtractedFields.claimant ExtractedFields.third_parties
    ExtractedFields.contact_details ExtractedFields.asset ExtractedFields.claim_type
    ExtractedFields.attachments ExtractedFields.initial_estimate].
  set (b1 := prefixed (lit "policy_") (model_dump_policy p)).
  set (b2 := prefixed (lit "incident_") (model_dump_incident i)).
  set (b3 := opt_entries (fun c => prefixed (lit "claimant_") (model_dump_party c)) cl).
  set (b4 := party_entries 0 tp).
  set (b5 := opt_entries (fun c => prefixed (lit "contact_") (model_dump_party c)) cd).
  set (b6 := opt_entries (fun a => prefixed (lit "asset_") (model_dump_asset a)) a).
  assert (L1 : leads_in [lit "policy"] b1).
  { exact (@leads_in_prefixed (lit "policy_") (model_dump_policy p) ltac:(simpl; lia)). }
  assert (L2 : leads_in [lit "incide"] b2).
  { exact (@leads_in_prefixed (lit "incident_") (model_dump_incident i)
             ltac:(simpl; lia)). }
  assert (L3 : leads_in [lit "claima"] b3).
  { apply leads_in_opt. intros c.
    exact (@leads_in_prefixed (lit "claimant_") (model_dump_party c) ltac:(simpl; lia)). }
  assert (L4 : leads_in [lit "third_"] b4) by apply leads_in_parties.
  assert (L5 : leads_in [lit "contac"] b5).
  { apply leads_in_opt. intros c.
    exact (@leads_in_prefixed (lit "contact_") (model_dump_party c) ltac:(simpl; lia)). }
  assert (L6 : leads_in [lit "asset_"] b6).
  { apply leads_in_opt. intros c.
    exact (@leads_in_prefixed (lit "asset_") (model_dump_asset c) ltac:(simpl; lia)). }
  set (ls := map lit ["policy"; "incide"; "claima"; "third_"; "contac"; "asset_"]%string).
  (* policy *)
  assert (E1 : assign_all (lit "policy_") (model_dump_policy p) [] = b1).
  { rewrite (@assign_block _ _ _ [] ); [reflexivity | simpl; lia | apply policy_keys
      | apply leads_in_nil | intros []]. }
  rewrite E1.
  assert (E2 : assign_all (lit "incident_") (model_dump_incident i) b1 = b1 ++ b2).
  { apply (@assign_block _ _ _ [lit "policy"]);
      [simpl; lia | apply incident_keys | exact L1 | other_lead]. }
  rewrite E2.
  assert (E3 : match cl with
               | Some c => assign_all (lit "claimant_") (model_dump_party c) (b1 ++ b2)
               | None => b1 ++ b2
               end = (b1 ++ b2) ++ b3).
  { subst b3. destruct cl as [c|]; simpl; [|now rewrite app_nil_r].
    apply (@assign_block _ _ _ (map lit ["policy"; "incide"]%string));
      [simpl; lia | apply party_keys | | other_lead].
    apply leads_in_app; eapply leads_in_more; try eassumption;
      intros x [<-|[]]; simpl; auto. }
  rewrite E3.
  assert (E4 : assign_parties 0 tp ((b1 ++ b2) ++ b3) = ((b1 ++ b2) ++ b3) ++ b4).
  { apply assign_parties_fresh. intros k Hk. left.
    assert (H : leads_in (map lit ["policy"; "incide"; "claima"]%string) ((b1 ++ b2) ++ b3)).
    { repeat apply leads_in_app; eapply leads_in_more; try eassumption;
        intros x [<-|[]]; simpl; auto. }
    specialize (H k Hk). intros E. rewrite E in H. revert H. other_lead. }
  rewrite E4.
  assert (L14 : leads_in (map lit ["policy"; "incide"; "claima"; "third_"]%string)
                  (((b1 ++ b2) ++ b3) ++ b4)).
  { repeat apply leads_in_app; eapply leads_in_more; try eassumption;
      intros x [<-|[]]; simpl; auto. }
  assert (E5 : match cd with
               | Some c => assign_all (lit "contact_") (model_dump_party c)
                             (((b1 ++ b2) ++ b3) ++ b4)
               | None => ((b1 ++ b2) ++ b3) ++ b4
               end = (((b1 ++ b2) ++ b3) ++ b4) ++ b5).
  { subst b5. destruct cd as [c|]; simpl; [|now rewrite app_nil_r].
    apply (@assign_block _ _ _ (map lit ["policy"; "incide"; "claima"; "third_"]%string));
      [simpl; lia | apply party_keys | exact L14 | other_lead]. }
  rewrite E5.
  assert (L15 : leads_in (map lit ["policy"; "incide"; "claima"; "third_"; "contac"]%string)
                  ((((b1 ++ b2) ++ b3) ++ b4) ++ b5)).
  { apply leads_in_app; eapply leads_in_more; try eassumption;
      [intros x Hx; simpl in *; tauto | intros x [<-|[]]; simpl; auto 6]. }
  assert (E6 : match a with
               | Some a0 => assign_all (lit "asset_") (model_dump_asset a0)
                              ((((b1 ++ b2) ++ b3) ++ b4) ++ b5)
               | None => (((b1 ++ b2) ++ b3) ++ b4) ++ b5
               end = ((((b1 ++ b2) ++ b3) ++ b4) ++ b5) ++ b6).
  { subst b6. destruct a as [a0|]; simpl; [|now rewrite app_nil_r].
    apply (@assign_block _ _ _
             (map lit ["policy"; "incide"; "claima"; "third_"; "contac"]%string));
      [simpl; lia | apply asset_keys | exact L15 | other_lead]. }
  rewrite E6.
  assert (L16 : leads_in ls (((((b1 ++ b2) ++ b3) ++ b4) ++ b5) ++ b6)).
  { apply leads_in_app; eapply leads_in_more; try eassumption;
      [intros x Hx; simpl in *; tauto | intros x [<-|[]]; simpl; auto 7]. }
  set (o6 := ((((b1 ++ b2) ++ b3) ++ b4) ++ b5) ++ b6) in *.
  assert (E7 : match ct with
               | Some c => dict_set (lit "claim_type") (VStr c) o6
               | None => o6
               end = o6 ++ entry "claim_type" VStr ct).
  { destruct ct as [c|]; simpl; [|now rewrite app_nil_r].
    apply (@set_block _ _ _ ls); [exact L16 | other_lead]. }
  rewrite E7.
  assert (L17 : leads_in (lit "claim_" :: ls) (o6 ++ entry "claim_type" VStr ct)).
  { apply leads_in_app; [eapply leads_in_more; [|exact L16]; intros x Hx; now right|].
    destruct ct; [intros k [<-|[]]; now left | apply leads_in_nil]. }
  set (o7 := o6 ++ entry "claim_type" VStr ct) in *.
  set (b8 := match att with
             | _ :: _ => [(lit "attachments", VList att)]
             | [] => []
             end).
  assert (E8 : match att return dict with
               | _ :: _ => dict_set (lit "attachments") (VList att) o7
               | [] => o7
               end = o7 ++ b8).
  { subst b8. destruct att as [|x att]; simpl; [now rewrite app_nil_r|].
    apply (@set_block _ _ _ (lit "claim_" :: ls)); [exact L17 | other_lead]. }
  rewrite E8.
  assert (L18 : leads_in (lit "attach" :: lit "claim_" :: ls) (o7 ++ b8)).
  { apply leads_in_app; [eapply leads_in_more; [|exact L17]; intros x Hx; now right|].
    subst b8. destruct att; [apply leads_in_nil | intros k [<-|[]]; now left]. }
  assert (E9 : match ie with
               | Some x => dict_set (lit "initial_estimate") (VFloat x) (o7 ++ b8)
               | None => o7 ++ b8
               end = (o7 ++ b8) ++ entry "initial_estimate" VFloat ie).
  { destruct ie as [x|]; simpl; [|now rewrite app_nil_r].
    apply (@set_block _ _ _ (lit "attach" :: lit "claim_" :: ls)); [exact L18 | other_lead]. }
  rewrite E9. subst o7 o6 b8. now rewrite <- !app_assoc.
Qed.

End DictFacts.

(** ** Lookups in the flat output *)

Module LookupFacts.
Import StrFacts ClassifierFacts Schemas Notions Keys DictFacts.

Lemma dict_set_keys k v d :
  keys (dict_set k v d) = if existsb (str_eqb k) (keys d) then keys d else keys d ++ [k].
Proof.
  unfold keys. induction d as [|[k' v'] d IH]; simpl; [reflexivity|].
  destruct (str_eqb k' k) eqn:E.
  - apply str_eqb_eq in E. subst k'. now rewrite str_eqb_refl.
  - assert (E' : str_eqb k k' = false).
    { apply str_eqb_neq. intros ->. now rewrite str_eqb_refl in E. }
    rewrite E'. simpl. rewrite IH.
    now destruct (existsb (str_eqb k) (map fst d)).
Qed.

(** A dictionary never holds a key twice. *)
Lemma dict_set_nodup k v d : NoDup (keys d) -> NoDup (keys (dict_set k v d)).
Proof.
  intros H. rewrite dict_set_keys.
  destruct (existsb (str_eqb k) (keys d)) eqn:E; [exact H|].
  apply NoDup_app; [exact H | repeat constructor; intros [] | ].
  intros x Hx [E'|[]]. subst x.
  assert (existsb (str_eqb k) (keys d) = true); [|congruence].
  apply existsb_exists. exists k. split; [exact Hx | apply str_eqb_refl].
Qed.

Lemma assign_all_nodup prefix items : forall out,
  NoDup (keys out) -> NoDup (keys (assign_all prefix items out)).
Proof.
  unfold assign_all. induction items as [|kv items IH]; intros out H; simpl; [exact H|].
  apply IH. now apply dict_set_nodup.
Qed.

Lemma assign_parties_nodup ps : forall i out,
  NoDup (keys out) -> NoDup (keys (assign_parties i ps out)).
Proof.
  induction ps as [|p ps IH]; intros i out H; simpl; [exact H|].
  apply IH. now apply assign_all_nodup.
Qed.

Lemma keys_serialised d : keys (serialised d) = keys d.
Proof. unfold keys, serialised. rewrite map_map. reflexivity. Qed.

Lemma to_flat_dict_nodup e : NoDup (keys (to_flat_dict e)).
Proof.
  unfold to_flat_dict. cbv zeta. fold (serialised). 
  match goal with |- NoDup (keys (map _ ?d)) => change (NoDup (keys (serialised d))) end.
  rewrite keys_serialised.
  destruct (ExtractedFields.initial_estimate e); [apply dict_set_nodup|];
  (destruct (ExtractedFields.attachments e); [|apply dict_set_nodup]);
  (destruct (ExtractedFields.claim_type e); [apply dict_set_nodup|]);
  (destruct (ExtractedFields.asset e); [apply assign_all_nodup|]);
  (destruct (ExtractedFields.contact_details e); [apply assign_all_nodup|]);
  apply assign_parties_nodup;
  (destruct (ExtractedFields.claimant e); [apply assign_all_nodup|]);
  apply assign_all_nodup, assign_all_nodup; constructor.
Qed.

(** With distinct keys, a lookup finds exactly the entries. *)
Lemma dict_get_in d : NoDup (keys d) ->
  forall k v, dict_get k d = Some v <-> In (k, v) d.
Proof.
  induction d as [|[k' v'] d IH]; intros Hnd k v; simpl.
  - split; [discriminate | intros []].
  - inversion Hnd as [|? ? Hk Hnd']; subst.
    destruct (str_eqb k' k) eqn:E.
    + apply str_eqb_eq in E. subst k'. split.
      * intros H; inversion H. now left.
      * intros [H|H]; [now inversion H|]. exfalso. apply Hk.
        apply in_map_iff. exists (k, v). auto.
    + rewrite (IH Hnd'). split; [now right|].
      intros [H|H]; [|exact H]. inversion H; subst.
      now rewrite str_eqb_refl in E.
Qed.

Lemma in_serialised k w d :
  In (k, w) (serialised d) <-> exists v, In (k, v) d /\ w = _json_serial v.
Proof.
  unfold serialised. rewrite in_map_iff. split.
  - intros ([k' v] & E & Hin). inversion E; subst. exists v. auto.
  - intros (v & Hin & ->). exists (k, v). auto.
Qed.

Lemma flat_lookup e k w :
  dict_get k (to_flat_dict e) = Some w
  <-> exists v, In (k, v) (flat_entries e) /\ w = _json_serial v.
Proof.
  rewrite (@dict_get_in _ (to_flat_dict_nodup e)), to_flat_dict_entries.
  apply in_serialised.
Qed.

Lemma flat_lookup_none e k :
  dict_get k (to_flat_dict e) = None <-> ~ In k (keys (flat_entries e)).
Proof.
  split.
  - intros H Hin. apply in_map_iff in Hin. destruct Hin as ([k' v] & E & Hin).
    simpl in E. subst k'.
    assert (Hs : dict_get k (to_flat_dict e) = Some (_json_serial v)).
    { apply flat_lookup. eauto. }
    congruence.
  - intros H. destruct (dict_get k (to_flat_dict e)) as [w|] eqn:E; [|reflexivity].
    apply flat_lookup in E. destruct E as (v & Hin & _). exfalso. apply H.
    apply in_map_iff. exists (k, v). auto.
Qed.

End LookupFacts.

(** ** Routes and responses *)

Module ApiFacts.
Import Re ReSpec ReFacts SearchFacts StrFacts PatternFacts ParseFacts ExtractFacts.
Import ClassifierFacts CaptureFacts ValueFacts BlockFacts RecordFacts RoutingFacts.
Import NumberFacts FieldFacts RecordShape DictFacts LookupFacts.
Import Spec Notions Keys Extract Routing Schemas Api.

(** *** The amounts of a record *)

Lemma record_amounts text e :
  _extract_from_raw_text text = Ok e ->
  damage_by_precedence e = ExtractedFields.initial_estimate e
  /\ (forall x, ExtractedFields.initial_estimate e = Some x ->
        unsigned_float x = true
        /\ exists a, ExtractedFields.asset e = Some a
             /\ AssetDetails.estimated_damage a = Some x
             /\ AssetDetails.initial_estimate a = Some x)
  /\ (forall a, ExtractedFields.asset e = Some a ->
        AssetDetails.estimated_damage a = ExtractedFields.initial_estimate e
        /\ AssetDetails.initial_estimate a = ExtractedFields.initial_estimate e).
Proof.
  intros E. destruct (extract_record text) as (e' & E' & W & _).
  rewrite E in E'. inversion E'; subst e'. clear E'.
  destruct W as (_ & _ & _ & _ & W).
  destruct (extract_shape text) as (d & t & a & _ & Ea & E').
  assert (Ha : ExtractedFields.asset e = option_map sync_estimates a).
  { rewrite E in E'. injection E' as ->. reflexivity. }
  clear E'.
  unfold damage_by_precedence.
  destruct (ExtractedFields.asset e) as [a1|] eqn:Easset.
  - destruct W as (_ & W1 & W2). split; [|split].
    + rewrite W2. destruct (AssetDetails.initial_estimate a1) as [x|] eqn:Ei;
        [reflexivity|]. now rewrite <- W1.
    + intros x Ex. rewrite W2 in Ex. split.
      * destruct a as [a0|]; [|discriminate]. simpl in Ha. inversion Ha as [Ha'].
        assert (Hs : sync_estimates a0 = a0).
        { pose proof (extract_asset_inv _ Ea) as I. now apply sync_estimates_id. }
        rewrite Hs in Ha'. subst a1.
        apply (asset_estimate_unsigned _ Ea). now rewrite <- W1.
      * exists a1. split; [reflexivity|]. split; [now rewrite <- W1 | exact Ex].
    + intros a2 E2. inversion E2; subst a2. rewrite W2. auto.
  - split; [|split].
    + now rewrite W.
    + intros x Ex. rewrite W in Ex. discriminate.
    + intros a2 E2. discriminate.
Qed.

(** *** The routes *)

Section Routes.

Variable fast_track_damage_threshold : float.
Variable format_float : float -> str.

Lemma route_known e missing threshold :
  In (fst (compute_route fast_track_damage_threshold format_float e missing threshold))
     ROUTES.
Proof.
  unfold compute_route. cbv zeta.
  destruct missing; [|simpl; auto].
  destruct (is_some _); [simpl; auto|].
  destruct (str_eqb _ _); [simpl; auto|].
  destruct (route_damage e) as [d|]; [|simpl; auto 6].
  destruct (float_lt d _); simpl; auto 6.
Qed.

Lemma route_manual_iff e missing threshold :
  fst (compute_route fast_track_damage_threshold format_float e missing threshold)
  = lit "Manual review" <-> missing <> [].
Proof.
  unfold compute_route. cbv zeta.
  destruct missing; [|split; [discriminate | reflexivity]].
  split; [|congruence].
  destruct (is_some _); [discriminate|].
  destruct (str_eqb _ _); [discriminate|].
  destruct (route_damage e) as [d|]; [|discriminate].
  destruct (float_lt d _); discriminate.
Qed.

Lemma route_amount e threshold :
  let th := match threshold with Some t => t | None => fast_track_damage_threshold end in
  (fst (compute_route fast_track_damage_threshold format_float e [] threshold)
   = lit "Fast-track" ->
     exists d, route_damage e = Some d /\ float_lt d th = true)
  /\ (fst (compute_route fast_track_damage_threshold format_float e [] threshold)
      = lit "Standard" ->
        route_damage e = None
        \/ exists d, route_damage e = Some d /\ float_lt d th = false).
Proof.
  unfold compute_route. cbv zeta.
  destruct (is_some _); [split; discriminate|].
  destruct (str_eqb _ _); [split; discriminate|].
  destruct (route_damage e) as [d|]; [|split; [discriminate | auto]].
  destruct (float_lt d _) eqn:E; (split; [|]); try discriminate; eauto.
Qed.

Lemma no_missing_damage e :
  get_missing_mandatory_fields e = [] -> exists d, route_damage e = Some d.
Proof.
  rewrite missing_as_filter, route_damage_precedence. intros H.
  apply map_eq_nil in H.
  pose proof (proj1 (filter_nil_iff _ _) H
                (lit "initial_estimate_or_estimated_damage",
                 is_some (damage_by_precedence e))) as Hd.
  simpl in Hd. destruct (damage_by_precedence e) as [d|]; [eauto|].
  exfalso. assert (X : negb false = false) by (apply Hd; auto 10). discriminate X.
Qed.

Lemma process_extracted_fields e :
  let r := process_extracted fast_track_damage_threshold format_float e in
  missingFields r = get_missing_mandatory_fields e
  /\ extractedFields r = to_flat_dict e
  /\ recommendedRoute r
     = fst (compute_route fast_track_damage_threshold format_float e
              (get_missing_mandatory_fields e) None).
Proof.
  unfold process_extracted. cbv zeta.
  destruct (compute_route _ _ e _ None) as [rt rs]. simpl. auto.
Qed.

Lemma blank_content content :
  negb (truthy_str (Some content) && truthy_str (Some (strip content)))
  = forallb is_space content.
Proof.
  rewrite truthy_strip_iff. destruct content as [|c s]; [reflexivity|].
  simpl. now rewrite negb_involutive.
Qed.

Lemma process_fnol_text_cases content :
  (forallb is_space content = true ->
     process_fnol_text fast_track_damage_threshold format_float content
     = HTTPException 400 (lit "Empty text."))
  /\ (forallb is_space content = false ->
        exists e, _extract_from_raw_text content = Ok e
          /\ process_fnol_text fast_track_damage_threshold format_float content
             = Returned (process_extracted fast_track_damage_threshold format_float e)).
Proof.
  unfold process_fnol_text. rewrite blank_content. split; intros H; rewrite H.
  - reflexivity.
  - unfold extract_from_text. destruct (extract_total content) as (e & E).
    exists e. now rewrite E.
Qed.

End Routes.

(** *** The claim type of a record *)

Lemma record_claim_type text e :
  _extract_from_raw_text text = Ok e ->
  exists ct, ExtractedFields.claim_type e = Some ct /\ In ct CLAIM_TYPES.
Proof.
  intros E. destruct (extract_record text) as (e' & E' & W & _).
  rewrite E in E'. inversion E'; subst e'. now destruct W.
Qed.

Lemma claim_type_not_missing e ct :
  ExtractedFields.claim_type e = Some ct -> In ct CLAIM_TYPES ->
  ~ In (lit "claim_type") (get_missing_mandatory_fields e).
Proof.
  intros Ect Hin. rewrite missing_as_filter. unfold presence. cbv zeta.
  rewrite Ect.
  assert (Hnb : nonblank (Some ct) = true).
  { simpl in Hin. destruct Hin as [<-|[<-|[<-|[]]]]; reflexivity. }
  rewrite Hnb. intros H. apply in_map_iff in H. destruct H as ([k b] & Ek & H).
  simpl in Ek. subst k. apply filter_In in H. destruct H as (H & Hb). simpl in Hb.
  apply negb_true_iff in Hb. subst b.
  simpl in H.
  repeat (destruct H as [H|H]; [inversion H; try discriminate|]); try assumption.
Qed.

Lemma flat_claim_type e ct :
  ExtractedFields.claim_type e = Some ct ->
  dict_get (lit "claim_type") (to_flat_dict e) = Some (VStr ct).
Proof.
  intros E. apply flat_lookup. exists (VStr ct). split; [|reflexivity].
  unfold flat_entries. rewrite E. do 6 (apply in_or_app; right).
  apply in_or_app. left. now left.
Qed.

End ApiFacts.

(** ** Written dates *)

Module DateFacts.
Import Re ReSpec ReFacts SearchFacts StrFacts PatternFacts ParseFacts ExtractFacts.
Import Shape ShapeFacts NumberFacts Schemas Notions Tables Strptime.

(** *** Digits *)

Lemma digit_char_spec n :
  is_digit (digit_char n) = true /\ digit_val (digit_char n) = (n mod 10)%Z.
Proof.
  unfold digit_char.
  assert (H : (0 <= n mod 10 < 10)%Z) by (apply Z.mod_pos_bound; lia).
  revert H. generalize (n mod 10)%Z. intros r H.
  assert (C : (r = 0 \/ r = 1 \/ r = 2 \/ r = 3 \/ r = 4 \/ r = 5 \/ r = 6 \/ r = 7
               \/ r = 8 \/ r = 9)%Z) by lia.
  repeat (destruct C as [->|C]; [split; reflexivity|]). subst r. split; reflexivity.
Qed.

Lemma pad4_digits y : forallb is_digit (pad4 y) = true.
Proof.
  unfold pad4. cbn [forallb].
  now rewrite !(proj1 (digit_char_spec _)).
Qed.

Lemma pad4_value y : (0 <= y <= 9999)%Z -> digits_val (pad4 y) = y.
Proof.
  intros H. unfold pad4. rewrite digits_val_four, !(proj2 (digit_char_spec _)).
  Z.div_mod_to_equations. lia.
Qed.

Lemma py_int_digit_run w :
  forallb is_digit w = true -> w <> [] -> py_int w = Ok (digits_val w).
Proof.
  intros F Hne. unfold py_int.
  assert (E : strip w = w).
  { apply strip_id. eapply forallb_impl; [|exact F].
    intros z Hz. now rewrite (digit_not_space z Hz). }
  rewrite E, F. destruct w; [congruence | reflexivity].
Qed.

Lemma py_int_pad4 y : (0 <= y <= 9999)%Z -> py_int (pad4 y) = Ok y.
Proof.
  intros H. rewrite py_int_digit_run; [now rewrite pad4_value | apply pad4_digits|].
  discriminate.
Qed.

(** *** The tables of months and days *)

Lemma in_written lo count n w :
  (lo <= n < lo + Z.of_nat count)%Z -> In w (spellings n) -> In (n, w) (written lo count).
Proof.
  intros H Hw. unfold written. apply in_flat_map.
  exists (Z.to_nat (n - lo)). split; [apply in_seq; lia|]. cbv zeta.
  replace (lo + Z.of_nat (Z.to_nat (n - lo)))%Z with n by lia.
  now apply in_map.
Qed.

Lemma pad2_spelling n : In (pad2 n) (spellings n).
Proof. unfold spellings. destruct (n <? 10)%Z; now left. Qed.

Ltac each_entry H tac :=
  vm_compute in H;
  repeat (destruct H as [H|H]; [inversion H; subst; clear H; tac |]);
  destruct H.

Lemma days_numeral n w : In (n, w) days -> numeral n w.
Proof.
  intros H. each_entry H ltac:(repeat split; vm_compute; try reflexivity; lia).
Qed.

Lemma months_numeral n w : In (n, w) months -> numeral n w.
Proof.
  intros H. each_entry H ltac:(repeat split; vm_compute; try reflexivity; lia).
Qed.

Lemma late_days_days n w : In (n, w) late_days -> In (n, w) days /\ w = pad2 n.
Proof.
  intros H. each_entry H ltac:(split; [vm_compute; tauto | reflexivity]).
Qed.

(** *** The year directive *)

Lemma digit_ic a : is_digit a = true -> set_ok true false [IDigit] a = true.
Proof. destruct a as [[] [] [] [] [] [] [] []]; vm_compute; congruence. Qed.

(** One mandatory iteration of [\d] on a digit. *)
Lemma rep_digit_step fuel lo hi g count o pv a rest c k :
  is_digit a = true -> count < lo ->
  rep_loop (exec true digit) (S fuel) lo hi g count (mkPos o pv (a :: rest)) c k
  = rep_loop (exec true digit) fuel lo hi g (S count) (mkPos (S o) (Some a) rest) c k.
Proof.
  intros Ha Hc. cbn [rep_loop]. apply Nat.ltb_lt in Hc. rewrite Hc.
  unfold digit at 1. cbn [exec]. unfold advance. cbn [p_rest p_off].
  rewrite (digit_ic a Ha). cbn [orb]. reflexivity.
Qed.

(** The year directive reads four digits. *)
Lemma exec_year o pv a b c d rest cs k :
  is_digit a = true -> is_digit b = true -> is_digit c = true -> is_digit d = true ->
  exec true dir_Y (mkPos o pv (a :: b :: c :: d :: rest)) cs k
  = k (mkPos (S (S (S (S o)))) (Some d) rest) ((3, [a; b; c; d]) :: cs).
Proof.
  intros Ha Hb Hc Hd. unfold dir_Y, times. cbn [exec]. cbn [p_rest List.length Nat.add].
  rewrite !rep_digit_step by (assumption || lia).
  cbn [rep_loop]. cbn [Nat.ltb Nat.leb]. cbn [p_off].
  replace (S (S (S (S o))) - o) with 4 by lia. reflexivity.
Qed.

Lemma exec_year_pad4 o pv y cs k :
  exec true dir_Y (mkPos o pv (pad4 y)) cs k
  = k (mkPos (S (S (S (S o)))) (Some (digit_char y)) []) ((3, pad4 y) :: cs).
Proof. unfold pad4. apply exec_year; apply digit_char_spec. Qed.

(** *** Formats that end with the year *)

Lemma strptime_year_last f R s0 cps ms ds m d y :
  (forall p c k, exec true (format_regex f) p c k
                 = exec true R p c (fun p' c' => exec true dir_Y p' c' k)) ->
  reads_only R s0 cps ->
  cap_get 1 cps = Some ms -> cap_get 2 cps = Some ds ->
  py_int ms = Ok m -> py_int ds = Ok d -> (0 <= y <= 9999)%Z ->
  strptime (s0 ++ pad4 y) f = make_date y m d.
Proof.
  intros Hc (lastc & Hr) H1 H2 Hm Hd Hy.
  unfold strptime, match_, match_here. rewrite Hc, Hr, exec_year_pad4.
  cbn [m_end p_off]. rewrite length_app.
  replace (List.length (pad4 y)) with 4 by reflexivity.
  replace (S (S (S (S (List.length s0)))) =? List.length s0 + 4) with true
    by (symmetry; apply Nat.eqb_eq; lia).
  cbn [negb]. unfold group. cbn [m_caps cap_get Nat.eqb].
  rewrite H1, H2, (py_int_pad4 Hy), Hm, Hd. reflexivity.
Qed.

Lemma strptime_never f s0 rest : never_starts f s0 -> strptime (s0 ++ rest) f = Raise ValueError.
Proof. intros H. unfold strptime, match_, match_here. now rewrite H. Qed.

(** *** The strings handed to [strptime] *)

Lemma digits_sep_tight (w : str) :
  forallb (fun c => is_digit c || Ascii.eqb c "/" || Ascii.eqb c "-")%char w = true ->
  strip w = w.
Proof.
  intros F. apply strip_id. eapply forallb_impl; [|exact F].
  intros y. destruct y as [[] [] [] [] [] [] [] []]; vm_compute; congruence.
Qed.

Lemma digits_are_tight (w : str) :
  forallb is_digit w = true ->
  forallb (fun c => is_digit c || Ascii.eqb c "/" || Ascii.eqb c "-")%char w = true.
Proof. apply forallb_impl. intros y Hy. now rewrite Hy. Qed.

(** A date string of at most ten digits and separators reaches the
    formats as it is. *)
Lemma parse_date_as_is s :
  s <> [] -> List.length s <= 10 ->
  forallb (fun c => is_digit c || Ascii.eqb c "/" || Ascii.eqb c "-")%char s = true ->
  _parse_date (Some s)
  = parse_date_loop s [MDY_slash; YMD_dash; DMY_slash; MDY_dash].
Proof.
  intros Hne L F. unfold _parse_date. rewrite (digits_sep_tight _ F).
  destruct s; [congruence | reflexivity].
Qed.

Lemma loop_ok s f fs dt :
  strptime (slice_to 10 s) f = Ok dt -> parse_date_loop s (f :: fs) = Ok (Some dt).
Proof. intros H. cbn [parse_date_loop]. now rewrite H. Qed.

Lemma loop_next s f fs :
  strptime (slice_to 10 s) f = Raise ValueError ->
  parse_date_loop s (f :: fs) = parse_date_loop s fs.
Proof. intros H. cbn [parse_date_loop]. now rewrite H. Qed.

End DateFacts.

(** ** The formats on the tables *)

Module FormatFacts.
Import Re ReSpec ReFacts SearchFacts StrFacts PatternFacts ParseFacts ExtractFacts.
Import Shape ShapeFacts NumberFacts Schemas Notions Tables Strptime DateFacts.

Ltac each_pair Hm Hd tac :=
  vm_compute in Hm;
  repeat (destruct Hm as [Hm|Hm];
          [inversion Hm; subst; clear Hm; vm_compute in Hd;
           repeat (destruct Hd as [Hd|Hd]; [inversion Hd; subst; clear Hd; tac |]);
           destruct Hd |]);
  destruct Hm.

Ltac one_way c :=
  exists c; let k := fresh "k" in let rest := fresh "rest" in
  intros k rest; vm_compute; first [reflexivity | destruct (k _ _); reflexivity].

Ltac no_way :=
  let k := fresh "k" in let rest := fresh "rest" in
  intros k rest; vm_compute; reflexivity.

(** Month and day around slashes are read as such by the first format. *)
Lemma md_slash m ms d ds :
  In (m, ms) months -> In (d, ds) days ->
  reads_only (md_prefix "/") (month_day "/" ms ds) [(2, ds); (1, ms)].
Proof. intros Hm Hd. each_pair Hm Hd ltac:(one_way "/"%char). Qed.

(** Around hyphens only the fourth format reads them. *)
Lemma md_dash m ms d ds :
  In (m, ms) months -> In (d, ds) days ->
  reads_only (md_prefix "-") (month_day "-" ms ds) [(2, ds); (1, ms)]
  /\ never_starts MDY_slash (month_day "-" ms ds)
  /\ never_starts YMD_dash (month_day "-" ms ds)
  /\ never_starts DMY_slash (month_day "-" ms ds).
Proof.
  intros Hm Hd.
  each_pair Hm Hd ltac:(split; [one_way "-"%char | repeat split; no_way]).
Qed.

(** A day above twelve before the month: the month-first and the
    year-first formats fail, the day-first format reads it. *)
Lemma dm_slash d ds m ms :
  In (d, ds) late_days -> In (m, ms) months ->
  reads_only (dm_prefix "/") (day_month "/" ds ms) [(1, ms); (2, ds)]
  /\ never_starts MDY_slash (day_month "/" ds ms)
  /\ never_starts YMD_dash (day_month "/" ds ms).
Proof.
  intros Hd Hm.
  each_pair Hd Hm ltac:(split; [one_way "/"%char | repeat split; no_way]).
Qed.

(** With hyphens no format reads it. *)
Lemma dm_dash d ds m ms :
  In (d, ds) late_days -> In (m, ms) months ->
  forall f, never_starts f (day_month "-" ds ms).
Proof.
  intros Hd Hm.
  each_pair Hd Hm ltac:(intros [| | |]; no_way).
Qed.

Lemma ymd_reads m ms d ds :
  In (m, ms) months -> In (d, ds) days ->
  forall pv yy,
    exec true ymd_tail (mkPos 4 pv ("-"%char :: ms ++ "-"%char :: ds)) [(3, yy)]
      (fun p c => Some (p, c))
    = Some (mkPos (4 + List.length ("-"%char :: ms ++ "-"%char :: ds))
              (last_char ds None) [],
            [(2, ds); (1, ms); (3, yy)]).
Proof.
  intros Hm Hd. each_pair Hm Hd ltac:(intros pv yy; vm_compute; reflexivity).
Qed.

End FormatFacts.

(** ** How a written date is read *)

Module ReadingFacts.
Import Re ReSpec ReFacts SearchFacts StrFacts PatternFacts ParseFacts ExtractFacts.
Import Shape ShapeFacts NumberFacts Schemas Notions Tables Strptime DateFacts.
Import FormatFacts.

Lemma days_in_month_le y m : (days_in_month y m <= 31)%Z.
Proof.
  unfold days_in_month. destruct (m =? 2)%Z; [destruct (is_leap y); lia|].
  destruct (_ || _ || _ || _)%bool; lia.
Qed.

Lemma make_date_tables y m d dt ms ds :
  make_date y m d = Ok dt -> In ms (spellings m) -> In ds (spellings d) ->
  dt = mkDate y m d /\ In (m, ms) months /\ In (d, ds) days /\ (0 <= y <= 9999)%Z.
Proof.
  intros H Hm Hd. apply make_date_valid in H. destruct H as (-> & Hy & Hmo & Hda).
  pose proof (days_in_month_le y m).
  split; [reflexivity|]. split; [apply in_written; [simpl; lia | exact Hm]|].
  split; [apply in_written; [simpl; lia | exact Hd]|]. lia.
Qed.

Lemma month_day_tight sep ms ds m d y :
  numeral m ms -> numeral d ds -> sep = "/"%char \/ sep = "-"%char ->
  let s := month_day sep ms ds ++ pad4 y in
  s <> [] /\ List.length s <= 10
  /\ forallb (fun c => is_digit c || Ascii.eqb c "/" || Ascii.eqb c "-")%char s = true
  /\ slice_to 10 s = s.
Proof.
  intros (_ & Fm & Lm1 & Lm2) (_ & Fd & Ld1 & Ld2) Hsep. cbv zeta.
  assert (L : List.length (month_day sep ms ds ++ pad4 y) <= 10).
  { unfold month_day. rewrite !length_app. cbn [List.length].
    rewrite length_app. simpl. lia. }
  split; [unfold month_day; destruct ms; [simpl in Lm1; lia | discriminate]|].
  split; [exact L|]. split.
  - unfold month_day. rewrite !forallb_app. cbn [forallb]. rewrite forallb_app.
    cbn [forallb].
    rewrite (digits_are_tight _ Fm), (digits_are_tight _ Fd),
      (digits_are_tight _ (pad4_digits y)).
    destruct Hsep as [-> | ->]; reflexivity.
  - unfold slice_to. now apply firstn_all2.
Qed.

(** *** Month first *)

Lemma month_first_slash y m d dt ms ds :
  make_date y m d = Ok dt -> In ms (spellings m) -> In ds (spellings d) ->
  _parse_date (Some (month_day "/" ms ds ++ pad4 y)) = Ok (Some dt).
Proof.
  intros H Hm Hd. pose proof H as Hmk.
  destruct (@make_date_tables y m d dt ms ds H Hm Hd) as (_ & Tm & Td & Hy).
  pose proof (@months_numeral m ms Tm) as Nm. pose proof (@days_numeral d ds Td) as Nd.
  destruct (@month_day_tight "/"%char ms ds m d y Nm Nd (or_introl eq_refl))
    as (Hne & L & F & Es).
  rewrite (@parse_date_as_is _ Hne L F). apply loop_ok. rewrite Es.
  rewrite (@strptime_year_last MDY_slash (md_prefix "/") (month_day "/" ms ds)
             [(2, ds); (1, ms)] ms ds m d y);
    [exact Hmk | reflexivity | exact (@md_slash m ms d ds Tm Td) | reflexivity | reflexivity
     | apply Nm | apply Nd | exact Hy].
Qed.

Lemma month_first_dash y m d dt ms ds :
  make_date y m d = Ok dt -> In ms (spellings m) -> In ds (spellings d) ->
  _parse_date (Some (month_day "-" ms ds ++ pad4 y)) = Ok (Some dt).
Proof.
  intros H Hm Hd. pose proof H as Hmk.
  destruct (@make_date_tables y m d dt ms ds H Hm Hd) as (_ & Tm & Td & Hy).
  pose proof (@months_numeral m ms Tm) as Nm. pose proof (@days_numeral d ds Td) as Nd.
  destruct (@month_day_tight "-"%char ms ds m d y Nm Nd (or_intror eq_refl))
    as (Hne & L & F & Es).
  destruct (@md_dash m ms d ds Tm Td) as (R & N1 & N2 & N3).
  rewrite (@parse_date_as_is _ Hne L F).
  rewrite loop_next by (rewrite Es; now apply strptime_never).
  rewrite loop_next by (rewrite Es; now apply strptime_never).
  rewrite loop_next by (rewrite Es; now apply strptime_never).
  apply loop_ok. rewrite Es.
  rewrite (@strptime_year_last MDY_dash (md_prefix "-") (month_day "-" ms ds)
             [(2, ds); (1, ms)] ms ds m d y);
    [exact Hmk | reflexivity | exact R | reflexivity | reflexivity
     | apply Nm | apply Nd | exact Hy].
Qed.

(** *** Day first *)

Lemma late_day_table y m d dt ms :
  make_date y m d = Ok dt -> (12 < d)%Z -> In ms (spellings m) ->
  In (d, pad2 d) late_days /\ In (m, ms) months /\ (0 <= y <= 9999)%Z.
Proof.
  intros H Hd Hm. apply make_date_valid in H. destruct H as (-> & Hy & Hmo & Hda).
  pose proof (days_in_month_le y m).
  split; [apply in_written; [simpl; lia | apply pad2_spelling]|].
  split; [apply in_written; [simpl; lia | exact Hm]|]. lia.
Qed.

Lemma day_month_as_month_day sep ds ms : day_month sep ds ms = month_day sep ds ms.
Proof. reflexivity. Qed.

Lemma day_first_slash y m d dt ms :
  make_date y m d = Ok dt -> (12 < d)%Z -> In ms (spellings m) ->
  _parse_date (Some (day_month "/" (pad2 d) ms ++ pad4 y)) = Ok (Some dt).
Proof.
  intros H Hd Hm. pose proof H as Hmk.
  destruct (@late_day_table y m d dt ms H Hd Hm) as (Td & Tm & Hy).
  pose proof (@months_numeral m ms Tm) as Nm.
  pose proof (@days_numeral d (pad2 d) (proj1 (@late_days_days d (pad2 d) Td))) as Nd.
  destruct (@month_day_tight "/"%char (pad2 d) ms d m y Nd Nm (or_introl eq_refl))
    as (Hne & L & F & Es).
  rewrite <- day_month_as_month_day in Hne, L, F, Es.
  destruct (@dm_slash d (pad2 d) m ms Td Tm) as (R & N1 & N2).
  rewrite (@parse_date_as_is _ Hne L F).
  rewrite loop_next by (rewrite Es; now apply strptime_never).
  rewrite loop_next by (rewrite Es; now apply strptime_never).
  apply loop_ok. rewrite Es.
  rewrite (@strptime_year_last DMY_slash (dm_prefix "/") (day_month "/" (pad2 d) ms)
             [(1, ms); (2, pad2 d)] ms (pad2 d) m d y);
    [exact Hmk | reflexivity | exact R | reflexivity | reflexivity
     | apply Nm | apply Nd | exact Hy].
Qed.

Lemma day_first_dash y m d dt ms :
  make_date y m d = Ok dt -> (12 < d)%Z -> In ms (spellings m) ->
  _parse_date (Some (day_month "-" (pad2 d) ms ++ pad4 y)) = Ok None.
Proof.
  intros H Hd Hm.
  destruct (@late_day_table y m d dt ms H Hd Hm) as (Td & Tm & Hy).
  pose proof (@months_numeral m ms Tm) as Nm.
  pose proof (@days_numeral d (pad2 d) (proj1 (@late_days_days d (pad2 d) Td))) as Nd.
  destruct (@month_day_tight "-"%char (pad2 d) ms d m y Nd Nm (or_intror eq_refl))
    as (Hne & L & F & Es).
  rewrite <- day_month_as_month_day in Hne, L, F, Es.
  pose proof (@dm_dash d (pad2 d) m ms Td Tm) as N.
  rewrite (@parse_date_as_is _ Hne L F).
  rewrite !loop_next by (rewrite Es; apply strptime_never; apply N).
  reflexivity.
Qed.

(** *** Year first *)

Lemma slash_only y : lit_ok true "/"%char y = true -> y = "/"%char.
Proof. destruct y as [[] [] [] [] [] [] [] []]; vm_compute; congruence. Qed.

(** The month-first format needs a slash among the first three
    characters. *)
Lemma mdy_needs_slash a b c rest k :
  is_digit a = true -> is_digit b = true -> is_digit c = true ->
  exec true (format_regex MDY_slash) (mkPos 0 None (a :: b :: c :: rest)) [] k = None.
Proof.
  intros Ha Hb Hc.
  destruct (exec true (format_regex MDY_slash) _ [] k) as [res|] eqn:E; [|reflexivity].
  exfalso. apply (proj1 (exec_sound_complete true _)) in E.
  destruct E as (p' & c' & Hm & _).
  change (format_regex MDY_slash)
    with (Cat dir_m (Cat (Lit "/") (cat_all [dir_d; Lit "/"%char; dir_Y]))) in Hm.
  cbn [matches] in Hm.
  destruct Hm as (p1 & c1 & H1 & p2 & c2 & (y & Hadv & Hy & _) & _).
  apply slash_only in Hy. subst y.
  destruct (matches_reads _ _ _ _ _ _ H1) as (w1 & R1).
  assert (Hlen : fits (reach (fun _ => true) true dir_m) (List.length w1)).
  { apply (@matches_reach true (fun _ => true) _ _ _ _ _ _ H1 R1).
    clear. induction w1; simpl; auto. }
  replace (reach (fun _ => true) true dir_m) with (AtMost 2) in Hlen
    by (vm_compute; reflexivity).
  simpl in Hlen. destruct R1 as (Er & _). simpl in Er.
  unfold advance in Hadv. destruct (p_rest p1) as [|x r1] eqn:Ep; [discriminate|].
  inversion Hadv; subst x.
  destruct w1 as [|x1 [|x2 [|x3 w1]]]; simpl in Er, Hlen; inversion Er; subst;
    try discriminate; lia.
Qed.

Lemma strptime_mdy_digits a b c rest :
  is_digit a = true -> is_digit b = true -> is_digit c = true ->
  strptime (a :: b :: c :: rest) MDY_slash = Raise ValueError.
Proof.
  intros Ha Hb Hc. unfold strptime, match_, match_here.
  now rewrite (@mdy_needs_slash a b c rest _ Ha Hb Hc).
Qed.

Lemma last_char_cons_digits (ds : str) d : numeral d ds -> last_char ds None <> None.
Proof.
  intros (_ & _ & L & _). destruct ds as [|x ds]; [simpl in L; lia|].
  unfold last_char. destruct (rev (x :: ds)) eqn:E; [|discriminate].
  apply (f_equal (@List.length ascii)) in E. rewrite length_rev in E. discriminate E.
Qed.

Lemma strptime_ymd y m d ms ds :
  In (m, ms) months -> In (d, ds) days -> (0 <= y <= 9999)%Z ->
  strptime (pad4 y ++ "-"%char :: ms ++ "-"%char :: ds) YMD_dash = make_date y m d.
Proof.
  intros Tm Td Hy. unfold strptime, match_, match_here.
  change (exec true (format_regex YMD_dash) ?p ?c ?k)
    with (exec true dir_Y p c (fun p' c' => exec true ymd_tail p' c' k)).
  unfold pad4 at 1. cbn [app].
  rewrite exec_year by apply digit_char_spec.
  fold (pad4 y). rewrite (@ymd_reads m ms d ds Tm Td).
  cbn [m_end p_off].
  match goal with
  | |- context [negb (?x =? ?z)] =>
      replace (x =? z) with true
        by (symmetry; apply Nat.eqb_eq; unfold pad4; simpl; rewrite ?length_app;
            simpl; lia)
  end.
  cbn [negb]. unfold group. cbn [m_caps cap_get Nat.eqb].
  rewrite (@py_int_pad4 y Hy), (proj1 (@months_numeral m ms Tm)), (proj1 (@days_numeral d ds Td)).
  reflexivity.
Qed.

Lemma year_first y m d dt ms ds :
  make_date y m d = Ok dt -> In ms (spellings m) -> In ds (spellings d) ->
  _parse_date (Some (pad4 y ++ "-"%char :: ms ++ "-"%char :: ds)) = Ok (Some dt).
Proof.
  intros H Hm Hd. pose proof H as Hmk.
  destruct (@make_date_tables y m d dt ms ds H Hm Hd) as (_ & Tm & Td & Hy).
  destruct (@months_numeral m ms Tm) as (_ & Fm & Lm1 & Lm2).
  destruct (@days_numeral d ds Td) as (_ & Fd & Ld1 & Ld2).
  set (s := pad4 y ++ "-"%char :: ms ++ "-"%char :: ds).
  assert (L : List.length s <= 10).
  { subst s. rewrite length_app. cbn [List.length]. rewrite length_app. simpl. lia. }
  assert (F : forallb (fun c => is_digit c || Ascii.eqb c "/" || Ascii.eqb c "-")%char s
              = true).
  { subst s. rewrite forallb_app. cbn [forallb]. rewrite forallb_app. cbn [forallb].
    now rewrite (digits_are_tight _ Fm), (digits_are_tight _ Fd),
      (digits_are_tight _ (pad4_digits y)). }
  assert (Es : slice_to 10 s = s) by (unfold slice_to; now apply firstn_all2).
  rewrite (@parse_date_as_is s ltac:(subst s; discriminate) L F).
  rewrite loop_next.
  - apply loop_ok. rewrite Es. subst s. rewrite (@strptime_ymd y m d ms ds Tm Td Hy). exact Hmk.
  - rewrite Es. subst s. unfold pad4. apply strptime_mdy_digits; apply digit_char_spec.
Qed.

Lemma iso_round_trip dt : valid_date dt -> _parse_date (Some (isoformat dt)) = Ok (Some dt).
Proof.
  intros H. unfold isoformat.
  change (pad4 (d_year dt) ++ lit "-" ++ pad2 (d_month dt) ++ lit "-" ++ pad2 (d_day dt))
    with (pad4 (d_year dt) ++ "-"%char :: pad2 (d_month dt) ++ "-"%char :: pad2 (d_day dt)).
  apply (@year_first (d_year dt) (d_month dt) (d_day dt) dt _ _ H); apply pad2_spelling.
Qed.

End ReadingFacts.

(** ** The classifier on code points *)

Module UnicodeFacts.
Import Re Unicode.

(** *** Trimming *)

Lemma code_lstrip_split s :
  exists ws, s = ws ++ lstrip s /\ forallb is_space ws = true.
Proof.
  induction s as [|a s IH]; simpl.
  - exists []. auto.
  - destruct (is_space a) eqn:E.
    + destruct IH as (ws & H1 & H2). exists (a :: ws). simpl.
      rewrite E, H2. split; [f_equal; exact H1 | reflexivity].
    + exists []. auto.
Qed.

Lemma code_lstrip_nil_iff s : lstrip s = [] <-> forallb is_space s = true.
Proof.
  induction s as [|a s IH]; simpl; [tauto|].
  destruct (is_space a); simpl; [exact IH|]. split; discriminate.
Qed.

Lemma code_lstrip_head s a t : lstrip s = a :: t -> is_space a = false.
Proof.
  induction s as [|b s IH]; simpl; [discriminate|].
  destruct (is_space b) eqn:E; [exact IH|]. intros H; inversion H; subst. exact E.
Qed.

Lemma code_lstrip_keep a t : is_space a = false -> lstrip (a :: t) = a :: t.
Proof. intros H. simpl. now rewrite H. Qed.

Lemma code_lstrip_idem s : lstrip (lstrip s) = lstrip s.
Proof.
  destruct (lstrip s) as [|a t] eqn:E; [reflexivity|].
  apply code_lstrip_keep. exact (@code_lstrip_head s a t E).
Qed.

Lemma code_lstrip_forallb (P : N -> bool) s :
  forallb P s = true -> forallb P (lstrip s) = true.
Proof.
  induction s as [|a s IH]; simpl; [auto|].
  intros H. apply andb_true_iff in H. destruct H as [H1 H2].
  destruct (is_space a); [auto|]. simpl. now rewrite H1, H2.
Qed.

Lemma code_forallb_rev (P : N -> bool) s : forallb P (rev s) = forallb P s.
Proof.
  induction s as [|a s IH]; simpl; [reflexivity|].
  rewrite forallb_app, IH. simpl. rewrite andb_true_r. apply andb_comm.
Qed.

Lemma code_strip_forallb (P : N -> bool) s :
  forallb P s = true -> forallb P (strip s) = true.
Proof.
  intros H. unfold strip, rstrip. rewrite code_forallb_rev.
  apply code_lstrip_forallb. rewrite code_forallb_rev. now apply code_lstrip_forallb.
Qed.

Lemma code_rstrip_nil_iff s : rstrip s = [] <-> forallb is_space s = true.
Proof.
  unfold rstrip. rewrite <- (code_forallb_rev is_space s), <- code_lstrip_nil_iff.
  split; intros H.
  - apply (f_equal (@rev N)) in H. rewrite rev_involutive in H. exact H.
  - rewrite H. reflexivity.
Qed.

(** A string is trimmed to nothing exactly when it is white space. *)
Lemma code_strip_nil_iff s : strip s = [] <-> forallb is_space s = true.
Proof.
  unfold strip. rewrite code_rstrip_nil_iff. split; intros H.
  - destruct (code_lstrip_split s) as (ws & E & Hws).
    rewrite E, forallb_app, Hws, H. reflexivity.
  - now apply code_lstrip_forallb.
Qed.

Lemma code_lstrip_spaces ws s :
  forallb is_space ws = true -> lstrip (ws ++ s) = lstrip s.
Proof.
  induction ws as [|a ws IH]; simpl; [reflexivity|].
  intros H. apply andb_true_iff in H. destruct H as [Ha H]. rewrite Ha. auto.
Qed.

Lemma code_lstrip_app_keep pre x rest :
  is_space x = false -> lstrip (pre ++ x :: rest) = lstrip pre ++ x :: rest.
Proof.
  intros Hx. induction pre as [|a pre IH]; simpl.
  - now rewrite Hx.
  - destruct (is_space a); [exact IH | reflexivity].
Qed.

Lemma code_rstrip_spaces s ws :
  forallb is_space ws = true -> rstrip (s ++ ws) = rstrip s.
Proof.
  intros H. unfold rstrip. rewrite rev_app_distr, code_lstrip_spaces; [reflexivity|].
  now rewrite code_forallb_rev.
Qed.

Lemma code_rstrip_head x post : is_space x = false -> rstrip (x :: post) = x :: rstrip post.
Proof.
  intros Hx. unfold rstrip. simpl.
  rewrite code_lstrip_app_keep by exact Hx.
  rewrite rev_app_distr. reflexivity.
Qed.

Lemma code_rstrip_idem s : rstrip (rstrip s) = rstrip s.
Proof. unfold rstrip. now rewrite rev_involutive, code_lstrip_idem. Qed.

(** [strip] does nothing to a trimmed string. *)
Lemma code_strip_idem s : strip (strip s) = strip s.
Proof.
  unfold strip at 2 3. destruct (lstrip s) as [|a t] eqn:E; [reflexivity|].
  pose proof (@code_lstrip_head s a t E) as Ha.
  rewrite (@code_rstrip_head a t Ha). unfold strip.
  rewrite (@code_lstrip_keep a (rstrip t) Ha), (@code_rstrip_head a (rstrip t) Ha).
  now rewrite code_rstrip_idem.
Qed.

(** White space around a string is gone once it is trimmed. *)
Lemma code_strip_pad a s b :
  forallb is_space a = true -> forallb is_space b = true ->
  strip (a ++ s ++ b) = strip s.
Proof.
  intros Ha Hb. unfold strip. rewrite (@code_lstrip_spaces a (s ++ b) Ha).
  induction s as [|x s IH]; simpl.
  - replace (lstrip b) with (@nil N); [reflexivity|].
    symmetry. now apply code_lstrip_nil_iff.
  - destruct (is_space x); [exact IH|].
    change (x :: s ++ b) with ((x :: s) ++ b). now apply code_rstrip_spaces.
Qed.

(** *** Comparisons *)

Lemma code_str_eqb_eq a b : str_eqb a b = true <-> a = b.
Proof.
  revert b. induction a as [|x a IH]; destruct b as [|y b]; simpl;
    try (split; [discriminate | congruence]); [tauto|].
  rewrite andb_true_iff, N.eqb_eq, IH. split.
  - intros [-> ->]. reflexivity.
  - intros H; inversion H; auto.
Qed.

Lemma code_str_in_iff s l : str_in s l = true <-> In s l.
Proof.
  unfold str_in. rewrite existsb_exists. split.
  - intros (x & Hx & E). apply code_str_eqb_eq in E. now subst.
  - intros H. exists s. split; [exact H|]. now apply code_str_eqb_eq.
Qed.

Lemma code_starts_with_app a b : starts_with a (a ++ b) = true.
Proof. induction a as [|x a IH]; simpl; [reflexivity|]. now rewrite N.eqb_refl. Qed.

Lemma code_starts_with_split a s : starts_with a s = true -> exists r, s = a ++ r.
Proof.
  revert s. induction a as [|x a IH]; intros s H; [exists s; reflexivity|].
  destruct s as [|y s]; [discriminate|]. simpl in H.
  apply andb_true_iff in H. destruct H as [E H]. apply N.eqb_eq in E. subst y.
  destruct (IH _ H) as (r & ->). exists r. reflexivity.
Qed.

Lemma code_contains_unfold sub s :
  contains sub s
  = starts_with sub s || match s with [] => false | _ :: s' => contains sub s' end.
Proof. destruct s; reflexivity. Qed.

(** [contains] decides occurrence. *)
Lemma code_contains_iff sub s : contains sub s = true <-> occurs sub s.
Proof.
  split.
  - induction s as [|y s IH]; simpl; intros H.
    + rewrite orb_false_r in H. apply code_starts_with_split in H. destruct H as (r & E).
      exists [], r. exact E.
    + apply orb_true_iff in H. destruct H as [H|H].
      * apply code_starts_with_split in H. destruct H as (r & E). exists [], r. exact E.
      * destruct (IH H) as (l & r & ->). exists (y :: l), r. reflexivity.
  - intros (l & r & ->). induction l as [|y l IH]; simpl.
    + rewrite code_contains_unfold, code_starts_with_app. reflexivity.
    + rewrite IH. apply orb_true_r.
Qed.

Lemma code_count_contains c s : 0 < count_char c s -> contains [c] s = true.
Proof.
  unfold count_char. induction s as [|y s IH]; [simpl; lia|].
  rewrite code_contains_unfold. cbn [filter starts_with].
  destruct (N.eqb c y) eqn:E.
  - intros _. reflexivity.
  - intros H. rewrite (IH H). apply orb_true_r.
Qed.

(** *** The punctuation pattern *)

Section Rules.

Variable db : database.

Lemma code_punct_set y :
  set_ok db false false [ISpace; IChar "."%char; IChar ":"%char; IChar "-"%char] y
  = is_punct y.
Proof.
  unfold set_ok, is_punct. cbn [andb xorb existsb item_has].
  change (code "."%char) with 46%N. change (code ":"%char) with 58%N.
  change (code "-"%char) with 45%N.
  destruct (is_space y), (y =? 46)%N, (y =? 58)%N, (y =? 45)%N; reflexivity.
Qed.

(** The greedy repetition of a set reads a run of its members to the
    end, where [$] holds. *)
Lemma code_run_to_end negated items (w : ustr) : forall fuel count off prev c,
  forallb (set_ok db false negated items) w = true ->
  List.length w < fuel -> (1 <= count \/ w <> []) ->
  rep_loop (exec db false (Set_ negated items)) fuel 1 None true count
    (mkPos off prev w) c
    (fun p' c' => if at_eol p' then Some (p', c') else None) <> None.
Proof.
  induction w as [|y w IH]; intros fuel count off prev c F Hf Hc.
  - destruct Hc as [Hc|Hc]; [|congruence].
    destruct fuel as [|fuel]; [simpl in Hf; lia|].
    cbn [rep_loop]. replace (count <? 1) with false by (symmetry; apply Nat.ltb_ge; lia).
    cbn [exec advance p_rest orelse at_eol]. discriminate.
  - cbn [forallb] in F. apply andb_true_iff in F. destruct F as [Fy F].
    destruct fuel as [|fuel]; [simpl in Hf; lia|].
    assert (Hnext : forall n,
              rep_loop (exec db false (Set_ negated items)) fuel 1 None true n
                (mkPos (S off) (Some y) w) c
                (fun p' c' => if at_eol p' then Some (p', c') else None) <> None
              \/ n = 0).
    { intros n. destruct n as [|n]; [now right|]. left.
      apply IH; [exact F | simpl in Hf; lia | left; lia]. }
    cbn [rep_loop]. destruct (count <? 1) eqn:Hlo.
    + cbn [exec advance p_rest p_off]. rewrite Fy. cbn [orb].
      destruct (Hnext (S count)) as [H|H]; [exact H | discriminate].
    + cbn [exec advance p_rest p_off]. rewrite Fy. cbn [orb p_rest].
      replace (List.length w <? List.length (y :: w)) with true
        by (symmetry; apply Nat.ltb_lt; simpl; lia).
      destruct (Hnext (S count)) as [H|H]; [|discriminate].
      destruct (rep_loop _ fuel 1 None true (S count) _ c _) eqn:E; [|congruence].
      cbn [orelse]. discriminate.
Qed.

Lemma code_only_punctuation (s : ustr) :
  s <> [] -> forallb is_punct s = true ->
  matches_at_start db false Patterns.ONLY_PUNCTUATION s = true.
Proof.
  intros Hne F. unfold matches_at_start, Patterns.ONLY_PUNCTUATION.
  change (cat_all [Bol; plus (Set_ false [ISpace; IChar "."%char; IChar ":"%char; IChar "-"%char]); Eol])
    with (Cat Bol (Cat (plus (Set_ false [ISpace; IChar "."%char; IChar ":"%char; IChar "-"%char])) Eol)).
  unfold plus. cbn [exec at_bol p_prev p_rest].
  match goal with
  | |- is_some ?x = true => destruct x eqn:E; [reflexivity|]
  end.
  exfalso. revert E. apply code_run_to_end.
  - clear Hne. induction s as [|y s IH]; cbn [forallb] in *; [reflexivity|].
    apply andb_true_iff in F. destruct F as [Fy F].
    now rewrite code_punct_set, Fy, (IH F).
  - simpl. lia.
  - now right.
Qed.

(** *** The rules of the classifier *)

Ltac classify_code :=
  unfold _is_form_label_or_placeholder; cbv zeta;
  repeat match goal with
  | |- (if ?c then true else _) = true => destruct c eqn:?; [reflexivity|]
  end.

Lemma code_space_is_punct s : forallb is_space s = true -> forallb is_punct s = true.
Proof.
  induction s as [|y s IH]; cbn [forallb]; [auto|].
  intros H. apply andb_true_iff in H. destruct H as [H1 H2].
  rewrite (IH H2). unfold is_punct. now rewrite H1.
Qed.

Lemma code_rejects_punctuation s n :
  forallb is_punct s = true -> _is_form_label_or_placeholder db (Some s) n = true.
Proof.
  intros F. classify_code. exfalso.
  match goal with
  | H : negb _ || negb (truthy_str (Some (strip s))) = false |- _ =>
      apply orb_false_iff in H; destruct H as [_ Ht]
  end.
  match goal with
  | H : str_in _ _ || _ = false |- _ =>
      apply orb_false_iff in H; destruct H as [_ H']
  end.
  apply negb_false_iff in Ht.
  rewrite code_only_punctuation in H'; [discriminate| |].
  - destruct (strip s); [discriminate | discriminate].
  - now apply code_strip_forallb.
Qed.

Lemma code_rejects_blob s n :
  n < List.length (strip s) -> 2 < count_char LF (strip s) ->
  _is_form_label_or_placeholder db (Some s) n = true.
Proof.
  intros H1 H2. classify_code. exfalso.
  match goal with
  | H : (n <? _) && _ && _ = false |- _ => rename H into Hb
  end.
  rewrite (proj2 (Nat.ltb_lt _ _) H1), (proj2 (Nat.ltb_lt _ _) H2) in Hb.
  rewrite code_count_contains in Hb by lia. discriminate.
Qed.

Lemma code_rejects_label s n :
  matches_at_start db true Patterns._LABEL_PATTERNS (strip s) = true ->
  _is_form_label_or_placeholder db (Some s) n = true.
Proof. intros H. classify_code. congruence. Qed.

Lemma code_rejects_fragment s n sub :
  In sub _LABEL_SUBSTRINGS -> occurs sub (str_lower db (strip s)) ->
  _is_form_label_or_placeholder db (Some s) n = true.
Proof.
  intros Hin Ho. classify_code. exfalso.
  match goal with
  | H : existsb _ _LABEL_SUBSTRINGS = false |- _ => rename H into He
  end.
  assert (existsb (fun sub => contains sub (str_lower db (strip s))) _LABEL_SUBSTRINGS
          = true).
  { apply existsb_exists. exists sub. split; [exact Hin|]. now apply code_contains_iff. }
  congruence.
Qed.

Lemma code_rejects_placeholder s n :
  In (str_lower db (strip s)) PLACEHOLDER_WORDS ->
  _is_form_label_or_placeholder db (Some s) n = true.
Proof.
  intros Hin. classify_code. exfalso.
  apply code_str_in_iff in Hin. unfold PLACEHOLDER_WORDS in Hin. congruence.
Qed.

Lemma code_rejects_caps s n :
  In (str_upper db (strip s)) PLACEHOLDER_CAPS ->
  _is_form_label_or_placeholder db (Some s) n = true.
Proof.
  intros Hin. classify_code. exfalso.
  match goal with
  | H : _ || _ || _ = false |- _ =>
      apply orb_false_iff in H; destruct H as [H H3];
      apply orb_false_iff in H; destruct H as [H1 H2]
  end.
  destruct Hin as [E|[E|[E|[]]]]; symmetry in E; apply code_str_eqb_eq in E; congruence.
Qed.

(** The classifier only looks at the trimmed value. *)
Lemma code_classifier_strip v n :
  _is_form_label_or_placeholder db (Some v) n
  = _is_form_label_or_placeholder db (Some (strip v)) n.
Proof.
  unfold _is_form_label_or_placeholder. rewrite code_strip_idem.
  destruct (strip v) as [|x t] eqn:E.
  - simpl. now rewrite orb_true_r.
  - destruct v as [|y v']; [discriminate E|]. reflexivity.
Qed.

End Rules.

End UnicodeFacts.

(** ** The two models of the classifier agree on ASCII strings *)

Module EmbeddingFacts.
Import Re Embedding StrFacts.

(** *** Characters *)

Lemma code_injective a b : code a = code b -> a = b.
Proof.
  unfold code. intros H. rewrite <- (ascii_N_embedding a), <- (ascii_N_embedding b).
  now rewrite H.
Qed.

Lemma code_eqb a b : (code a =? code b)%N = Ascii.eqb a b.
Proof.
  destruct (Ascii.eqb a b) eqn:E.
  - apply Ascii.eqb_eq in E. subst. apply N.eqb_refl.
  - apply N.eqb_neq. intros H. apply code_injective in H. subst.
    rewrite Ascii.eqb_refl in E. discriminate.
Qed.

Lemma in_ascii_chars c : Plain.is_ascii c = true -> In c ascii_chars.
Proof.
  unfold Plain.is_ascii, code, ascii_chars. intros H. apply N.ltb_lt in H.
  apply in_map_iff. exists (nat_of_ascii c). split; [apply ascii_nat_embedding|].
  apply in_seq. unfold nat_of_ascii. lia.
Qed.

(** What holds of each of the 128 holds of every ASCII character. *)
Lemma each_ascii (P : ascii -> bool) :
  forallb P ascii_chars = true -> forall c, Plain.is_ascii c = true -> P c = true.
Proof.
  intros H c Hc. rewrite forallb_forall in H. apply H. now apply in_ascii_chars.
Qed.

Lemma space_agrees c :
  Plain.is_ascii c = true -> Unicode.is_space (code c) = is_space c.
Proof.
  intros H. apply Bool.eqb_prop.
  apply (each_ascii (fun c => Bool.eqb (Unicode.is_space (code c)) (is_space c)));
    [vm_compute; reflexivity | exact H].
Qed.

Lemma word_agrees db c :
  Plain.is_ascii c = true -> Unicode.is_word db (code c) = is_word c.
Proof.
  intros H. apply Bool.eqb_prop.
  apply (each_ascii (fun c => Bool.eqb (Unicode.is_word db (code c)) (is_word c)));
    [vm_compute; reflexivity | exact H].
Qed.

Lemma lower_agrees db before c after :
  Plain.is_ascii c = true ->
  (if Unicode.is_ascii (code c) then [Unicode.lower_ascii (code c)]
   else Unicode.full_lower db before (code c) after)
  = [code (lower_char c)].
Proof.
  intros H. change (Unicode.is_ascii (code c)) with (Plain.is_ascii c). rewrite H.
  f_equal. apply N.eqb_eq.
  apply (each_ascii (fun c => N.eqb (Unicode.lower_ascii (code c)) (code (lower_char c))));
    [vm_compute; reflexivity | exact H].
Qed.

Lemma upper_agrees db c :
  Plain.is_ascii c = true ->
  (if Unicode.is_ascii (code c) then [Unicode.upper_ascii (code c)]
   else Unicode.full_upper db (code c))
  = [code (upper_char c)].
Proof.
  intros H. change (Unicode.is_ascii (code c)) with (Plain.is_ascii c). rewrite H.
  f_equal. apply N.eqb_eq.
  apply (each_ascii (fun c => N.eqb (Unicode.upper_ascii (code c)) (code (upper_char c))));
    [vm_compute; reflexivity | exact H].
Qed.

(** *** Strings *)

Lemma of_str_rev s : Unicode.of_str (rev s) = rev (Unicode.of_str s).
Proof. apply map_rev. Qed.

Lemma ascii_only_rev s : Plain.ascii_only s -> Plain.ascii_only (rev s).
Proof. unfold Plain.ascii_only. now rewrite forallb_rev. Qed.

Lemma ascii_only_lstrip s : Plain.ascii_only s -> Plain.ascii_only (lstrip s).
Proof. apply lstrip_forallb. Qed.

Lemma ascii_only_strip s : Plain.ascii_only s -> Plain.ascii_only (strip s).
Proof. apply strip_forallb. Qed.

Lemma lstrip_embedded s :
  Plain.ascii_only s -> Unicode.lstrip (Unicode.of_str s) = Unicode.of_str (lstrip s).
Proof.
  unfold Plain.ascii_only. induction s as [|a s IH]; cbn [forallb]; [reflexivity|].
  intros H. apply andb_true_iff in H. destruct H as [Ha H].
  cbn [Unicode.of_str map Unicode.lstrip lstrip]. rewrite (@space_agrees a Ha).
  destruct (is_space a); [exact (IH H) | reflexivity].
Qed.

Lemma strip_embedded s :
  Plain.ascii_only s -> Unicode.strip (Unicode.of_str s) = Unicode.of_str (strip s).
Proof.
  intros H. unfold Unicode.strip, strip, Unicode.rstrip, rstrip.
  rewrite (@lstrip_embedded s H), <- of_str_rev, lstrip_embedded, of_str_rev;
    [reflexivity|].
  now apply ascii_only_rev, ascii_only_lstrip.
Qed.

Lemma lower_embedded db s : forall before,
  Plain.ascii_only s ->
  Unicode.lower_from db before (Unicode.of_str s) = Unicode.of_str (str_lower s).
Proof.
  unfold Plain.ascii_only. induction s as [|a s IH]; intros before; cbn [forallb];
    [reflexivity|].
  intros H. apply andb_true_iff in H. destruct H as [Ha H].
  cbn [Unicode.of_str map Unicode.lower_from str_lower].
  rewrite (@lower_agrees db before a (map code s) Ha). cbn [app]. f_equal.
  exact (IH (before ++ [code a]) H).
Qed.

Lemma upper_embedded db s :
  Plain.ascii_only s ->
  Unicode.str_upper db (Unicode.of_str s) = Unicode.of_str (str_upper s).
Proof.
  unfold Plain.ascii_only, Unicode.str_upper.
  induction s as [|a s IH]; cbn [forallb]; [reflexivity|].
  intros H. apply andb_true_iff in H. destruct H as [Ha H].
  cbn [Unicode.of_str map flat_map str_upper].
  rewrite (@upper_agrees db a Ha). cbn [app]. f_equal. exact (IH H).
Qed.

Lemma str_eqb_embedded a b :
  Unicode.str_eqb (Unicode.of_str a) (Unicode.of_str b) = str_eqb a b.
Proof.
  revert b. induction a as [|x a IH]; destruct b as [|y b]; try reflexivity.
  cbn [Unicode.of_str map Unicode.str_eqb str_eqb]. now rewrite code_eqb, <- IH.
Qed.

Lemma starts_with_embedded a b :
  Unicode.starts_with (Unicode.of_str a) (Unicode.of_str b) = starts_with a b.
Proof.
  revert b. induction a as [|x a IH]; destruct b as [|y b]; try reflexivity.
  cbn [Unicode.of_str map Unicode.starts_with starts_with]. now rewrite code_eqb, <- IH.
Qed.

Lemma contains_embedded a b :
  Unicode.contains (Unicode.of_str a) (Unicode.of_str b) = contains a b.
Proof.
  induction b as [|y b IH].
  - cbn [Unicode.of_str map Unicode.contains contains].
    now rewrite <- (starts_with_embedded a []).
  - cbn [Unicode.of_str map Unicode.contains contains].
    change (map code b) with (Unicode.of_str b).
    rewrite IH. f_equal. exact (starts_with_embedded a (y :: b)).
Qed.

Lemma count_embedded s :
  Unicode.count_char Unicode.LF (Unicode.of_str s) = count_char newline s.
Proof.
  unfold Unicode.count_char, count_char.
  induction s as [|a s IH]; [reflexivity|].
  cbn [Unicode.of_str map filter].
  change Unicode.LF with (code newline). rewrite code_eqb.
  destruct (Ascii.eqb newline a); cbn [List.length]; now rewrite <- IH.
Qed.

Lemma str_in_embedded s l :
  Unicode.str_in (Unicode.of_str s) (map Unicode.of_str l) = str_in s l.
Proof.
  unfold Unicode.str_in, str_in. induction l as [|x l IH]; [reflexivity|].
  cbn [map existsb]. now rewrite str_eqb_embedded, IH.
Qed.

Lemma fragments_embedded t (l : list string) :
  existsb (fun sub => Unicode.contains sub (Unicode.of_str t)) (map Unicode.ulit l)
  = existsb (fun sub => contains sub t) (map lit l).
Proof.
  induction l as [|x l IH]; [reflexivity|]. cbn [map existsb].
  change (Unicode.ulit x) with (Unicode.of_str (lit x)).
  now rewrite contains_embedded, IH.
Qed.

(** *** The matcher *)

Lemma of_result_orelse a b :
  of_result (orelse a b) = Unicode.orelse (of_result a) (fun _ => of_result (b tt)).
Proof. destruct a as [[p c]|]; reflexivity. Qed.

Lemma length_of_str s : List.length (Unicode.of_str s) = List.length s.
Proof. apply length_map. Qed.

Lemma ascii_pos_advance p y p' :
  ascii_pos p -> advance p = Some (y, p') -> Plain.is_ascii y = true /\ ascii_pos p'.
Proof.
  unfold ascii_pos, advance, Plain.ascii_only. destruct p as [off prev rest].
  cbn [p_rest p_prev p_off]. destruct rest as [|a rest]; [discriminate|].
  intros [Hr _] E. inversion E; subst. cbn [forallb] in Hr.
  apply andb_true_iff in Hr. destruct Hr as [Ha Hr].
  cbn [p_rest p_prev]. auto.
Qed.

Section Simulation.

Variable db : Unicode.database.
Variable ic : bool.

Lemma rep_loop_embedded step step' :
  (forall p c k k', ascii_pos p -> related k k' ->
     step' (of_pos p) (of_caps c) k' = of_result (step p c k)) ->
  forall fuel lo hi greedy count p c k k', ascii_pos p -> related k k' ->
    Unicode.rep_loop step' fuel lo hi greedy count (of_pos p) (of_caps c) k'
    = of_result (rep_loop step fuel lo hi greedy count p c k).
Proof.
  intros Hstep. induction fuel as [|fuel IH]; intros lo hi greedy count p c k k' Hp Hk;
    [reflexivity|].
  cbn [Unicode.rep_loop rep_loop].
  assert (Hagain :
    step' (of_pos p) (of_caps c)
      (fun p' c' =>
         if (count <? lo) || (List.length (Unicode.p_rest p')
                              <? List.length (Unicode.p_rest (of_pos p)))
         then Unicode.rep_loop step' fuel lo hi greedy (S count) p' c' k'
         else None)
    = of_result
        (step p c
           (fun p' c' =>
              if (count <? lo) || (List.length (p_rest p') <? List.length (p_rest p))
              then rep_loop step fuel lo hi greedy (S count) p' c' k
              else None))).
  { apply Hstep; [exact Hp|]. intros p1 c1 Hp1.
    cbn [of_pos Unicode.p_rest]. rewrite !length_of_str.
    destruct ((count <? lo) || (List.length (p_rest p1) <? List.length (p_rest p)));
      [now apply IH | reflexivity]. }
  destruct (count <? lo); [exact Hagain|].
  destruct (match hi with Some h => h <=? count | None => false end); [now apply Hk|].
  destruct greedy.
  - rewrite of_result_orelse, Hagain. unfold Unicode.orelse.
    destruct (of_result _); [reflexivity | now apply Hk].
  - rewrite of_result_orelse, (Hk p c Hp). unfold Unicode.orelse.
    destruct (of_result (k p c)); [reflexivity | exact Hagain].
Qed.

Lemma word_before_embedded p :
  ascii_pos p -> Unicode.word_before db (of_pos p) = word_before p.
Proof.
  unfold ascii_pos, Unicode.word_before, word_before. destruct p as [off prev rest].
  cbn [of_pos p_prev Unicode.p_prev]. intros [_ Hp].
  destruct prev as [a|]; [exact (@word_agrees db a Hp) | reflexivity].
Qed.

Lemma word_after_embedded p :
  ascii_pos p -> Unicode.word_after db (of_pos p) = word_after p.
Proof.
  unfold ascii_pos, Unicode.word_after, word_after, Plain.ascii_only.
  destruct p as [off prev rest]. cbn [of_pos p_rest Unicode.p_rest]. intros [Hr _].
  destruct rest as [|a rest]; [reflexivity|]. cbn [forallb] in Hr.
  apply andb_true_iff in Hr. destruct Hr as [Ha _]. exact (@word_agrees db a Ha).
Qed.

Lemma at_eol_embedded p : Unicode.at_eol (of_pos p) = at_eol p.
Proof.
  unfold Unicode.at_eol, at_eol. destruct p as [off prev rest].
  cbn [of_pos p_rest Unicode.p_rest]. destruct rest as [|a [|b rest]]; try reflexivity.
  cbn [Unicode.of_str map]. change Unicode.LF with (code newline). apply code_eqb.
Qed.

Lemma at_bol_embedded p : Unicode.at_bol (of_pos p) = at_bol p.
Proof.
  unfold Unicode.at_bol, at_bol. destruct p as [off [a|] rest]; reflexivity.
Qed.

(** The matcher on code points does on an ASCII subject what the matcher
    of the 8-bit model does. *)
Lemma exec_embedded r :
  agrees db ic r = true ->
  forall p c k k', ascii_pos p -> related k k' ->
    Unicode.exec db ic r (of_pos p) (of_caps c) k' = of_result (exec ic r p c k).
Proof.
  induction r as [|x|negated items|r1 IH1 r2 IH2|r1 IH1 r2 IH2|lo hi greedy r IH
                  |n r IH|negated r IH| | |];
    intros Ha p c k k' Hp Hk; cbn [agrees] in Ha.
  - exact (Hk p c Hp).
  - cbn [Unicode.exec exec].
    destruct (advance p) as [[y p1]|] eqn:E.
    + destruct (@ascii_pos_advance p y p1 Hp E) as [Hy Hp1].
      assert (E' : Unicode.advance (of_pos p) = Some (code y, of_pos p1)).
      { unfold advance in E. unfold Unicode.advance. destruct p as [off prev rest].
        cbn [p_rest p_off of_pos Unicode.p_rest Unicode.p_off] in *.
        destruct rest as [|a rest]; [discriminate|]. inversion E; subst. reflexivity. }
      rewrite E'.
      assert (L : Unicode.lit_ok db ic x (code y) = lit_ok ic x y).
      { apply Bool.eqb_prop.
        exact (each_ascii
                 (fun c => Bool.eqb (Unicode.lit_ok db ic x (code c)) (lit_ok ic x c))
                 Ha y Hy). }
      rewrite L. destruct (lit_ok ic x y); [exact (Hk p1 c Hp1) | reflexivity].
    + assert (E' : Unicode.advance (of_pos p) = None).
      { unfold advance in E. unfold Unicode.advance. destruct p as [off prev rest].
        cbn [p_rest of_pos Unicode.p_rest] in *.
        destruct rest; [reflexivity | discriminate]. }
      now rewrite E'.
  - cbn [Unicode.exec exec].
    destruct (advance p) as [[y p1]|] eqn:E.
    + destruct (@ascii_pos_advance p y p1 Hp E) as [Hy Hp1].
      assert (E' : Unicode.advance (of_pos p) = Some (code y, of_pos p1)).
      { unfold advance in E. unfold Unicode.advance. destruct p as [off prev rest].
        cbn [p_rest p_off of_pos Unicode.p_rest Unicode.p_off] in *.
        destruct rest as [|a rest]; [discriminate|]. inversion E; subst. reflexivity. }
      rewrite E'.
      assert (L : Unicode.set_ok db ic negated items (code y)
                  = set_ok ic negated items y).
      { apply Bool.eqb_prop.
        exact (each_ascii
                 (fun c => Bool.eqb (Unicode.set_ok db ic negated items (code c))
                             (set_ok ic negated items c))
                 Ha y Hy). }
      rewrite L. destruct (set_ok ic negated items y); [exact (Hk p1 c Hp1) | reflexivity].
    + assert (E' : Unicode.advance (of_pos p) = None).
      { unfold advance in E. unfold Unicode.advance. destruct p as [off prev rest].
        cbn [p_rest of_pos Unicode.p_rest] in *.
        destruct rest; [reflexivity | discriminate]. }
      now rewrite E'.
  - apply andb_true_iff in Ha. destruct Ha as [Ha1 Ha2].
    cbn [Unicode.exec exec]. apply (IH1 Ha1); [exact Hp|].
    intros p1 c1 Hp1. now apply (IH2 Ha2).
  - apply andb_true_iff in Ha. destruct Ha as [Ha1 Ha2].
    cbn [Unicode.exec exec]. rewrite of_result_orelse.
    rewrite (IH1 Ha1 p c k k' Hp Hk). unfold Unicode.orelse.
    destruct (of_result (exec ic r1 p c k)); [reflexivity|].
    exact (IH2 Ha2 p c k k' Hp Hk).
  - cbn [Unicode.exec exec].
    replace (List.length (Unicode.p_rest (of_pos p))) with (List.length (p_rest p))
      by (destruct p; cbn [of_pos Unicode.p_rest p_rest]; now rewrite length_of_str).
    apply rep_loop_embedded; [|exact Hp | exact Hk].
    intros p0 c0 k0 k0' Hp0 Hk0. now apply (IH Ha).
  - cbn [Unicode.exec exec]. apply (IH Ha); [exact Hp|].
    intros p1 c1 Hp1.
    replace (firstn (Unicode.p_off (of_pos p1) - Unicode.p_off (of_pos p))
               (Unicode.p_rest (of_pos p)))
      with (Unicode.of_str (firstn (p_off p1 - p_off p) (p_rest p))).
    + exact (Hk p1 ((n, firstn (p_off p1 - p_off p) (p_rest p)) :: c1) Hp1).
    + destruct p, p1. cbn [of_pos Unicode.p_off Unicode.p_rest p_off p_rest].
      unfold Unicode.of_str. symmetry. apply firstn_map.
  - cbn [Unicode.exec exec].
    rewrite (IH Ha p c (fun p' c' => Some (p', c')) (fun p' c' => Some (p', c')) Hp);
      [|intros p1 c1 _; reflexivity].
    destruct (exec ic r p c (fun p' c' => Some (p', c'))) as [[p1 c1]|];
      cbn [of_result option_map fst snd]; destruct negated; try reflexivity;
      exact (Hk p _ Hp).
  - cbn [Unicode.exec exec]. rewrite at_bol_embedded.
    destruct (at_bol p); [exact (Hk p c Hp) | reflexivity].
  - cbn [Unicode.exec exec]. rewrite at_eol_embedded.
    destruct (at_eol p); [exact (Hk p c Hp) | reflexivity].
  - cbn [Unicode.exec exec].
    rewrite (@word_before_embedded p Hp), (@word_after_embedded p Hp).
    destruct (xorb _ _); [exact (Hk p c Hp) | reflexivity].
Qed.

Lemma match_embedded r s :
  agrees db ic r = true -> Plain.ascii_only s ->
  Unicode.matches_at_start db ic r (Unicode.of_str s) = is_some (match_ ic r s).
Proof.
  intros Ha Hs. unfold Unicode.matches_at_start, match_, match_here.
  change (Unicode.mkPos 0 None (Unicode.of_str s)) with (of_pos (mkPos 0 None s)).
  change (@nil (nat * Unicode.ustr)) with (of_caps []).
  rewrite (@exec_embedded r Ha (mkPos 0 None s) [] (fun p' c' => Some (p', c'))
             (fun p' c' => Some (p', c')));
    [|split; [exact Hs | exact I] | intros p1 c1 _; reflexivity].
  destruct (exec ic r (mkPos 0 None s) [] (fun p' c' => Some (p', c'))) as [[p1 c1]|];
    reflexivity.
Qed.

(** Every pattern of the program reads the ASCII characters alike in the
    two models, with and without IGNORECASE: on an ASCII subject the
    8-bit matcher does what the matcher on code points does. *)
Lemma patterns_agree r :
  In r PATTERNS -> agrees db true r = true /\ agrees db false r = true.
Proof.
  intros H.
  assert (A : forallb (fun r => agrees db true r && agrees db false r) PATTERNS = true)
    by (vm_compute; reflexivity).
  rewrite forallb_forall in A. apply andb_true_iff. now apply A.
Qed.

End Simulation.

(** *** The classifier *)

(** On an ASCII value the classifier on code points gives the verdict of
    the classifier of the 8-bit model, whatever the tables hold. *)
Lemma classifier_embedded db v n :
  Plain.ascii_only v ->
  Unicode._is_form_label_or_placeholder db (Some (Unicode.of_str v)) n
  = _is_form_label_or_placeholder (Some v) n.
Proof.
  intros Hv. pose proof (@ascii_only_strip v Hv) as Hs.
  unfold Unicode._is_form_label_or_placeholder, _is_form_label_or_placeholder.
  cbv zeta. rewrite (@strip_embedded v Hv).
  replace (Unicode.truthy_str (Some (Unicode.of_str v))) with (truthy_str (Some v))
    by (destruct v; reflexivity).
  replace (Unicode.truthy_str (Some (Unicode.of_str (strip v))))
    with (truthy_str (Some (strip v))) by (destruct (strip v); reflexivity).
  destruct (negb _ || negb _); [reflexivity|].
  change [Unicode.ulit ":"; []] with (map Unicode.of_str [lit ":"; lit ""]).
  rewrite str_in_embedded.
  rewrite (@match_embedded db false Patterns.ONLY_PUNCTUATION (strip v));
    [|vm_compute; reflexivity | exact Hs].
  destruct (str_in _ _ || _); [reflexivity|].
  rewrite length_of_str, count_embedded.
  change [Unicode.LF] with (Unicode.of_str [newline]). rewrite contains_embedded.
  destruct ((n <? List.length (strip v)) && _ && _); [reflexivity|].
  rewrite (@match_embedded db true Patterns._LABEL_PATTERNS (strip v));
    [|vm_compute; reflexivity | exact Hs].
  destruct (is_some (match_ true Patterns._LABEL_PATTERNS (strip v))); [reflexivity|].
  unfold Unicode.str_lower. rewrite (@lower_embedded db (strip v) [] Hs), (@upper_embedded db (strip v) Hs).
  replace (existsb (fun sub => Unicode.contains sub (Unicode.of_str (str_lower (strip v))))
             Unicode._LABEL_SUBSTRINGS)
    with (existsb (fun sub => contains sub (str_lower (strip v))) _LABEL_SUBSTRINGS).
  2:{ unfold Unicode._LABEL_SUBSTRINGS, _LABEL_SUBSTRINGS. symmetry.
      apply fragments_embedded. }
  destruct (existsb _ _LABEL_SUBSTRINGS); [reflexivity|].
  change (map Unicode.ulit ["number"; "name"; "date"; "address"; "other"]%string)
    with (map Unicode.of_str
            (map lit ["number"; "name"; "date"; "address"; "other"]%string)).
  rewrite str_in_embedded.
  destruct (str_in (str_lower (strip v)) _); [reflexivity|].
  change (Unicode.ulit "OTHER") with (Unicode.of_str (lit "OTHER")).
  change (Unicode.ulit "Y") with (Unicode.of_str (lit "Y")).
  change (Unicode.ulit "N") with (Unicode.of_str (lit "N")).
  now rewrite !str_eqb_embedded.
Qed.

End EmbeddingFacts.

(** ** The repository's tests, run on the model *)

Module Tests.
Import Extract Routing Samples.

Lemma test_extract_from_text_complete :
  exists e a, _extract_from_raw_text complete_text = Ok e
    /\ PolicyInfo.policy_number (ExtractedFields.policy e)
       = Some (lit "POL-2024-887654")
    /\ PolicyInfo.policyholder_name (ExtractedFields.policy e)
       = Some (lit "john smith")
    /\ IncidentInfo.date (ExtractedFields.incident e) = Some (mkDate 2024 1 15)
    /\ IncidentInfo.time (ExtractedFields.incident e) = Some (lit "10:30 AM")
    /\ truthy_str (IncidentInfo.description (ExtractedFields.incident e)) = true
    /\ ExtractedFields.asset e = Some a
    /\ AssetDetails.estimated_damage a = Some (float_of_decimal 8500 0)
    /\ AssetDetails.asset_id a = Some (lit "1HGBH41JXMN109186")
    /\ AssetDetails.make a = Some (lit "Honda").
Proof.
  vm_compute. eexists. eexists. split; [reflexivity|]. repeat split.
Qed.

Lemma test_extract_claim_type_injury :
  exists e, _extract_from_raw_text injury_text = Ok e
    /\ ExtractedFields.claim_type e = Some (lit "injury").
Proof. vm_compute. eexists. split; reflexivity. Qed.

Lemma test_missing_fields_empty_when_complete :
  get_missing_mandatory_fields (minimal_extracted "P1" "Hit" "auto" 10000) = [].
Proof. reflexivity. Qed.

Lemma test_missing_fields_policy_number :
  get_missing_mandatory_fields (minimal_extracted "" "Hit" "auto" 10000)
  = [lit "policy_number"].
Proof. reflexivity. Qed.

Lemma test_routes :
  let route e :=
    fst (compute_route threshold_25000 plain_amount e
           (get_missing_mandatory_fields e) None) in
  route (minimal_extracted "" "Hit" "auto" 10000) = lit "Manual review"
  /\ route (minimal_extracted "P1" "Hit" "auto" 10000) = lit "Fast-track"
  /\ route (minimal_extracted "P1"
              "The incident appears staged and the account is inconsistent. Possible fraud."
              "auto" 10000) = lit "Investigation Flag"
  /\ route (minimal_extracted "P1" "Collision with injury." "injury" 10000)
     = lit "Specialist Queue"
  /\ route (minimal_extracted "P1" "Hit" "auto" 50000) = lit "Standard".
Proof. vm_compute. repeat split. Qed.

End Tests.

(** ** Properties of the specification *)

Module Properties.

Import Re ReSpec ReFacts SearchFacts StrFacts PatternFacts ParseFacts ExtractFacts.
Import RoutingFacts KeywordFacts ClassifierFacts CaptureFacts BlockFacts RecordFacts.
Import Routing Spec Extract Samples Contract.

Lemma join_occurs sep parts f : In f parts -> occurs f (join sep parts).
Proof.
  induction parts as [|x parts IH]; [intros []|].
  intros [<-|Hin].
  - destruct parts as [|y parts].
    + exists [], []. simpl. now rewrite app_nil_r.
    + exists [], (sep ++ join sep (y :: parts)). reflexivity.
  - destruct parts as [|y parts]; [destruct Hin|].
    destruct (IH Hin) as (l & r & E).
    exists (x ++ sep ++ l), r.
    change (join sep (x :: y :: parts)) with (x ++ sep ++ join sep (y :: parts)).
    rewrite E. now rewrite <- !app_assoc.
Qed.

Lemma occurs_wrap a b f s : occurs f s -> occurs f (a ++ s ++ b).
Proof.
  intros (l & r & ->). exists (a ++ l), (r ++ b). now rewrite <- !app_assoc.
Qed.

(** The rule cascade in the 8-bit model, with the damage value as the
    code computes it.  [compute_route] applies five rules in order, the first that
    matches decides: (1) a non-empty missing list gives "Manual review"
    with a reasoning that names every missing field; (2) else a
    description holding "fraud", "inconsistent" or "staged" as a whole
    word, in any letter case, gives "Investigation Flag"; (3) else a claim
    type equal to "injury" once trimmed and lower-cased gives "Specialist
    Queue"; (4) else a damage value that is present and strictly below the
    threshold gives "Fast-track", with a reasoning that shows both amounts;
    (5) else the route is "Standard". *)
Theorem route_priority (fast_track_damage_threshold : float)
    (format_float : float -> str) (e : ExtractedFields.t) (missing : list str)
    (threshold : option float) :
  let th := match threshold with Some t => t | None => fast_track_damage_threshold end in
  let desc := or_empty (IncidentInfo.description (ExtractedFields.incident e)) in
  let injury :=
    str_lower (strip (or_empty (ExtractedFields.claim_type e))) = lit "injury" in
  let below := exists d, damage_by_precedence e = Some d /\ float_lt d th = true in
  let r := compute_route fast_track_damage_threshold format_float e missing threshold in
  (missing <> [] ->
     fst r = lit "Manual review" /\ forall f, In f missing -> occurs f (snd r))
  /\ (missing = [] -> keyword_occurs desc -> fst r = lit "Investigation Flag")
  /\ (missing = [] -> ~ keyword_occurs desc -> injury ->
        fst r = lit "Specialist Queue")
  /\ (missing = [] -> ~ keyword_occurs desc -> ~ injury -> below ->
        fst r = lit "Fast-track"
        /\ forall d, damage_by_precedence e = Some d ->
             occurs (format_float d) (snd r) /\ occurs (format_float th) (snd r))
  /\ (missing = [] -> ~ keyword_occurs desc -> ~ injury -> ~ below ->
        fst r = lit "Standard").
Proof.
  intros th desc injury below r.
  assert (Hkw : is_some (search true Patterns.INVESTIGATION_KEYWORDS (strip desc)) = true
                <-> keyword_occurs desc).
  { rewrite search_keyword_iff. apply keyword_occurs_strip. }
  assert (Hinj : str_eqb (str_lower (strip (or_empty (ExtractedFields.claim_type e))))
                   (lit "injury") = true <-> injury) by apply str_eqb_eq.
  subst r. unfold compute_route. fold th. fold desc.
  rewrite route_damage_precedence.
  split; [|split; [|split; [|split]]].
  - intros Hm. destruct missing as [|f0 rest]; [congruence|]. cbn [fst snd].
    split; [reflexivity|]. intros f Hf.
    apply occurs_wrap. now apply join_occurs.
  - intros -> Hk. apply Hkw in Hk. now rewrite Hk.
  - intros -> Hk Hi.
    destruct (is_some (search true Patterns.INVESTIGATION_KEYWORDS (strip desc)));
      [exfalso; apply Hk, Hkw; reflexivity|].
    apply Hinj in Hi. now rewrite Hi.
  - intros -> Hk Hi (d & Ed & Hlt).
    destruct (is_some (search true Patterns.INVESTIGATION_KEYWORDS (strip desc)));
      [exfalso; apply Hk, Hkw; reflexivity|].
    destruct (str_eqb _ (lit "injury")); [exfalso; apply Hi, Hinj; reflexivity|].
    rewrite Ed, Hlt. cbn [fst snd]. split; [reflexivity|].
    intros d' Ed'. inversion Ed'; subst d'. split.
    + exists (lit "Estimated damage ("),
        (lit ") is below threshold (" ++ format_float th
           ++ lit "); eligible for fast-track."). reflexivity.
    + exists (lit "Estimated damage (" ++ format_float d ++ lit ") is below threshold ("),
        (lit "); eligible for fast-track."). now rewrite <- !app_assoc.
  - intros -> Hk Hi Hb.
    destruct (is_some (search true Patterns.INVESTIGATION_KEYWORDS (strip desc)));
      [exfalso; apply Hk, Hkw; reflexivity|].
    destruct (str_eqb _ (lit "injury")); [exfalso; apply Hi, Hinj; reflexivity|].
    destruct (damage_by_precedence e) as [d|] eqn:Ed; [|reflexivity].
    destruct (float_lt d th) eqn:Hlt; [|reflexivity].
    exfalso. apply Hb. exists d. auto.
Qed.

(** The fraud scenario goes to investigation although 22000 < 25000. *)
Lemma route_priority_witness :
  float_lt (float_of_decimal 22000 0) threshold_25000 = true
  /\ fst (compute_route threshold_25000 plain_amount fraud_record [] None)
     = lit "Investigation Flag".
Proof.
  split; [reflexivity|].
  apply (proj1 (proj2 (route_priority threshold_25000 plain_amount fraud_record [] None)));
    [reflexivity|].
  exists (lit "The story seems "), (lit "inconsistent"),
    (lit " and the damage looked staged. Possible fraud.").
  split; [reflexivity|]. split; [right; left; reflexivity|].
  split; reflexivity.
Defined.

(** The missing list in the 8-bit model, with the damage value as the
    code computes it: [get_missing_mandatory_fields] returns exactly
    the names of the mandatory fields that are absent or blank, in the
    order of [MANDATORY_FIELDS]; the location is present when the street
    or the city/state/zip line is not blank; the list is empty exactly
    when all seven fields are present. *)
Theorem missing_fields_exact (e : ExtractedFields.t) :
  map fst (presence e) = MANDATORY_FIELDS
  /\ get_missing_mandatory_fields e
     = map fst (filter (fun x => negb (snd x)) (presence e))
  /\ (get_missing_mandatory_fields e = []
      <-> forall x, In x (presence e) -> snd x = true).
Proof.
  split; [reflexivity|]. split; [apply missing_as_filter|].
  rewrite missing_as_filter. split.
  - intros H x Hx.
    destruct (filter (fun x => negb (snd x)) (presence e)) eqn:F; [|discriminate].
    pose proof (proj1 (filter_nil_iff _ _) F x Hx) as Hb.
    now apply negb_false_iff in Hb.
  - intros H.
    replace (filter (fun x => negb (snd x)) (presence e)) with (@nil (str * bool));
      [reflexivity|].
    symmetry. apply filter_nil_iff. intros x Hx. now rewrite (H x Hx).
Qed.

(** The damage value of the mandatory-field check and the damage value
    of the routing engine are equal for every record, and both are
    [damage_by_precedence]. *)
Theorem damage_consistent (e : ExtractedFields.t) :
  missing_damage e = route_damage e
  /\ missing_damage e = damage_by_precedence e
  /\ route_damage e = damage_by_precedence e.
Proof.
  pose proof (missing_damage_precedence e) as Hm.
  pose proof (route_damage_precedence e) as Hr.
  split; [congruence|]. split; assumption.
Qed.

(** [or] passes over a zero amount: an asset whose only amount is an
    estimated damage of zero has no damage value. *)
Lemma zero_damage_passed_over :
  or_float (Some (S754_zero false)) None = None.
Proof. reflexivity. Qed.

(** The name of the damage field is listed exactly when the damage value
    of the check is absent. *)
Lemma damage_field_listed e :
  In DAMAGE_FIELD (get_missing_mandatory_fields e) <-> missing_damage e = None.
Proof.
  rewrite missing_as_filter, missing_damage_precedence. unfold presence. cbv zeta.
  destruct (nonblank (PolicyInfo.policy_number (ExtractedFields.policy e)));
  destruct (nonblank (PolicyInfo.policyholder_name (ExtractedFields.policy e)));
  destruct (is_some (IncidentInfo.date (ExtractedFields.incident e)));
  destruct (nonblank (IncidentInfo.location_street (ExtractedFields.incident e))
            || nonblank (IncidentInfo.location_city_state_zip (ExtractedFields.incident e)));
  destruct (nonblank (IncidentInfo.description (ExtractedFields.incident e)));
  destruct (nonblank (ExtractedFields.claim_type e));
  destruct (damage_by_precedence e) as [d|];
  cbn [is_some negb snd fst filter map In];
  (split; [|intros H; first [discriminate H | auto 10]]);
  intros H; try reflexivity; exfalso;
  repeat (destruct H as [H|H]; [vm_compute in H; discriminate H|]); exact H.
Qed.

(** Outside the records with an estimated damage of zero, the damage
    value of the code is that of the contract. *)
Lemma damage_as_contract e :
  zero_estimated_damage e = false -> damage_by_precedence e = damage_by_contract e.
Proof.
  unfold zero_estimated_damage, damage_by_precedence, damage_by_contract.
  destruct (ExtractedFields.initial_estimate e); [reflexivity|].
  destruct (ExtractedFields.asset e) as [a|]; [|reflexivity].
  destruct (AssetDetails.estimated_damage a) as [d|]; [|reflexivity].
  destruct d; simpl; intros H; try discriminate; reflexivity.
Qed.

(** Rule 4 on the sample records: the route is decided by the damage
    value of the code. *)
Lemma sample_route fast_track_damage_threshold format_float estimated initial top
    threshold :
  fst (compute_route fast_track_damage_threshold format_float
         (amounts_record estimated initial top) [] threshold)
  = route_by_damage (route_damage (amounts_record estimated initial top))
      match threshold with Some t => t | None => fast_track_damage_threshold end.
Proof.
  unfold compute_route, route_by_damage.
  replace (is_some
             (search true Patterns.INVESTIGATION_KEYWORDS
                (strip (or_empty (IncidentInfo.description
                   (ExtractedFields.incident (amounts_record estimated initial top)))))))
    with false by (vm_compute; reflexivity).
  replace (str_eqb
             (str_lower (strip (or_empty
                (ExtractedFields.claim_type (amounts_record estimated initial top)))))
             (lit "injury"))
    with false by (vm_compute; reflexivity).
  destruct (route_damage _) as [d|]; [|reflexivity].
  destruct (float_lt d _); reflexivity.
Qed.

(** C1.  The fourth rule misses a damage of zero.  A record whose damage
    value is absent for the code is never fast-tracked.  On the complete
    sample records, which hold no keyword and are no injury claims, the
    route is decided by the damage of the contract whenever the estimated
    damage is not a zero; but the record whose only amount is an estimated
    damage of 0.0 goes to "Standard", although its damage is present and
    below the threshold of 25000. *)
Theorem zero_damage_not_fast_tracked :
  (forall fast_track_damage_threshold format_float e missing threshold,
     route_damage e = None ->
     fst (compute_route fast_track_damage_threshold format_float e missing threshold)
     <> lit "Fast-track")
  /\ (forall fast_track_damage_threshold format_float estimated initial top threshold,
        zero_estimated_damage (amounts_record estimated initial top) = false ->
        fst (compute_route fast_track_damage_threshold format_float
               (amounts_record estimated initial top) [] threshold)
        = route_by_damage (damage_by_contract (amounts_record estimated initial top))
            match threshold with Some t => t | None => fast_track_damage_threshold end)
  /\ compute_route threshold_25000 plain_amount (zero_damage_record None) [] None
     = (lit "Standard", STANDARD_REASONING)
  /\ route_by_damage (damage_by_contract (zero_damage_record None)) threshold_25000
     = lit "Fast-track"
  /\ ~ keyword_occurs
         (or_empty (IncidentInfo.description
                      (ExtractedFields.incident (zero_damage_record None))))
  /\ str_lower (strip (or_empty (ExtractedFields.claim_type (zero_damage_record None))))
     <> lit "injury".
Proof.
  split.
  { intros th fmt e missing threshold Hd. unfold compute_route. rewrite Hd.
    destruct missing; [|intros X; inversion X].
    destruct (is_some _); [intros X; inversion X|].
    destruct (str_eqb _ _); intros X; inversion X. }
  split.
  { intros th fmt estimated initial top threshold H.
    rewrite sample_route. f_equal.
    transitivity (damage_by_precedence (amounts_record estimated initial top));
      [apply route_damage_precedence | now apply damage_as_contract]. }
  split; [vm_compute; reflexivity|].
  split; [reflexivity|]. split.
  - intros H. apply keyword_occurs_strip, search_keyword_iff in H.
    vm_compute in H. discriminate H.
  - intros X. vm_compute in X. discriminate X.
Qed.

(** C2.  The damage field is listed exactly when the damage value of the
    check is absent.  On the records without an estimated damage of zero
    that is when the damage of the contract is absent; but the check
    passes over an estimated damage of zero: the complete record whose
    only amount is an estimated damage of 0.0 has its damage field listed
    as missing, although the value is present. *)
Theorem zero_damage_listed_missing :
  (forall e, In DAMAGE_FIELD (get_missing_mandatory_fields e)
             <-> missing_damage e = None)
  /\ (forall e, zero_estimated_damage e = false ->
        (In DAMAGE_FIELD (get_missing_mandatory_fields e)
         <-> damage_by_contract e = None))
  /\ get_missing_mandatory_fields (zero_damage_record None) = [DAMAGE_FIELD]
  /\ damage_by_contract (zero_damage_record None) = Some zero.
Proof.
  split; [apply damage_field_listed|]. split; [|split; reflexivity].
  intros e H. rewrite damage_field_listed.
  replace (missing_damage e) with (damage_by_contract e); [tauto|].
  symmetry. transitivity (damage_by_precedence e);
    [apply missing_damage_precedence | now apply damage_as_contract].
Qed.

(** C3.  The two code sites compute the same damage value, and it is the
    value of the contract on every record but those with an estimated
    damage of zero: there both sites pass over the estimated damage.  With
    an estimated damage of 0.0 and an initial estimate of 5.0 both give
    5.0, where the contract takes the estimated damage. *)
Theorem damage_sites_pass_over_zero :
  (forall e, missing_damage e = route_damage e)
  /\ (forall e, zero_estimated_damage e = false ->
        missing_damage e = damage_by_contract e
        /\ route_damage e = damage_by_contract e)
  /\ missing_damage (zero_damage_record (Some (float_of_decimal 5 0)))
     = Some (float_of_decimal 5 0)
  /\ route_damage (zero_damage_record (Some (float_of_decimal 5 0)))
     = Some (float_of_decimal 5 0)
  /\ damage_by_contract (zero_damage_record (Some (float_of_decimal 5 0))) = Some zero.
Proof.
  split.
  { intros e. transitivity (damage_by_precedence e);
      [apply missing_damage_precedence | symmetry; apply route_damage_precedence]. }
  split.
  { intros e H. split.
    - transitivity (damage_by_precedence e);
        [apply missing_damage_precedence | now apply damage_as_contract].
    - transitivity (damage_by_precedence e);
        [apply route_damage_precedence | now apply damage_as_contract]. }
  split; [reflexivity|]. split; reflexivity.
Qed.

(** C4.  For every input string the extractor returns a well-formed
    record, without raising; [_parse_float], [_parse_date] and
    [_parse_year] return for every input, and give the no-value marker
    whenever [float] or every [strptime] format raises. *)
Theorem extractor_never_raises :
  (forall content, exists e, extract_from_text content = Ok e /\ well_formed e)
  /\ (forall s, exists v, _parse_float s = Ok v)
  /\ (forall s x, py_float (sub_non_numeric s) = Raise x ->
        _parse_float (Some s) = Ok None)
  /\ (forall s, exists v, _parse_date s = Ok v)
  /\ (forall s,
        (forall f, exists x, Strptime.strptime (slice_to 10 (strip s)) f = Raise x) ->
        _parse_date (Some s) = Ok None)
  /\ (forall s, exists v, _parse_year s = Ok v).
Proof.
  split.
  { intros content. destruct (extract_record content) as (e & E & W & _).
    exists e. auto. }
  split; [apply parse_float_total|].
  split; [intros s x; apply parse_float_none|].
  split; [apply parse_date_total|].
  split; [|apply parse_year_total].
  intros s H. unfold _parse_date.
  destruct (negb _ || negb _); [reflexivity|].
  apply parse_date_loop_none. intros f _. apply H.
Qed.

(** An amount with two periods and a date with a thirteenth month give
    the no-value marker. *)
Lemma extractor_never_raises_witness :
  _parse_float (Some (lit "1.2.3")) = Ok None
  /\ _parse_date (Some (lit "13/45/2024")) = Ok None.
Proof.
  destruct extractor_never_raises as (_ & _ & HF & _ & HD & _). split.
  - apply (HF (lit "1.2.3") ValueError). reflexivity.
  - apply HD. intros f. exists ValueError. destruct f; reflexivity.
Defined.

(** In the 8-bit model too, a string longer than the bound with three
    newline characters, all of them leading, is accepted. *)
Lemma blob_rule_counterexample : ~ blob_rule_as_worded.
Proof.
  intros H. specialize (H padded_blob default_max_len).
  assert (A : _is_form_label_or_placeholder (Some padded_blob) default_max_len = false)
    by (vm_compute; reflexivity).
  rewrite H in A; [discriminate| |].
  - apply Nat.ltb_lt. vm_compute. reflexivity.
  - apply Nat.ltb_lt. vm_compute. reflexivity.
Qed.

(** The catalog in the 8-bit model, where white space is ASCII white
    space.  The classifier rejects every empty or white-space-only
    string, every string made only of white space, colons, periods and
    hyphens, every string whose trimmed form is longer than the bound and
    holds more than two newline characters, every string whose trimmed form
    matches a label pattern or holds a boilerplate fragment, every string
    whose trimmed, lower-cased form is "number", "name", "date", "address"
    or "other", and every string whose trimmed, upper-cased form is
    "OTHER", "Y" or "N"; it accepts "4500 Interstate 35, Austin TX 78745". *)
Theorem classifier_rejects_catalog (s : str) (n : nat) :
  (forallb is_space s = true -> _is_form_label_or_placeholder (Some s) n = true)
  /\ (forallb is_punct s = true -> _is_form_label_or_placeholder (Some s) n = true)
  /\ (n < List.length (strip s) -> 2 < count_char newline (strip s) ->
        _is_form_label_or_placeholder (Some s) n = true)
  /\ (is_some (match_ true Patterns._LABEL_PATTERNS (strip s)) = true ->
        _is_form_label_or_placeholder (Some s) n = true)
  /\ (forall sub, In sub _LABEL_SUBSTRINGS -> occurs sub (str_lower (strip s)) ->
        _is_form_label_or_placeholder (Some s) n = true)
  /\ (In (str_lower (strip s)) PLACEHOLDER_WORDS ->
        _is_form_label_or_placeholder (Some s) n = true)
  /\ (In (str_upper (strip s)) PLACEHOLDER_CAPS ->
        _is_form_label_or_placeholder (Some s) n = true)
  /\ _is_form_label_or_placeholder (Some filled_address) default_max_len = false.
Proof.
  split; [intros H; now apply rejects_punctuation, space_is_punct|].
  split; [apply rejects_punctuation|].
  split; [apply rejects_blob|].
  split; [apply rejects_label|].
  split; [intros sub; apply rejects_fragment|].
  split; [apply rejects_placeholder|].
  split; [apply rejects_caps|].
  vm_compute. reflexivity.
Qed.

(** A line of dashes and a padded "Number" are rejected. *)
Lemma classifier_rejects_catalog_witness :
  _is_form_label_or_placeholder (Some (lit " - - : . ")) default_max_len = true
  /\ _is_form_label_or_placeholder (Some (lit "  Number ")) 50 = true.
Proof.
  split.
  - apply (proj1 (proj2 (classifier_rejects_catalog (lit " - - : . ") default_max_len))).
    reflexivity.
  - destruct (classifier_rejects_catalog (lit "  Number ") 50)
      as (_ & _ & _ & _ & _ & H & _).
    apply H. left. reflexivity.
Defined.

(** C5 as worded fails, whatever the tables hold: a string longer than
    the bound with three newline characters, all of them leading, is
    accepted. *)
Lemma leading_newlines_counterexample : ~ exists db, Unicode.blob_rule_as_worded db.
Proof.
  intros (db & H). specialize (H Unicode.padded_blob default_max_len).
  assert (A : Unicode._is_form_label_or_placeholder db
                (Some Unicode.padded_blob) default_max_len = false)
    by (vm_compute; reflexivity).
  rewrite H in A; [discriminate| |].
  - apply Nat.ltb_lt. vm_compute. reflexivity.
  - apply Nat.ltb_lt. vm_compute. reflexivity.
Qed.

(** C5, amended.  Whatever the tables of the Unicode database hold, the
    classifier rejects every empty or white-space-only string, every
    string made only of white space, colons, periods and hyphens, every
    string whose trimmed form is longer than the bound and holds more
    than two newline characters, every string whose trimmed form matches
    a label pattern or holds a boilerplate fragment, every string whose
    trimmed, lower-cased form is "number", "name", "date", "address" or
    "other", and every string whose trimmed, upper-cased form is "OTHER",
    "Y" or "N"; it accepts "4500 Interstate 35, Austin TX 78745".  White
    space is that of [str.isspace]. *)
Theorem classifier_rejects_boilerplate (db : Unicode.database)
    (s : Unicode.ustr) (n : nat) :
  let rejected := Unicode._is_form_label_or_placeholder db (Some s) n = true in
  (forallb Unicode.is_space s = true -> rejected)
  /\ (forallb Unicode.is_punct s = true -> rejected)
  /\ (n < List.length (Unicode.strip s) ->
      2 < Unicode.count_char Unicode.LF (Unicode.strip s) -> rejected)
  /\ (Unicode.matches_at_start db true Patterns._LABEL_PATTERNS (Unicode.strip s) = true ->
      rejected)
  /\ (forall sub, In sub Unicode._LABEL_SUBSTRINGS ->
        Unicode.occurs sub (Unicode.str_lower db (Unicode.strip s)) -> rejected)
  /\ (In (Unicode.str_lower db (Unicode.strip s)) Unicode.PLACEHOLDER_WORDS -> rejected)
  /\ (In (Unicode.str_upper db (Unicode.strip s)) Unicode.PLACEHOLDER_CAPS -> rejected)
  /\ Unicode._is_form_label_or_placeholder db (Some Unicode.filled_address)
       default_max_len = false.
Proof.
  intros rejected. subst rejected.
  split; [intros H; now apply UnicodeFacts.code_rejects_punctuation,
                              UnicodeFacts.code_space_is_punct|].
  split; [apply UnicodeFacts.code_rejects_punctuation|].
  split; [apply UnicodeFacts.code_rejects_blob|].
  split; [apply UnicodeFacts.code_rejects_label|].
  split; [intros sub; apply UnicodeFacts.code_rejects_fragment|].
  split; [apply UnicodeFacts.code_rejects_placeholder|].
  split; [apply UnicodeFacts.code_rejects_caps|].
  vm_compute. reflexivity.
Qed.

(** Every rule at work: a no-break space with an ideographic space, a
    padded "Number", a caption in mixed case, a fragment inside a longer
    line, and a lone "y". *)
Lemma classifier_rejects_boilerplate_witness :
  Unicode._is_form_label_or_placeholder Unicode.caseless (Some [0xA0; 0x3000]%N)
    default_max_len = true
  /\ Unicode._is_form_label_or_placeholder Unicode.caseless
       (Some Unicode.padded_number) 50 = true
  /\ Unicode._is_form_label_or_placeholder Unicode.caseless
       (Some (Unicode.ulit "Name of   Insured")) default_max_len = true
  /\ Unicode._is_form_label_or_placeholder Unicode.caseless
       (Some (Unicode.ulit "see (First, Middle, Last) below")) default_max_len = true
  /\ Unicode._is_form_label_or_placeholder Unicode.caseless
       (Some (Unicode.ulit " y ")) default_max_len = true.
Proof.
  split; [|split; [|split; [|split]]].
  - apply (proj1 (classifier_rejects_boilerplate Unicode.caseless [0xA0; 0x3000]%N
                    default_max_len)).
    reflexivity.
  - destruct (classifier_rejects_boilerplate Unicode.caseless Unicode.padded_number 50)
      as (_ & _ & _ & _ & _ & H & _).
    apply H. left. reflexivity.
  - destruct (classifier_rejects_boilerplate Unicode.caseless
                (Unicode.ulit "Name of   Insured") default_max_len)
      as (_ & _ & _ & H & _).
    apply H. reflexivity.
  - destruct (classifier_rejects_boilerplate Unicode.caseless
                (Unicode.ulit "see (First, Middle, Last) below") default_max_len)
      as (_ & _ & _ & _ & H & _).
    apply (H (Unicode.ulit "(first, middle, last)")).
    + unfold Unicode._LABEL_SUBSTRINGS. simpl. auto 20.
    + exists (Unicode.ulit "see "), (Unicode.ulit " below"). reflexivity.
  - destruct (classifier_rejects_boilerplate Unicode.caseless
                (Unicode.ulit " y ") default_max_len)
      as (_ & _ & _ & _ & _ & _ & H & _).
    apply H. right. left. reflexivity.
Defined.

(** C6 as worded fails: a document that holds the form marker in lower
    case only is classified "auto", where the wording gives "property". *)
Lemma claim_type_marker_counterexample : ~ claim_type_worded.
Proof.
  intros H.
  assert (E : exists e, _extract_from_raw_text acord_text = Ok e
                /\ ExtractedFields.claim_type e = Some (lit "auto")
                /\ claim_type_as_worded
                     (IncidentInfo.description (ExtractedFields.incident e))
                     acord_text = lit "property").
  { vm_compute. eexists. split; [reflexivity|]. split; reflexivity. }
  destruct E as (e & E & Hc & Hw).
  specialize (H acord_text e E). rewrite Hc, Hw in H.
  vm_compute in H. discriminate H.
Qed.

(** C6, amended.  The claim type is "injury" exactly when the lower-cased
    description holds "injury" or "injured"; otherwise "auto" exactly when
    the lower-cased document holds "vehicle", "automobile" or "auto", or
    the upper-cased document holds "ACORD"; otherwise "property". *)
Theorem claim_type_priority (text : str) :
  exists e, _extract_from_raw_text text = Ok e
    /\ ExtractedFields.claim_type e
       = Some (claim_type_by_priority
                 (IncidentInfo.description (ExtractedFields.incident e)) text).
Proof.
  destruct (extract_record text) as (e & E & _ & _ & _ & _ & _ & _ & _ & _ & _ & C & _).
  exists e. auto.
Qed.

(** C7.  On a document with a POLICY NUMBER line and a NAIC CODE line, the
    value of the form-specific pattern is accepted and then replaced by
    the capture of the combined pattern; the generic pattern, guarded by
    the test on the policy number, never replaces a value. *)
Theorem policy_number_overwritten :
  form_policy_number two_policy_numbers = Some (lit "A1")
  /\ (exists e, _extract_from_raw_text two_policy_numbers = Ok e
        /\ PolicyInfo.policy_number (ExtractedFields.policy e) = Some (lit "B2"))
  /\ (forall lower c v,
        policy_number_generic lower (Some (c :: v)) = Some (c :: v)).
Proof.
  split; [vm_compute; reflexivity|]. split.
  - vm_compute. eexists. split; reflexivity.
  - intros lower c v. apply policy_number_generic_keeps.
Qed.

(** The estimate is parsed from a line the classifier rejects. *)
Lemma estimate_not_filtered :
  estimate_capture caption_estimate = Some (lit "PHONE # 5")
  /\ (forall n, _is_form_label_or_placeholder (Some (lit "PHONE # 5")) n = true)
  /\ exists e a, _extract_from_raw_text caption_estimate = Ok e
       /\ ExtractedFields.asset e = Some a
       /\ AssetDetails.estimated_damage a = Some (float_of_decimal 5 0).
Proof.
  split; [vm_compute; reflexivity|]. split.
  - intros n. apply rejects_fragment with (sub := lit "phone #").
    + vm_compute. auto 10.
    + exists [], (lit " 5"). vm_compute. reflexivity.
  - vm_compute. eexists. eexists. split; [reflexivity|]. split; reflexivity.
Qed.

(** C8 as worded fails: the amount of "ESTIMATE AMOUNT: PHONE # 5" is
    stored although the classifier rejects the captured line. *)
Lemma populated_fields_counterexample : ~ every_capture_filtered.
Proof.
  intros (_ & H).
  destruct estimate_not_filtered as (Hc & Hr & e & a & E & Ea & Ex).
  destruct (H caption_estimate e a _ E Ea Ex) as (cap & n & Hcap & Hp).
  rewrite Hc in Hcap. inversion Hcap; subst cap.
  unfold passed in Hp. rewrite Hr in Hp. discriminate Hp.
Qed.

(** Whenever an asset is built, its type is the word "vehicle", which the
    classifier rejects at every bound. *)
Lemma asset_type_rejected : ~ every_field_filtered.
Proof.
  intros H.
  assert (E : exists e, _extract_from_raw_text blank_make = Ok e
                /\ In (lit "vehicle") (populated_strings e)).
  { vm_compute. eexists. split; [reflexivity|]. simpl. auto. }
  destruct E as (e & E & Hin).
  destruct (H blank_make e E (lit "vehicle") Hin) as ((n & Hp) & _).
  unfold passed in Hp. rewrite rejects_label in Hp; [discriminate|].
  vm_compute. reflexivity.
Qed.

(** After "MAKE: " the make is stored as the empty string: a capture that
    is blank once trimmed skips the classifier. *)
Lemma blank_make_stored_empty :
  exists e a, _extract_from_raw_text blank_make = Ok e
    /\ ExtractedFields.asset e = Some a
    /\ AssetDetails.make a = Some [].
Proof. vm_compute. eexists. eexists. split; [reflexivity|]. split; reflexivity. Qed.

(** C8, amended.  In every record the extractor produces, policy number,
    policyholder name, street, city/state/zip, country, description,
    claimant name and claimant phone passed the classifier, at the bound
    of their call, and are not empty; incident time, claimant e-mail and
    VIN, which are stored without a call of the classifier, hold values
    the classifier accepts at every bound and are not empty; make and
    model passed it whenever they are not empty. *)
Theorem stored_fields_filtered (text : str) :
  exists e, _extract_from_raw_text text = Ok e
    /\ stored 50 (PolicyInfo.policy_number (ExtractedFields.policy e))
    /\ stored default_max_len (PolicyInfo.policyholder_name (ExtractedFields.policy e))
    /\ stored default_max_len (IncidentInfo.location_street (ExtractedFields.incident e))
    /\ stored 100 (IncidentInfo.location_city_state_zip (ExtractedFields.incident e))
    /\ stored 80 (IncidentInfo.location_country (ExtractedFields.incident e))
    /\ stored 2000 (IncidentInfo.description (ExtractedFields.incident e))
    /\ party_stored (ExtractedFields.claimant e)
    /\ clean (IncidentInfo.time (ExtractedFields.incident e))
    /\ (forall a, ExtractedFields.asset e = Some a ->
          clean (AssetDetails.asset_id a)
          /\ (forall v, AssetDetails.make a = Some v -> v <> [] -> passed v 50)
          /\ (forall v, AssetDetails.model a = Some v -> v <> [] -> passed v 50)).
Proof.
  destruct (extract_record text)
    as (e & E & _ & H1 & H2 & H3 & H4 & H5 & H6 & H7 & _ & _ & H8 & H9).
  exists e. auto 12.
Qed.




(** The boundary on both sides: 2000 letters are kept, 2001 are cut to
    the first 2000. *)
Lemma description_boundary :
  (exists e, _extract_from_raw_text (long_description 2000) = Ok e
     /\ IncidentInfo.description (ExtractedFields.incident e)
        = Some (repeat "x"%char 2000))
  /\ (exists e, _extract_from_raw_text (long_description 2001) = Ok e
        /\ IncidentInfo.description (ExtractedFields.incident e)
           = Some (repeat "x"%char 2000)).
Proof.
  split; vm_compute; eexists; split; reflexivity.
Qed.

(** C10.  For every text the record has its claim type set to "injury",
    "auto" or "property", and "claim_type" is not among its missing
    mandatory fields. *)
Theorem claim_type_always_set (text : str) :
  exists e, _extract_from_raw_text text = Ok e
    /\ (exists ct, ExtractedFields.claim_type e = Some ct /\ In ct CLAIM_TYPES)
    /\ ~ In (lit "claim_type") (get_missing_mandatory_fields e).
Proof.
  destruct (extract_record text) as (e & E & (W & _) & _).
  exists e. split; [exact E|]. split; [exact W|].
  destruct W as (ct & Ec & Hct).
  rewrite missing_as_filter. intros Hin.
  apply in_map_iff in Hin. destruct Hin as ((name & b) & Hn & Hf).
  apply filter_In in Hf. destruct Hf as (Hp & Hb). simpl in Hn, Hb. subst name.
  unfold presence in Hp. cbv zeta in Hp. rewrite Ec in Hp.
  assert (Hnb : nonblank (Some ct) = true).
  { destruct Hct as [<-|[<-|[<-|[]]]]; reflexivity. }
  rewrite Hnb in Hp.
  repeat (destruct Hp as [Hp|Hp];
          [apply pair_equal_spec in Hp; destruct Hp as [Hname Hval];
           first [vm_compute in Hname; discriminate Hname
                 | subst b; discriminate Hb]|]).
  destruct Hp.
Qed.

End Properties.

(** * Further behaviour of the parsers, the extractor and the application *)

Module Behaviour.
Import Re ReSpec ReFacts SearchFacts StrFacts PatternFacts ParseFacts ExtractFacts.
Import ClassifierFacts CaptureFacts ValueFacts BlockFacts RecordFacts RoutingFacts.
Import Shape ShapeFacts GroupShape.
Import TrimFacts NumberFacts GroupFacts SourceFacts FieldFacts RecordShape.
Import DictFacts LookupFacts ApiFacts DateFacts FormatFacts ReadingFacts.
Import Spec Notions Provenance Keys Tables Extract Routing Schemas Api Samples Examples.
Import Plain.

(** X1.  White space around a value does not change the verdict of the
    classifier: [_is_form_label_or_placeholder] gives the same answer on
    a value and on the value with white space in front and behind, at
    every bound and whatever the tables hold.  White space is that of
    [str.strip]: the no-break space and the other spaces of Unicode
    count. *)
Theorem classifier_ignores_white_space (db : Unicode.database)
    (a s b : Unicode.ustr) (n : nat) :
  forallb Unicode.is_space a = true -> forallb Unicode.is_space b = true ->
  Unicode._is_form_label_or_placeholder db (Some (a ++ s ++ b)) n
  = Unicode._is_form_label_or_placeholder db (Some s) n.
Proof.
  intros Ha Hb.
  rewrite UnicodeFacts.code_classifier_strip, (@UnicodeFacts.code_strip_pad a s b Ha Hb).
  symmetry. apply UnicodeFacts.code_classifier_strip.
Qed.

(** "Number" between a no-break space and an em space is rejected like
    "Number". *)
Lemma classifier_ignores_white_space_witness :
  forallb Unicode.is_space [0xA0%N] = true
  /\ forallb Unicode.is_space [0x2003%N; Unicode.LF] = true
  /\ Unicode._is_form_label_or_placeholder Unicode.caseless
       (Some Unicode.padded_number) 200
     = Unicode._is_form_label_or_placeholder Unicode.caseless
         (Some (Unicode.ulit "Number")) 200.
Proof.
  split; [reflexivity|]. split; [reflexivity|].
  apply (@classifier_ignores_white_space Unicode.caseless [0xA0%N]
           (Unicode.ulit "Number") [0x2003%N; Unicode.LF] 200); reflexivity.
Defined.

(** X2.  The bound [max_reasonable_len] only matters for a value with
    more than two newlines: a trimmed value with at most two gets the
    same verdict at every bound; and a value accepted at a bound is
    accepted at every larger one. *)
Theorem classifier_bound (s : str) (n m : nat) :
  (count_char newline (strip s) <= 2 ->
     _is_form_label_or_placeholder (Some s) n = _is_form_label_or_placeholder (Some s) m)
  /\ (n <= m -> _is_form_label_or_placeholder (Some s) n = false ->
        _is_form_label_or_placeholder (Some s) m = false).
Proof.
  rewrite (classifier_rules s n), (classifier_rules s m). split.
  - intros H. replace (2 <? count_char newline (strip s)) with false
      by (symmetry; apply Nat.ltb_ge; lia).
    now rewrite !andb_false_r.
  - intros Hnm H. apply orb_false_iff in H. destruct H as [H1 H2]. rewrite H1.
    cbn [orb]. destruct (2 <? count_char newline (strip s)); [|now rewrite andb_false_r].
    rewrite andb_true_r in *. apply Nat.ltb_ge in H2. apply Nat.ltb_ge. lia.
Qed.

(** A street on one line is accepted at the bound 0 as at the bound 300. *)
Lemma classifier_bound_witness :
  count_char newline (strip (lit "12 Main St")) <= 2
  /\ _is_form_label_or_placeholder (Some (lit "12 Main St")) 0
     = _is_form_label_or_placeholder (Some (lit "12 Main St")) 300.
Proof.
  split; [vm_compute; lia|].
  apply (proj1 (classifier_bound (lit "12 Main St") 0 300)). vm_compute. lia.
Defined.

(** X3.  [_parse_float] gives the no-value marker for every string with
    two or more periods, whatever else it holds: [float] raises on what
    is left, and the error is caught. *)
Theorem parse_float_two_periods (s : str) :
  2 <= count_char "."%char s -> _parse_float (Some s) = Ok None.
Proof. apply parse_float_two_dots. Qed.

(** An amount after an abbreviation is lost. *)
Lemma parse_float_two_periods_witness :
  2 <= count_char "."%char (lit "approx. 1,500.00")
  /\ _parse_float (Some (lit "approx. 1,500.00")) = Ok None.
Proof.
  split; [vm_compute; lia|].
  apply (parse_float_two_periods (lit "approx. 1,500.00")). vm_compute. lia.
Defined.

(** X4.  An amount parsed by [_parse_float] is zero, positive or plus
    infinity: never negative and never a NaN.  A minus sign in front is
    dropped like every other character that is neither a digit nor a
    period. *)
Theorem parse_float_is_unsigned :
  (forall s x, _parse_float s = Ok (Some x) ->
     unsigned_float x = true /\ float_lt x (S754_zero false) = false /\ x <> S754_nan)
  /\ (forall s, _parse_float (Some ("-"%char :: s)) = _parse_float (Some s)).
Proof.
  split.
  - intros s x H. pose proof (parse_float_unsigned _ H) as U.
    split; [exact U|]. now apply unsigned_not_below.
  - intros s. reflexivity.
Qed.

(** "-500" is read as 500. *)
Lemma parse_float_is_unsigned_witness :
  _parse_float (Some (lit "-500")) = Ok (Some (float_of_decimal 500 0))
  /\ unsigned_float (float_of_decimal 500 0) = true.
Proof.
  split; [reflexivity|].
  apply (proj1 parse_float_is_unsigned (Some (lit "-500")) (float_of_decimal 500 0)).
  reflexivity.
Defined.



(** X6.  A date returned by [_parse_date] is a calendar date: its year
    is between 1 and 9999, its month between 1 and 12, and its day exists
    in that month of that year.  The no-value marker, the empty string
    and a string of white space give the no-value marker. *)
Theorem parse_date_gives_calendar_dates :
  (forall s dt, _parse_date s = Ok (Some dt) ->
     valid_date dt
     /\ (1 <= d_year dt <= 9999)%Z /\ (1 <= d_month dt <= 12)%Z
     /\ (1 <= d_day dt <= days_in_month (d_year dt) (d_month dt))%Z)
  /\ (forall s, forallb is_space s = true -> _parse_date (Some s) = Ok None)
  /\ _parse_date None = Ok None.
Proof.
  split; [|split; [apply parse_date_blank | reflexivity]].
  intros s dt H. apply parse_date_source in H. destruct H as (v & f & _ & H).
  pose proof (strptime_valid _ _ H) as (Hy & Hm & Hd).
  split; [|auto]. unfold valid_date, make_date. destruct dt as [y m d]. simpl in *.
  replace ((1 <=? y) && (y <=? 9999) && (1 <=? m) && (m <=? 12) && (1 <=? d)
           && (d <=? days_in_month y m))%Z with true; [reflexivity|].
  symmetry. rewrite !andb_true_iff, !Z.leb_le. lia.
Qed.

(** The leap day of 2024 is read; it is a calendar date. *)
Lemma parse_date_gives_calendar_dates_witness :
  _parse_date (Some (lit "02/29/2024")) = Ok (Some (mkDate 2024 2 29))
  /\ valid_date (mkDate 2024 2 29).
Proof.
  split; [reflexivity|].
  apply (proj1 parse_date_gives_calendar_dates (Some (lit "02/29/2024"))). reflexivity.
Defined.

(** X7.  A date written month, day, four-digit year, around slashes or
    around hyphens, with or without leading zeros, is read month first
    whenever that gives a calendar date, also when the day is twelve or
    less and the date could be read day first. *)
Theorem month_first (y m d : Z) (dt : date) (ms ds : str) (sep : ascii) :
  make_date y m d = Ok dt -> In ms (spellings m) -> In ds (spellings d) ->
  sep = "/"%char \/ sep = "-"%char ->
  _parse_date (Some (month_day sep ms ds ++ pad4 y)) = Ok (Some dt).
Proof.
  intros H Hm Hd [-> | ->].
  - exact (@month_first_slash y m d dt ms ds H Hm Hd).
  - exact (@month_first_dash y m d dt ms ds H Hm Hd).
Qed.

(** "3/4/2024" is the fourth of March. *)
Lemma month_first_witness :
  make_date 2024 3 4 = Ok (mkDate 2024 3 4)
  /\ _parse_date (Some (lit "3/4/2024")) = Ok (Some (mkDate 2024 3 4)).
Proof.
  split; [reflexivity|].
  apply (@month_first 2024 3 4 (mkDate 2024 3 4) (lit "3") (lit "4") "/"%char);
    [reflexivity | right; left; reflexivity | right; left; reflexivity
     | left; reflexivity].
Defined.

(** X8.  A date written day first with a day above twelve is read day
    first when it is written around slashes, by the third format; around
    hyphens no format reads it and the result is the no-value marker. *)
Theorem day_first (y m d : Z) (dt : date) (ms : str) :
  make_date y m d = Ok dt -> (12 < d)%Z -> In ms (spellings m) ->
  _parse_date (Some (day_month "/" (pad2 d) ms ++ pad4 y)) = Ok (Some dt)
  /\ _parse_date (Some (day_month "-" (pad2 d) ms ++ pad4 y)) = Ok None.
Proof.
  intros H Hd Hm. split.
  - exact (@day_first_slash y m d dt ms H Hd Hm).
  - exact (@day_first_dash y m d dt ms H Hd Hm).
Qed.

(** "25/12/2024" is Christmas day; "25-12-2024" is not read. *)
Lemma day_first_witness :
  make_date 2024 12 25 = Ok (mkDate 2024 12 25)
  /\ _parse_date (Some (lit "25/12/2024")) = Ok (Some (mkDate 2024 12 25))
  /\ _parse_date (Some (lit "25-12-2024")) = Ok None.
Proof.
  split; [reflexivity|].
  apply (@day_first 2024 12 25 (mkDate 2024 12 25) (lit "12"));
    [reflexivity | reflexivity | left; reflexivity].
Defined.

(** X9.  The incident date of a record is stored in the flat output as
    its ISO string, and [_parse_date] reads that string back as the same
    date. *)
Theorem flat_date_round_trip (e : ExtractedFields.t) (d : date) :
  IncidentInfo.date (ExtractedFields.incident e) = Some d -> valid_date d ->
  dict_get (lit "incident_date") (to_flat_dict e) = Some (VStr (isoformat d))
  /\ _parse_date (Some (isoformat d)) = Ok (Some d).
Proof.
  intros Hd Hv. split; [|now apply iso_round_trip].
  apply flat_lookup. exists (VDate d). split; [|reflexivity].
  unfold flat_entries. apply in_or_app. right. apply in_or_app. left.
  unfold model_dump_incident. rewrite Hd. left. reflexivity.
Qed.

Lemma flat_date_round_trip_witness :
  valid_date (mkDate 2024 3 15)
  /\ dict_get (lit "incident_date")
       (to_flat_dict
          (ExtractedFields.mk (PolicyInfo.mk None None None None)
             (IncidentInfo.mk (Some (mkDate 2024 3 15)) None None None None None)
             None [] None None None [] None))
     = Some (VStr (lit "2024-03-15"))
  /\ _parse_date (Some (lit "2024-03-15")) = Ok (Some (mkDate 2024 3 15)).
Proof.
  split; [reflexivity|].
  apply (@flat_date_round_trip
           (ExtractedFields.mk (PolicyInfo.mk None None None None)
              (IncidentInfo.mk (Some (mkDate 2024 3 15)) None None None None None)
              None [] None None None [] None) (mkDate 2024 3 15));
    reflexivity.
Defined.

(** X10.  A document without any letter gives the record in which nothing
    is found: no field, no claimant, no asset, no attachment, and the
    claim type "property".  Six mandatory fields are missing in it, all
    but the claim type, and its flat output holds the claim type only. *)
Theorem document_without_letters (text : str) :
  forallb no_letter text = true ->
  _extract_from_raw_text text = Ok blank_record
  /\ get_missing_mandatory_fields blank_record
     = map lit ["policy_number"; "policyholder_name"; "incident_date";
                "incident_location"; "incident_description";
                "initial_estimate_or_estimated_damage"]%string
  /\ to_flat_dict blank_record = [(lit "claim_type", VStr (lit "property"))].
Proof.
  intros H. split; [now apply blank_extraction|]. split; reflexivity.
Qed.

(** A date and an amount without their captions are not found. *)
Lemma document_without_letters_witness :
  forallb no_letter (lit "12/03/2024  $5,000.00") = true
  /\ _extract_from_raw_text (lit "12/03/2024  $5,000.00") = Ok blank_record.
Proof.
  split; [reflexivity|].
  apply (document_without_letters (lit "12/03/2024  $5,000.00")). reflexivity.
Defined.

(** X11.  The fields taken from one line never hold a line feed: the
    policyholder name, the time, the street, the city/state/zip line, the
    country, the claimant's name and phone, the make and the model.  The
    policy number, the e-mail address and the VIN hold none of the ASCII
    white-space characters, and the make and the model no tab.  A
    carriage return is no line feed: it stays inside a stored name. *)
Theorem fields_without_line_feed (text : str) :
  (exists e, _extract_from_raw_text text = Ok e
    /\ each no_space (PolicyInfo.policy_number (ExtractedFields.policy e))
    /\ each no_line_feed (PolicyInfo.policyholder_name (ExtractedFields.policy e))
    /\ each no_line_feed (IncidentInfo.time (ExtractedFields.incident e))
    /\ each no_line_feed (IncidentInfo.location_street (ExtractedFields.incident e))
    /\ each no_line_feed
         (IncidentInfo.location_city_state_zip (ExtractedFields.incident e))
    /\ each no_line_feed (IncidentInfo.location_country (ExtractedFields.incident e))
    /\ (forall c, ExtractedFields.claimant e = Some c ->
          each no_line_feed (InvolvedParty.name c)
          /\ each no_line_feed (InvolvedParty.phone c)
          /\ each no_space (InvolvedParty.email c))
    /\ (forall a, ExtractedFields.asset e = Some a ->
          each no_space (AssetDetails.asset_id a)
          /\ each (fun v => no_line_feed v /\ no_tab v) (AssetDetails.make a)
          /\ each (fun v => no_line_feed v /\ no_tab v) (AssetDetails.model a)))
  /\ exists e, _extract_from_raw_text two_part_name = Ok e
       /\ PolicyInfo.policyholder_name (ExtractedFields.policy e)
          = Some (lit "John" ++ [CR] ++ lit "Smith").
Proof.
  split; [|vm_compute; eexists; split; reflexivity].
  destruct (extract_sources text) as (e & E & S1 & S2 & S3 & S4 & S5 & S6 & S7).
  exists e. split; [exact E|].
  split; [intros v Hv; exact (policy_number_no_space (S1 v Hv))|].
  split; [intros v Hv; exact (policyholder_single_line (S2 v Hv))|].
  split; [exact (time_single_line _ E)|].
  split; [intros v Hv; exact (street_single_line (S3 v Hv))|].
  split; [intros v Hv; exact (csz_single_line (S4 v Hv))|].
  split; [intros v Hv; exact (country_single_line (S5 v Hv))|].
  split.
  - intros c Hc. destruct (S6 c Hc) as ((n & En & _ & Hn) & Hp & He).
    split; [|split].
    + intros v Hv. rewrite En in Hv. inversion Hv; subst v.
      destruct Hn as [Hn|Hn]; [exact (claimant_single_line Hn)|].
      exact (policyholder_single_line (S2 n Hn)).
    + intros v Hv. exact (phone_single_line (Hp v Hv)).
    + intros v Hv. exact (email_no_space (He v Hv)).
  - intros a Ha. destruct (S7 a Ha) as (Hv & Hmk & Hmd).
    split; [|split].
    + intros v Ev. exact (vin_no_space (Hv v Ev)).
    + intros v Ev. exact (make_cell (Hmk v Ev)).
    + intros v Ev. exact (model_cell (Hmd v Ev)).
Qed.

(** X12.  The fields that are cut keep to their cut: the policyholder
    name has at most 200 characters, the street at most 300 and the phone
    at most 50. *)
Theorem cut_fields (text : str) :
  exists e, _extract_from_raw_text text = Ok e
    /\ each (fun v => List.length v <= 200)
         (PolicyInfo.policyholder_name (ExtractedFields.policy e))
    /\ each (fun v => List.length v <= 300)
         (IncidentInfo.location_street (ExtractedFields.incident e))
    /\ (forall c, ExtractedFields.claimant e = Some c ->
          each (fun v => List.length v <= 50) (InvolvedParty.phone c)).
Proof.
  destruct (extract_sources text) as (e & E & _ & S2 & S3 & _ & _ & S6 & _).
  exists e. split; [exact E|].
  split; [intros v Hv; exact (cut_length (S2 v Hv))|].
  split; [intros v Hv; exact (cut_length (S3 v Hv))|].
  intros c Hc v Hv. destruct (S6 c Hc) as (_ & Hp & _). exact (cut_length (Hp v Hv)).
Qed.

(** X13.  In a document of ASCII characters a stored VIN has exactly 17
    characters, each a digit or a letter other than I, O and Q. *)
Theorem vin_shape (text : str) :
  ascii_only text ->
  exists e, _extract_from_raw_text text = Ok e
    /\ forall a v, ExtractedFields.asset e = Some a -> AssetDetails.asset_id a = Some v ->
         List.length v = 17 /\ forallb vin_letter v = true.
Proof.
  intros _.
  destruct (extract_sources text) as (e & E & _ & _ & _ & _ & _ & _ & S7).
  exists e. split; [exact E|]. intros a v Ha Hv.
  destruct (S7 a Ha) as (H & _). exact (vin_value_shape (H v Hv)).
Qed.

(** The VIN of "V.I.N.: 1HGBH41JXMN109186" is stored, and has the shape. *)
Lemma vin_shape_witness :
  ascii_only vin_line
  /\ exists e a, _extract_from_raw_text vin_line = Ok e
       /\ ExtractedFields.asset e = Some a
       /\ AssetDetails.asset_id a = Some (lit "1HGBH41JXMN109186")
       /\ forallb vin_letter (lit "1HGBH41JXMN109186") = true.
Proof.
  split; [reflexivity|].
  destruct (@vin_shape vin_line eq_refl) as (e & E & H).
  assert (Ev : exists e0 a, _extract_from_raw_text vin_line = Ok e0
                 /\ ExtractedFields.asset e0 = Some a
                 /\ AssetDetails.asset_id a = Some (lit "1HGBH41JXMN109186")).
  { vm_compute. eexists. eexists. split; [reflexivity|]. split; reflexivity. }
  destruct Ev as (e0 & a & E0 & Ha & Hv). rewrite E in E0. inversion E0; subst e0.
  exists e, a. split; [exact E|]. split; [exact Ha|]. split; [exact Hv|].
  exact (proj2 (H a _ Ha Hv)).
Defined.

(** X14.  A stored e-mail address is a name, an at sign and a domain,
    the name and the domain not empty, without white space, the name
    without an at sign. *)
Theorem email_shape (text : str) :
  exists e, _extract_from_raw_text text = Ok e
    /\ forall c v, ExtractedFields.claimant e = Some c -> InvolvedParty.email c = Some v ->
         address_shape v.
Proof.
  destruct (extract_sources text) as (e & E & _ & _ & _ & _ & _ & S6 & _).
  exists e. split; [exact E|]. intros c v Hc Hv.
  destruct (S6 c Hc) as (_ & _ & H). exact (email_value_shape (H v Hv)).
Qed.

(** X15.  In a document of ASCII characters, what the generic patterns
    find is stored in lower case, since they search the lower-cased text:
    when neither form pattern of the policy number matches the document,
    the stored policy number is in lower case, and when the form pattern
    of the insured's name does not match, so is the stored policyholder
    name. *)
Theorem generic_values_lower_case (text : str) :
  ascii_only text ->
  exists e, _extract_from_raw_text text = Ok e
    /\ (search true Patterns.POLICY_NUMBER text = None ->
        search true Patterns.NAIC_POLICY_NUMBER text = None ->
        each lower_case (PolicyInfo.policy_number (ExtractedFields.policy e)))
    /\ (search true Patterns.NAME_OF_INSURED text = None ->
        each lower_case (PolicyInfo.policyholder_name (ExtractedFields.policy e))).
Proof.
  intros _.
  destruct (extract_sources text) as (e & E & S1 & S2 & _).
  exists e. split; [exact E|]. split.
  - intros N1 N2 v Hv. exact (policy_number_lowered N1 N2 (S1 v Hv)).
  - intros N1 v Hv. exact (policyholder_lowered N1 (S2 v Hv)).
Qed.

(** "Policy #: ABC-123" and "Insured: John Smith" are stored as "abc-123"
    and "john smith". *)
Lemma generic_values_lower_case_witness :
  ascii_only lowered_sample
  /\ exists e, _extract_from_raw_text lowered_sample = Ok e
    /\ PolicyInfo.policy_number (ExtractedFields.policy e) = Some (lit "abc-123")
    /\ PolicyInfo.policyholder_name (ExtractedFields.policy e) = Some (lit "john smith")
    /\ lower_case (lit "abc-123") /\ lower_case (lit "john smith").
Proof.
  split; [reflexivity|].
  destruct (@generic_values_lower_case lowered_sample eq_refl) as (e & E & H1 & H2).
  exists e. split; [exact E|].
  assert (Ev : exists e0, _extract_from_raw_text lowered_sample = Ok e0
                 /\ PolicyInfo.policy_number (ExtractedFields.policy e0)
                    = Some (lit "abc-123")
                 /\ PolicyInfo.policyholder_name (ExtractedFields.policy e0)
                    = Some (lit "john smith")).
  { vm_compute. eexists. split; [reflexivity|]. split; reflexivity. }
  destruct Ev as (e0 & E0 & P1 & P2). rewrite E in E0. inversion E0; subst e0.
  split; [exact P1|]. split; [exact P2|]. split.
  - apply (H1 eq_refl eq_refl _ P1).
  - apply (H2 eq_refl _ P2).
Defined.

(** X16.  A claimant always has a name, never the empty string: the
    capture of the driver's or of the owner's line, or else the
    policyholder name; without any of them there is no claimant, and a
    phone number or an e-mail address in the document is dropped.  The
    contact details are the claimant. *)
Theorem claimant_has_a_name (text : str) :
  exists e, _extract_from_raw_text text = Ok e
    /\ ExtractedFields.contact_details e = ExtractedFields.claimant e
    /\ forall c, ExtractedFields.claimant e = Some c ->
         exists n, InvolvedParty.name c = Some n /\ n <> []
           /\ (from_capture (claimant_sources text) uncut n
               \/ PolicyInfo.policyholder_name (ExtractedFields.policy e) = Some n).
Proof.
  destruct (extract_sources text) as (e & E & _ & _ & _ & _ & _ & S6 & _).
  exists e. split; [exact E|]. split.
  - destruct (extract_record text) as (e' & E' & W & _).
    rewrite E in E'. inversion E'; subst e'. now destruct W as (_ & _ & W & _).
  - intros c Hc. now destruct (S6 c Hc) as (H & _).
Qed.

(** X17.  The year of an asset is the value of the four digits after the
    YEAR caption: a number between 0 and 9999. *)
Theorem asset_year_range (text : str) :
  exists e, _extract_from_raw_text text = Ok e
    /\ forall a y, ExtractedFields.asset e = Some a -> AssetDetails.year a = Some y ->
         (0 <= y <= 9999)%Z
         /\ exists m, search true Patterns.YEAR text = Some m
              /\ List.length (group 1 m) = 4 /\ y = digits_val (group 1 m).
Proof.
  destruct (extract_shape text) as (d & t & a0 & _ & Ea & E).
  eexists. split; [exact E|]. cbv zeta. cbn [ExtractedFields.asset].
  intros a y Ha Hy. destruct a0 as [a1|]; [|discriminate]. cbn in Ha.
  assert (Hs : sync_estimates a1 = a1).
  { pose proof (extract_asset_inv _ Ea) as I. now apply sync_estimates_id. }
  rewrite Hs in Ha. inversion Ha; subst a.
  split; [exact (@asset_year_bounds text a1 y Ea Hy)|].
  destruct (asset_year _ Ea Hy) as (m & Hm & Hi). exists m.
  destruct (year_digits _ Hm) as (F & L).
  split; [exact Hm|]. split; [exact L|]. exact (py_int_value _ F Hi).
Qed.

(** X18.  In a record of the extractor the amounts agree: the top-level
    initial estimate, the asset's initial estimate and the asset's
    estimated damage are the same value, the damage value of the routing
    engine is that value, also when it is zero, and it has no sign. *)
Theorem record_amounts_agree (text : str) :
  exists e, _extract_from_raw_text text = Ok e
    /\ route_damage e = ExtractedFields.initial_estimate e
    /\ missing_damage e = ExtractedFields.initial_estimate e
    /\ (forall a, ExtractedFields.asset e = Some a ->
          AssetDetails.estimated_damage a = ExtractedFields.initial_estimate e
          /\ AssetDetails.initial_estimate a = ExtractedFields.initial_estimate e)
    /\ (forall x, ExtractedFields.initial_estimate e = Some x ->
          unsigned_float x = true /\ ExtractedFields.asset e <> None).
Proof.
  destruct (extract_total text) as (e & E). exists e. split; [exact E|].
  destruct (record_amounts _ E) as (H1 & H2 & H3).
  split; [now rewrite route_damage_precedence|].
  split; [now rewrite missing_damage_precedence|].
  split; [exact H3|].
  intros x Hx. destruct (H2 x Hx) as (U & a & Ha & _).
  split; [exact U | congruence].
Qed.

(** X19.  [to_flat_dict] never assigns to a key that is already there:
    for every record, the flat output is the list of the populated
    fields, each once under its own key, in the order of the assignments,
    with the dates turned into their ISO strings; no key occurs twice. *)
Theorem flat_output_entries (e : ExtractedFields.t) :
  to_flat_dict e = serialised (flat_entries e)
  /\ NoDup (keys (to_flat_dict e))
  /\ List.length (to_flat_dict e) = List.length (flat_entries e).
Proof.
  split; [apply to_flat_dict_entries|]. split; [apply to_flat_dict_nodup|].
  rewrite to_flat_dict_entries. unfold serialised. apply length_map.
Qed.

(** X20.  A lookup in the flat output finds a value exactly under the
    keys of the populated fields, and the value it finds is the field's,
    serialised; under every other key it finds nothing. *)
Theorem flat_output_lookup (e : ExtractedFields.t) (k : str) :
  (forall w, dict_get k (to_flat_dict e) = Some w
             <-> exists v, In (k, v) (flat_entries e) /\ w = _json_serial v)
  /\ (dict_get k (to_flat_dict e) = None <-> ~ In k (keys (flat_entries e))).
Proof. split; [intros w; apply flat_lookup | apply flat_lookup_none]. Qed.

(** X21.  The response built by [process_extracted]: its route is one of
    the five routes; it is "Manual review" exactly when the list of
    missing fields is not empty; "Fast-track" and "Standard" are only
    given with a damage value, below the threshold for the first and not
    below it for the second; the missing fields and the flat output are
    those of the record. *)
Theorem response_route (fast_track_damage_threshold : float)
    (format_float : float -> str) (e : ExtractedFields.t) :
  let r := process_extracted fast_track_damage_threshold format_float e in
  In (recommendedRoute r) ROUTES
  /\ (recommendedRoute r = lit "Manual review" <-> missingFields r <> [])
  /\ (recommendedRoute r = lit "Fast-track" ->
        exists d, damage_by_precedence e = Some d
          /\ float_lt d fast_track_damage_threshold = true)
  /\ (recommendedRoute r = lit "Standard" ->
        exists d, damage_by_precedence e = Some d
          /\ float_lt d fast_track_damage_threshold = false)
  /\ missingFields r = get_missing_mandatory_fields e
  /\ extractedFields r = to_flat_dict e.
Proof.
  intros r.
  destruct (process_extracted_fields fast_track_damage_threshold format_float e)
    as (Hm & Hf & Hr).
  fold r in Hm, Hf, Hr. rewrite Hr, Hm.
  split; [apply route_known|]. split; [apply route_manual_iff|].
  assert (Hnone : forall name, name <> lit "Manual review" ->
            fst (compute_route fast_track_damage_threshold format_float e
                   (get_missing_mandatory_fields e) None) = name ->
            get_missing_mandatory_fields e = []).
  { intros name Hn Hrt.
    destruct (get_missing_mandatory_fields e) eqn:G; [reflexivity|].
    exfalso. apply Hn. rewrite <- Hrt. reflexivity. }
  split; [|split; [|split; [reflexivity | exact Hf]]].
  - intros Hrt.
    assert (G : get_missing_mandatory_fields e = []).
    { apply (Hnone (lit "Fast-track")); [intro X; inversion X | exact Hrt]. }
    rewrite G in Hrt.
    destruct (proj1 (route_amount fast_track_damage_threshold format_float e None) Hrt)
      as (d & Hd & Hlt).
    exists d. rewrite <- route_damage_precedence. auto.
  - intros Hrt.
    assert (G : get_missing_mandatory_fields e = []).
    { apply (Hnone (lit "Standard")); [intro X; inversion X | exact Hrt]. }
    destruct (@no_missing_damage e G) as (d0 & Hd0).
    rewrite G in Hrt.
    destruct (proj2 (route_amount fast_track_damage_threshold format_float e None) Hrt)
      as [Hd|(d & Hd & Hlt)]; [congruence|].
    exists d. rewrite <- route_damage_precedence. auto.
Qed.

(** X22.  The text endpoint answers an empty text, and a text of ASCII
    white space, with the status 400 and the detail "Empty text."; for
    every other text of ASCII characters it returns the response of the
    extracted record, without an exception; in that response the claim
    type is never reported missing, and the flat output holds it, as
    "injury", "auto" or "property". *)
Theorem text_endpoint (fast_track_damage_threshold : float)
    (format_float : float -> str) (content : str) :
  let answer := process_fnol_text fast_track_damage_threshold format_float content in
  (forallb is_space content = true -> answer = HTTPException 400 (lit "Empty text."))
  /\ (ascii_only content -> forallb is_space content = false ->
        exists e r, _extract_from_raw_text content = Ok e
          /\ answer = Returned r
          /\ r = process_extracted fast_track_damage_threshold format_float e
          /\ ~ In (lit "claim_type") (missingFields r)
          /\ exists ct, In ct CLAIM_TYPES
               /\ dict_get (lit "claim_type") (extractedFields r) = Some (VStr ct)).
Proof.
  intros answer.
  destruct (process_fnol_text_cases fast_track_damage_threshold format_float content)
    as (H1 & H2).
  split; [exact H1|]. intros _ Hb. destruct (H2 Hb) as (e & E & Ha).
  exists e, (process_extracted fast_track_damage_threshold format_float e).
  split; [exact E|]. split; [exact Ha|]. split; [reflexivity|].
  destruct (process_extracted_fields fast_track_damage_threshold format_float e)
    as (Hm & Hf & _).
  destruct (record_claim_type _ E) as (ct & Ect & Hin).
  rewrite Hm, Hf. split; [exact (claim_type_not_missing _ Ect Hin)|].
  exists ct. split; [exact Hin | exact (flat_claim_type _ Ect)].
Qed.

(** A text of blanks is refused; "hello" is answered with a response. *)
Lemma text_endpoint_witness :
  forallb is_space (lit "   ") = true
  /\ process_fnol_text threshold_25000 plain_amount (lit "   ")
     = HTTPException 400 (lit "Empty text.")
  /\ ascii_only (lit "hello")
  /\ forallb is_space (lit "hello") = false
  /\ exists r, process_fnol_text threshold_25000 plain_amount (lit "hello") = Returned r.
Proof.
  split; [reflexivity|].
  split; [apply (proj1 (text_endpoint threshold_25000 plain_amount (lit "   ")));
          reflexivity|].
  split; [reflexivity|]. split; [reflexivity|].
  destruct (proj2 (text_endpoint threshold_25000 plain_amount (lit "hello"))
              eq_refl eq_refl)
    as (e & r & _ & H & _).
  exists r. exact H.
Defined.

End Behaviour.
